(** * flinux: memory manager (src/syscall/mm.c) and translator (src/dbt/x86.c)

    A shallow embedding of the two C files and the properties of the
    specification that are stated about them.

    Conventions.
    - [uint32_t], [size_t] and pointer values are [Z] in [0, 2^32); every
      C operation that can leave that range is followed by [wrap32].
      [uint16_t] and [uint8_t] use [wrap16] and [wrap8].  A negative errno
      returned through a pointer is therefore [wrap32 (- e)].
    - A pointer to [struct map_entry] is an index into [map_entries], [None] is NULL.
    - C loops that the code does not bound (walks over the [next] pointers,
      loops over a [uint16_t] counter) take a fuel; running out is the
      outcome [Timeout].  Dereferencing a NULL entry is the outcome [Fault].
    - The host (NT kernel, VFS) is a scripted oracle: every host call is
      appended to [calls], and takes its result from [answers]. *)

From Stdlib Require Import ZArith List Bool Lia.
Import ListNotations.
Open Scope Z_scope.

(** ** Machine integers *)

Definition wrap32 (x : Z) : Z := x mod 2 ^ 32.
Definition wrap16 (x : Z) : Z := x mod 2 ^ 16.
Definition wrap8 (x : Z) : Z := x mod 2 ^ 8.

(** [x & m] used as a C truth value. *)
Definition has_flag (x m : Z) : bool := negb (Z.land x m =? 0).

(** ** Outcomes of a call *)

Inductive outcome (A : Type) : Type :=
| Done (a : A)
| Fault
| Timeout.
Arguments Done {A} a.
Arguments Fault {A}.
Arguments Timeout {A}.

Definition obind {A B : Type} (m : outcome A) (k : A -> outcome B) : outcome B :=
  match m with
  | Done a => k a
  | Fault => Fault
  | Timeout => Timeout
  end.

Notation "x <- m ;; k" := (obind m (fun x => k))
  (at level 61, m at next level, right associativity).
Notation "' p <- m ;; k" := (obind m (fun x => let p := x in k))
  (at level 61, p pattern, m at next level, right associativity).

Module MM.

(** ** Constants of mm.c *)

Definition MAX_MMAP_COUNT : Z := 65535.
Definition ADDRESS_SPACE_LOW : Z := 0x00000000.
Definition ADDRESS_SPACE_HIGH : Z := 0x80000000.
Definition ADDRESS_ALLOCATION_LOW : Z := 0x04000000.
Definition ADDRESS_ALLOCATION_HIGH : Z := 0x70000000.
Definition BLOCK_COUNT : Z := 0x00010000.
Definition PAGE_COUNT : Z := 0x00100000.
Definition PAGES_PER_BLOCK : Z := 16.

(** Modelled from the spec: syscall/mm.h and common/errno.h are not among the
    sources.  The spec fixes the page at 4 KiB and the block at 64 KiB; the
    errno, PROT_ and MAP_ values are those of the Linux i386 ABI, which the
    code implements. *)
Definition PAGE_SIZE : Z := 4096.
Definition BLOCK_SIZE : Z := 65536.
Definition EBADF : Z := 9.
Definition ENOMEM : Z := 12.
Definition EINVAL : Z := 22.
Definition PROT_READ : Z := 1.
Definition PROT_WRITE : Z := 2.
Definition PROT_EXEC : Z := 4.
Definition MAP_SHARED : Z := 0x01.
Definition MAP_PRIVATE : Z := 0x02.
Definition MAP_FIXED : Z := 0x10.
Definition MAP_ANONYMOUS : Z := 0x20.

(** Page protection constants of the host (Windows.h). *)
Definition PAGE_NOACCESS : Z := 0x01.
Definition PAGE_READONLY : Z := 0x02.
Definition PAGE_READWRITE : Z := 0x04.
Definition PAGE_EXECUTE : Z := 0x10.
Definition PAGE_EXECUTE_READ : Z := 0x20.
Definition PAGE_EXECUTE_READWRITE : Z := 0x40.
Definition STATUS_SUCCESS : Z := 0.

(** A negative errno returned as a pointer, and as an [int]. *)
Definition ERRP (e : Z) : Z := wrap32 (- e).
Definition ERRI (e : Z) : Z := - e.

(** ** Helper macros *)

Definition IS_ALIGNED (addr alignment : Z) : bool := addr mod alignment =? 0.
Definition ALIGN_TO_PAGE (addr : Z) : Z :=
  Z.land (wrap32 (addr + PAGE_SIZE - 1)) 0xFFFFF000.
Definition GET_BLOCK (addr : Z) : Z := addr / BLOCK_SIZE.
Definition GET_PAGE (addr : Z) : Z := addr / PAGE_SIZE.
Definition GET_PAGE_IN_BLOCK (page : Z) : Z := page mod PAGES_PER_BLOCK.
Definition GET_BLOCK_OF_PAGE (page : Z) : Z := page / PAGES_PER_BLOCK.
Definition GET_FIRST_PAGE_OF_BLOCK (block : Z) : Z := block * PAGES_PER_BLOCK.
Definition GET_BLOCK_ADDRESS (block : Z) : Z := wrap32 (block * BLOCK_SIZE).
Definition GET_PAGE_ADDRESS (page : Z) : Z := wrap32 (page * PAGE_SIZE).

(** ** Data *)

Record map_entry : Type := mk_map_entry {
  start_page : Z;
  end_page : Z;
  f : Z;                 (* pointer to struct file, 0 is NULL *)
  offset_pages : Z;
  next : option Z
}.

Record mm_data : Type := mk_mm_data {
  brk : Z;
  map_list : option Z;
  map_free_list : option Z;
  map_entries : Z -> map_entry;
  block_section_handle : Z -> Z;   (* HANDLE, 0 is NULL *)
  block_page_count : Z -> Z;
  page_prot : Z -> Z
}.

(** ** The host *)

Inductive host_call : Type :=
| NtCreateSection (status handle : Z)
| NtMapViewOfSection (handle base status : Z)
| NtUnmapViewOfSection (base status : Z)
| NtClose (handle : Z)
| NtQueryObject (handle status count : Z)
| VirtualProtect (addr size protect : Z) (ok : bool)
| CopyMemory (dst src size : Z)
| file_ref_incr (file : Z)
| file_pread (file buf size off : Z)
| vfs_release (file : Z).

(** What the host answers to one call: the status (0 is success; for
    [VirtualProtect], success of the BOOL), the [HandleCount] that
    [NtQueryObject] reports, and the address the host picks for a view
    that is mapped without a fixed base. *)
Record host_answer : Type := mk_answer {
  status : Z;
  handle_count : Z;
  view_base : Z
}.

Definition answer_ok : host_answer := mk_answer STATUS_SUCCESS 1 0.

Record host : Type := mk_host {
  answers : list host_answer;
  next_handle : positive;
  calls : list host_call
}.

Record state : Type := mk_state {
  mm : mm_data;
  os : host
}.

(** *** Field updates *)

Definition upd {A : Type} (t : Z -> A) (i : Z) (v : A) : Z -> A :=
  fun j => if j =? i then v else t j.

Definition set_brk (v : Z) (st : state) : state :=
  let m := mm st in
  mk_state (mk_mm_data v (map_list m) (map_free_list m) (map_entries m)
              (block_section_handle m) (block_page_count m) (page_prot m))
           (os st).

Definition set_map_list (p : option Z) (st : state) : state :=
  let m := mm st in
  mk_state (mk_mm_data (brk m) p (map_free_list m) (map_entries m)
              (block_section_handle m) (block_page_count m) (page_prot m))
           (os st).

Definition set_map_free_list (p : option Z) (st : state) : state :=
  let m := mm st in
  mk_state (mk_mm_data (brk m) (map_list m) p (map_entries m)
              (block_section_handle m) (block_page_count m) (page_prot m))
           (os st).

Definition set_entry (i : Z) (e : map_entry) (st : state) : state :=
  let m := mm st in
  mk_state (mk_mm_data (brk m) (map_list m) (map_free_list m)
              (upd (map_entries m) i e)
              (block_section_handle m) (block_page_count m) (page_prot m))
           (os st).

Definition set_handle (b h : Z) (st : state) : state :=
  let m := mm st in
  mk_state (mk_mm_data (brk m) (map_list m) (map_free_list m) (map_entries m)
              (upd (block_section_handle m) b h) (block_page_count m)
              (page_prot m))
           (os st).

Definition set_count (b c : Z) (st : state) : state :=
  let m := mm st in
  mk_state (mk_mm_data (brk m) (map_list m) (map_free_list m) (map_entries m)
              (block_section_handle m) (upd (block_page_count m) b c)
              (page_prot m))
           (os st).

Definition set_prot (p v : Z) (st : state) : state :=
  let m := mm st in
  mk_state (mk_mm_data (brk m) (map_list m) (map_free_list m) (map_entries m)
              (block_section_handle m) (block_page_count m)
              (upd (page_prot m) p v))
           (os st).

Definition set_os (h : host) (st : state) : state := mk_state (mm st) h.

Definition entry (st : state) (i : Z) : map_entry := map_entries (mm st) i.
Definition handle_of (st : state) (b : Z) : Z := block_section_handle (mm st) b.
Definition count_of (st : state) (b : Z) : Z := block_page_count (mm st) b.
Definition prot_of (st : state) (p : Z) : Z := page_prot (mm st) p.

Definition with_start (v : Z) (e : map_entry) : map_entry :=
  mk_map_entry v (end_page e) (f e) (offset_pages e) (next e).
Definition with_end (v : Z) (e : map_entry) : map_entry :=
  mk_map_entry (start_page e) v (f e) (offset_pages e) (next e).
Definition with_f (v : Z) (e : map_entry) : map_entry :=
  mk_map_entry (start_page e) (end_page e) v (offset_pages e) (next e).
Definition with_offset (v : Z) (e : map_entry) : map_entry :=
  mk_map_entry (start_page e) (end_page e) (f e) v (next e).
Definition with_next (v : option Z) (e : map_entry) : map_entry :=
  mk_map_entry (start_page e) (end_page e) (f e) (offset_pages e) v.

(** *** Host calls *)

Definition take_answer (h : host) : host_answer * host :=
  match answers h with
  | [] => (answer_ok, h)
  | a :: rest => (a, mk_host rest (next_handle h) (calls h))
  end.

Definition log_call (c : host_call) (h : host) : host :=
  mk_host (answers h) (next_handle h) (calls h ++ [c]).

(** A call whose result the code does not use. *)
Definition host_do (c : host_call) (st : state) : state :=
  set_os (log_call c (os st)) st.

(** A call that reports a status. *)
Definition host_status (c : Z -> host_call) (st : state) : Z * state :=
  let '(a, h) := take_answer (os st) in
  (status a, set_os (log_call (c (status a)) h) st).

(** [NtCreateSection]: on success the host hands out a fresh, non-NULL
    handle. *)
Definition nt_create_section (st : state) : Z * Z * state :=
  let '(a, h) := take_answer (os st) in
  if status a =? STATUS_SUCCESS then
    let hd := Z.pos (next_handle h) in
    (status a, hd,
     set_os (log_call (NtCreateSection (status a) hd)
               (mk_host (answers h) (Pos.succ (next_handle h)) (calls h))) st)
  else
    (status a, 0, set_os (log_call (NtCreateSection (status a) 0) h) st).

Definition nt_map_view (hd base : Z) (st : state) : Z * state :=
  host_status (NtMapViewOfSection hd base) st.

Definition nt_unmap_view (base : Z) (st : state) : Z * state :=
  host_status (NtUnmapViewOfSection base) st.

Definition nt_close (hd : Z) (st : state) : state := host_do (NtClose hd) st.

Definition virtual_protect (addr size protect : Z) (st : state) : bool * state :=
  let '(a, h) := take_answer (os st) in
  let ok := status a =? 0 in
  (ok, set_os (log_call (VirtualProtect addr size protect ok) h) st).

(** ** mm_init

    [VirtualAlloc] with MEM_COMMIT hands out zero-filled memory, and
    [mm_init] writes only the [next] links and the two list heads: every
    other field of [mm_data] starts as 0. *)
Definition mm_init_data : mm_data :=
  mk_mm_data 0 None (Some 0)
    (fun i => mk_map_entry 0 0 0 0
                (if i + 1 <? MAX_MMAP_COUNT then Some (i + 1) else None))
    (fun _ => 0) (fun _ => 0) (fun _ => 0).

Definition mm_init (script : list host_answer) : state :=
  mk_state mm_init_data (mk_host script 1%positive []).

(** ** The free list of entries *)

Definition new_map_entry (st : state) : option Z * state :=
  match map_free_list (mm st) with
  | Some i => (Some i, set_map_free_list (next (entry st i)) st)
  | None => (None, st)
  end.

Definition free_map_entry (i : Z) (st : state) : state :=
  set_map_free_list (Some i)
    (set_entry i (with_next (map_free_list (mm st)) (entry st i)) st).

(** ** mm_update_brk *)

Definition mm_update_brk (b : Z) (st : state) : state :=
  set_brk (Z.max (brk (mm st)) b) st.

(** ** find_free_pages *)

Fixpoint find_free_scan (fuel : nat) (m : mm_data) (count low high : Z)
    (e : option Z) (last : Z) : outcome Z :=
  match fuel with
  | O => Timeout
  | S k =>
    match e with
    | None =>
      Done (if wrap32 (GET_PAGE high - last) >=? count then last else 0)
    | Some i =>
      let en := map_entries m i in
      if start_page en >=? GET_PAGE low then
        if wrap32 (start_page en - last) >=? count then Done last
        else find_free_scan k m count low high (next en)
               (wrap32 (end_page en + 1))
      else find_free_scan k m count low high (next en) last
    end
  end.

Definition find_free_pages (fuel : nat) (m : mm_data) (count low high : Z)
    : outcome Z :=
  find_free_scan fuel m count low high (map_list m) (GET_PAGE low).

Definition mm_find_free_pages (fuel : nat) (m : mm_data) (count_bytes : Z)
    : outcome Z :=
  find_free_pages fuel m (GET_PAGE (ALIGN_TO_PAGE count_bytes))
    ADDRESS_ALLOCATION_LOW ADDRESS_ALLOCATION_HIGH.

(** ** prot_linux2win *)

Definition prot_linux2win (prot : Z) : Z :=
  if has_flag prot PROT_EXEC && has_flag prot PROT_WRITE then
    PAGE_EXECUTE_READWRITE
  else if has_flag prot PROT_EXEC && has_flag prot PROT_READ then
    PAGE_EXECUTE_READ
  else if has_flag prot PROT_EXEC then PAGE_EXECUTE
  else if has_flag prot PROT_WRITE then PAGE_READWRITE
  else if has_flag prot PROT_READ then PAGE_READONLY
  else PAGE_NOACCESS.

(** ** mm_munmap *)

(** One assignment to a field of the entry an entry pointer designates.  Two
    entry pointers may designate the same cell, so every read goes back to
    the state. *)
Definition assign_start (i v : Z) (st : state) : state :=
  set_entry i (with_start v (entry st i)) st.
Definition assign_end (i v : Z) (st : state) : state :=
  set_entry i (with_end v (entry st i)) st.
Definition assign_f (i v : Z) (st : state) : state :=
  set_entry i (with_f v (entry st i)) st.
Definition assign_offset (i v : Z) (st : state) : state :=
  set_entry i (with_offset v (entry st i)) st.
Definition assign_next (i : Z) (v : option Z) (st : state) : state :=
  set_entry i (with_next v (entry st i)) st.

(** [for (i = start_page; i <= end_page; i++) block_page_count[..]--],
    [n] pages from [i] on. *)
Fixpoint dec_page_counts (n : nat) (i : Z) (st : state) : state :=
  match n with
  | O => st
  | S k =>
    let b := GET_BLOCK_OF_PAGE i in
    dec_page_counts k (i + 1) (set_count b (wrap8 (count_of st b - 1)) st)
  end.

(** Unmap and close the section of block [i], and clear its handle. *)
Definition release_block (i : Z) (st : state) : state :=
  let '(_, st1) := nt_unmap_view (GET_BLOCK_ADDRESS i) st in
  set_handle i 0 (nt_close (handle_of st1 i) st1).

(** [for (uint16_t i = start_block; i <= end_block; i++)] of mm_munmap. *)
Fixpoint free_unused_blocks (fuel : nat) (end_block i : Z) (st : state)
    : outcome state :=
  match fuel with
  | O => Timeout
  | S k =>
    if i <=? end_block then
      free_unused_blocks k end_block (wrap16 (i + 1))
        (if count_of st i =? 0 then release_block i st else st)
    else Done st
  end.

(** The four ways an entry [i] in conflict with the pages [sp..ep] is
    modified; the result is the new [pred], the new [e] and the state. *)
Definition modify_entry (i : Z) (pred : option Z) (sp ep : Z) (st : state)
    : outcome (option Z * option Z * state) :=
  if (sp >? start_page (entry st i)) && (ep <? end_page (entry st i)) then
    match new_map_entry st with
    | (None, _) => Fault
    | (Some ne, st) =>
      let st := assign_start ne (wrap32 (ep + 1)) st in
      let st := assign_end ne (end_page (entry st i)) st in
      let st := assign_f ne (f (entry st i)) st in
      let st :=
        if negb (f (entry st ne) =? 0) then
          assign_offset ne
            (wrap32 (offset_pages (entry st i)
                     + (start_page (entry st ne) - start_page (entry st i))))
            st
        else st in
      let st := assign_end i (wrap32 (sp - 1)) st in
      let st := assign_next ne (next (entry st i)) st in
      let st := assign_next i (Some ne) st in
      Done (Some i, next (entry st i), st)
    end
  else if sp >? start_page (entry st i) then
    let st := assign_end i (wrap32 (sp - 1)) st in
    Done (Some i, next (entry st i), st)
  else if ep <? end_page (entry st i) then
    let st :=
      if negb (f (entry st i) =? 0) then
        assign_offset i
          (wrap32 (offset_pages (entry st i)
                   + (wrap32 (ep + 1) - start_page (entry st i)))) st
      else st in
    let st := assign_start i (wrap32 (ep + 1)) st in
    Done (Some i, next (entry st i), st)
  else
    let st :=
      if negb (f (entry st i) =? 0) then host_do (vfs_release (f (entry st i))) st
      else st in
    let st :=
      match pred with
      | None => set_map_list (next (entry st i)) st
      | Some p => assign_next p (next (entry st i)) st
      end in
    let e' := next (entry st i) in
    Done (pred, e', free_map_entry i st).

(** The walk over the map list, for the pages [us..ue]. *)
Fixpoint munmap_walk (fuel : nat) (us ue : Z) (pred e : option Z) (st : state)
    : outcome state :=
  match fuel with
  | O => Timeout
  | S k =>
    match e with
    | None => Done st
    | Some i =>
      if start_page (entry st i) >? ue then Done st
      else if end_page (entry st i) >=? us then
        let sp := Z.max us (start_page (entry st i)) in
        let ep := Z.min ue (end_page (entry st i)) in
        '(pred', e', st1) <- modify_entry i pred sp ep st ;;
        let st2 := dec_page_counts (Z.to_nat (ep + 1 - sp)) sp st1 in
        st3 <- free_unused_blocks k (wrap16 (GET_BLOCK_OF_PAGE ep))
                 (wrap16 (GET_BLOCK_OF_PAGE sp)) st2 ;;
        munmap_walk k us ue pred' e' st3
      else munmap_walk k us ue (Some i) (next (entry st i)) st
    end
  end.

(** The range test shared by mm_mmap, mm_munmap and sys_mprotect;
    [length] is already page-rounded. *)
Definition bad_range (addr length : Z) : bool :=
  (addr <? ADDRESS_SPACE_LOW) || (addr >=? ADDRESS_SPACE_HIGH)
  || (wrap32 (addr + length) <? ADDRESS_SPACE_LOW)
  || (wrap32 (addr + length) >=? ADDRESS_SPACE_HIGH)
  || (wrap32 (addr + length) <? addr).

Definition mm_munmap (fuel : nat) (addr length : Z) (st : state)
    : outcome (Z * state) :=
  if negb (IS_ALIGNED addr PAGE_SIZE) then Done (ERRI EINVAL, st)
  else
    let length := ALIGN_TO_PAGE length in
    if bad_range addr length then Done (ERRI EINVAL, st)
    else
      let unmap_start_page := GET_PAGE addr in
      let unmap_end_page := GET_PAGE (wrap32 (addr + length - 1)) in
      st' <- munmap_walk fuel unmap_start_page unmap_end_page None
               (map_list (mm st)) st ;;
      Done (0, st').

(** ** mm_mmap *)

(** The roll back: blocks [j .. j+n-1]. *)
Fixpoint rollback_sections (n : nat) (j : Z) (st : state) : state :=
  match n with
  | O => st
  | S k =>
    rollback_sections k (j + 1)
      (if count_of st j =? 0 then release_block j st else st)
  end.

(** "Allocate and map missing section objects": the loop over the blocks
    from [i] on; [false] when the host refused and the roll back ran. *)
Fixpoint alloc_sections (fuel : nat) (start_block end_block i : Z) (st : state)
    : outcome (bool * state) :=
  match fuel with
  | O => Timeout
  | S k =>
    if i <=? end_block then
      if count_of st i =? 0 then
        let '(status, handle, st1) := nt_create_section st in
        if negb (status =? STATUS_SUCCESS) then
          Done (false, rollback_sections (Z.to_nat (i - start_block)) start_block st1)
        else
          let '(status, st2) := nt_map_view handle (GET_BLOCK_ADDRESS i) st1 in
          if negb (status =? STATUS_SUCCESS) then
            Done (false,
                  rollback_sections (Z.to_nat (i - start_block)) start_block
                    (nt_close handle st2))
          else
            alloc_sections k start_block end_block (wrap16 (i + 1))
              (set_handle i handle st2)
      else alloc_sections k start_block end_block (wrap16 (i + 1)) st
    else Done (true, st)
  end.

(** The [for] of the [else] branch of the insertion. *)
Fixpoint insert_after (fuel : nat) (entry_ : Z) (end_page_ : Z) (e : option Z)
    (st : state) : outcome state :=
  match fuel with
  | O => Timeout
  | S k =>
    match e with
    | None => Done st
    | Some i =>
      let here :=
        match next (entry st i) with
        | None => true
        | Some j => start_page (entry st j) >? end_page_
        end in
      if here then
        let st := assign_next entry_ (next (entry st i)) st in
        Done (assign_next i (Some entry_) st)
      else insert_after k entry_ end_page_ (next (entry st i)) st
    end
  end.

Definition insert_entry (fuel : nat) (entry_ : Z) (end_page_ : Z) (st : state)
    : outcome state :=
  match map_list (mm st) with
  | None => Done (set_map_list (Some entry_) st)
  | Some h =>
    if start_page (entry st h) >? end_page_ then
      let st := assign_next entry_ (next (entry st h)) st in
      Done (set_map_list (Some entry_) st)
    else insert_after fuel entry_ end_page_ (Some h) st
  end.

(** The last loop: [n] pages from [i] on; [false] when [VirtualProtect]
    failed. *)
Fixpoint map_pages (n : nat) (i prot : Z) (st : state) : bool * state :=
  match n with
  | O => (true, st)
  | S k =>
    let st := set_prot i (wrap8 prot) st in
    let b := GET_BLOCK_OF_PAGE i in
    let st := set_count b (wrap8 (count_of st b + 1)) st in
    let '(ok, st) :=
      virtual_protect (GET_PAGE_ADDRESS i) PAGE_SIZE (prot_linux2win prot) st in
    if ok then map_pages k (i + 1) prot st else (false, st)
  end.

Section Params.

(** Modelled from the spec: [HEAP_BASE] and [__MAP_HEAP] come from
    syscall/mm.h and [vfs_get] from the VFS, none of them among the sources;
    the spec names the heap window [HEAP_BASE, 0x04000000) and the internal
    HEAP flag without giving values, so they are parameters. *)
Variable HEAP_BASE : Z.
Variable MAP_HEAP : Z.
Variable vfs_get : Z -> Z.

(** mm_mmap from "uint32_t start_page = GET_PAGE(addr)" on. *)
Definition mm_mmap_at (fuel : nat) (addr length prot flags f offset_pages : Z)
    (st : state) : outcome (Z * state) :=
  let start_page := GET_PAGE addr in
  let end_page := GET_PAGE (wrap32 (addr + length - 1)) in
  let start_block := wrap16 (GET_BLOCK addr) in
  let end_block := wrap16 (GET_BLOCK (wrap32 (addr + length - 1))) in
  st <- (if has_flag flags MAP_FIXED then
           '(_, s) <- mm_munmap fuel addr length st ;; Done s
         else Done st) ;;
  let prot :=
    if negb (has_flag flags MAP_ANONYMOUS) then Z.lor prot PROT_WRITE
    else prot in
  '(ok, st) <- alloc_sections fuel start_block end_block start_block st ;;
  if negb ok then Done (ERRP ENOMEM, st)
  else
    match new_map_entry st with
    | (None, _) => Fault
    | (Some entry_, st) =>
      let st := assign_start entry_ start_page st in
      let st := assign_end entry_ end_page st in
      let st := assign_f entry_ f st in
      let st := assign_offset entry_ offset_pages st in
      let st :=
        if negb (f =? 0) then
          host_do (file_pread f (wrap32 (start_page * PAGE_SIZE))
                     (wrap32 ((end_page - start_page + 1) * PAGE_SIZE))
                     (offset_pages * PAGE_SIZE))
            (host_do (file_ref_incr f) st)
        else st in
      st <- insert_entry fuel entry_ end_page st ;;
      let '(ok, st) :=
        map_pages (Z.to_nat (end_page + 1 - start_page)) start_page prot st in
      if ok then Done (addr, st) else Done (ERRP ENOMEM, st)
    end.

(** "if (!(flags & MAP_FIXED))": the address the mapping is made at,
    [None] when find_free_pages found nothing; [length] is already
    page-rounded. *)
Definition choose_address (fuel : nat) (addr length flags : Z) (m : mm_data)
    : outcome (option Z) :=
  if negb (has_flag flags MAP_FIXED) then
    alloc_page <-
      (if has_flag flags MAP_HEAP then
         find_free_pages fuel m (GET_PAGE (ALIGN_TO_PAGE length))
           HEAP_BASE ADDRESS_ALLOCATION_LOW
       else
         find_free_pages fuel m (GET_PAGE (ALIGN_TO_PAGE length))
           ADDRESS_ALLOCATION_LOW ADDRESS_ALLOCATION_HIGH) ;;
    Done (if alloc_page =? 0 then None
          else Some (GET_PAGE_ADDRESS alloc_page))
  else Done (Some addr).

Definition mm_mmap (fuel : nat) (addr length prot flags f offset_pages : Z)
    (st : state) : outcome (Z * state) :=
  if length =? 0 then Done (ERRP EINVAL, st)
  else
    let length := ALIGN_TO_PAGE length in
    if bad_range addr length then Done (ERRP EINVAL, st)
    else if has_flag flags MAP_SHARED then Done (ERRP EINVAL, st)
    else if has_flag flags MAP_ANONYMOUS && negb (f =? 0) then
      Done (ERRP EINVAL, st)
    else if negb (has_flag flags MAP_ANONYMOUS) && (f =? 0) then
      Done (ERRP EBADF, st)
    else
      found <- choose_address fuel addr length flags (mm st) ;;
      match found with
      | None => Done (ERRP ENOMEM, st)
      | Some addr =>
        if has_flag flags MAP_FIXED && negb (IS_ALIGNED addr PAGE_SIZE) then
          Done (ERRP EINVAL, st)
        else mm_mmap_at fuel addr length prot flags f offset_pages st
      end.

(** ** sys_mmap *)

Definition sys_mmap (fuel : nat) (addr length prot flags fd offset : Z)
    (st : state) : outcome (Z * state) :=
  if negb (IS_ALIGNED offset PAGE_SIZE) then Done (ERRP EINVAL, st)
  else mm_mmap fuel addr length prot flags (vfs_get fd)
         (Z.quot offset PAGE_SIZE) st.

(** ** sys_brk

    [sys_mmap] returns a pointer, so [sys_mmap(...) < 0] compares a pointer
    with the null pointer: an unsigned comparison on the value in
    [0, 2^32). *)
Definition sys_brk (fuel : nat) (addr : Z) (st : state) : outcome (Z * state) :=
  let brk_ := ALIGN_TO_PAGE (brk (mm st)) in
  let addr := ALIGN_TO_PAGE addr in
  if addr >? brk (mm st) then
    '(r, st) <- sys_mmap fuel brk_ (wrap32 (addr - brk_))
                  (Z.lor (Z.lor PROT_READ PROT_WRITE) PROT_EXEC)
                  (Z.lor (Z.lor MAP_FIXED MAP_ANONYMOUS) MAP_PRIVATE)
                  (-1) 0 st ;;
    if r <? 0 then Done (ERRP ENOMEM, st)
    else
      let st := set_brk addr st in
      Done (brk (mm st), st)
  else Done (brk (mm st), st).

End Params.

(** ** sys_mprotect *)

(** "Validate all pages are mapped": the walk, which yields [last_page]. *)
Fixpoint mprotect_validate (fuel : nat) (m : mm_data) (sp ep : Z)
    (e : option Z) (last_page : Z) : outcome Z :=
  match fuel with
  | O => Timeout
  | S k =>
    match e with
    | None => Done last_page
    | Some i =>
      let en := map_entries m i in
      if start_page en >? ep then Done last_page
      else if end_page en >=? sp then
        if start_page en =? wrap32 (last_page + 1) then
          mprotect_validate k m sp ep (next en) (end_page en)
        else Done last_page
      else mprotect_validate k m sp ep (next en) last_page
    end
  end.

(** [for (k = start_block; k < end_block; k++)]: [n] blocks from [k] on;
    yields the new [j]. *)
Fixpoint protect_blocks (n : nat) (k j protection : Z) (st : state)
    : Z * state :=
  match n with
  | O => (j, st)
  | S n' =>
    let '(_, st) :=
      virtual_protect (GET_PAGE_ADDRESS j)
        (wrap32 ((PAGES_PER_BLOCK - GET_PAGE_IN_BLOCK j) * PAGE_SIZE))
        protection st in
    protect_blocks n' (k + 1) (wrap32 ((k + 1) * PAGES_PER_BLOCK)) protection st
  end.

(** [for (i = start_page; i <= end_page + 1; i++)]: [n] values of [i]. *)
Fixpoint protect_runs (n : nat) (i j ep prot : Z) (st : state) : state :=
  match n with
  | O => st
  | S n' =>
    if negb (prot_of st i =? prot_of st j) || (i =? wrap32 (ep + 1)) then
      let old_prot := prot_of st j in
      let protection :=
        if has_flag old_prot PROT_WRITE then prot_linux2win prot
        else prot_linux2win (Z.land prot (Z.lnot PROT_WRITE)) in
      let start_block := GET_BLOCK_OF_PAGE j in
      let end_block := GET_BLOCK_OF_PAGE (wrap32 (i - 1)) in
      let '(j, st) :=
        protect_blocks (Z.to_nat (end_block - start_block)) start_block j
          protection st in
      let st :=
        if i >? j then
          snd (virtual_protect (GET_PAGE_ADDRESS j)
                 (wrap32 ((i - j) * PAGE_SIZE)) protection st)
        else st in
      protect_runs n' (i + 1) j ep prot st
    else protect_runs n' (i + 1) j ep prot st
  end.

(** [for (i = start_page; i <= end_page; i++) page_prot[i] = prot]. *)
Fixpoint store_prots (n : nat) (i prot : Z) (st : state) : state :=
  match n with
  | O => st
  | S k => store_prots k (i + 1) prot (set_prot i (wrap8 prot) st)
  end.

Definition sys_mprotect (fuel : nat) (addr length prot : Z) (st : state)
    : outcome (Z * state) :=
  if negb (IS_ALIGNED addr PAGE_SIZE) then Done (ERRI EINVAL, st)
  else
    let length := ALIGN_TO_PAGE length in
    if bad_range addr length then Done (ERRI EINVAL, st)
    else
      let sp := GET_PAGE addr in
      let ep := GET_PAGE (wrap32 (wrap32 addr + length - 1)) in
      last_page <- mprotect_validate fuel (mm st) sp ep (map_list (mm st))
                     (wrap32 (sp - 1)) ;;
      if last_page <? ep then Done (ERRI ENOMEM, st)
      else
        let st := protect_runs (Z.to_nat (ep + 2 - sp)) sp sp ep prot st in
        let st := store_prots (Z.to_nat (ep + 1 - sp)) sp prot st in
        Done (0, st).

(** ** duplicate_section and mm_handle_page_fault *)

Definition duplicate_section (source source_addr : Z) (st : state)
    : Z * state :=
  let '(status_, dest, st) := nt_create_section st in
  if negb (status_ =? STATUS_SUCCESS) then (0, st)
  else
    (* the view is mapped with a NULL base: the host picks dest_addr *)
    let '(a, h) := take_answer (os st) in
    let dest_addr := if status a =? STATUS_SUCCESS then view_base a else 0 in
    let st :=
      set_os (log_call (NtMapViewOfSection dest dest_addr (status a)) h) st in
    let '(_, st) :=
      virtual_protect source_addr BLOCK_SIZE PAGE_EXECUTE_READ st in
    let st := host_do (CopyMemory dest_addr source_addr BLOCK_SIZE) st in
    let '(_, st) := nt_unmap_view dest_addr st in
    (dest, st).

(** The last loop of the fault handler: [n] pages from the [i]-th page of
    the block on. *)
Fixpoint restore_protection (n : nat) (block i : Z) (st : state)
    : bool * state :=
  match n with
  | O => (true, st)
  | S k =>
    let page := GET_FIRST_PAGE_OF_BLOCK block + i in
    let '(ok, st) :=
      virtual_protect (GET_PAGE_ADDRESS page) PAGE_SIZE
        (prot_linux2win (prot_of st page)) st in
    if ok then restore_protection k block (i + 1) st else (false, st)
  end.

(** The [else] branch "We are not the only one holding the section". *)
Definition clone_block (block : Z) (st : state) : bool * state :=
  let '(section, st) :=
    duplicate_section (handle_of st block) (GET_BLOCK_ADDRESS block) st in
  if section =? 0 then (false, st)
  else
    let '(status_, st) := nt_unmap_view (GET_BLOCK_ADDRESS block) st in
    if negb (status_ =? STATUS_SUCCESS) then (false, st)
    else
      let st := nt_close (handle_of st block) st in
      let st := set_handle block section st in
      let '(status_, st) := nt_map_view section (GET_BLOCK_ADDRESS block) st in
      if negb (status_ =? STATUS_SUCCESS) then (false, st) else (true, st).

Definition nt_query_object (hd : Z) (st : state) : Z * Z * state :=
  let '(a, h) := take_answer (os st) in
  (status a, handle_count a,
   set_os (log_call (NtQueryObject hd (status a) (handle_count a)) h) st).

Definition mm_handle_page_fault (addr : Z) (st : state) : Z * state :=
  if (addr <? ADDRESS_SPACE_LOW) || (addr >=? ADDRESS_SPACE_HIGH) then (0, st)
  else if Z.land (prot_of st (GET_PAGE addr)) PROT_WRITE =? 0 then (0, st)
  else
    let block := wrap16 (GET_BLOCK addr) in
    if handle_of st block =? 0 then (0, st)
    else
      let '(status_, count, st) := nt_query_object (handle_of st block) st in
      if negb (status_ =? STATUS_SUCCESS) then (0, st)
      else
        let '(ok, st) :=
          if count =? 1 then (true, st) else clone_block block st in
        if negb ok then (0, st)
        else
          let '(ok, st) :=
            restore_protection (Z.to_nat PAGES_PER_BLOCK) block 0 st in
          if ok then (1, st) else (0, st).

(** ** Observing the map list *)

(** The entries met by following [next] from [p], at most [n] of them. *)
Fixpoint walk (n : nat) (m : mm_data) (p : option Z) : list Z :=
  match n, p with
  | S k, Some i => i :: walk k m (next (map_entries m i))
  | _, _ => []
  end.

(** Following [next] from [p] reaches NULL after at most [n] entries. *)
Fixpoint null_within (n : nat) (m : mm_data) (p : option Z) : bool :=
  match p with
  | None => true
  | Some i =>
    match n with
    | O => false
    | S k => null_within k m (next (map_entries m i))
    end
  end.

Fixpoint strictly_increasing (l : list Z) : bool :=
  match l with
  | a :: ((b :: _) as rest) => (a <? b) && strictly_increasing rest
  | _ => true
  end.

(** The first [n] entries of the map list have strictly increasing
    [start_page]. *)
Definition sorted_prefix (n : nat) (st : state) : bool :=
  strictly_increasing
    (map (fun i => start_page (entry st i))
       (walk n (mm st) (map_list (mm st)))).

(** Page [p] belongs to entry [e]. *)
Definition in_entry (p : Z) (e : map_entry) : Prop :=
  start_page e <= p <= end_page e.

(** Entry [e] and the pages [us..ue] are in conflict, as mm_munmap tests
    it. *)
Definition overlaps (us ue : Z) (e : map_entry) : Prop :=
  start_page e <= ue /\ us <= end_page e.

(** The value a call returned, and the state it left. *)
Definition returned {A : Type} (o : outcome (A * state)) : option A :=
  match o with
  | Done (r, _) => Some r
  | _ => None
  end.

Definition state_after {A : Type} (o : outcome (A * state)) (st0 : state)
    : state :=
  match o with
  | Done (_, st) => st
  | _ => st0
  end.

(** The host calls made between [st] and [st']. *)
Definition new_calls (st st' : state) : list host_call :=
  skipn (length (calls (os st))) (calls (os st')).

(** [i; i+1; ...], [n] of them. *)
Fixpoint zrange (n : nat) (i : Z) : list Z :=
  match n with
  | O => []
  | S k => i :: zrange k (i + 1)
  end.

(** The host calls that re-apply the stored protection of the 16 pages of
    [block], all of them successful. *)
Definition restore_calls (m : mm_data) (block : Z) : list host_call :=
  map (fun i =>
         let page := GET_FIRST_PAGE_OF_BLOCK block + i in
         VirtualProtect (GET_PAGE_ADDRESS page) PAGE_SIZE
           (prot_linux2win (page_prot m page)) true)
      (zrange (Z.to_nat PAGES_PER_BLOCK) 0).

(** The host calls that replace the section [old] of [block] by the fresh
    section [new], copied through a view at [dest_addr]. *)
Definition clone_calls (block old new dest_addr s_map s_unmap : Z) (ok : bool)
    : list host_call :=
  [ NtCreateSection STATUS_SUCCESS new;
    NtMapViewOfSection new dest_addr s_map;
    VirtualProtect (GET_BLOCK_ADDRESS block) BLOCK_SIZE PAGE_EXECUTE_READ ok;
    CopyMemory dest_addr (GET_BLOCK_ADDRESS block) BLOCK_SIZE;
    NtUnmapViewOfSection dest_addr s_unmap;
    NtUnmapViewOfSection (GET_BLOCK_ADDRESS block) STATUS_SUCCESS;
    NtClose old;
    NtMapViewOfSection new (GET_BLOCK_ADDRESS block) STATUS_SUCCESS ].

(** The host reports a handle count of at least one for every query: the
    handle the query goes through is one of them. *)
Definition counts_handles (h : host) : Prop :=
  Forall (fun a => 1 <= handle_count a) (answers h).

(** A host call that releases something: the only calls of mm_munmap. *)
Definition release_like (c : host_call) : Prop :=
  match c with
  | NtUnmapViewOfSection _ _ | NtClose _ | vfs_release _ => True
  | _ => False
  end.

(** The two host calls of mm_reset. *)
Definition unmap_or_close (c : host_call) : Prop :=
  match c with
  | NtUnmapViewOfSection _ _ | NtClose _ => True
  | _ => False
  end.

(** From [st] to [st'] section handles were at most cleared, and the host
    saw only releases. *)
Definition releases (st st' : state) : Prop :=
  (forall b, handle_of st' b = 0 \/ handle_of st' b = handle_of st b)
  /\ exists evs, calls (os st') = calls (os st) ++ evs
                 /\ Forall release_like evs.

(** The host refused to create or to map a section. *)
Definition refusal (c : host_call) : Prop :=
  match c with
  | NtCreateSection s _ => s <> STATUS_SUCCESS
  | NtMapViewOfSection _ _ s => s <> STATUS_SUCCESS
  | _ => False
  end.

Definition section_refused (cs : list host_call) : Prop :=
  exists c, In c cs /\ refusal c.

(** The window mm_mmap searches when MAP_FIXED is absent. *)
Definition window (HEAP_BASE MAP_HEAP flags : Z) : Z * Z :=
  if has_flag flags MAP_HEAP then (HEAP_BASE, ADDRESS_ALLOCATION_LOW)
  else (ADDRESS_ALLOCATION_LOW, ADDRESS_ALLOCATION_HIGH).

(** ** Scenarios *)

(** Enough fuel for any walk over the 65535 entries of the arena. *)
Definition FUEL : nat := Z.to_nat 70000.

Definition RW : Z := Z.lor PROT_READ PROT_WRITE.
Definition FIXED_ANON : Z := Z.lor (Z.lor MAP_FIXED MAP_ANONYMOUS) MAP_PRIVATE.
Definition ANON : Z := Z.lor MAP_ANONYMOUS MAP_PRIVATE.

Section Scenarios.

Variable HEAP_BASE : Z.
Variable MAP_HEAP : Z.

(** mmap(0x20000000, 4 KiB, FIXED) on a host that then reports two handles
    on the section of the block (the block is shared after a fork). *)
Definition shared_block : outcome (Z * state) :=
  mm_mmap HEAP_BASE MAP_HEAP FUEL 0x20000000 0x1000 RW FIXED_ANON 0 0
    (mm_init [answer_ok; answer_ok; answer_ok;
              mk_answer STATUS_SUCCESS 2 0x30000000]).

(** mmap(0x20000000, 128 KiB, FIXED) on a host that creates both sections
    and refuses to map the second. *)
Definition refusing_host : state :=
  mm_init [answer_ok; answer_ok; answer_ok; mk_answer 1 1 0].
Definition refused_second_block : outcome (Z * state) :=
  mm_mmap HEAP_BASE MAP_HEAP FUEL 0x20000000 0x20000 RW FIXED_ANON 0 0
    refusing_host.

(** mmap(0x20000000, 4 KiB, FIXED) then mmap(0x10000000, 4 KiB, FIXED). *)
Definition high_then_low_1 : outcome (Z * state) :=
  mm_mmap HEAP_BASE MAP_HEAP FUEL 0x20000000 0x1000 RW FIXED_ANON 0 0
    (mm_init []).
Definition high_then_low_2 : outcome (Z * state) :=
  mm_mmap HEAP_BASE MAP_HEAP FUEL 0x10000000 0x1000 RW FIXED_ANON 0 0
    (state_after high_then_low_1 (mm_init [])).
(** ... then munmap(0x10000000, 4 KiB). *)
Definition high_then_low_3 : outcome (Z * state) :=
  mm_munmap FUEL 0x10000000 0x1000
    (state_after high_then_low_2 (mm_init [])).

(** mmap(0x03FFF000, 8 KiB, FIXED) then mmap(NULL, 4 KiB) without FIXED. *)
Definition straddle_1 : outcome (Z * state) :=
  mm_mmap HEAP_BASE MAP_HEAP FUEL 0x03FFF000 0x2000 RW FIXED_ANON 0 0
    (mm_init []).
Definition straddle_2 : outcome (Z * state) :=
  mm_mmap HEAP_BASE MAP_HEAP FUEL 0 0x1000 RW ANON 0 0
    (state_after straddle_1 (mm_init [])).

(** mmap(0x70000000, 4 KiB, FIXED), and then the search for 0x6C001 pages,
    one more than the main window holds. *)
Definition top_entry : outcome (Z * state) :=
  mm_mmap HEAP_BASE MAP_HEAP FUEL 0x70000000 0x1000 RW FIXED_ANON 0 0
    (mm_init []).
Definition search_too_many : outcome Z :=
  find_free_pages FUEL (mm (state_after top_entry (mm_init []))) 0x6C001
    ADDRESS_ALLOCATION_LOW ADDRESS_ALLOCATION_HIGH.

(** mmap(0x20000000, 12 KiB, FIXED) then mprotect of its middle page. *)
Definition three_pages : outcome (Z * state) :=
  mm_mmap HEAP_BASE MAP_HEAP FUEL 0x20000000 0x3000 RW FIXED_ANON 0 0
    (mm_init []).
Definition protect_middle : outcome (Z * state) :=
  sys_mprotect FUEL 0x20001000 0x1000 PROT_READ
    (state_after three_pages (mm_init [])).

(** mprotect of page 0 when nothing is mapped. *)
Definition protect_unmapped : outcome (Z * state) :=
  sys_mprotect FUEL 0 0x1000 PROT_READ (mm_init []).

(** mmap(0x10000000, 0xFFFFF001, FIXED): a length that ALIGN_TO_PAGE rounds
    to 0. *)
Definition wrapped_mmap : outcome (Z * state) :=
  mm_mmap HEAP_BASE MAP_HEAP FUEL 0x10000000 0xFFFFF001 RW FIXED_ANON 0 0
    (mm_init []).

(** mmap(0x20000000, 12 KiB, FIXED), then munmap(0x20001000, 0xFFFFF001). *)
Definition wrapped_munmap : outcome (Z * state) :=
  mm_munmap FUEL 0x20001000 0xFFFFF001
    (state_after three_pages (mm_init [])).

(** munmap of the last page below 0x80000000 when nothing is mapped. *)
Definition munmap_top_page : outcome (Z * state) :=
  mm_munmap FUEL 0x7FFFF000 0x1000 (mm_init []).

End Scenarios.

(** ** mm_reset *)

(** The body of the first loop, for block [i]. *)
Definition reset_block (i : Z) (st : state) : state :=
  if negb (handle_of st i =? 0) then
    let '(_, st1) := nt_unmap_view (GET_BLOCK_ADDRESS i) st in
    let st2 := nt_close (handle_of st1 i) st1 in
    set_count i 0 (set_handle i 0 st2)
  else st.

(** [for (i = GET_BLOCK(LOW); i < GET_BLOCK(HIGH); i++)]: [n] blocks from
    [i] on. *)
Fixpoint reset_blocks (n : nat) (i : Z) (st : state) : state :=
  match n with
  | O => st
  | S k => reset_blocks k (i + 1) (reset_block i st)
  end.

(** [for (i = e->start_page; i <= e->end_page; i++) page_prot[i] = 0]:
    [n] pages from [i] on. *)
Fixpoint clear_prots (n : nat) (i : Z) (st : state) : state :=
  match n with
  | O => st
  | S k => clear_prots k (i + 1) (set_prot i 0 st)
  end.

(** The second loop, with its two pointers [p] and [e]. *)
Fixpoint reset_walk (fuel : nat) (p e : option Z) (st : state) : outcome state :=
  match fuel with
  | O => Timeout
  | S k =>
    match e with
    | None => Done st
    | Some i =>
      if (start_page (entry st i) >=? GET_PAGE ADDRESS_ALLOCATION_LOW)
         && (end_page (entry st i) <? GET_PAGE ADDRESS_ALLOCATION_HIGH) then
        let st :=
          clear_prots
            (Z.to_nat (end_page (entry st i) + 1 - start_page (entry st i)))
            (start_page (entry st i)) st in
        let st :=
          match p with
          | Some q => assign_next q (next (entry st i)) st
          | None => set_map_list (next (entry st i)) st
          end in
        let e' := next (entry st i) in
        reset_walk k p e' (free_map_entry i st)
      else reset_walk k (Some i) (next (entry st i)) st
    end
  end.

Definition mm_reset (fuel : nat) (st : state) : outcome state :=
  let st :=
    reset_blocks
      (Z.to_nat (GET_BLOCK ADDRESS_ALLOCATION_HIGH - GET_BLOCK ADDRESS_ALLOCATION_LOW))
      (GET_BLOCK ADDRESS_ALLOCATION_LOW) st in
  reset_walk fuel None (map_list (mm st)) st.

(** ** sys_mmap2 and sys_munmap *)

Definition sys_mmap2 (HEAP_BASE MAP_HEAP : Z) (vfs_get : Z -> Z) (fuel : nat)
    (addr length prot flags fd offset : Z) (st : state) : outcome (Z * state) :=
  mm_mmap HEAP_BASE MAP_HEAP fuel addr length prot flags (vfs_get fd) offset st.

Definition sys_munmap (fuel : nat) (addr length : Z) (st : state)
    : outcome (Z * state) :=
  mm_munmap fuel addr length st.

(** ** Observing the search window *)

(** The first [n] entries from [p] on are placed for a search of the pages
    [lowp, highp) that has reached [last]: each entry either ends below the
    window, or lies in the window at or after [last], and then the entries
    behind it lie after its end. *)
Fixpoint placed (n : nat) (m : mm_data) (p : option Z) (lowp highp last : Z)
    : Prop :=
  match n, p with
  | S k, Some i =>
    let e := map_entries m i in
    0 <= start_page e <= end_page e
    /\ ((end_page e < lowp /\ placed k m (next e) lowp highp last)
        \/ (last <= start_page e /\ end_page e < highp
            /\ placed k m (next e) lowp highp (end_page e + 1)))
  | _, _ => True
  end.

(** The pages [q .. q+count-1] meet none of the entries [l]. *)
Definition free_run (m : mm_data) (l : list Z) (q count : Z) : Prop :=
  forall i, In i l -> ~ overlaps q (q + count - 1) (map_entries m i).

(** The host protections that allow a write, and those that allow to run
    code. *)
Definition win_writable (p : Z) : bool :=
  (p =? PAGE_READWRITE) || (p =? PAGE_EXECUTE_READWRITE).
Definition win_executable (p : Z) : bool :=
  (p =? PAGE_EXECUTE) || (p =? PAGE_EXECUTE_READ) || (p =? PAGE_EXECUTE_READWRITE).

(** What a call leaves alone besides the map list: the break and the stored
    protections. *)
Definition keeps_prot (st st' : state) : Prop :=
  brk (mm st') = brk (mm st) /\ page_prot (mm st') = page_prot (mm st).

(** A call of VirtualProtect that applies [prot], with or without its
    write permission. *)
Definition protects_with (prot : Z) (c : host_call) : Prop :=
  match c with
  | VirtualProtect _ _ p _ =>
    p = prot_linux2win prot
    \/ p = prot_linux2win (Z.land prot (Z.lnot PROT_WRITE))
  | _ => False
  end.

(** From [st] to [st'] the data of the memory manager stayed as it was and
    the host saw only calls that satisfy [P]. *)
Definition only_calls (P : host_call -> Prop) (st st' : state) : Prop :=
  mm st' = mm st
  /\ exists evs, calls (os st') = calls (os st) ++ evs /\ Forall P evs.

(** What the second loop of mm_reset leaves alone. *)
Definition window_frame (st st' : state) : Prop :=
  os st' = os st
  /\ brk (mm st') = brk (mm st)
  /\ block_section_handle (mm st') = block_section_handle (mm st)
  /\ block_page_count (mm st') = block_page_count (mm st)
  /\ forall p, ~ GET_PAGE ADDRESS_ALLOCATION_LOW <= p
                 < GET_PAGE ADDRESS_ALLOCATION_HIGH ->
               prot_of st' p = prot_of st p.

(** ** More scenarios *)

(** A map list of three entries: one in the heap, below the main window,
    and two in the window that leave one free page between them. *)
Definition three_entries : mm_data :=
  mk_mm_data 0 (Some 0) None
    (fun i => if i =? 0 then mk_map_entry 0x3000 0x3FFF 0 0 (Some 1)
              else if i =? 1 then mk_map_entry 0x4000 0x4001 0 0 (Some 2)
              else mk_map_entry 0x4003 0x4003 0 0 None)
    (fun _ => 0) (fun _ => 0) (fun _ => 0).

(** A section in the heap (block 0x100) and one in the main window (block
    0x2000, with three pages in use), and no entry; and the state mm_reset
    leaves. *)
Definition two_sections : state :=
  set_count 0x2000 3 (set_handle 0x2000 7 (set_handle 0x100 9 (mm_init []))).
Definition after_reset : state :=
  match mm_reset 1 two_sections with
  | Done s => s
  | _ => two_sections
  end.

(** mprotect of the three pages mapped by [three_pages], from the start of
    the entry on. *)
Definition protect_all (HEAP_BASE MAP_HEAP : Z) : outcome (Z * state) :=
  sys_mprotect FUEL 0x20000000 0x3000 PROT_READ
    (state_after (three_pages HEAP_BASE MAP_HEAP) (mm_init [])).

(** What the fault handler leaves alone: everything but the section handle
    of [block], which stays non-NULL when it was. *)
Definition fault_frame (block : Z) (st st' : state) : Prop :=
  brk (mm st') = brk (mm st)
  /\ map_list (mm st') = map_list (mm st)
  /\ map_free_list (mm st') = map_free_list (mm st)
  /\ map_entries (mm st') = map_entries (mm st)
  /\ block_page_count (mm st') = block_page_count (mm st)
  /\ page_prot (mm st') = page_prot (mm st)
  /\ (forall b, b <> block -> handle_of st' b = handle_of st b)
  /\ (handle_of st block <> 0 -> handle_of st' block <> 0).

(** ** mm_fork

    The calls mm_fork makes on the child process are kept in a log of
    their own; their results come from the same script as those of the
    other host calls. *)
Inductive child_call : Type :=
| VirtualAllocEx (ok : bool)
| WriteProcessMemory (ok : bool)
| NtMapViewOfSectionIn (handle base status : Z)
| VirtualProtectEx (addr size protect : Z) (ok : bool).

(** A call on the child that reports success or failure. *)
Definition child_bool (c : bool -> child_call) (st : state)
    (log : list child_call) : bool * state * list child_call :=
  let '(a, h) := take_answer (os st) in
  let ok := status a =? 0 in
  (ok, set_os h st, log ++ [c ok]).

(** "Map sections": [n] blocks from [i] on; [false] when a view could not
    be mapped in the child. *)
Fixpoint fork_sections (n : nat) (i : Z) (st : state) (log : list child_call)
    : bool * state * list child_call :=
  match n with
  | O => (true, st, log)
  | S k =>
    if negb (handle_of st i =? 0) then
      let '(a, h) := take_answer (os st) in
      let log :=
        log ++ [NtMapViewOfSectionIn (handle_of st i) (GET_BLOCK_ADDRESS i)
                  (status a)] in
      let st := set_os h st in
      if negb (status a =? STATUS_SUCCESS) then (false, st, log)
      else fork_sections k (i + 1) st log
    else fork_sections k (i + 1) st log
  end.

(** [for (uint32_t j = e->start_page; j <= e->end_page; j++)]. *)
Fixpoint fork_pages (fuel : nat) (j last : Z) (st : state)
    (log : list child_call) : outcome (bool * state * list child_call) :=
  match fuel with
  | O => Timeout
  | S k =>
    if j <=? last then
      let protection :=
        prot_linux2win (Z.land (prot_of st j) (Z.lnot PROT_WRITE)) in
      let '(ok, st, log) :=
        child_bool (VirtualProtectEx (GET_PAGE_ADDRESS j) PAGE_SIZE protection)
          st log in
      if negb ok then Done (false, st, log)
      else
        let '(ok, st) :=
          virtual_protect (GET_PAGE_ADDRESS j) PAGE_SIZE protection st in
        if negb ok then Done (false, st, log)
        else fork_pages k (wrap32 (j + 1)) last st log
    else Done (true, st, log)
  end.

(** "Disable write permission on pages": the walk over the map list. *)
Fixpoint fork_entries (fuel : nat) (e : option Z) (st : state)
    (log : list child_call) : outcome (bool * state * list child_call) :=
  match fuel with
  | O => Timeout
  | S k =>
    match e with
    | None => Done (true, st, log)
    | Some i =>
      '(ok, st, log) <-
        fork_pages k (start_page (entry st i)) (end_page (entry st i)) st log ;;
      if negb ok then Done (false, st, log)
      else fork_entries k (next (entry st i)) st log
    end
  end.

Definition mm_fork (fuel : nat) (st : state)
    : outcome (Z * state * list child_call) :=
  let '(ok, st, log) := child_bool VirtualAllocEx st [] in
  if negb ok then Done (0, st, log)
  else
    let '(ok, st, log) := child_bool WriteProcessMemory st log in
    if negb ok then Done (0, st, log)
    else
      let '(ok, st, log) := fork_sections (Z.to_nat BLOCK_COUNT) 0 st log in
      if negb ok then Done (0, st, log)
      else
        '(ok, st, log) <- fork_entries fuel (map_list (mm st)) st log ;;
        Done (if ok then 1 else 0, st, log).

(** A call of mm_fork on the child, or on the parent, that does not grant
    write access to a page. *)
Definition child_read_only (c : child_call) : Prop :=
  match c with
  | VirtualProtectEx _ _ p _ => win_writable p = false
  | _ => True
  end.

Definition parent_read_only (c : host_call) : Prop :=
  match c with
  | VirtualProtect _ _ p _ => win_writable p = false
  | _ => False
  end.

(** Page [j] was write-protected in the child and in the parent. *)
Definition page_protected (st st' : state) (log : list child_call) (j : Z)
    : Prop :=
  let p := prot_linux2win (Z.land (prot_of st j) (Z.lnot PROT_WRITE)) in
  In (VirtualProtectEx (GET_PAGE_ADDRESS j) PAGE_SIZE p true) log
  /\ In (VirtualProtect (GET_PAGE_ADDRESS j) PAGE_SIZE p true)
        (new_calls st st').

(** From [st] with log [log] to [st'] with log [log']: the data of the
    memory manager are unchanged, and both logs grew by calls that grant
    no write access. *)
Definition fork_step (st : state) (log : list child_call) (st' : state)
    (log' : list child_call) : Prop :=
  mm st' = mm st
  /\ (exists evs, calls (os st') = calls (os st) ++ evs
                  /\ Forall parent_read_only evs)
  /\ exists cvs, log' = log ++ cvs /\ Forall child_read_only cvs.

(** ** Well-formed map lists *)

(** Following [next] from [p] goes through exactly the entries [l] and
    then reaches [q]. *)
Fixpoint is_seg (m : mm_data) (p : option Z) (l : list Z) (q : option Z)
    : Prop :=
  match l with
  | [] => p = q
  | i :: l' => p = Some i /\ is_seg m (next (map_entries m i)) l' q
  end.

(** The map list is exactly [l], ending in NULL. *)
Definition is_list (m : mm_data) (l : list Z) : Prop :=
  is_seg m (map_list m) l None.

(** The entries [l] hold page ranges in increasing order without overlap,
    at or after page [lo]. *)
Fixpoint ordered (m : mm_data) (l : list Z) (lo : Z) : Prop :=
  match l with
  | [] => True
  | i :: l' =>
    lo <= start_page (map_entries m i)
    /\ start_page (map_entries m i) <= end_page (map_entries m i)
    /\ ordered m l' (end_page (map_entries m i) + 1)
  end.

(** Page [p] belongs to one of the entries [l]. *)
Definition mapped (m : mm_data) (l : list Z) (p : Z) : Prop :=
  exists i, In i l /\ in_entry p (map_entries m i).

(** What an insertion leaves alone: everything but the [next] links and
    the head of the list. *)
Definition links_only (st st' : state) : Prop :=
  os st' = os st
  /\ brk (mm st') = brk (mm st)
  /\ map_free_list (mm st') = map_free_list (mm st)
  /\ block_section_handle (mm st') = block_section_handle (mm st)
  /\ block_page_count (mm st') = block_page_count (mm st)
  /\ page_prot (mm st') = page_prot (mm st)
  /\ forall i,
       start_page (entry st' i) = start_page (entry st i)
       /\ end_page (entry st' i) = end_page (entry st i)
       /\ f (entry st' i) = f (entry st i)
       /\ offset_pages (entry st' i) = offset_pages (entry st i).

(** What leaves the list and its entries alone. *)
Definition keeps_entries (st st' : state) : Prop :=
  map_list (mm st') = map_list (mm st)
  /\ map_free_list (mm st') = map_free_list (mm st)
  /\ map_entries (mm st') = map_entries (mm st).

Fixpoint last_opt (l : list Z) : option Z :=
  match l with
  | [] => None
  | [x] => Some x
  | _ :: l' => last_opt l'
  end.

(** ** The four modifications of mm_munmap *)

(** [st'] is [st] where entry [i] holds the pages [s..e]; links, list
    heads and the other entries' pages are as in [st]. *)
Definition resized (st st' : state) (i s e : Z) : Prop :=
  map_list (mm st') = map_list (mm st)
  /\ map_free_list (mm st') = map_free_list (mm st)
  /\ forall x,
       next (entry st' x) = next (entry st x)
       /\ start_page (entry st' x)
          = (if x =? i then s else start_page (entry st x))
       /\ end_page (entry st' x)
          = (if x =? i then e else end_page (entry st x)).

(** [st'] is [st] with entry [i] unlinked from behind [pred] and put on
    the free list. *)
Definition unlinked (st st' : state) (pred : option Z) (i : Z) : Prop :=
  map_list (mm st')
  = (match pred with
     | None => next (entry st i)
     | Some _ => map_list (mm st)
     end)
  /\ map_free_list (mm st') = Some i
  /\ forall x,
       start_page (entry st' x) = start_page (entry st x)
       /\ end_page (entry st' x) = end_page (entry st x)
       /\ (x <> i ->
           next (entry st' x)
           = if match pred with Some q => x =? q | None => false end
             then next (entry st i) else next (entry st x)).

(** [st'] is [st] where entry [i] keeps the pages below [us] and the free
    entry [ne], linked behind it, holds those above [ue]. *)
Definition split_in_two (st st' : state) (i ne us ue : Z) : Prop :=
  map_list (mm st') = map_list (mm st)
  /\ forall x,
       start_page (entry st' x)
       = (if x =? ne then ue + 1 else start_page (entry st x))
       /\ end_page (entry st' x)
          = (if x =? ne then end_page (entry st i)
             else if x =? i then us - 1 else end_page (entry st x))
       /\ next (entry st' x)
          = (if x =? i then Some ne
             else if x =? ne then next (entry st i) else next (entry st x)).

(** ** States for the examples on lists *)

(** A map list of one entry of four pages in block 0x400, and a free
    entry. *)
Definition four_pages : state :=
  mk_state
    (mk_mm_data 0 (Some 0) (Some 1)
       (fun i => if i =? 0 then mk_map_entry 0x4000 0x4003 0 0 None
                 else mk_map_entry 0 0 0 0 None)
       (fun b => if b =? 0x400 then 5 else 0)
       (fun b => if b =? 0x400 then 4 else 0)
       (fun p => if (0x4000 <=? p) && (p <=? 0x4003) then 3 else 0))
    (mk_host [] 1%positive []).

(** What mm_fork leaves of [four_pages], and what it did to the child. *)
Definition after_fork : state * list child_call :=
  match mm_fork 10 four_pages with
  | Done (_, s, l) => (s, l)
  | _ => (four_pages, [])
  end.

(** The list of [three_entries], and a fourth entry for the free page
    between the last two, not yet linked. *)
Definition before_insert : state :=
  set_entry 3 (mk_map_entry 0x4002 0x4002 0 0 None)
    (mk_state three_entries (mk_host [] 1%positive [])).

(** ** mm_reset on a well-formed list *)

(** The test of the second loop of mm_reset: the entry lies in the main
    window. *)
Definition in_window (e : map_entry) : bool :=
  (start_page e >=? GET_PAGE ADDRESS_ALLOCATION_LOW)
  && (end_page e <? GET_PAGE ADDRESS_ALLOCATION_HIGH).

(** The entries of [l] mm_reset keeps, and those it frees. *)
Definition kept (st : state) (l : list Z) : list Z :=
  filter (fun i => negb (in_window (entry st i))) l.

Definition dropped (st : state) (l : list Z) : list Z :=
  filter (fun i => in_window (entry st i)) l.

(** Page [p] belongs to one of the entries [l] as they are in [st]. *)
Definition covered (st : state) (l : list Z) (p : Z) : Prop :=
  exists i, In i l /\ in_entry p (entry st i).

(** ** mm_fork returns *)

(** Every answer the host still has in its script reports success. *)
Definition all_ok (h : host) : Prop :=
  Forall (fun a => status a = STATUS_SUCCESS) (answers h).

End MM.

Module DBT.

(** ** ModR/M and SIB (src/dbt/x86.c) *)

Definition GET_MODRM_MOD (c : Z) : Z := Z.land (Z.shiftr c 6) 7.
Definition GET_MODRM_R (c : Z) : Z := Z.land (Z.shiftr c 3) 7.
Definition GET_MODRM_RM (c : Z) : Z := Z.land c 7.
Definition GET_SIB_SCALE (s : Z) : Z := Z.shiftr s 6.
Definition GET_SIB_INDEX (s : Z) : Z := Z.land (Z.shiftr s 3) 7.
Definition GET_SIB_BASE (s : Z) : Z := Z.land s 7.

Definition MODRM_PURE_REGISTER : Z := 1.

Record modrm_rm_t : Type := mk_modrm_rm {
  base : Z;
  index : Z;
  scale : Z;
  flags : Z;
  disp : Z
}.

Definition modrm_rm_reg (r : Z) : modrm_rm_t :=
  mk_modrm_rm r (-1) 0 MODRM_PURE_REGISTER 0.
Definition modrm_rm_disp (disp : Z) : modrm_rm_t :=
  mk_modrm_rm (-1) (-1) 0 0 disp.
Definition modrm_rm_mreg (base disp : Z) : modrm_rm_t :=
  mk_modrm_rm base (-1) 0 0 disp.
Definition modrm_rm_mscale (base index scale disp : Z) : modrm_rm_t :=
  mk_modrm_rm base index scale 0 disp.

(** ** The emitter

    [out] is the list of the bytes written so far; a byte is a [Z] in
    [0, 256).  [gen_modrm_sib] also tells whether it reported an error
    through log_error. *)

Definition gen_byte (out : list Z) (x : Z) : list Z := out ++ [wrap8 x].

(** The four bytes of a 32-bit store on the little-endian host. *)
Definition dword_bytes (x : Z) : list Z :=
  [ wrap32 x mod 256; (wrap32 x / 2 ^ 8) mod 256;
    (wrap32 x / 2 ^ 16) mod 256; (wrap32 x / 2 ^ 24) mod 256 ].

Definition gen_dword (out : list Z) (x : Z) : list Z := out ++ dword_bytes x.

Definition gen_modrm (out : list Z) (mod_ r rm : Z) : list Z :=
  gen_byte out (Z.shiftl mod_ 6 + Z.shiftl r 3 + rm).

Definition gen_sib (out : list Z) (base index scale : Z) : list Z :=
  gen_byte out (Z.shiftl scale 6 + Z.shiftl index 3 + base).

Definition gen_modrm_sib (out : list Z) (r : Z) (rm : modrm_rm_t)
    : list Z * bool :=
  if flags rm =? MODRM_PURE_REGISTER then (gen_modrm out 3 r (base rm), false)
  else if index rm =? 4 then (out, true)
  else if (base rm =? -1) && (index rm =? -1) then
    (gen_dword (gen_modrm out 0 r 5) (disp rm), false)
  else if base rm =? -1 then
    (gen_dword (gen_sib (gen_modrm out 0 r 4) 5 (index rm) (scale rm))
       (disp rm), false)
  else if (base rm =? 4) || negb (index rm =? -1) then
    (gen_dword
       (gen_sib (gen_modrm out 2 r 4) (base rm)
          (if index rm =? -1 then 4 else index rm) (scale rm))
       (disp rm), false)
  else (gen_dword (gen_modrm out 2 r (base rm)) (disp rm), false).

(** A register number of the 32-bit encoding. *)
Definition is_reg (x : Z) : Prop := 0 <= x < 8.

(** ** The block index *)

Definition DBT_OUT_ALIGN : Z := 16.
Definition DBT_BLOCK_HASH_BUCKETS : Z := 4096.
Definition DBT_BLOCK_MAXSIZE : Z := 1024.

Record dbt_block : Type := mk_dbt_block {
  pc : Z;
  start : Z
}.

(** Modelled from the spec: core/forward_list.h is not among the sources.
    A bucket is the list of its blocks from the head on; the spec has
    "insertion order within a bucket is last-in-first-found", so
    forward_list_add puts the block at the head, forward_list_iterate goes
    from the head on and forward_list_init leaves the bucket empty. *)
Definition forward_list_add (bucket : list dbt_block) (block : dbt_block)
    : list dbt_block :=
  block :: bucket.

Record dbt_data : Type := mk_dbt_data {
  block_hash : Z -> list dbt_block;
  blocks_count : Z;
  out : Z;
  end_ : Z;
  tls_scratch_offset : Z;
  tls_gs_offset : Z;
  tls_gs_addr_offset : Z
}.

Definition hash_block_pc (pc : Z) : Z :=
  wrap32 (pc + wrap32 (Z.shiftl pc 3) + wrap32 (Z.shiftl pc 9))
  mod DBT_BLOCK_HASH_BUCKETS.

(** The loop of find_block and of dbt_find_next over one bucket. *)
Definition find_in_bucket (bucket : list dbt_block) (pc_ : Z)
    : option dbt_block :=
  find (fun block => pc block =? pc_) bucket.

Definition find_block (d : dbt_data) (pc_ : Z) : option dbt_block :=
  find_in_bucket (block_hash d (hash_block_pc pc_)) pc_.

Section Translator.

(** Modelled from the spec: [DBT_CACHE_BASE], [DBT_CACHE_SIZE] and
    [DBT_BLOCKS_SIZE] (hence [MAX_DBT_BLOCKS]) come from dbt/x86.h, and the
    instruction tables that drive the body of dbt_translate from
    dbt/x86_inst.h, none of them among the sources.  The bounds are
    parameters, and so is what the translation loop does to the two
    cursors for the block at a given pc: [None] when it stops on a fatal
    diagnostic and never returns.  The loop reads the index through
    find_block and does not write it. *)
Variable DBT_CACHE_BASE : Z.
Variable DBT_CACHE_SIZE : Z.
Variable MAX_DBT_BLOCKS : Z.
Variable translate_code : dbt_data -> Z -> Z -> option (Z * Z).

Definition with_cursors (out_ end__ : Z) (d : dbt_data) : dbt_data :=
  mk_dbt_data (block_hash d) (blocks_count d) out_ end__
    (tls_scratch_offset d) (tls_gs_offset d) (tls_gs_addr_offset d).

Definition with_bucket (b : Z) (bucket : list dbt_block) (d : dbt_data)
    : dbt_data :=
  mk_dbt_data (fun i => if i =? b then bucket else block_hash d i)
    (blocks_count d) (out d) (end_ d)
    (tls_scratch_offset d) (tls_gs_offset d) (tls_gs_addr_offset d).

(** dbt_init on the zero-filled [dbt_data]; the three offsets are what the
    TLS allocator handed out. *)
Definition dbt_init (scratch gs gs_addr : Z) : dbt_data :=
  mk_dbt_data (fun _ => []) 0 DBT_CACHE_BASE
    (wrap32 (DBT_CACHE_BASE + DBT_CACHE_SIZE)) scratch gs gs_addr.

Definition dbt_flush (d : dbt_data) : dbt_data :=
  mk_dbt_data (fun _ => []) 0 DBT_CACHE_BASE
    (wrap32 (DBT_CACHE_BASE + DBT_CACHE_SIZE))
    (tls_scratch_offset d) (tls_gs_offset d) (tls_gs_addr_offset d).

Definition dbt_reset (d : dbt_data) : dbt_data := dbt_flush d.

(** [Some] with the count advanced, [None] for NULL. *)
Definition alloc_block (d : dbt_data) : option dbt_data :=
  if (blocks_count d =? MAX_DBT_BLOCKS)
     || (end_ d - out d <? DBT_BLOCK_MAXSIZE) then None
  else Some (mk_dbt_data (block_hash d) (blocks_count d + 1) (out d) (end_ d)
               (tls_scratch_offset d) (tls_gs_offset d)
               (tls_gs_addr_offset d)).

(** dbt_translate: [None] when the block pointer is NULL after the flush,
    or when the translation loop does not return. *)
Definition dbt_translate (pc_ : Z) (d : dbt_data)
    : option (dbt_block * dbt_data) :=
  let allocated :=
    match alloc_block d with
    | Some d1 => Some d1
    | None => alloc_block (dbt_flush d)
    end in
  match allocated with
  | None => None
  | Some d1 =>
    let start_ :=
      Z.land (wrap32 (out d1 + DBT_OUT_ALIGN - 1)) (wrap32 (- DBT_OUT_ALIGN)) in
    match translate_code d1 pc_ start_ with
    | None => None
    | Some (out_, end__) =>
      Some (mk_dbt_block pc_ start_, with_cursors out_ end__ d1)
    end
  end.

Definition dbt_find_next (pc_ : Z) (d : dbt_data) : option (Z * dbt_data) :=
  let bucket := hash_block_pc pc_ in
  match find_in_bucket (block_hash d bucket) pc_ with
  | Some block => Some (start block, d)
  | None =>
    match dbt_translate pc_ d with
    | None => None
    | Some (block, d1) =>
      Some (start block,
            with_bucket bucket (forward_list_add (block_hash d1 bucket) block)
              d1)
    end
  end.

(** The states of the index: after dbt_init, and after any completed
    dbt_find_next or dbt_reset. *)
Inductive reachable : dbt_data -> Prop :=
| reach_init scratch gs gs_addr : reachable (dbt_init scratch gs gs_addr)
| reach_find_next pc_ d r d' :
    reachable d -> dbt_find_next pc_ d = Some (r, d') -> reachable d'
| reach_reset d : reachable d -> reachable (dbt_reset d).

End Translator.

(** Every bucket holds blocks of distinct pc, each in the bucket of its
    hash. *)
Definition index_ok (d : dbt_data) : Prop :=
  forall b,
    NoDup (map pc (block_hash d b))
    /\ forall block, In block (block_hash d b) -> hash_block_pc (pc block) = b.

(** The indices of the buckets. *)
Definition bucket_ids : list Z :=
  MM.zrange (Z.to_nat DBT_BLOCK_HASH_BUCKETS) 0.

(** The blocks of the whole index whose pc is [pc_]. *)
Definition blocks_with_pc (d : dbt_data) (pc_ : Z) : list dbt_block :=
  flat_map (fun b => filter (fun block => pc block =? pc_) (block_hash d b))
    bucket_ids.

(** ** The decoder

    Guest memory is the byte at each address; a parse function takes the
    code pointer and yields the value read and the advanced pointer. *)

Definition memory : Type := Z -> Z.

(** A [bits]-bit unsigned value converted to the signed type of that
    width. *)
Definition sext (bits x : Z) : Z :=
  if x <? 2 ^ (bits - 1) then x else x - 2 ^ bits.

Definition parse_byte (mem : memory) (code : Z) : Z * Z :=
  (wrap8 (mem code), code + 1).

Definition parse_word (mem : memory) (code : Z) : Z * Z :=
  (wrap8 (mem code) + 2 ^ 8 * wrap8 (mem (code + 1)), code + 2).

Definition parse_dword (mem : memory) (code : Z) : Z * Z :=
  (wrap8 (mem code) + 2 ^ 8 * wrap8 (mem (code + 1))
   + 2 ^ 16 * wrap8 (mem (code + 2)) + 2 ^ 24 * wrap8 (mem (code + 3)),
   code + 4).

Definition parse_rel (mem : memory) (code rel_bytes : Z) : Z * Z :=
  if rel_bytes =? 1 then
    let '(x, code) := parse_byte mem code in (sext 8 x, code)
  else if rel_bytes =? 2 then
    let '(x, code) := parse_word mem code in (sext 16 x, code)
  else
    let '(x, code) := parse_dword mem code in (sext 32 x, code).

(** The part of parse_modrm under "Displacement". *)
Definition parse_disp (mem : memory) (code mod_ : Z) : Z * Z :=
  if mod_ =? 1 then
    let '(x, code) := parse_byte mem code in (sext 8 x, code)
  else if mod_ =? 2 then
    let '(x, code) := parse_dword mem code in (sext 32 x, code)
  else (0, code).

(** parse_modrm writes through [rm]: the fields it does not assign keep
    what the caller's struct held. *)
Definition parse_modrm (mem : memory) (code : Z) (rm : modrm_rm_t)
    : Z * modrm_rm_t * Z :=
  let '(modrm, code) := parse_byte mem code in
  let r := GET_MODRM_R modrm in
  let mod_ := GET_MODRM_MOD modrm in
  if mod_ =? 3 then
    (r, mk_modrm_rm (GET_MODRM_RM modrm) (-1) (scale rm) MODRM_PURE_REGISTER
          (disp rm), code)
  else
    let modrm_rm := GET_MODRM_RM modrm in
    if modrm_rm =? 4 then
      let '(sib, code) := parse_byte mem code in
      let scale_ := GET_SIB_SCALE sib in
      let index_ := if GET_SIB_INDEX sib =? 4 then -1 else GET_SIB_INDEX sib in
      let '(base_, mod_) :=
        if (GET_SIB_BASE sib =? 5) && (mod_ =? 0) then (-1, 2)
        else (GET_SIB_BASE sib, mod_) in
      let '(disp_, code) := parse_disp mem code mod_ in
      (r, mk_modrm_rm base_ index_ scale_ 0 disp_, code)
    else if (mod_ =? 0) && (modrm_rm =? 5) then
      let '(x, code) := parse_dword mem code in
      (r, mk_modrm_rm (-1) (-1) 0 0 (sext 32 x), code)
    else
      let '(disp_, code) := parse_disp mem code mod_ in
      (r, mk_modrm_rm modrm_rm (-1) 0 0 disp_, code).

(** [mem] holds [bytes] from the address [a] on. *)
Definition holds (mem : memory) (a : Z) (bytes : list Z) : Prop :=
  forall i, (i < length bytes)%nat -> mem (a + Z.of_nat i) = nth i bytes 0.

(** The memory that holds [bytes] from [origin] on, and 0 elsewhere. *)
Definition mem_of (origin : Z) (bytes : list Z) : memory :=
  fun a => if a <? origin then 0 else nth (Z.to_nat (a - origin)) bytes 0.

(** The guest bytes 44 24 08 at 0x10000: the register eax and the operand
    [esp + 8], as in mov eax, [esp + 8]. *)
Definition guest_esp8 : memory := mem_of 0x10000 [0x44; 0x24; 0x08].

(** Two operands that address the same thing: the same register, or the
    same base, index and displacement, and the same scale where there is an
    index to scale. *)
Definition same_operand (a b : modrm_rm_t) : Prop :=
  flags a = flags b /\ base a = base b /\ index a = index b
  /\ (flags a <> MODRM_PURE_REGISTER ->
      disp a = disp b /\ (index a <> -1 -> scale a = scale b)).

(** An operand as parse_modrm produces them. *)
Definition operand_ok (rm : modrm_rm_t) : Prop :=
  (flags rm = MODRM_PURE_REGISTER /\ is_reg (base rm) /\ index rm = -1)
  \/ (flags rm = 0
      /\ (base rm = -1 \/ is_reg (base rm))
      /\ (index rm = -1 \/ (is_reg (index rm) /\ index rm <> 4))
      /\ 0 <= scale rm < 4
      /\ - 2 ^ 31 <= disp rm < 2 ^ 31).

(** ** Emitters of whole instructions

    gen_call, gen_jmp and gen_jcc read the address of the cursor: [origin]
    is the address of the first byte of [out]. *)

Definition cursor (origin : Z) (out : list Z) : Z :=
  origin + Z.of_nat (length out).

Definition gen_fs_prefix (out : list Z) : list Z := gen_byte out 0x64.

Definition gen_mov_r_rm_32 (out : list Z) (r : Z) (rm : modrm_rm_t) : list Z :=
  fst (gen_modrm_sib (gen_byte out 0x8B) r rm).

Definition gen_mov_rm_r_32 (out : list Z) (rm : modrm_rm_t) (r : Z) : list Z :=
  fst (gen_modrm_sib (gen_byte out 0x89) r rm).

Definition gen_lea (out : list Z) (r : Z) (rm : modrm_rm_t) : list Z :=
  fst (gen_modrm_sib (gen_byte out 0x8D) r rm).

Definition gen_pop_rm (out : list Z) (rm : modrm_rm_t) : list Z :=
  fst (gen_modrm_sib (gen_byte out 0x8F) 0 rm).

Definition gen_push_rm (out : list Z) (rm : modrm_rm_t) : list Z :=
  fst (gen_modrm_sib (gen_byte out 0xFF) 6 rm).

Definition gen_push_imm32 (out : list Z) (imm : Z) : list Z :=
  gen_dword (gen_byte out 0x68) imm.

Definition gen_call (origin : Z) (out : list Z) (dest : Z) : list Z :=
  let rel := sext 32 (wrap32 (dest - (cursor origin out + 5))) in
  gen_dword (gen_byte out 0xE8) rel.

Definition gen_jmp (origin : Z) (out : list Z) (dest : Z) : list Z :=
  let rel := sext 32 (wrap32 (dest - (cursor origin out + 5))) in
  gen_dword (gen_byte out 0xE9) rel.

Definition gen_jcc (origin : Z) (out : list Z) (cond dest : Z) : list Z :=
  let rel := sext 32 (wrap32 (dest - (cursor origin out + 6))) in
  gen_dword (gen_byte (gen_byte out 0x0F) (0x80 + cond)) rel.

(** ** dbt_get_direct_trampoline

    The result is the address to jump to, the new state, and the bytes of
    the stub written at that address ([[]] when no stub is made).
    [dbt_find_direct_internal] is the address of the resolver, an assembly
    routine. *)
Definition dbt_get_direct_trampoline (dbt_find_direct_internal : Z)
    (pc_ patch_addr : Z) (d : dbt_data) : Z * dbt_data * list Z :=
  match find_block d pc_ with
  | Some cached_block => (start cached_block, d, [])
  | None =>
    let d := with_cursors (out d) (wrap32 (end_ d - DBT_OUT_ALIGN)) d in
    let stub :=
      gen_jmp (end_ d)
        (gen_push_imm32 (gen_push_imm32 [] patch_addr) pc_)
        dbt_find_direct_internal in
    (end_ d, d, stub)
  end.

(** ** find_unused_register *)

(** Modelled from the spec: struct instruction_desc and REG_MASK are
    declared in dbt/x86_inst.h, which is not among the sources.  The spec
    has a descriptor carry "the set of implicitly read/written registers" as
    register masks; of the descriptor only these two fields are read here,
    and the mask of a register is a parameter. *)
Record instruction_desc : Type := mk_instruction_desc {
  read_regs : Z;
  write_regs : Z
}.

Record instruction_t : Type := mk_instruction {
  escape_0x0f : Z;
  opcode : Z;
  opsize_prefix : Z;
  rep_prefix : Z;
  r : Z;
  rm : modrm_rm_t;
  imm_bytes : Z;
  desc : instruction_desc
}.

Section Registers.

Variable REG_MASK : Z -> Z.

Definition used_regs (ins : instruction_t) : Z :=
  let used := Z.lor (read_regs (desc ins)) (write_regs (desc ins)) in
  let used := if negb (r ins =? -1) then Z.lor used (REG_MASK (r ins)) else used in
  let used :=
    if negb (base (rm ins) =? -1) then Z.lor used (REG_MASK (base (rm ins)))
    else used in
  if negb (index (rm ins) =? -1) then Z.lor used (REG_MASK (index (rm ins)))
  else used.

(** [None] when the function reports the bug and stops. *)
Definition find_unused_register (ins : instruction_t) : option Z :=
  let used := used_regs ins in
  let TEST_REG := fun r => Z.land used (REG_MASK r) =? 0 in
  if TEST_REG 0 then Some 0
  else if TEST_REG 1 then Some 1
  else if TEST_REG 2 then Some 2
  else if TEST_REG 3 then Some 3
  else if TEST_REG 6 then Some 6
  else if TEST_REG 7 then Some 7
  else None.

End Registers.

(** ** dbt_find_direct

    [cache] is the memory of the code cache, in which the patched branch
    lies.  On a miss dbt_find_next translates, and the translation loop
    writes the new block and the stubs of its trampolines into that same
    memory, at the cache base when dbt_translate had to flush.  The result
    of dbt_find_direct is the start of the block, the memory after the
    32-bit store, and the new state. *)
Definition store_dword (mem : memory) (a v : Z) : memory :=
  fun x =>
    if (a <=? x) && (x <? a + 4) then nth (Z.to_nat (x - a)) (dword_bytes v) 0
    else mem x.

(** The store of dbt_find_direct: the displacement from the end of the
    field at [patch_addr] to [block_start], written at [patch_addr]. *)
Definition patch_branch (cache : memory) (patch_addr block_start : Z)
    : memory :=
  store_dword cache patch_addr
    (wrap32 (sext 32 (wrap32 (block_start - (patch_addr + 4))))).

(** Modelled from the spec: the loop of dbt_translate reads the instruction
    tables of dbt/x86_inst.h, which are not among the sources, so the memory
    it leaves is a parameter, [translate_emit], next to [translate_code] for
    the two cursors; it receives what dbt_translate hands to the loop: the
    state after alloc_block, the pc and the block start.

    The cache memory as dbt_find_next leaves it: untouched when the block is
    found in the index, and what the loop of dbt_translate wrote otherwise,
    dbt_flush itself writing no code. *)
Definition dbt_find_next_cache
    (DBT_CACHE_BASE DBT_CACHE_SIZE MAX_DBT_BLOCKS : Z)
    (translate_emit : dbt_data -> Z -> Z -> memory -> memory)
    (cache : memory) (pc_ : Z) (d : dbt_data) : memory :=
  match find_in_bucket (block_hash d (hash_block_pc pc_)) pc_ with
  | Some _ => cache
  | None =>
    let allocated :=
      match alloc_block MAX_DBT_BLOCKS d with
      | Some d1 => Some d1
      | None =>
        alloc_block MAX_DBT_BLOCKS (dbt_flush DBT_CACHE_BASE DBT_CACHE_SIZE d)
      end in
    match allocated with
    | None => cache
    | Some d1 =>
      let start_ :=
        Z.land (wrap32 (out d1 + DBT_OUT_ALIGN - 1)) (wrap32 (- DBT_OUT_ALIGN)) in
      translate_emit d1 pc_ start_ cache
    end
  end.

Definition dbt_find_direct (DBT_CACHE_BASE DBT_CACHE_SIZE MAX_DBT_BLOCKS : Z)
    (translate_code : dbt_data -> Z -> Z -> option (Z * Z))
    (translate_emit : dbt_data -> Z -> Z -> memory -> memory)
    (cache : memory) (pc_ patch_addr : Z) (d : dbt_data)
    : option (Z * memory * dbt_data) :=
  match
    dbt_find_next DBT_CACHE_BASE DBT_CACHE_SIZE MAX_DBT_BLOCKS translate_code
      pc_ d
  with
  | None => None
  | Some (block_start, d') =>
    let cache :=
      dbt_find_next_cache DBT_CACHE_BASE DBT_CACHE_SIZE MAX_DBT_BLOCKS
        translate_emit cache pc_ d in
    Some (block_start, patch_branch cache patch_addr block_start, d')
  end.

(** The address a relative branch reaches: the [rel] is added to the
    address of the next instruction. *)
Definition branch_target (next_ins rel : Z) : Z := wrap32 (next_ins + rel).

(** ** The cases of dbt_translate for direct branches

    These cases end the block.  They are reached with [code] behind the
    opcode; [origin] is the address of the first byte of [out]. *)

(** A call of dbt_get_direct_trampoline: its two arguments, its result,
    and the stub it wrote at that address. *)
Record trampoline_call : Type := mk_trampoline_call {
  tc_pc : Z;
  tc_patch_addr : Z;
  tc_result : Z;
  tc_stub : list Z
}.

(** The case labels; [cond] is GET_JCC_COND of the descriptor's type, a
    macro of dbt/x86_inst.h, which is not among the sources: the labels
    INST_JCC + 0 to INST_JCC + 15 give its values. *)
Inductive direct_branch : Type :=
| INST_CALL_DIRECT
| INST_JMP_DIRECT
| INST_JCC (cond : Z)
| INST_JCC_REL8.

Section DirectBranches.

Variable dbt_find_direct_internal : Z.
Variable guest : memory.

Definition get_trampoline (pc_ patch_addr : Z) (d : dbt_data)
    (log : list trampoline_call) : Z * dbt_data * list trampoline_call :=
  let '(t, d, stub) :=
    dbt_get_direct_trampoline dbt_find_direct_internal pc_ patch_addr d in
  (t, d, log ++ [mk_trampoline_call pc_ patch_addr t stub]).

(** [ins_opcode] and [ins_imm_bytes] are the fields of [ins] the cases
    read.  The result is the output, the state, and the trampolines asked
    for. *)
Definition translate_branch (kind : direct_branch)
    (ins_opcode ins_imm_bytes : Z) (code origin : Z) (out : list Z)
    (d : dbt_data) : list Z * dbt_data * list trampoline_call :=
  match kind with
  | INST_CALL_DIRECT =>
    let '(rel, code) := parse_rel guest code ins_imm_bytes in
    let dest := wrap32 (code + rel) in
    let out := gen_push_imm32 out code in
    let patch_addr := wrap32 (cursor origin out + 1) in
    let '(t, d, log) := get_trampoline dest patch_addr d [] in
    (gen_jmp origin out t, d, log)
  | INST_JMP_DIRECT =>
    let '(rel, code) := parse_rel guest code ins_imm_bytes in
    let dest := wrap32 (code + rel) in
    let patch_addr := wrap32 (cursor origin out + 1) in
    let '(t, d, log) := get_trampoline dest patch_addr d [] in
    (gen_jmp origin out t, d, log)
  | INST_JCC cond =>
    let '(rel, code) := parse_rel guest code ins_imm_bytes in
    let dest0 := wrap32 (code + rel) in
    let dest1 := code in
    let patch_addr0 := wrap32 (cursor origin out + 2) in
    let '(t0, d, log) := get_trampoline dest0 patch_addr0 d [] in
    let out := gen_jcc origin out cond t0 in
    let patch_addr1 := wrap32 (cursor origin out + 1) in
    let '(t1, d, log) := get_trampoline dest1 patch_addr1 d log in
    (gen_jmp origin out t1, d, log)
  | INST_JCC_REL8 =>
    let '(rel, code) := parse_rel guest code ins_imm_bytes in
    let dest0 := wrap32 (code + rel) in
    let dest1 := code in
    let out := gen_byte out ins_opcode in
    let out := gen_byte out 2 in
    let out := gen_byte out 0xEB in
    let out := gen_byte out 5 in
    let patch_addr0 := wrap32 (cursor origin out + 1) in
    let '(t0, d, log) := get_trampoline dest0 patch_addr0 d [] in
    let out := gen_jmp origin out t0 in
    let patch_addr1 := wrap32 (cursor origin out + 1) in
    let '(t1, d, log) := get_trampoline dest1 patch_addr1 d log in
    (gen_jmp origin out t1, d, log)
  end.

End DirectBranches.

(** The 32-bit displacement at [a], the last field of a branch, makes the
    branch reach [t]. *)
Definition reaches (host : memory) (a t : Z) : Prop :=
  exists rel,
    parse_rel host a 4 = (rel, a + 4)
    /\ branch_target (a + 4) rel = wrap32 t.

(** [a] is the displacement field of a jmp rel32, or of a jcc rel32, that
    reaches [t]. *)
Definition jmp_field (host : memory) (a t : Z) : Prop :=
  parse_byte host (a - 1) = (0xE9, a) /\ reaches host a t.
Definition jcc_field (host : memory) (cond a t : Z) : Prop :=
  parse_byte host (a - 2) = (0x0F, a - 1)
  /\ parse_byte host (a - 1) = (0x80 + cond, a)
  /\ reaches host a t.
Definition branch_field (host : memory) (a t : Z) : Prop :=
  jmp_field host a t \/ exists cond, 0 <= cond < 16 /\ jcc_field host cond a t.

(** The guest addresses a direct branch can go to: the target, and for a
    conditional branch the next instruction. *)
Definition branch_dests (kind : direct_branch) (next rel : Z) : list Z :=
  match kind with
  | INST_CALL_DIRECT | INST_JMP_DIRECT => [branch_target next rel]
  | INST_JCC _ | INST_JCC_REL8 => [branch_target next rel; next]
  end.

End DBT.

Module MMFacts.
Import MM.

(** ** Machine arithmetic *)

Lemma wrap32_small x : 0 <= x < 2 ^ 32 -> wrap32 x = x.
Proof. intros H. unfold wrap32. now apply Z.mod_small. Qed.

Lemma wrap32_over x : 2 ^ 32 <= x < 2 ^ 33 -> wrap32 x = x - 2 ^ 32.
Proof.
  intros H. unfold wrap32. symmetry.
  apply Z.mod_unique with (q := 1); lia.
Qed.

Lemma wrap32_range x : 0 <= wrap32 x < 2 ^ 32.
Proof. unfold wrap32. apply Z.mod_pos_bound. lia. Qed.

Lemma land_page_mask x :
  0 <= x < 2 ^ 32 -> Z.land x 0xFFFFF000 = 4096 * (x / 4096).
Proof.
  intros Hx.
  replace 0xFFFFF000 with (Z.ldiff (Z.ones 32) (Z.ones 12)) by reflexivity.
  replace (4096 * (x / 4096)) with (Z.shiftl (Z.shiftr x 12) 12)
    by (rewrite Z.shiftl_mul_pow2, Z.shiftr_div_pow2 by lia;
        change (2 ^ 12) with 4096; lia).
  apply Z.bits_inj'. intros n Hn.
  rewrite Z.land_spec, Z.ldiff_spec, Z.shiftl_spec by lia.
  destruct (Z.ltb_spec n 12) as [Hlt|Hge].
  - rewrite (Z.testbit_neg_r _ (n - 12)) by lia.
    rewrite (Z.ones_spec_low 12 n) by lia.
    rewrite Bool.andb_false_r. simpl. apply Bool.andb_false_r.
  - rewrite Z.shiftr_spec by lia.
    replace (n - 12 + 12) with n by lia.
    rewrite (Z.ones_spec_high 12 n) by lia. simpl. rewrite Bool.andb_true_r.
    destruct (Z.ltb_spec n 32) as [Hlt|Hge32].
    + rewrite (Z.ones_spec_low 32 n) by lia. apply Bool.andb_true_r.
    + rewrite (Z.ones_spec_high 32 n) by lia. rewrite Bool.andb_false_r.
      symmetry.
      destruct (Z.eq_dec x 0) as [->|Hnz]; [apply Z.bits_0|].
      apply Z.bits_above_log2; [lia|].
      assert (Z.log2 x < 32) by (apply Z.log2_lt_pow2; lia). lia.
Qed.

Lemma ALIGN_TO_PAGE_range l : 0 <= ALIGN_TO_PAGE l < 2 ^ 32.
Proof.
  unfold ALIGN_TO_PAGE.
  pose proof (wrap32_range (l + PAGE_SIZE - 1)) as H.
  rewrite land_page_mask by exact H.
  pose proof (Z.mul_div_le (wrap32 (l + PAGE_SIZE - 1)) 4096).
  assert (0 <= wrap32 (l + PAGE_SIZE - 1) / 4096) by (apply Z.div_pos; lia).
  lia.
Qed.

Lemma ALIGN_TO_PAGE_spec l :
  0 <= l <= 0xFFFFF000 ->
  ALIGN_TO_PAGE l = PAGE_SIZE * ((l + PAGE_SIZE - 1) / PAGE_SIZE).
Proof.
  intros Hl. unfold ALIGN_TO_PAGE, PAGE_SIZE.
  rewrite wrap32_small by lia.
  apply land_page_mask. lia.
Qed.

Lemma ALIGN_TO_PAGE_aligned l : ALIGN_TO_PAGE l mod PAGE_SIZE = 0.
Proof.
  unfold ALIGN_TO_PAGE.
  rewrite land_page_mask by apply wrap32_range.
  unfold PAGE_SIZE. rewrite Z.mul_comm. apply Z.mod_mul. lia.
Qed.

Lemma ALIGN_TO_PAGE_idem l : ALIGN_TO_PAGE (ALIGN_TO_PAGE l) = ALIGN_TO_PAGE l.
Proof.
  pose proof (ALIGN_TO_PAGE_range l) as Hr.
  pose proof (ALIGN_TO_PAGE_aligned l) as Ha.
  set (a := ALIGN_TO_PAGE l) in *.
  assert (Hle : a <= 0xFFFFF000).
  { unfold PAGE_SIZE in Ha.
    pose proof (Z.div_mod a 4096 ltac:(lia)) as Hd. 
    assert (a / 4096 < 2 ^ 20) by (apply Z.div_lt_upper_bound; lia). lia. }
  rewrite ALIGN_TO_PAGE_spec by lia.
  unfold PAGE_SIZE in *.
  pose proof (Z.div_mod a 4096 ltac:(lia)) as Hd. rewrite Ha in Hd.
  replace (a + 4096 - 1) with (a / 4096 * 4096 + 4095) by lia.
  rewrite Z.div_add_l by lia. change (4095 / 4096) with 0. lia.
Qed.

Lemma ALIGN_TO_PAGE_mono x y :
  0 <= y <= x -> x <= 0xFFFFF000 -> ALIGN_TO_PAGE y <= ALIGN_TO_PAGE x.
Proof.
  intros H1 H2. rewrite !ALIGN_TO_PAGE_spec by lia. unfold PAGE_SIZE.
  apply Z.mul_le_mono_nonneg_l; [lia|]. apply Z.div_le_mono; lia.
Qed.

Lemma bad_range_spec addr L :
  0 <= addr < 2 ^ 32 -> 0 <= L < 2 ^ 32 ->
  bad_range addr L = true <->
  (ADDRESS_SPACE_HIGH <= addr \/ ADDRESS_SPACE_HIGH <= addr + L).
Proof.
  intros Ha HL. unfold bad_range, ADDRESS_SPACE_LOW, ADDRESS_SPACE_HIGH.
  pose proof (wrap32_range (addr + L)) as Hw.
  destruct (Z_lt_ge_dec (addr + L) (2 ^ 32)) as [Hs|Hb].
  - rewrite (wrap32_small (addr + L)) in * by lia.
    rewrite !Bool.orb_true_iff, !Z.ltb_lt, !Z.geb_le. lia.
  - rewrite (wrap32_over (addr + L)) in * by lia.
    rewrite !Bool.orb_true_iff, !Z.ltb_lt, !Z.geb_le. lia.
Qed.

(** ** Boolean tests *)


Ltac zbool :=
  repeat match goal with
  | H : (_ >? _) = _ |- _ => rewrite Z.gtb_ltb in H
  | H : (_ >=? _) = _ |- _ => rewrite Z.geb_leb in H
  | H : (_ <? _) = true |- _ => apply Z.ltb_lt in H
  | H : (_ <? _) = false |- _ => apply Z.ltb_ge in H
  | H : (_ <=? _) = true |- _ => apply Z.leb_le in H
  | H : (_ <=? _) = false |- _ => apply Z.leb_gt in H
  | H : (_ =? _) = true |- _ => apply Z.eqb_eq in H
  | H : (_ =? _) = false |- _ => apply Z.eqb_neq in H
  end.

Lemma munmap_walk_no_conflict us ue :
  forall n fuel pred e st,
    null_within n (mm st) e = true ->
    (forall i, In i (walk n (mm st) e) -> ~ overlaps us ue (entry st i)) ->
    (n < fuel)%nat ->
    munmap_walk fuel us ue pred e st = Done st.
Proof.
  induction n as [|n IH]; intros fuel pred e st Hnull Hfree Hfuel;
    (destruct fuel as [|k]; [lia|]); destruct e as [i|]; simpl in *;
    try reflexivity; try discriminate.
  destruct (start_page (entry st i) >? ue) eqn:Hs; [reflexivity|].
  destruct (end_page (entry st i) >=? us) eqn:He.
  - exfalso. apply (Hfree i); [now left|]. unfold overlaps. zbool. lia.
  - apply IH; [exact Hnull| |lia].
    intros j Hj. apply Hfree. now right.
Qed.

Lemma IS_ALIGNED_false addr : addr mod PAGE_SIZE <> 0 -> IS_ALIGNED addr PAGE_SIZE = false.
Proof. intros H. unfold IS_ALIGNED. now apply Z.eqb_neq. Qed.

Lemma IS_ALIGNED_true addr : addr mod PAGE_SIZE = 0 -> IS_ALIGNED addr PAGE_SIZE = true.
Proof. intros H. unfold IS_ALIGNED. now apply Z.eqb_eq. Qed.


Lemma has_flag_zero flags : has_flag flags 0 = false.
Proof. unfold has_flag. now rewrite Z.land_0_r. Qed.

Lemma mm_mmap_heap_clear HB MH fuel addr length prot flags f off st :
  has_flag flags MH = false ->
  mm_mmap HB MH fuel addr length prot flags f off st
  = mm_mmap 0 0 fuel addr length prot flags f off st.
Proof.
  intros H. unfold mm_mmap, choose_address. now rewrite H, has_flag_zero.
Qed.

(** ** Host calls *)

Lemma take_answer_calls h a h' :
  take_answer h = (a, h') ->
  calls h' = calls h /\ next_handle h' = next_handle h.
Proof.
  unfold take_answer. destruct (answers h); intros H; inversion H; subst; auto.
Qed.

Lemma take_answer_counts h a h' :
  counts_handles h -> take_answer h = (a, h') ->
  1 <= handle_count a /\ counts_handles h'.
Proof.
  unfold take_answer, counts_handles. intros HF.
  destruct (answers h) as [|a0 rest] eqn:E; intros H; inversion H; subst.
  - split; [simpl; lia|]. rewrite E. constructor.
  - inversion HF; subst. simpl. auto.
Qed.

Lemma virtual_protect_spec addr size p st ok st' :
  virtual_protect addr size p st = (ok, st') ->
  mm st' = mm st
  /\ calls (os st') = calls (os st) ++ [VirtualProtect addr size p ok].
Proof.
  unfold virtual_protect. destruct (take_answer (os st)) as [a h] eqn:E.
  intros H; inversion H; subst. simpl.
  apply take_answer_calls in E. destruct E as [-> _]. auto.
Qed.

Lemma restore_protection_ok :
  forall n block i st st',
    restore_protection n block i st = (true, st') ->
    mm st' = mm st
    /\ calls (os st') = calls (os st) ++
         map (fun k =>
                let page := GET_FIRST_PAGE_OF_BLOCK block + k in
                VirtualProtect (GET_PAGE_ADDRESS page) PAGE_SIZE
                  (prot_linux2win (page_prot (mm st) page)) true)
             (zrange n i).
Proof.
  induction n as [|n IH]; intros block i st st' H; simpl in H.
  - inversion H; subst. simpl. now rewrite app_nil_r.
  - destruct (virtual_protect _ _ _ st) as [ok st1] eqn:E.
    destruct ok; [|discriminate].
    apply virtual_protect_spec in E. destruct E as [Hm Hc].
    apply IH in H. destruct H as [Hm' Hc'].
    split; [congruence|].
    rewrite Hc', Hc, Hm. simpl. unfold prot_of.
    now rewrite <- app_assoc.
Qed.

Lemma wrap16_block addr :
  0 <= addr < ADDRESS_SPACE_HIGH -> wrap16 (GET_BLOCK addr) = GET_BLOCK addr.
Proof.
  intros H. unfold wrap16, GET_BLOCK, BLOCK_SIZE, ADDRESS_SPACE_HIGH in *.
  apply Z.mod_small. split.
  - apply Z.div_pos; lia.
  - apply Z.div_lt_upper_bound; lia.
Qed.

Lemma host_status_spec c st s st' :
  host_status c st = (s, st') ->
  mm st' = mm st /\ calls (os st') = calls (os st) ++ [c s].
Proof.
  unfold host_status. destruct (take_answer (os st)) as [a h] eqn:E.
  intros H; inversion H; subst. simpl.
  apply take_answer_calls in E. destruct E as [-> _]. auto.
Qed.

Lemma nt_create_section_spec st s hd st' :
  nt_create_section st = (s, hd, st') ->
  mm st' = mm st
  /\ calls (os st') = calls (os st) ++ [NtCreateSection s hd]
  /\ (s = STATUS_SUCCESS -> hd = Z.pos (next_handle (os st)))
  /\ (s <> STATUS_SUCCESS -> hd = 0).
Proof.
  unfold nt_create_section. destruct (take_answer (os st)) as [a h] eqn:E.
  apply take_answer_calls in E. destruct E as [Hc Hn].
  destruct (status a =? STATUS_SUCCESS) eqn:S; intros H; inversion H; subst;
    simpl; zbool; rewrite Hc; repeat split; auto; try congruence.
Qed.

Lemma duplicate_section_spec source source_addr st dest st' :
  duplicate_section source source_addr st = (dest, st') ->
  dest <> 0 ->
  exists dest_addr s_map s_unmap ok,
    mm st' = mm st
    /\ calls (os st') = calls (os st) ++
         [ NtCreateSection STATUS_SUCCESS dest;
           NtMapViewOfSection dest dest_addr s_map;
           VirtualProtect source_addr BLOCK_SIZE PAGE_EXECUTE_READ ok;
           CopyMemory dest_addr source_addr BLOCK_SIZE;
           NtUnmapViewOfSection dest_addr s_unmap ].
Proof.
  unfold duplicate_section.
  destruct (nt_create_section st) as [[s1 hd] st1] eqn:E1.
  apply nt_create_section_spec in E1. destruct E1 as (M1 & C1 & _ & _).
  destruct (s1 =? STATUS_SUCCESS) eqn:S1; simpl.
  2:{ intros H; inversion H; subst. congruence. }
  destruct (take_answer (os st1)) as [a2 h2] eqn:E2.
  apply take_answer_calls in E2. destruct E2 as [C2 _].
  destruct (virtual_protect _ _ _ _) as [ok st3] eqn:E3.
  apply virtual_protect_spec in E3. simpl in E3. destruct E3 as [M3 C3].
  destruct (nt_unmap_view _ _) as [s4 st4] eqn:E4.
  apply host_status_spec in E4. simpl in E4. destruct E4 as [M4 C4].
  intros H _; inversion H; subst; clear H. zbool. subst s1.
  exists (if status a2 =? STATUS_SUCCESS then view_base a2 else 0),
         (status a2), s4, ok.
  split; [congruence|].
  rewrite C4, C3, C2, C1. repeat rewrite <- app_assoc. reflexivity.
Qed.

Lemma clone_block_ok block st st' :
  clone_block block st = (true, st') ->
  exists new dest_addr s_map s_unmap ok,
    new <> 0
    /\ calls (os st') = calls (os st) ++
         clone_calls block (handle_of st block) new dest_addr s_map s_unmap ok
    /\ block_section_handle (mm st')
       = upd (block_section_handle (mm st)) block new
    /\ page_prot (mm st') = page_prot (mm st)
    /\ block_page_count (mm st') = block_page_count (mm st)
    /\ map_list (mm st') = map_list (mm st)
    /\ map_entries (mm st') = map_entries (mm st).
Proof.
  unfold clone_block.
  destruct (duplicate_section _ _ st) as [section st1] eqn:E1.
  destruct (section =? 0) eqn:Hs; [discriminate|]. zbool.
  apply duplicate_section_spec in E1; [|exact Hs].
  destruct E1 as (dest_addr & s_map & s_unmap & ok & M1 & C1).
  destruct (nt_unmap_view _ st1) as [s2 st2] eqn:E2.
  apply host_status_spec in E2. destruct E2 as [M2 C2].
  destruct (s2 =? STATUS_SUCCESS) eqn:S2; simpl; [|discriminate].
  destruct (nt_map_view _ _ _) as [s3 st3] eqn:E3.
  apply host_status_spec in E3. simpl in E3. destruct E3 as [M3 C3].
  destruct (s3 =? STATUS_SUCCESS) eqn:S3; simpl; [|discriminate].
  intros H; inversion H; subst; clear H. zbool. subst s2 s3.
  exists section, dest_addr, s_map, s_unmap, ok.
  split; [exact Hs|]. split.
  { rewrite C3, C2, C1. unfold clone_calls, handle_of. rewrite M2, M1.
    repeat rewrite <- app_assoc. reflexivity. }
  rewrite M3, M2, M1. repeat split; reflexivity.
Qed.

Lemma nt_query_object_spec hd st s c st' :
  nt_query_object hd st = (s, c, st') ->
  mm st' = mm st
  /\ calls (os st') = calls (os st) ++ [NtQueryObject hd s c]
  /\ (counts_handles (os st) -> 1 <= c).
Proof.
  unfold nt_query_object. destruct (take_answer (os st)) as [a h] eqn:E.
  intros H; inversion H; subst. simpl.
  destruct (take_answer_calls _ _ _ E) as [-> _].
  repeat split; auto.
  intros Hc. now destruct (take_answer_counts _ _ _ Hc E).
Qed.

(** ** Releases, section allocation and roll back *)

Lemma releases_refl st : releases st st.
Proof.
  split; [auto|]. exists []. now rewrite app_nil_r.
Qed.

Lemma releases_trans st1 st2 st3 :
  releases st1 st2 -> releases st2 st3 -> releases st1 st3.
Proof.
  intros [H1 [e1 [C1 F1]]]. intros [H2 [e2 [C2 F2]]]. split.
  - intros b. destruct (H2 b) as [-> | ->]; auto.
  - exists (e1 ++ e2). rewrite C2, C1, app_assoc. split; [reflexivity|].
    apply Forall_app; auto.
Qed.

Lemma releases_step st st' evs :
  block_section_handle (mm st') = block_section_handle (mm st) ->
  calls (os st') = calls (os st) ++ evs ->
  Forall release_like evs ->
  releases st st'.
Proof.
  intros H C F. split.
  - intros b. right. unfold handle_of. now rewrite H.
  - now exists evs.
Qed.

Lemma release_block_releases i st : releases st (release_block i st).
Proof.
  unfold release_block.
  destruct (nt_unmap_view _ st) as [s st1] eqn:E.
  apply host_status_spec in E. destruct E as [M C]. split.
  - intros b. unfold handle_of, set_handle, nt_close, host_do. simpl.
    unfold upd. destruct (b =? i); [now left|right]. now rewrite M.
  - exists [NtUnmapViewOfSection (GET_BLOCK_ADDRESS i) s;
            NtClose (handle_of st1 i)].
    unfold set_handle, nt_close, host_do. simpl. rewrite C, <- app_assoc.
    split; [reflexivity|]. repeat constructor.
Qed.

Lemma free_unused_blocks_releases :
  forall fuel eb i st st',
    free_unused_blocks fuel eb i st = Done st' -> releases st st'.
Proof.
  induction fuel as [|k IH]; intros eb i st st' H; simpl in H; [discriminate|].
  destruct (i <=? eb).
  - apply IH in H. eapply releases_trans; [|exact H].
    destruct (count_of st i =? 0);
      [apply release_block_releases|apply releases_refl].
  - inversion H; subst. apply releases_refl.
Qed.

Lemma dec_page_counts_frame :
  forall n i st,
    block_section_handle (mm (dec_page_counts n i st))
    = block_section_handle (mm st)
    /\ os (dec_page_counts n i st) = os st.
Proof.
  induction n as [|n IH]; intros i st; simpl; [auto|].
  destruct (IH (i + 1) (set_count (GET_BLOCK_OF_PAGE i)
                          (wrap8 (count_of st (GET_BLOCK_OF_PAGE i) - 1)) st))
    as [-> ->].
  auto.
Qed.

Lemma modify_entry_releases i pred sp ep st pred' e' st' :
  modify_entry i pred sp ep st = Done (pred', e', st') -> releases st st'.
Proof.
  unfold modify_entry.
  destruct ((sp >? start_page (entry st i)) && (ep <? end_page (entry st i))).
  { unfold new_map_entry. destruct (map_free_list (mm st)); [|discriminate].
    match goal with |- context [if ?c then _ else _] => destruct c end;
      intros H; inversion H; subst;
      apply releases_step with (evs := []); simpl;
      auto using app_nil_r. }
  destruct (sp >? start_page (entry st i)).
  { intros H; inversion H; subst.
    apply releases_step with (evs := []); simpl; auto using app_nil_r. }
  destruct (ep <? end_page (entry st i)).
  { match goal with |- context [if ?c then _ else _] => destruct c end;
      intros H; inversion H; subst;
      apply releases_step with (evs := []); simpl;
      auto using app_nil_r. }
  destruct (negb (f (entry st i) =? 0)); destruct pred;
    intros H; inversion H; subst.
  1,2: apply releases_step with (evs := [vfs_release (f (entry st i))]);
       simpl; auto; repeat constructor.
  1,2: apply releases_step with (evs := []); simpl; auto using app_nil_r.
Qed.

Lemma munmap_walk_releases :
  forall fuel us ue pred e st st',
    munmap_walk fuel us ue pred e st = Done st' -> releases st st'.
Proof.
  induction fuel as [|k IH]; intros us ue pred e st st' H; simpl in H;
    [discriminate|].
  destruct e as [i|]; [|inversion H; subst; apply releases_refl].
  destruct (start_page (entry st i) >? ue);
    [inversion H; subst; apply releases_refl|].
  destruct (end_page (entry st i) >=? us); [|now apply IH in H].
  destruct (modify_entry _ _ _ _ _) as [[[p' e'] st1]| |] eqn:E1;
    simpl in H; try discriminate.
  apply modify_entry_releases in E1.
  destruct (free_unused_blocks _ _ _ _) as [st3| |] eqn:E3;
    simpl in H; try discriminate.
  apply free_unused_blocks_releases in E3.
  apply IH in H.
  eapply releases_trans; [exact E1|].
  eapply releases_trans; [|exact H].
  eapply releases_trans; [|exact E3].
  match goal with |- releases st1 (dec_page_counts ?n ?i st1) =>
    destruct (dec_page_counts_frame n i st1) as [Hh Ho] end.
  apply releases_step with (evs := []);
    [exact Hh|rewrite Ho; now rewrite app_nil_r|constructor].
Qed.

Lemma mm_munmap_releases fuel addr length st r st' :
  mm_munmap fuel addr length st = Done (r, st') -> releases st st'.
Proof.
  unfold mm_munmap.
  destruct (negb _); [intros H; inversion H; subst; apply releases_refl|].
  destruct (bad_range _ _);
    [intros H; inversion H; subst; apply releases_refl|].
  destruct (munmap_walk _ _ _ _ _ _) as [st1| |] eqn:E; simpl;
    try discriminate.
  intros H; inversion H; subst. now apply munmap_walk_releases in E.
Qed.

Lemma release_block_spec i st :
  let st' := release_block i st in
  block_section_handle (mm st') = upd (block_section_handle (mm st)) i 0
  /\ block_page_count (mm st') = block_page_count (mm st)
  /\ exists s, calls (os st') = calls (os st) ++
       [NtUnmapViewOfSection (GET_BLOCK_ADDRESS i) s; NtClose (handle_of st i)].
Proof.
  unfold release_block.
  destruct (nt_unmap_view _ st) as [s st1] eqn:E.
  apply host_status_spec in E. destruct E as [M C].
  unfold set_handle, nt_close, host_do, handle_of. simpl. rewrite M.
  repeat split. exists s. rewrite C, <- app_assoc. reflexivity.
Qed.

Lemma rollback_sections_spec :
  forall n j st,
    let st' := rollback_sections n j st in
    block_page_count (mm st') = block_page_count (mm st)
    /\ (forall b, handle_of st' b = 0 \/ handle_of st' b = handle_of st b)
    /\ exists evs,
         calls (os st') = calls (os st) ++ evs
         /\ Forall release_like evs
         /\ forall b, j <= b < j + Z.of_nat n -> count_of st b = 0 ->
              handle_of st' b = 0
              /\ In (NtClose (handle_of st b)) evs
              /\ exists s, In (NtUnmapViewOfSection (GET_BLOCK_ADDRESS b) s) evs.
Proof.
  induction n as [|n IH]; intros j st; cbn [rollback_sections].
  - split; [reflexivity|]. split; [auto|]. exists [].
    rewrite app_nil_r. split; [reflexivity|]. split; [constructor|].
    intros b Hb. simpl in Hb. lia.
  - set (st1 := if count_of st j =? 0 then release_block j st else st).
    specialize (IH (j + 1) st1). cbv zeta in IH.
    set (st' := rollback_sections n (j + 1) st1) in *.
    destruct IH as (Hcnt & Hh & evs & Hc & Hrel & Hcl).
    assert (Hc1 : block_page_count (mm st1) = block_page_count (mm st)).
    { unfold st1. destruct (count_of st j =? 0); [|reflexivity].
      apply release_block_spec. }
    destruct (count_of st j =? 0) eqn:Hz.
    + destruct (release_block_spec j st) as (Hh1 & _ & s & Hcalls).
      cbv zeta in Hh1, Hcalls. fold st1 in Hh1, Hcalls.
      split; [congruence|]. split.
      { intros b. destruct (Hh b) as [H|H]; [now left|].
        rewrite H. unfold handle_of. rewrite Hh1. unfold upd.
        destruct (b =? j); auto. }
      exists ([NtUnmapViewOfSection (GET_BLOCK_ADDRESS j) s;
               NtClose (handle_of st j)] ++ evs).
      split; [rewrite Hc, Hcalls, <- app_assoc; reflexivity|].
      split; [repeat constructor; exact Hrel|].
      intros b Hb Hb0.
      destruct (Z.eq_dec b j) as [->|Hne].
      * split.
        { destruct (Hh j) as [H|H]; [exact H|]. rewrite H.
          unfold handle_of. rewrite Hh1. unfold upd. now rewrite Z.eqb_refl. }
        split; [simpl; auto|]. exists s. simpl. auto.
      * assert (Hb' : j + 1 <= b < j + 1 + Z.of_nat n) by lia.
        assert (Hb0' : count_of st1 b = 0)
          by (unfold count_of in *; now rewrite Hc1).
        destruct (Hcl b Hb' Hb0') as (H1 & H2 & s' & H3).
        assert (Heq : handle_of st1 b = handle_of st b).
        { unfold handle_of. rewrite Hh1. unfold upd.
          destruct (Z.eqb_spec b j); [contradiction|reflexivity]. }
        rewrite Heq in H2.
        split; [exact H1|]. split; [apply in_or_app; now right|].
        exists s'. apply in_or_app. now right.
    + unfold st1 in *. split; [exact Hcnt|]. split; [exact Hh|].
      exists evs. split; [exact Hc|]. split; [exact Hrel|].
      intros b Hb Hb0.
      assert (b <> j) by (intros ->; zbool; congruence).
      apply Hcl; [lia|exact Hb0].
Qed.

Lemma wrap16_succ i : 0 <= i < 65535 -> wrap16 (i + 1) = i + 1.
Proof. intros H. unfold wrap16. apply Z.mod_small. lia. Qed.

Lemma release_like_not_refusal c : release_like c -> ~ refusal c.
Proof. destruct c; simpl; auto. Qed.

Lemma alloc_sections_spec :
  forall fuel sb eb i st ok st' base evs0 (H0 : Z -> Z),
    alloc_sections fuel sb eb i st = Done (ok, st') ->
    0 <= sb <= i -> eb < 65535 ->
    calls (os st) = base ++ evs0 ->
    Forall (fun c => ~ refusal c) evs0 ->
    (forall h, In (NtCreateSection STATUS_SUCCESS h) evs0 ->
       exists j, sb <= j < i /\ count_of st j = 0 /\ handle_of st j = h) ->
    (forall h b, In (NtMapViewOfSection h b STATUS_SUCCESS) evs0 ->
       exists j, sb <= j < i /\ count_of st j = 0 /\ b = GET_BLOCK_ADDRESS j) ->
    (forall b, handle_of st b = H0 b \/ (sb <= b < i /\ count_of st b = 0)) ->
    block_page_count (mm st') = block_page_count (mm st)
    /\ exists evs,
         calls (os st') = base ++ evs
         /\ if ok then Forall (fun c => ~ refusal c) evs
            else
              (forall h, In (NtCreateSection STATUS_SUCCESS h) evs ->
                 In (NtClose h) evs)
              /\ (forall h b, In (NtMapViewOfSection h b STATUS_SUCCESS) evs ->
                    exists s, In (NtUnmapViewOfSection b s) evs)
              /\ (forall b, handle_of st' b = 0 \/ handle_of st' b = H0 b).
Proof.
  induction fuel as [|k IH];
    intros sb eb i st ok st' base evs0 H0 Hrun Hi Heb Hcalls Hquiet Hcre Hmap Hh;
    cbn [alloc_sections] in Hrun; [discriminate|].
  destruct (i <=? eb) eqn:Hle.
  2:{ inversion Hrun; subst. split; [reflexivity|]. exists evs0. auto. }
  zbool.
  destruct (count_of st i =? 0) eqn:Hz.
  2:{ rewrite wrap16_succ in Hrun by lia.
      eapply IH in Hrun; try eassumption; try lia.
      - intros h Hin. destruct (Hcre h Hin) as (j & Hj & Hc & Hj').
        exists j. repeat split; auto; lia.
      - intros h b Hin. destruct (Hmap h b Hin) as (j & Hj & Hc & Hj').
        exists j. repeat split; auto; lia.
      - intros b. destruct (Hh b) as [H|[H H']]; [now left|right].
        split; [lia|exact H']. }
  zbool.
  destruct (nt_create_section st) as [[s hd] st1] eqn:E1.
  apply nt_create_section_spec in E1. destruct E1 as (M1 & C1 & Hok1 & Hko1).
  assert (Hcnt1 : forall b, count_of st1 b = count_of st b)
    by (intros; unfold count_of; now rewrite M1).
  assert (Hhd1 : forall b, handle_of st1 b = handle_of st b)
    by (intros; unfold handle_of; now rewrite M1).
  destruct (s =? STATUS_SUCCESS) eqn:S1; cbn [negb] in Hrun.
  - (* section created *)
    zbool. subst s.
    destruct (nt_map_view hd (GET_BLOCK_ADDRESS i) st1) as [s2 st2] eqn:E2.
    apply host_status_spec in E2. destruct E2 as [M2 C2].
    assert (Hcnt2 : forall b, count_of st2 b = count_of st b)
      by (intros; unfold count_of; now rewrite M2, M1).
    assert (Hhd2 : forall b, handle_of st2 b = handle_of st b)
      by (intros; unfold handle_of; now rewrite M2, M1).
    destruct (s2 =? STATUS_SUCCESS) eqn:S2; cbn [negb] in Hrun.
    + (* and mapped: next block *)
      zbool. subst s2. rewrite wrap16_succ in Hrun by lia.
      eapply IH with
        (base := base)
        (evs0 := evs0 ++ [NtCreateSection STATUS_SUCCESS hd;
                          NtMapViewOfSection hd (GET_BLOCK_ADDRESS i)
                            STATUS_SUCCESS])
        (H0 := H0) in Hrun; try lia.
      * destruct Hrun as [Hc Hrest]. split; [|exact Hrest].
        rewrite Hc. unfold set_handle. simpl. now rewrite M2, M1.
      * unfold set_handle. simpl. rewrite C2, C1, Hcalls.
        rewrite <- !app_assoc. reflexivity.
      * apply Forall_app. split; [exact Hquiet|].
        repeat constructor; simpl; auto.
      * intros h Hin. apply in_app_or in Hin. destruct Hin as [Hin|Hin].
        -- destruct (Hcre h Hin) as (j & Hj & Hc & Hj').
           exists j. split; [lia|]. unfold count_of, handle_of, set_handle.
           simpl. unfold upd.
           destruct (Z.eqb_spec j i); [lia|].
           unfold count_of, handle_of in *. rewrite M2, M1. auto.
        -- simpl in Hin. destruct Hin as [Hin|[Hin|[]]]; inversion Hin; subst.
           exists i. split; [lia|]. unfold count_of, handle_of, set_handle.
           simpl. unfold upd. rewrite Z.eqb_refl.
           unfold count_of in *. rewrite M2, M1. auto.
      * intros h b Hin. apply in_app_or in Hin. destruct Hin as [Hin|Hin].
        -- destruct (Hmap h b Hin) as (j & Hj & Hc & Hj').
           exists j. split; [lia|]. unfold count_of, set_handle. simpl.
           unfold count_of in *. rewrite M2, M1. auto.
        -- simpl in Hin. destruct Hin as [Hin|[Hin|[]]]; inversion Hin; subst.
           exists i. split; [lia|]. unfold count_of, set_handle. simpl.
           unfold count_of in *. rewrite M2, M1. auto.
      * intros b. unfold count_of, handle_of, set_handle. simpl. unfold upd.
        destruct (Z.eqb_spec b i) as [->|Hne].
        -- right. split; [lia|]. unfold count_of in *. now rewrite M2, M1.
        -- rewrite M2, M1. destruct (Hh b) as [H|[H H']]; [now left|right].
           split; [lia|exact H'].
    + (* mapping refused: close, roll back *)
      zbool. inversion Hrun; subst; clear Hrun.
      set (stc := nt_close hd st2).
      assert (Mc : mm stc = mm st) by (unfold stc, nt_close, host_do; simpl;
                                        now rewrite M2, M1).
      assert (Cc : calls (os stc) = base ++ evs0 ++
                [NtCreateSection STATUS_SUCCESS hd;
                 NtMapViewOfSection hd (GET_BLOCK_ADDRESS i) s2; NtClose hd]).
      { unfold stc, nt_close, host_do. simpl. rewrite C2, C1, Hcalls.
        rewrite <- !app_assoc. reflexivity. }
      pose proof (rollback_sections_spec (Z.to_nat (i - sb)) sb stc) as R.
      cbv zeta in R. destruct R as (Rc & Rh & evsR & RC & Rrel & Rall).
      split; [rewrite Rc, Mc; reflexivity|].
      exists (evs0 ++ [NtCreateSection STATUS_SUCCESS hd;
                       NtMapViewOfSection hd (GET_BLOCK_ADDRESS i) s2;
                       NtClose hd] ++ evsR).
      split; [rewrite RC, Cc, <- !app_assoc; reflexivity|].
      assert (Hroll : forall j, sb <= j < i -> count_of st j = 0 ->
                handle_of (rollback_sections (Z.to_nat (i - sb)) sb stc) j = 0
                /\ In (NtClose (handle_of st j)) evsR
                /\ exists s, In (NtUnmapViewOfSection (GET_BLOCK_ADDRESS j) s) evsR).
      { intros j Hj Hc.
        assert (Hc' : count_of stc j = 0) by (unfold count_of in *; now rewrite Mc).
        destruct (Rall j ltac:(lia) Hc') as (A & B & C).
        replace (handle_of stc j) with (handle_of st j) in B
          by (unfold handle_of; now rewrite Mc).
        auto. }
      split; [|split].
      * intros h Hin. rewrite !in_app_iff in *. simpl in Hin.
        destruct Hin as [Hin|[[Hin|[Hin|[Hin|[]]]]|Hin]]; try discriminate.
        -- destruct (Hcre h Hin) as (j & Hj & Hc & <-).
           right. right. now apply Hroll.
        -- inversion Hin; subst. right. left. simpl. auto.
        -- rewrite Forall_forall in Rrel. destruct (Rrel _ Hin).
      * intros h b Hin. rewrite !in_app_iff in Hin. simpl in Hin.
        destruct Hin as [Hin|[[Hin|[Hin|[Hin|[]]]]|Hin]]; try discriminate.
        -- destruct (Hmap h b Hin) as (j & Hj & Hc & ->).
           destruct (Hroll j Hj Hc) as (_ & _ & s & Hs).
           exists s. rewrite !in_app_iff. auto.
        -- inversion Hin; subst. congruence.
        -- rewrite Forall_forall in Rrel. destruct (Rrel _ Hin).
      * intros b. destruct (Hh b) as [H|[H H']].
        -- destruct (Rh b) as [R|R]; [now left|right].
           rewrite R. unfold handle_of in *. now rewrite Mc.
        -- left. now apply Hroll.
  - (* creation refused: roll back *)
    zbool. inversion Hrun; subst; clear Hrun.
    assert (Cc : calls (os st1) = base ++ evs0 ++ [NtCreateSection s hd])
      by (rewrite C1, Hcalls, <- app_assoc; reflexivity).
    pose proof (rollback_sections_spec (Z.to_nat (i - sb)) sb st1) as R.
    cbv zeta in R. destruct R as (Rc & Rh & evsR & RC & Rrel & Rall).
    split; [rewrite Rc, M1; reflexivity|].
    exists (evs0 ++ [NtCreateSection s hd] ++ evsR).
    split; [rewrite RC, Cc, <- !app_assoc; reflexivity|].
    assert (Hroll : forall j, sb <= j < i -> count_of st j = 0 ->
              handle_of (rollback_sections (Z.to_nat (i - sb)) sb st1) j = 0
              /\ In (NtClose (handle_of st j)) evsR
              /\ exists s, In (NtUnmapViewOfSection (GET_BLOCK_ADDRESS j) s) evsR).
    { intros j Hj Hc.
      assert (Hc' : count_of st1 j = 0) by now rewrite Hcnt1.
      destruct (Rall j ltac:(lia) Hc') as (A & B & C).
      rewrite Hhd1 in B. auto. }
    split; [|split].
    + intros h Hin. rewrite !in_app_iff in *. simpl in Hin.
      destruct Hin as [Hin|[[Hin|[]]|Hin]].
      * destruct (Hcre h Hin) as (j & Hj & Hc & <-).
        right. right. now apply Hroll.
      * inversion Hin; subst. congruence.
      * rewrite Forall_forall in Rrel. destruct (Rrel _ Hin).
    + intros h b Hin. rewrite !in_app_iff in Hin. simpl in Hin.
      destruct Hin as [Hin|[[Hin|[]]|Hin]]; try discriminate.
      * destruct (Hmap h b Hin) as (j & Hj & Hc & ->).
        destruct (Hroll j Hj Hc) as (_ & _ & s' & Hs).
        exists s'. rewrite !in_app_iff. auto.
      * rewrite Forall_forall in Rrel. destruct (Rrel _ Hin).
    + intros b. destruct (Hh b) as [H|[H H']].
      * destruct (Rh b) as [R|R]; [now left|right].
        rewrite R, Hhd1. exact H.
      * left. now apply Hroll.
Qed.

Lemma skipn_app_exact {A : Type} (l l' : list A) :
  skipn (length l) (l ++ l') = l'.
Proof. induction l as [|a l IH]; simpl; auto. Qed.

Lemma new_calls_app st st' evs :
  calls (os st') = calls (os st) ++ evs -> new_calls st st' = evs.
Proof. intros H. unfold new_calls. rewrite H. apply skipn_app_exact. Qed.

Lemma new_calls_same st : new_calls st st = [].
Proof. apply new_calls_app. now rewrite app_nil_r. Qed.

Lemma not_refused_nil : ~ section_refused [].
Proof. intros (c & [] & _). Qed.

Lemma not_refused_quiet evs :
  Forall (fun c => ~ refusal c) evs -> ~ section_refused evs.
Proof.
  intros HF (c & Hin & Hr). rewrite Forall_forall in HF. now apply (HF c).
Qed.

Lemma insert_after_os :
  forall fuel n ep e st st',
    insert_after fuel n ep e st = Done st' ->
    os st' = os st
    /\ block_section_handle (mm st') = block_section_handle (mm st).
Proof.
  induction fuel as [|k IH]; intros n ep e st st' H; simpl in H;
    [discriminate|].
  destruct e as [i|]; [|inversion H; subst; auto].
  match type of H with (if ?c then _ else _) = _ => destruct c end.
  - inversion H; subst. simpl. auto.
  - now apply IH in H.
Qed.

Lemma insert_entry_os fuel n ep st st' :
  insert_entry fuel n ep st = Done st' ->
  os st' = os st
  /\ block_section_handle (mm st') = block_section_handle (mm st).
Proof.
  unfold insert_entry. destruct (map_list (mm st)) as [h|].
  - destruct (start_page (entry st h) >? ep).
    + intros H; inversion H; subst. simpl. auto.
    + apply insert_after_os.
  - intros H; inversion H; subst. simpl. auto.
Qed.

Lemma map_pages_calls :
  forall n i prot st ok st',
    map_pages n i prot st = (ok, st') ->
    block_section_handle (mm st') = block_section_handle (mm st)
    /\ exists evs, calls (os st') = calls (os st) ++ evs
                   /\ Forall (fun c => ~ refusal c) evs.
Proof.
  induction n as [|n IH]; intros i prot st ok st' H; cbn [map_pages] in H.
  - inversion H; subst. split; [reflexivity|]. exists [].
    now rewrite app_nil_r.
  - destruct (virtual_protect _ _ _ _) as [ok1 st1] eqn:E.
    apply virtual_protect_spec in E. simpl in E. destruct E as [M C].
    destruct ok1.
    + apply IH in H. destruct H as [Hh (evs & Hc & Hq)].
      split; [now rewrite Hh, M|].
      eexists. rewrite Hc, C, <- app_assoc. split; [reflexivity|].
      constructor; [simpl; auto|exact Hq].
    + inversion H; subst. split; [now rewrite M|].
      eexists. rewrite C. split; [reflexivity|].
      repeat constructor. simpl. auto.
Qed.

Lemma mm_mmap_at_refused fuel a L prot flags f off st r st' :
  mm_mmap_at fuel a L prot flags f off st = Done (r, st') ->
  0 <= a -> 0 < L -> a + L <= ADDRESS_SPACE_HIGH ->
  section_refused (new_calls st st') ->
  r = ERRP ENOMEM
  /\ (forall h, In (NtCreateSection STATUS_SUCCESS h) (new_calls st st') ->
        In (NtClose h) (new_calls st st'))
  /\ (forall h b,
        In (NtMapViewOfSection h b STATUS_SUCCESS) (new_calls st st') ->
        exists s, In (NtUnmapViewOfSection b s) (new_calls st st'))
  /\ (forall b, handle_of st' b = 0 \/ handle_of st' b = handle_of st b).
Proof.
  intros Hrun Ha HL Hhigh Href. unfold mm_mmap_at in Hrun.
  assert (Hw : wrap32 (a + L - 1) = a + L - 1)
    by (apply wrap32_small; unfold ADDRESS_SPACE_HIGH in *; lia).
  rewrite Hw in Hrun.
  assert (Hsb : wrap16 (GET_BLOCK a) = GET_BLOCK a)
    by (apply wrap16_block; unfold ADDRESS_SPACE_HIGH in *; lia).
  assert (Heb : wrap16 (GET_BLOCK (a + L - 1)) = GET_BLOCK (a + L - 1))
    by (apply wrap16_block; unfold ADDRESS_SPACE_HIGH in *; lia).
  rewrite Hsb, Heb in Hrun.
  assert (Hsb0 : 0 <= GET_BLOCK a)
    by (unfold GET_BLOCK, BLOCK_SIZE; apply Z.div_pos; lia).
  assert (Heb1 : GET_BLOCK (a + L - 1) < 65535).
  { unfold GET_BLOCK, BLOCK_SIZE, ADDRESS_SPACE_HIGH in *.
    apply Z.div_lt_upper_bound; lia. }
  (* the unmapping of a fixed range *)
  assert (Hphase1 : exists st1,
             (if has_flag flags MAP_FIXED
              then '(_, s) <- mm_munmap fuel a L st;; Done s
              else Done st) = Done st1 /\ releases st st1).
  { destruct (has_flag flags MAP_FIXED).
    - destruct (mm_munmap fuel a L st) as [[r1 s1]| |] eqn:E;
        simpl in Hrun; try discriminate.
      exists s1. split; [reflexivity|]. now apply mm_munmap_releases in E.
    - exists st. split; [reflexivity|apply releases_refl]. }
  destruct Hphase1 as (st1 & E1 & Hrel1). rewrite E1 in Hrun.
  cbn [obind] in Hrun.
  destruct Hrel1 as [Hh1 [evsM [CM RM]]].
  destruct (alloc_sections fuel _ _ _ st1) as [[ok st2]| |] eqn:E2;
    cbn [obind] in Hrun; try discriminate.
  eapply alloc_sections_spec with (base := calls (os st)) (evs0 := evsM)
    (H0 := handle_of st1) in E2; try lia; try exact CM.
  2:{ eapply Forall_impl; [|exact RM]. apply release_like_not_refusal. }
  2:{ intros h Hin. rewrite Forall_forall in RM. destruct (RM _ Hin). }
  2:{ intros h b Hin. rewrite Forall_forall in RM. destruct (RM _ Hin). }
  destruct E2 as [_ (evs & C2 & Hres)].
  destruct ok; cbn [negb] in Hrun.
  - (* every section was granted: no refusal in this call *)
    exfalso.
    destruct (new_map_entry st2) as [[n|] st3] eqn:E3; [|discriminate].
    assert (O3 : os st3 = os st2).
    { unfold new_map_entry in E3. destruct (map_free_list (mm st2));
        inversion E3; subst; reflexivity. }
    match type of Hrun with
    | (st_ <- insert_entry fuel n ?ep ?s ;; _) = _ =>
        destruct (insert_entry fuel n ep s) as [st5| |] eqn:E5;
        cbn [obind] in Hrun; try discriminate;
        assert (C4 : exists evsF, calls (os s) = calls (os st3) ++ evsF
                                  /\ Forall (fun c => ~ refusal c) evsF)
    end.
    { destruct (negb (f =? 0)).
      - eexists. unfold host_do. simpl. rewrite <- app_assoc.
        split; [reflexivity|]. repeat constructor; simpl; auto.
      - exists []. simpl. rewrite app_nil_r. split; [reflexivity|constructor]. }
    destruct C4 as (evsF & C4 & QF).
    apply insert_entry_os in E5. destruct E5 as [O5 _].
    destruct (map_pages _ _ _ st5) as [ok7 st7] eqn:E7.
    apply map_pages_calls in E7. destruct E7 as [_ (evsP & C7 & QP)].
    assert (Hst' : st' = st7) by (destruct ok7; inversion Hrun; auto).
    subst st'.
    apply (not_refused_quiet (evs ++ evsF ++ evsP)).
    + apply Forall_app. split; [exact Hres|]. apply Forall_app. auto.
    + rewrite (new_calls_app st st7 (evs ++ evsF ++ evsP)) in Href;
        [exact Href|].
      rewrite C7, O5, C4, O3, C2, <- !app_assoc. reflexivity.
  - inversion Hrun; subst; clear Hrun.
    rewrite (new_calls_app st st' evs C2) in *.
    destruct Hres as (R1 & R2 & R3).
    split; [reflexivity|]. split; [exact R1|]. split; [exact R2|].
    intros b. destruct (R3 b) as [H|H]; [now left|].
    rewrite H. apply Hh1.
Qed.

(** ** Results of mm_mmap *)


Lemma ERRP_nonneg e : 0 <= ERRP e.
Proof. unfold ERRP. apply wrap32_range. Qed.

Lemma mm_mmap_at_result fuel a L prot flags f off st r st' :
  mm_mmap_at fuel a L prot flags f off st = Done (r, st') ->
  r = a \/ r = ERRP ENOMEM.
Proof.
  unfold mm_mmap_at.
  match goal with
  | |- (st_ <- ?m ;; _) = _ -> _ => destruct m as [st1| |]
  end; cbn [obind]; try discriminate.
  destruct (alloc_sections _ _ _ _ _) as [[ok st2]| |]; cbn [obind];
    try discriminate.
  destruct ok; cbn [negb]; [|intros H; inversion H; auto].
  destruct (new_map_entry st2) as [[n|] st3]; [|discriminate].
  match goal with
  | |- (st_ <- ?m ;; _) = _ -> _ => destruct m as [st5| |]
  end; cbn [obind]; try discriminate.
  destruct (map_pages _ _ _ _) as [[|] st7]; intros H; inversion H; auto.
Qed.

Lemma choose_address_nonneg HB MH fuel addr L flags m a :
  choose_address HB MH fuel addr L flags m = Done (Some a) ->
  0 <= addr -> 0 <= a.
Proof.
  unfold choose_address. intros H Haddr.
  destruct (negb (has_flag flags MAP_FIXED)).
  - match type of H with
    | (alloc_page <- ?m ;; _) = _ => destruct m as [p| |]
    end; cbn [obind] in H; try discriminate.
    destruct (p =? 0); inversion H; subst.
    unfold GET_PAGE_ADDRESS. apply wrap32_range.
  - inversion H; subst. exact Haddr.
Qed.

Lemma mm_mmap_result_nonneg HB MH fuel addr length prot flags f off st r st' :
  mm_mmap HB MH fuel addr length prot flags f off st = Done (r, st') ->
  0 <= addr -> 0 <= r.
Proof.
  unfold mm_mmap. intros H Haddr.
  repeat match type of H with
         | (if ?c then Done (ERRP _, _) else _) = _ =>
             destruct c; [inversion H; subst; apply ERRP_nonneg|]
         end.
  destruct (choose_address _ _ _ _ _ _ _) as [[a|]| |] eqn:E;
    cbn [obind] in H; try discriminate.
  - apply choose_address_nonneg in E; [|exact Haddr].
    destruct (_ && _); [inversion H; subst; apply ERRP_nonneg|].
    apply mm_mmap_at_result in H. destruct H as [-> | ->];
      [exact E|apply ERRP_nonneg].
  - inversion H; subst. apply ERRP_nonneg.
Qed.

(** ** Code-level facts at concrete inputs *)

Lemma walk_self_loop (m : mm_data) (i : Z) :
  next (map_entries m i) = Some i ->
  forall n j, In j (walk n m (Some i)) -> j = i.
Proof.
  intros Hloop n; induction n as [|n IH]; intros j Hin; simpl in Hin.
  - contradiction.
  - destruct Hin as [<-|Hin]; [reflexivity|].
    rewrite Hloop in Hin. now apply IH.
Qed.

(** C1. The insertion of mm_mmap before the current head links the new
    entry to the head's successor, not to the head, and the insertion into
    the empty list leaves the new entry linked to the free list.  After
    mmap(0x20000000) and mmap(0x10000000), both successful, the list is the
    second entry followed by itself: it is not strictly increasing, and the
    first entry, whose page is still mapped, is not reachable from the
    head. *)
Theorem mmap_before_head_unlinks_head (HEAP_BASE MAP_HEAP : Z) :
  let st1 := state_after (high_then_low_1 HEAP_BASE MAP_HEAP) (mm_init []) in
  let st2 := state_after (high_then_low_2 HEAP_BASE MAP_HEAP) (mm_init []) in
  returned (high_then_low_1 HEAP_BASE MAP_HEAP) = Some 0x20000000
  /\ returned (high_then_low_2 HEAP_BASE MAP_HEAP) = Some 0x10000000
  /\ map_list (mm st1) = Some 0
  /\ (start_page (entry st1 0), end_page (entry st1 0)) = (0x20000, 0x20000)
  /\ next (entry st1 0) = map_free_list (mm st1)
  /\ map_list (mm st2) = Some 1
  /\ (start_page (entry st2 1), end_page (entry st2 1)) = (0x10000, 0x10000)
  /\ next (entry st2 1) = Some 1
  /\ sorted_prefix 2 st2 = false
  /\ (forall n, ~ In 0 (walk n (mm st2) (map_list (mm st2))))
  /\ prot_of st2 0x20000 = RW
  /\ count_of st2 0x2000 = 1.
Proof.
  intros st1 st2.
  assert (Hhead : map_list (mm st2) = Some 1) by (vm_compute; reflexivity).
  assert (Hloop : next (map_entries (mm st2) 1) = Some 1)
    by (vm_compute; reflexivity).
  repeat split; try (vm_compute; reflexivity).
  intros n Hin. rewrite Hhead in Hin.
  apply (walk_self_loop (mm st2) 1 Hloop) in Hin. discriminate Hin.
Qed.

(** C2. After mmap(0x20000000), mmap(0x10000000) and munmap(0x10000000),
    all successful, block 0x1000 has no section handle and a page count of
    255: the walk of mm_munmap met the unmapped entry a second time through
    the link left by the insertion. *)
Theorem munmap_after_head_insertion_breaks_ledger (HEAP_BASE MAP_HEAP : Z) :
  let st3 := state_after (high_then_low_3 HEAP_BASE MAP_HEAP) (mm_init []) in
  returned (high_then_low_1 HEAP_BASE MAP_HEAP) = Some 0x20000000
  /\ returned (high_then_low_2 HEAP_BASE MAP_HEAP) = Some 0x10000000
  /\ returned (high_then_low_3 HEAP_BASE MAP_HEAP) = Some 0
  /\ handle_of st3 0x1000 = 0
  /\ count_of st3 0x1000 = 255.
Proof.
  intros st3. repeat split; vm_compute; reflexivity.
Qed.

(** C5. With the pages 0x20000..0x20002 mapped as one entry, sys_mprotect
    of the middle page returns -ENOMEM and leaves the protection bytes as
    they were: the validation accepts only a range that starts where an
    entry starts.  And with nothing mapped, sys_mprotect of page 0 returns
    0 and stores the protection: the validation starts from
    [start_page - 1], which wraps for page 0. *)
Theorem mprotect_inside_entry_enomem (HEAP_BASE MAP_HEAP : Z) :
  let st1 := state_after (three_pages HEAP_BASE MAP_HEAP) (mm_init []) in
  let st2 := state_after (protect_middle HEAP_BASE MAP_HEAP) (mm_init []) in
  returned (three_pages HEAP_BASE MAP_HEAP) = Some 0x20000000
  /\ map_list (mm st1) = Some 0
  /\ in_entry (GET_PAGE 0x20001000) (entry st1 0)
  /\ returned (protect_middle HEAP_BASE MAP_HEAP) = Some (ERRI ENOMEM)
  /\ prot_of st2 0x20001 = RW
  /\ map_list (mm (mm_init [])) = None
  /\ returned protect_unmapped = Some 0
  /\ prot_of (state_after protect_unmapped (mm_init [])) 0 = PROT_READ.
Proof.
  intros st1 st2. repeat split; vm_compute; try reflexivity; discriminate.
Qed.

(** C4. With the pages 0x3FFF..0x4000 mapped as one entry (a FIXED mapping
    across 0x04000000), a mapping without FIXED and without the HEAP flag
    succeeds and returns 0x04000000, whose page 0x4000 belongs to that
    entry: find_free_pages skips every entry that starts below the window,
    also one that reaches into it.  And with page 0x70000 mapped,
    find_free_pages asked for more pages than the main window holds
    returns page 0x70001, beyond the window: the last subtraction wraps. *)
Theorem mmap_hands_out_mapped_page (HEAP_BASE MAP_HEAP : Z) :
  has_flag ANON MAP_HEAP = false ->
  let st1 := state_after (straddle_1 HEAP_BASE MAP_HEAP) (mm_init []) in
  returned (straddle_1 HEAP_BASE MAP_HEAP) = Some 0x03FFF000
  /\ map_list (mm st1) = Some 0
  /\ (start_page (entry st1 0), end_page (entry st1 0)) = (0x3FFF, 0x4000)
  /\ returned (straddle_2 HEAP_BASE MAP_HEAP) = Some ADDRESS_ALLOCATION_LOW
  /\ in_entry (GET_PAGE ADDRESS_ALLOCATION_LOW) (entry st1 0)
  /\ returned (top_entry HEAP_BASE MAP_HEAP) = Some ADDRESS_ALLOCATION_HIGH
  /\ search_too_many HEAP_BASE MAP_HEAP = Done 0x70001
  /\ GET_PAGE ADDRESS_ALLOCATION_HIGH < 0x70001.
Proof.
  intros Hheap st1.
  split; [vm_compute; reflexivity|].
  split; [vm_compute; reflexivity|].
  split; [vm_compute; reflexivity|].
  split.
  { unfold straddle_2. rewrite mm_mmap_heap_clear by exact Hheap.
    vm_compute. reflexivity. }
  split; [vm_compute; split; discriminate|].
  split; [vm_compute; reflexivity|].
  split; vm_compute; reflexivity.
Qed.

Lemma mmap_hands_out_mapped_page_witness :
  returned (straddle_2 0x02000000 0x40000000) = Some ADDRESS_ALLOCATION_LOW
  /\ in_entry (GET_PAGE ADDRESS_ALLOCATION_LOW)
       (entry (state_after (straddle_1 0x02000000 0x40000000) (mm_init [])) 0).
Proof.
  destruct (mmap_hands_out_mapped_page 0x02000000 0x40000000)
    as (_ & _ & _ & H1 & H2 & _).
  - vm_compute. reflexivity.
  - split; [exact H1|exact H2].
Defined.

(** ** mm_munmap: validation *)

(** C10.  With the pages 0x20000..0x20002 mapped as one entry,
    mm_munmap(0x20001000, 0xFFFFF001), whose range runs past 2^32, does not
    return -EINVAL: ALIGN_TO_PAGE rounds the length to 0, the range test
    sees an empty range, and the call returns 0 after splitting the entry
    into [0x20000, 0x20000] and [0x20001, 0x20002], one free entry used up.
    And with nothing mapped, mm_munmap(0x7FFFF000, 0x1000), whose range
    ends exactly at 0x80000000 and meets no entry, returns -EINVAL. *)
Theorem munmap_wrapped_length_accepted (HEAP_BASE MAP_HEAP : Z) :
  let st := state_after (three_pages HEAP_BASE MAP_HEAP) (mm_init []) in
  let st' := state_after (wrapped_munmap HEAP_BASE MAP_HEAP) st in
  2 ^ 32 <= 0x20001000 + 0xFFFFF001
  /\ ALIGN_TO_PAGE 0xFFFFF001 = 0
  /\ map_list (mm st) = Some 0
  /\ (start_page (entry st 0), end_page (entry st 0)) = (0x20000, 0x20002)
  /\ map_free_list (mm st) = Some 1
  /\ returned (wrapped_munmap HEAP_BASE MAP_HEAP) = Some 0
  /\ map_list (mm st') = Some 0
  /\ (start_page (entry st' 0), end_page (entry st' 0)) = (0x20000, 0x20000)
  /\ (start_page (entry st' 1), end_page (entry st' 1)) = (0x20001, 0x20002)
  /\ map_free_list (mm st') = Some 2
  /\ 0x7FFFF000 + 0x1000 <= ADDRESS_SPACE_HIGH
  /\ map_list (mm (mm_init [])) = None
  /\ returned munmap_top_page = Some (ERRI EINVAL).
Proof.
  intros st st'.
  repeat match goal with |- _ /\ _ => split end;
    vm_compute; try reflexivity; discriminate.
Qed.

(** The checks of mm_munmap on the rounding of the code.  The call returns
    -EINVAL and leaves the whole state as it was
    when the address is not page aligned, or when the range of the
    page-rounded length (ALIGN_TO_PAGE, the rounding of the code) wraps
    past 2^32, ends at or beyond 0x80000000, or starts there.  The length
    need not be aligned: it is rounded up to the next multiple of the page
    size, and the call on the rounded length is the same call.  When the
    map list ends in NULL and none of its entries is in conflict with the
    pages of the range, the call returns 0 and leaves the state as it
    was. *)
Theorem mm_munmap_validation (fuel : nat) (addr length : Z) (st : state) :
  let L := ALIGN_TO_PAGE length in
  (addr mod PAGE_SIZE <> 0 ->
   mm_munmap fuel addr length st = Done (ERRI EINVAL, st))
  /\ (0 <= addr < 2 ^ 32 ->
      2 ^ 32 <= addr + L \/ ADDRESS_SPACE_HIGH <= addr + L
      \/ ADDRESS_SPACE_HIGH <= addr ->
      mm_munmap fuel addr length st = Done (ERRI EINVAL, st))
  /\ (0 <= length <= 0xFFFFF000 ->
      L = PAGE_SIZE * ((length + PAGE_SIZE - 1) / PAGE_SIZE))
  /\ mm_munmap fuel addr length st = mm_munmap fuel addr L st
  /\ (forall n,
        addr mod PAGE_SIZE = 0 -> 0 <= addr ->
        addr + L < ADDRESS_SPACE_HIGH ->
        null_within n (mm st) (map_list (mm st)) = true ->
        (n < fuel)%nat ->
        (forall i, In i (walk n (mm st) (map_list (mm st))) ->
                   ~ overlaps (GET_PAGE addr) (GET_PAGE (wrap32 (addr + L - 1)))
                       (entry st i)) ->
        mm_munmap fuel addr length st = Done (0, st)).
Proof.
  intros L. pose proof (ALIGN_TO_PAGE_range length) as HL. fold L in HL.
  split; [|split; [|split; [|split]]].
  - intros Hna. unfold mm_munmap. now rewrite IS_ALIGNED_false.
  - intros Ha Hbad. unfold mm_munmap.
    destruct (IS_ALIGNED addr PAGE_SIZE); [|reflexivity]. simpl.
    fold L.
    assert (Hb : bad_range addr L = true).
    { apply bad_range_spec; [exact Ha|exact HL|].
      unfold ADDRESS_SPACE_HIGH in *. lia. }
    now rewrite Hb.
  - intros Hlen. now apply ALIGN_TO_PAGE_spec.
  - unfold mm_munmap. unfold L. now rewrite ALIGN_TO_PAGE_idem.
  - intros n Hal H0 Hhigh Hnull Hfuel Hfree. unfold mm_munmap.
    rewrite IS_ALIGNED_true by exact Hal. simpl. fold L.
    assert (Hb : bad_range addr L = false).
    { destruct (bad_range addr L) eqn:Hb; [|reflexivity].
      apply bad_range_spec in Hb; unfold ADDRESS_SPACE_HIGH in *; lia. }
    rewrite Hb.
    rewrite (munmap_walk_no_conflict _ _ n); auto.
Qed.

Lemma mm_munmap_validation_witness :
  let st := state_after (three_pages 0 0) (mm_init []) in
  mm_munmap FUEL 0x20000800 0x1000 st = Done (ERRI EINVAL, st)
  /\ mm_munmap FUEL 0x7FFFF000 0x1000 st = Done (ERRI EINVAL, st)
  /\ ALIGN_TO_PAGE 0x1001 = PAGE_SIZE * ((0x1001 + PAGE_SIZE - 1) / PAGE_SIZE)
  /\ mm_munmap FUEL 0x30000000 0x1001 st = Done (0, st).
Proof.
  intros st. split; [|split; [|split]].
  - destruct (mm_munmap_validation FUEL 0x20000800 0x1000 st) as (H & _).
    apply H. vm_compute. discriminate.
  - destruct (mm_munmap_validation FUEL 0x7FFFF000 0x1000 st)
      as (_ & H & _).
    apply H.
    + vm_compute. split; [discriminate|reflexivity].
    + right. left. vm_compute. discriminate.
  - destruct (mm_munmap_validation FUEL 0x20000000 0x1001 st)
      as (_ & _ & H & _).
    apply H. vm_compute. split; discriminate.
  - destruct (mm_munmap_validation FUEL 0x30000000 0x1001 st)
      as (_ & _ & _ & _ & H).
    apply (H (Z.to_nat 65535)).
    + vm_compute. reflexivity.
    + vm_compute. discriminate.
    + vm_compute. reflexivity.
    + vm_compute. reflexivity.
    + apply Nat2Z.inj_lt. unfold FUEL. rewrite !Z2Nat.id by lia. lia.
    + assert (Hall : forallb
                (fun i => (GET_PAGE (wrap32 (0x30000000 + ALIGN_TO_PAGE 0x1001 - 1))
                           <? start_page (entry st i))
                          || (end_page (entry st i) <? GET_PAGE 0x30000000))
                (walk (Z.to_nat 65535) (mm st) (map_list (mm st))) = true)
        by (vm_compute; reflexivity).
      rewrite forallb_forall in Hall.
      intros i Hi [H1 H2]. specialize (Hall i Hi).
      apply Bool.orb_true_iff in Hall. destruct Hall as [Hc|Hc];
        apply Z.ltb_lt in Hc; lia.
Defined.

(** ** mm_handle_page_fault *)

(** C7. mm_handle_page_fault returns 0 and leaves the state as it was when
    the address is outside [0, 0x80000000), when the stored protection of
    its page lacks the write bit, or when its block has no section handle.
    When it returns 1, with a host that reports handle counts of at least
    one: the stored protection bytes are unchanged and the host calls of
    the fault are the query of the handle count, then, exactly when the
    count is greater than one, the replacement of the section by a fresh
    copy (create, map, copy the block, unmap the copy view, unmap the old
    view, close the old handle, map the new section in place, the new
    handle stored for the block), then the stored protection of each of
    the 16 pages of the block applied to the host. *)
Theorem mm_handle_page_fault_spec (addr : Z) (st : state) :
  let block := GET_BLOCK addr in
  let old := handle_of st block in
  (addr < ADDRESS_SPACE_LOW \/ ADDRESS_SPACE_HIGH <= addr ->
   mm_handle_page_fault addr st = (0, st))
  /\ (Z.land (prot_of st (GET_PAGE addr)) PROT_WRITE = 0 ->
      mm_handle_page_fault addr st = (0, st))
  /\ (old = 0 -> mm_handle_page_fault addr st = (0, st))
  /\ (forall st',
        counts_handles (os st) ->
        mm_handle_page_fault addr st = (1, st') ->
        exists count,
          1 <= count
          /\ page_prot (mm st') = page_prot (mm st)
          /\ ((count = 1
               /\ calls (os st') = calls (os st) ++
                    NtQueryObject old STATUS_SUCCESS count
                    :: restore_calls (mm st) block
               /\ block_section_handle (mm st') = block_section_handle (mm st))
              \/
              (1 < count
               /\ exists new dest_addr s_map s_unmap ok,
                    new <> 0
                    /\ calls (os st') = calls (os st) ++
                         NtQueryObject old STATUS_SUCCESS count
                         :: clone_calls block old new dest_addr s_map s_unmap ok
                         ++ restore_calls (mm st) block
                    /\ block_section_handle (mm st')
                       = upd (block_section_handle (mm st)) block new))).
Proof.
  intros block old. unfold mm_handle_page_fault.
  destruct ((addr <? ADDRESS_SPACE_LOW) || (addr >=? ADDRESS_SPACE_HIGH))
    eqn:Hout.
  { repeat split; auto. intros st' _ H; discriminate H. }
  apply Bool.orb_false_iff in Hout. destruct Hout as [Hlo Hhi]. zbool.
  rewrite wrap16_block by (unfold ADDRESS_SPACE_LOW in *; lia).
  fold block. fold old.
  split; [intros [H|H]; lia|].
  destruct (Z.land (prot_of st (GET_PAGE addr)) PROT_WRITE =? 0) eqn:Hw.
  { repeat split; auto. intros st' _ H; discriminate H. }
  split; [intros H; zbool; congruence|].
  destruct (old =? 0) eqn:Hold.
  { repeat split; auto. intros st' _ H; discriminate H. }
  split; [intros H; zbool; congruence|].
  intros st' Hsane.
  destruct (nt_query_object old st) as [[s c] st1] eqn:E1.
  apply nt_query_object_spec in E1. destruct E1 as (M1 & C1 & Hc).
  specialize (Hc Hsane).
  destruct (s =? STATUS_SUCCESS) eqn:S; cbn [negb]; [|discriminate]. zbool. subst s.
  destruct (c =? 1) eqn:Hc1.
  - (* the only owner *)
    cbn [negb].
    destruct (restore_protection _ block 0 st1) as [ok st2] eqn:E2.
    destruct ok; [|discriminate].
    apply restore_protection_ok in E2. destruct E2 as [M2 C2].
    intros H; inversion H; subst; clear H. zbool. subst c.
    exists 1. split; [lia|]. split; [congruence|]. left.
    split; [reflexivity|]. split; [|congruence].
    rewrite C2, C1, M1. unfold restore_calls. now rewrite <- app_assoc.
  - (* shared: clone *)
    destruct (clone_block block st1) as [ok st2] eqn:E2.
    destruct ok; cbn [negb]; [|discriminate].
    apply clone_block_ok in E2.
    destruct E2 as (new & dest_addr & s_map & s_unmap & ok & Hnew & C2 & H2
                    & P2 & _).
    destruct (restore_protection _ block 0 st2) as [ok3 st3] eqn:E3.
    destruct ok3; [|discriminate].
    apply restore_protection_ok in E3. destruct E3 as [M3 C3].
    intros H; inversion H; subst; clear H. zbool.
    exists c. split; [lia|]. split; [congruence|]. right.
    split; [lia|].
    exists new, dest_addr, s_map, s_unmap, ok. split; [exact Hnew|].
    split.
    + rewrite C3, C2, C1. unfold restore_calls, handle_of, old.
      rewrite P2, M1. rewrite <- !app_assoc. reflexivity.
    + rewrite M3, H2, M1. reflexivity.
Qed.

Lemma mm_handle_page_fault_spec_witness :
  mm_handle_page_fault 0x90000000 (mm_init []) = (0, mm_init [])
  /\ mm_handle_page_fault 0x20000000 (mm_init []) = (0, mm_init [])
  /\ (let st := state_after (shared_block 0 0) (mm_init []) in
      let st' := snd (mm_handle_page_fault 0x20000000 st) in
      exists count, 1 <= count /\ page_prot (mm st') = page_prot (mm st)).
Proof.
  split; [|split].
  - destruct (mm_handle_page_fault_spec 0x90000000 (mm_init [])) as (H & _).
    apply H. right. vm_compute. discriminate.
  - destruct (mm_handle_page_fault_spec 0x20000000 (mm_init []))
      as (_ & H & _).
    apply H. vm_compute. reflexivity.
  - intros st st'.
    destruct (mm_handle_page_fault_spec 0x20000000 st) as (_ & _ & _ & H).
    destruct (H st') as (count & Hc & Hp & _).
    + unfold counts_handles. vm_compute.
      repeat constructor; discriminate.
    + vm_compute. reflexivity.
    + exists count. split; [exact Hc|exact Hp].
Defined.

(** ** mm_mmap: validation and roll back *)

(** C3.  From mm_init, mm_mmap(0x10000000, 0xFFFFF001, READ|WRITE,
    FIXED|ANONYMOUS|PRIVATE, NULL, 0), whose range runs past 2^32 and so
    out of [0, 0x80000000), does not return -EINVAL: ALIGN_TO_PAGE rounds
    the length to 0, the range tests see an empty range, and the call
    returns the address after linking an entry whose end page, 0xFFFF, lies
    below its start page, 0x10000, without any host call. *)
Theorem mmap_wrapped_length_accepted (HEAP_BASE MAP_HEAP : Z) :
  let st := state_after (wrapped_mmap HEAP_BASE MAP_HEAP) (mm_init []) in
  2 ^ 32 <= 0x10000000 + 0xFFFFF001
  /\ ALIGN_TO_PAGE 0xFFFFF001 = 0
  /\ returned (wrapped_mmap HEAP_BASE MAP_HEAP) = Some 0x10000000
  /\ returned (wrapped_mmap HEAP_BASE MAP_HEAP) <> Some (ERRP EINVAL)
  /\ map_list (mm (mm_init [])) = None
  /\ map_list (mm st) = Some 0
  /\ (start_page (entry st 0), end_page (entry st 0)) = (0x10000, 0xFFFF)
  /\ calls (os st) = calls (os (mm_init [])).
Proof.
  intros st.
  repeat match goal with |- _ /\ _ => split end;
    vm_compute; try reflexivity; discriminate.
Qed.

(** The checks of mm_mmap in their order, on the rounding of the code, and
    the roll back.  The checks run in a fixed order and each
    error is returned with the state as it was.  -EINVAL is returned when
    the length is 0, when the range of the page-rounded length wraps past
    2^32 or ends at or beyond 0x80000000 or starts there, when MAP_SHARED
    is set, and when MAP_ANONYMOUS is set with a file.  For arguments that
    pass these checks, -EBADF is returned when MAP_ANONYMOUS is absent and
    the file is NULL.  For arguments that also pass that check, -EINVAL is
    returned when MAP_FIXED is set and the address is not page aligned, and
    -ENOMEM when MAP_FIXED is absent and find_free_pages reports no range
    in the window.  When the address the mapping is made at lies with its
    range in [0, 0x80000000] and the host refuses to create or to map a
    section during the call, the call returns -ENOMEM, every section
    handle created during the call has been closed, every view mapped
    during the call has been unmapped, and every block holds either no
    handle or the handle it held before the call. *)
Theorem mm_mmap_errors (HEAP_BASE MAP_HEAP : Z) (fuel : nat)
    (addr length prot flags f off : Z) (st : state) :
  let L := ALIGN_TO_PAGE length in
  let call := mm_mmap HEAP_BASE MAP_HEAP fuel addr length prot flags f off st in
  let anonymous := has_flag flags MAP_ANONYMOUS in
  let fixed := has_flag flags MAP_FIXED in
  let accepted :=
    length <> 0 /\ bad_range addr L = false
    /\ has_flag flags MAP_SHARED = false /\ (anonymous = true -> f = 0) in
  let file_ok := anonymous = false -> f <> 0 in
  (length = 0 -> call = Done (ERRP EINVAL, st))
  /\ (0 <= addr < 2 ^ 32 ->
      2 ^ 32 <= addr + L \/ ADDRESS_SPACE_HIGH <= addr + L
      \/ ADDRESS_SPACE_HIGH <= addr ->
      call = Done (ERRP EINVAL, st))
  /\ (has_flag flags MAP_SHARED = true -> call = Done (ERRP EINVAL, st))
  /\ (anonymous = true -> f <> 0 -> call = Done (ERRP EINVAL, st))
  /\ (accepted -> anonymous = false -> f = 0 ->
      call = Done (ERRP EBADF, st))
  /\ (accepted -> file_ok -> fixed = true -> addr mod PAGE_SIZE <> 0 ->
      call = Done (ERRP EINVAL, st))
  /\ (accepted -> file_ok -> fixed = false ->
      find_free_pages fuel (mm st) (GET_PAGE L)
        (fst (window HEAP_BASE MAP_HEAP flags))
        (snd (window HEAP_BASE MAP_HEAP flags)) = Done 0 ->
      call = Done (ERRP ENOMEM, st))
  /\ (forall a r st',
        choose_address HEAP_BASE MAP_HEAP fuel addr L flags (mm st)
        = Done (Some a) ->
        0 <= a -> 0 < L -> a + L <= ADDRESS_SPACE_HIGH ->
        call = Done (r, st') ->
        section_refused (new_calls st st') ->
        r = ERRP ENOMEM
        /\ (forall h,
              In (NtCreateSection STATUS_SUCCESS h) (new_calls st st') ->
              In (NtClose h) (new_calls st st'))
        /\ (forall h b,
              In (NtMapViewOfSection h b STATUS_SUCCESS) (new_calls st st') ->
              exists s, In (NtUnmapViewOfSection b s) (new_calls st st'))
        /\ (forall b, handle_of st' b = 0 \/ handle_of st' b = handle_of st b)).
Proof.
  intros L call anonymous fixed accepted file_ok.
  pose proof (ALIGN_TO_PAGE_range length) as HL. fold L in HL.
  assert (Hearly : forall e a r st',
             choose_address HEAP_BASE MAP_HEAP fuel addr L flags (mm st)
             = Done (Some a) ->
             0 <= a -> 0 < L -> a + L <= ADDRESS_SPACE_HIGH ->
             Done (ERRP e, st) = Done (r, st') ->
             section_refused (new_calls st st') ->
             r = ERRP ENOMEM
             /\ (forall h,
                   In (NtCreateSection STATUS_SUCCESS h) (new_calls st st') ->
                   In (NtClose h) (new_calls st st'))
             /\ (forall h b,
                   In (NtMapViewOfSection h b STATUS_SUCCESS)
                     (new_calls st st') ->
                   exists s, In (NtUnmapViewOfSection b s) (new_calls st st'))
             /\ (forall b, handle_of st' b = 0
                           \/ handle_of st' b = handle_of st b)).
  { intros e a r st' _ _ _ _ H Href. inversion H; subst.
    rewrite new_calls_same in Href. now apply not_refused_nil in Href. }
  unfold call, mm_mmap. fold L. fold anonymous. fold fixed.
  destruct (length =? 0) eqn:Hlen.
  { zbool.
    repeat match goal with
           | |- _ /\ _ => split; [solve [auto | unfold accepted; tauto]|]
           end.
    apply Hearly. }
  zbool. split; [intros; congruence|].
  destruct (bad_range addr L) eqn:Hbad.
  { repeat match goal with
           | |- _ /\ _ =>
               split; [solve [auto | unfold accepted;
                                     intros (_ & ? & _); congruence]|]
           end.
    apply Hearly. }
  split.
  { intros Ha Hout. exfalso.
    assert (bad_range addr L = true); [|congruence].
    apply bad_range_spec; auto. unfold ADDRESS_SPACE_HIGH in *. lia. }
  destruct (has_flag flags MAP_SHARED) eqn:Hshared.
  { repeat match goal with
           | |- _ /\ _ =>
               split; [solve [auto | unfold accepted;
                                     intros (_ & _ & ? & _); congruence]|]
           end.
    apply Hearly. }
  split; [intros; congruence|].
  destruct (anonymous && negb (f =? 0)) eqn:Hanon.
  { apply Bool.andb_true_iff in Hanon. destruct Hanon as [Han Hf].
    apply Bool.negb_true_iff in Hf. zbool.
    repeat match goal with
           | |- _ /\ _ =>
               split; [solve [auto | unfold accepted;
                                     intros (_ & _ & _ & ?); tauto]|]
           end.
    apply Hearly. }
  split.
  { intros Han Hf. rewrite Han in Hanon. simpl in Hanon.
    apply Bool.negb_false_iff in Hanon. zbool. contradiction. }
  destruct (negb anonymous && (f =? 0)) eqn:Hfile.
  { apply Bool.andb_true_iff in Hfile. destruct Hfile as [Han Hf].
    apply Bool.negb_true_iff in Han. zbool.
    repeat match goal with
           | |- _ /\ _ => split; [solve [auto | unfold file_ok; tauto]|]
           end.
    apply Hearly. }
  split.
  { intros _ Han Hf. rewrite Han in Hfile. simpl in Hfile. zbool.
    contradiction. }
  split.
  { intros _ _ Hfix Hna. unfold choose_address. fold fixed. rewrite Hfix.
    cbn [negb obind andb]. now rewrite IS_ALIGNED_false. }
  split.
  { intros _ _ Hfix Hscan. unfold choose_address. fold fixed.
    rewrite Hfix. cbn [negb]. unfold L in *.
    rewrite ALIGN_TO_PAGE_idem. unfold window in Hscan.
    destruct (has_flag flags MAP_HEAP); cbn [fst snd] in Hscan;
      rewrite Hscan; reflexivity. }
  intros a r st' Hch Ha HLpos Hhigh Hrun Href.
  rewrite Hch in Hrun. cbn [obind] in Hrun.
  destruct (fixed && negb (IS_ALIGNED a PAGE_SIZE)).
  { now apply (Hearly EINVAL a r st'). }
  now apply (mm_mmap_at_refused fuel a L prot flags f off st r st').
Qed.

(** With MAP_FIXED set, a non-aligned address, no MAP_ANONYMOUS and no
    file, mm_mmap returns -EBADF: the file check comes before the alignment
    check. *)
Lemma mm_mmap_fixed_unaligned_ebadf :
  has_flag (Z.lor MAP_FIXED MAP_PRIVATE) MAP_FIXED = true
  /\ 0x10000800 mod PAGE_SIZE <> 0
  /\ mm_mmap 0 0 FUEL 0x10000800 0x1000 RW (Z.lor MAP_FIXED MAP_PRIVATE) 0 0
       (mm_init [])
     = Done (ERRP EBADF, mm_init [])
  /\ ERRP EBADF <> ERRP EINVAL.
Proof.
  split; [vm_compute; reflexivity|].
  split; [vm_compute; discriminate|].
  split; [vm_compute; reflexivity|].
  vm_compute. discriminate.
Qed.

Lemma mm_mmap_errors_witness :
  mm_mmap 0 0 FUEL 0x20000000 0 RW FIXED_ANON 0 0 (mm_init [])
  = Done (ERRP EINVAL, mm_init [])
  /\ mm_mmap 0 0 FUEL 0x20000000 0x1000 RW MAP_PRIVATE 0 0 (mm_init [])
     = Done (ERRP EBADF, mm_init [])
  /\ mm_mmap 0 0 FUEL 0x20000800 0x1000 RW FIXED_ANON 0 0 (mm_init [])
     = Done (ERRP EINVAL, mm_init [])
  /\ (let st' := state_after (refused_second_block 0 0) refusing_host in
      returned (refused_second_block 0 0) = Some (ERRP ENOMEM)
      /\ (forall b, handle_of st' b = 0
                    \/ handle_of st' b = handle_of refusing_host b)).
Proof.
  split; [|split; [|split]].
  - destruct (mm_mmap_errors 0 0 FUEL 0x20000000 0 RW FIXED_ANON 0 0
                (mm_init [])) as (H & _).
    apply H. reflexivity.
  - destruct (mm_mmap_errors 0 0 FUEL 0x20000000 0x1000 RW MAP_PRIVATE 0 0
                (mm_init [])) as (_ & _ & _ & _ & H & _).
    apply H; vm_compute; repeat split; intros;
      try discriminate; reflexivity.
  - destruct (mm_mmap_errors 0 0 FUEL 0x20000800 0x1000 RW FIXED_ANON 0 0
                (mm_init [])) as (_ & _ & _ & _ & _ & H & _).
    apply H; vm_compute; repeat split; intros;
      try discriminate; reflexivity.
  - intros st'.
    destruct (mm_mmap_errors 0 0 FUEL 0x20000000 0x20000 RW FIXED_ANON 0 0
                refusing_host) as (_ & _ & _ & _ & _ & _ & _ & H).
    destruct (H 0x20000000 (ERRP ENOMEM) st') as (Hr & _ & _ & Hh).
    + vm_compute. reflexivity.
    + lia.
    + vm_compute. reflexivity.
    + vm_compute. discriminate.
    + vm_compute. reflexivity.
    + exists (NtMapViewOfSection 2 0x20010000 1). split.
      * vm_compute. auto 10.
      * simpl. discriminate.
    + split; [vm_compute; reflexivity|exact Hh].
Defined.

(** ** sys_brk and mm_update_brk *)

(** C6 as stated fails: with the break at 0x10000000, sys_brk(0x0F000000)
    then sys_brk(0x0E000000) leave the break at 0x10000000, which is not the
    maximum of the two rounded requests. *)
Lemma sys_brk_below_break_not_max :
  let st0 := mm_update_brk 0x10000000 (mm_init []) in
  let first := sys_brk 0 0 (fun _ => 0) FUEL 0x0F000000 st0 in
  let second :=
    sys_brk 0 0 (fun _ => 0) FUEL 0x0E000000 (state_after first st0) in
  0x0E000000 < 0x0F000000
  /\ returned first = Some 0x10000000
  /\ returned second = Some 0x10000000
  /\ brk (mm (state_after second st0))
     <> Z.max (ALIGN_TO_PAGE 0x0F000000) (ALIGN_TO_PAGE 0x0E000000).
Proof.
  vm_compute. repeat split; try reflexivity; discriminate.
Qed.

End MMFacts.

Module DBTFacts.
Import MM DBT.

(** ** The emitter *)


Lemma modrm_fields a b c :
  0 <= a < 4 -> 0 <= b < 8 -> 0 <= c < 8 ->
  let x := wrap8 (Z.shiftl a 6 + Z.shiftl b 3 + c) in
  Z.shiftr x 6 = a /\ Z.land (Z.shiftr x 6) 7 = a
  /\ Z.land (Z.shiftr x 3) 7 = b /\ Z.land x 7 = c.
Proof.
  intros Ha Hb Hc x. unfold x, wrap8.
  rewrite !Z.shiftl_mul_pow2, !Z.shiftr_div_pow2 by lia.
  change 7 with (Z.ones 3). rewrite !Z.land_ones by lia.
  change (2 ^ 8) with 256. change (2 ^ 6) with 64. change (2 ^ 3) with 8.
  rewrite (Z.mod_small (a * 64 + b * 8 + c) 256) by lia.
  repeat split.
  - symmetry. apply Z.div_unique with (r := b * 8 + c); lia.
  - replace ((a * 64 + b * 8 + c) / 64) with a
      by (apply Z.div_unique with (r := b * 8 + c); lia).
    apply Z.mod_small. lia.
  - replace ((a * 64 + b * 8 + c) / 8) with (a * 8 + b)
      by (apply Z.div_unique with (r := c); lia).
    symmetry. apply Z.mod_unique with (q := a); lia.
  - symmetry. apply Z.mod_unique with (q := a * 8 + b); lia.
Qed.

(** C9, as amended.  For a register r, an operand whose base and index are
    registers or absent, whose scale is below 4 and whose index is not the
    stack pointer, gen_modrm_sib reports no error and appends: for a
    register-only operand, one ModR/M byte with mod=3 and rm=base; with no
    base and no index, mod=0, rm=5, then disp32; with no base and an index,
    mod=0, rm=4, a SIB byte with base field 5, then disp32; with a base
    that is the stack pointer or with a base and an index, mod=2, rm=4, a
    SIB byte (index field 4 when there is no index), then disp32;
    otherwise mod=2, rm=base, then disp32. *)
Theorem gen_modrm_sib_encoding (out : list Z) (r : Z) (rm : modrm_rm_t) :
  is_reg r ->
  base rm = -1 \/ is_reg (base rm) ->
  index rm = -1 \/ is_reg (index rm) ->
  0 <= scale rm < 4 ->
  index rm <> 4 ->
  (flags rm = MODRM_PURE_REGISTER -> is_reg (base rm) ->
   exists m,
     gen_modrm_sib out r rm = (out ++ [m], false)
     /\ GET_MODRM_MOD m = 3 /\ GET_MODRM_R m = r
     /\ GET_MODRM_RM m = base rm)
  /\ (flags rm <> MODRM_PURE_REGISTER -> base rm = -1 -> index rm = -1 ->
      exists m,
        gen_modrm_sib out r rm = (out ++ [m] ++ dword_bytes (disp rm), false)
        /\ GET_MODRM_MOD m = 0 /\ GET_MODRM_R m = r /\ GET_MODRM_RM m = 5)
  /\ (flags rm <> MODRM_PURE_REGISTER -> base rm = -1 -> index rm <> -1 ->
      exists m s,
        gen_modrm_sib out r rm
        = (out ++ [m; s] ++ dword_bytes (disp rm), false)
        /\ GET_MODRM_MOD m = 0 /\ GET_MODRM_R m = r /\ GET_MODRM_RM m = 4
        /\ GET_SIB_SCALE s = scale rm /\ GET_SIB_INDEX s = index rm
        /\ GET_SIB_BASE s = 5)
  /\ (flags rm <> MODRM_PURE_REGISTER -> base rm <> -1 ->
      base rm = 4 \/ index rm <> -1 ->
      exists m s,
        gen_modrm_sib out r rm
        = (out ++ [m; s] ++ dword_bytes (disp rm), false)
        /\ GET_MODRM_MOD m = 2 /\ GET_MODRM_R m = r /\ GET_MODRM_RM m = 4
        /\ GET_SIB_SCALE s = scale rm
        /\ GET_SIB_INDEX s = (if index rm =? -1 then 4 else index rm)
        /\ GET_SIB_BASE s = base rm)
  /\ (flags rm <> MODRM_PURE_REGISTER -> base rm <> -1 -> base rm <> 4 ->
      index rm = -1 ->
      exists m,
        gen_modrm_sib out r rm = (out ++ [m] ++ dword_bytes (disp rm), false)
        /\ GET_MODRM_MOD m = 2 /\ GET_MODRM_R m = r
        /\ GET_MODRM_RM m = base rm).
Proof.
  intros Hr Hbase Hindex Hscale Hsp.
  unfold gen_modrm_sib, gen_modrm, gen_sib, gen_dword, gen_byte,
    GET_MODRM_MOD, GET_MODRM_R, GET_MODRM_RM, GET_SIB_SCALE, GET_SIB_INDEX,
    GET_SIB_BASE, is_reg in *.
  split; [|split; [|split; [|split]]].
  - intros Hf Hb. rewrite Hf, Z.eqb_refl.
    destruct (modrm_fields 3 r (base rm)) as (_ & A & B & C); try lia.
    eexists. split; [reflexivity|auto].
  - intros Hf Hb Hi.
    destruct (Z.eqb_spec (flags rm) MODRM_PURE_REGISTER); [contradiction|].
    rewrite Hi, Hb. cbn [Z.eqb andb].
    destruct (modrm_fields 0 r 5) as (_ & A & B & C); try lia.
    eexists. split; [rewrite <- app_assoc; reflexivity|auto].
  - intros Hf Hb Hi.
    destruct (Z.eqb_spec (flags rm) MODRM_PURE_REGISTER); [contradiction|].
    destruct (Z.eqb_spec (index rm) 4); [contradiction|].
    destruct (Z.eqb_spec (index rm) (-1)); [contradiction|].
    rewrite Hb. cbn [Z.eqb andb].
    destruct (modrm_fields 0 r 4) as (_ & A & B & C); try lia.
    destruct (modrm_fields (scale rm) (index rm) 5) as (A' & _ & B' & C');
      try lia.
    eexists. eexists.
    split; [rewrite <- !app_assoc; reflexivity|auto 10].
  - intros Hf Hb Hsib.
    destruct (Z.eqb_spec (flags rm) MODRM_PURE_REGISTER); [contradiction|].
    destruct (Z.eqb_spec (index rm) 4); [contradiction|].
    destruct (Z.eqb_spec (base rm) (-1)); [contradiction|].
    cbn [andb].
    assert (Hc : (base rm =? 4) || negb (index rm =? -1) = true).
    { destruct Hsib as [-> | Hi]; [reflexivity|].
      destruct (Z.eqb_spec (index rm) (-1)); [contradiction|].
      apply Bool.orb_true_r. }
    rewrite Hc.
    destruct (modrm_fields 2 r 4) as (_ & A & B & C); try lia.
    destruct (modrm_fields (scale rm)
                (if index rm =? -1 then 4 else index rm) (base rm))
      as (A' & _ & B' & C'); try lia.
    { destruct (Z.eqb_spec (index rm) (-1)); lia. }
    eexists. eexists.
    split; [rewrite <- !app_assoc; reflexivity|auto 10].
  - intros Hf Hb Hb4 Hi.
    destruct (Z.eqb_spec (flags rm) MODRM_PURE_REGISTER); [contradiction|].
    destruct (Z.eqb_spec (base rm) (-1)); [contradiction|].
    destruct (Z.eqb_spec (base rm) 4); [contradiction|].
    rewrite Hi. change (-1 =? 4) with false. change (-1 =? -1) with true.
    cbn [andb orb negb].
    destruct (modrm_fields 2 r (base rm)) as (_ & A & B & C); try lia.
    eexists. split; [rewrite <- app_assoc; reflexivity|auto].
Qed.

(** C9 as stated fails: for an operand with an index and no base the
    ModR/M byte has mod=0, not mod=2. *)
Lemma gen_modrm_sib_index_without_base :
  let rm := modrm_rm_mscale (-1) 1 0 0 in
  index rm <> -1 /\ index rm <> 4
  /\ flags rm <> MODRM_PURE_REGISTER
  /\ fst (gen_modrm_sib [] 0 rm) = [4; 0x0D; 0; 0; 0; 0]
  /\ GET_MODRM_MOD (hd 0 (fst (gen_modrm_sib [] 0 rm))) <> 2.
Proof.
  vm_compute. repeat split; try discriminate; reflexivity.
Qed.

Lemma gen_modrm_sib_encoding_witness :
  (exists m,
     gen_modrm_sib [] 2 (modrm_rm_reg 3) = ([] ++ [m], false)
     /\ GET_MODRM_MOD m = 3 /\ GET_MODRM_R m = 2 /\ GET_MODRM_RM m = 3)
  /\ (exists m s,
        gen_modrm_sib [] 0 (modrm_rm_mreg 4 8)
        = ([] ++ [m; s] ++ dword_bytes 8, false)
        /\ GET_MODRM_MOD m = 2 /\ GET_MODRM_R m = 0 /\ GET_MODRM_RM m = 4
        /\ GET_SIB_SCALE s = 0 /\ GET_SIB_INDEX s = 4 /\ GET_SIB_BASE s = 4).
Proof.
  assert (Hreg : forall x, 0 <= x < 8 -> is_reg x) by (intros; assumption).
  split.
  - destruct (gen_modrm_sib_encoding [] 2 (modrm_rm_reg 3)) as (H & _).
    + apply Hreg. lia.
    + right. apply Hreg. simpl. lia.
    + left. reflexivity.
    + simpl. lia.
    + simpl. discriminate.
    + apply H; [reflexivity|apply Hreg; simpl; lia].
  - destruct (gen_modrm_sib_encoding [] 0 (modrm_rm_mreg 4 8))
      as (_ & _ & _ & H & _).
    + apply Hreg. lia.
    + right. apply Hreg. simpl. lia.
    + left. reflexivity.
    + simpl. lia.
    + simpl. discriminate.
    + apply H; [simpl; discriminate|simpl; discriminate|left; reflexivity].
Defined.

(** ** The block index *)


Lemma zrange_In n : forall i x, In x (zrange n i) <-> i <= x < i + Z.of_nat n.
Proof.
  induction n as [|n IH]; intros i x; cbn [zrange].
  - simpl. lia.
  - simpl In. rewrite IH. lia.
Qed.

Lemma zrange_NoDup n : forall i, NoDup (zrange n i).
Proof.
  induction n as [|n IH]; intros i; cbn [zrange]; constructor.
  - rewrite zrange_In. lia.
  - apply IH.
Qed.

Lemma hash_block_pc_bucket p : In (hash_block_pc p) bucket_ids.
Proof.
  unfold bucket_ids. apply zrange_In.
  unfold hash_block_pc, DBT_BLOCK_HASH_BUCKETS.
  pose proof (Z.mod_pos_bound
                (wrap32 (p + wrap32 (Z.shiftl p 3) + wrap32 (Z.shiftl p 9)))
                4096 ltac:(lia)).
  lia.
Qed.

Lemma filter_pc_NoDup p (l : list dbt_block) :
  NoDup (map pc l) ->
  (length (filter (fun block => (pc block =? p)%Z) l) <= 1)%nat.
Proof.
  induction l as [|a l IH]; intros Hnd; simpl; [lia|].
  inversion Hnd as [|x xs Hnotin Hnd']; subst.
  destruct (Z.eqb_spec (pc a) p) as [Heq|Hne]; [|now apply IH].
  assert (Hnone : filter (fun block => pc block =? p) l = []).
  { destruct (filter _ l) as [|b rest] eqn:E; [reflexivity|].
    exfalso. assert (Hin : In b (filter (fun block => pc block =? p) l))
      by (rewrite E; now left).
    apply filter_In in Hin. destruct Hin as [Hin Hpc].
    apply Z.eqb_eq in Hpc. apply Hnotin. rewrite Heq, <- Hpc.
    now apply in_map. }
  rewrite Hnone. simpl. lia.
Qed.

Lemma flat_map_single {A : Type} (g : Z -> list A) (h : Z) :
  (length (g h) <= 1)%nat ->
  forall ids, NoDup ids -> (forall b, In b ids -> b <> h -> g b = []) ->
  (length (flat_map g ids) <= 1)%nat.
Proof.
  intros Hh ids. induction ids as [|a ids IH]; intros Hnd Hother; simpl;
    [lia|].
  inversion Hnd as [|x xs Hnotin Hnd']; subst.
  rewrite length_app.
  destruct (Z.eq_dec a h) as [->|Hne].
  - assert (Hrest : flat_map g ids = []).
    { clear IH Hnd. induction ids as [|b ids IH]; [reflexivity|].
      simpl. inversion Hnd' as [|y ys Hb Hnd'']; subst.
      rewrite (Hother b); [|right; now left|intros ->; apply Hnotin; now left].
      simpl. apply IH; auto.
      - intros Hin. apply Hnotin. now right.
      - intros c Hc. apply Hother. simpl in *. tauto. }
    rewrite Hrest. simpl. lia.
  - rewrite (Hother a); [|now left|exact Hne]. simpl.
    apply IH; auto. intros b Hb. apply Hother. now right.
Qed.

Lemma index_ok_unique d p :
  index_ok d -> (length (blocks_with_pc d p) <= 1)%nat.
Proof.
  intros Hok. unfold blocks_with_pc.
  apply flat_map_single with (h := hash_block_pc p).
  - apply filter_pc_NoDup. apply Hok.
  - apply zrange_NoDup.
  - intros b _ Hne.
    destruct (filter _ (block_hash d b)) as [|blk rest] eqn:E; [reflexivity|].
    exfalso.
    assert (Hin : In blk (filter (fun block => pc block =? p) (block_hash d b)))
      by (rewrite E; now left).
    apply filter_In in Hin. destruct Hin as [Hin Hpc].
    apply Z.eqb_eq in Hpc. apply Hne.
    destruct (Hok b) as [_ Hhash]. rewrite <- (Hhash blk Hin). now rewrite Hpc.
Qed.

Section TranslatorFacts.

Variable DBT_CACHE_BASE : Z.
Variable DBT_CACHE_SIZE : Z.
Variable MAX_DBT_BLOCKS : Z.
Variable translate_code : dbt_data -> Z -> Z -> option (Z * Z).

Local Abbreviation dbt_flush := (dbt_flush DBT_CACHE_BASE DBT_CACHE_SIZE).
Local Abbreviation dbt_translate :=
  (dbt_translate DBT_CACHE_BASE DBT_CACHE_SIZE MAX_DBT_BLOCKS translate_code).
Local Abbreviation dbt_find_next :=
  (dbt_find_next DBT_CACHE_BASE DBT_CACHE_SIZE MAX_DBT_BLOCKS translate_code).
Local Abbreviation reachable :=
  (reachable DBT_CACHE_BASE DBT_CACHE_SIZE MAX_DBT_BLOCKS translate_code).

Lemma index_ok_empty d : (forall b, block_hash d b = []) -> index_ok d.
Proof.
  intros H b. rewrite H. split; [constructor|intros blk []].
Qed.

(** What dbt_translate does to the index: nothing, or a flush. *)
Lemma dbt_translate_index p d block d1 :
  dbt_translate p d = Some (block, d1) ->
  pc block = p
  /\ (block_hash d1 = block_hash d \/ forall b, block_hash d1 b = []).
Proof.
  unfold dbt_translate, alloc_block.
  destruct ((blocks_count d =? MAX_DBT_BLOCKS)
            || (end_ d - out d <? DBT_BLOCK_MAXSIZE)).
  - destruct ((blocks_count (dbt_flush d) =? MAX_DBT_BLOCKS)
              || (end_ (dbt_flush d) - out (dbt_flush d)
                  <? DBT_BLOCK_MAXSIZE)); [discriminate|].
    destruct (translate_code _ _ _) as [[o e]|]; [|discriminate].
    intros H; inversion H; subst. simpl. auto.
  - destruct (translate_code _ _ _) as [[o e]|]; [|discriminate].
    intros H; inversion H; subst. simpl. auto.
Qed.

Lemma dbt_find_next_index_ok p d r d' :
  index_ok d -> dbt_find_next p d = Some (r, d') -> index_ok d'.
Proof.
  intros Hok. unfold dbt_find_next, find_in_bucket.
  destruct (find _ (block_hash d (hash_block_pc p))) as [blk|] eqn:Efind.
  - intros H; inversion H; subst. exact Hok.
  - destruct (dbt_translate p d) as [[block d1]|] eqn:Et; [|discriminate].
    intros H; inversion H; subst; clear H.
    apply dbt_translate_index in Et. destruct Et as [Hpc Hidx].
    assert (Hok1 : index_ok d1).
    { destruct Hidx as [Heq|Hempty]; [|now apply index_ok_empty].
      intros b. rewrite Heq. apply Hok. }
    assert (Hfresh : ~ In p (map pc (block_hash d1 (hash_block_pc p)))).
    { destruct Hidx as [Heq|Hempty]; [|rewrite Hempty; intros []].
      rewrite Heq. intros Hin. apply in_map_iff in Hin.
      destruct Hin as (x & Hx & Hin).
      pose proof (find_none _ _ Efind x Hin) as Hf. simpl in Hf.
      apply Z.eqb_neq in Hf. contradiction. }
    intros b. unfold with_bucket, forward_list_add. simpl.
    destruct (Z.eqb_spec b (hash_block_pc p)) as [->|Hne]; [|apply Hok1].
    split.
    + simpl. constructor; [now rewrite Hpc|apply Hok1].
    + intros blk [<-|Hin]; [now rewrite Hpc|now apply Hok1].
Qed.

Lemma reachable_index_ok d : reachable d -> index_ok d.
Proof.
  induction 1 as [s g ga|p d r d' _ IH Hrun|d _ IH].
  - now apply index_ok_empty.
  - eapply dbt_find_next_index_ok; eassumption.
  - now apply index_ok_empty.
Qed.

(** C8. In every state of the index reached from dbt_init by completed
    calls of dbt_find_next and dbt_reset, at most one block of the index
    has a given pc.  When find_block finds a block for the pc,
    dbt_find_next returns its start and leaves the state as it was; when it
    finds none, dbt_find_next translates, puts the new block at the head
    of the bucket of the pc, returns its start, and that block is then the
    only one of the index with that pc.  dbt_flush empties every
    bucket. *)
Theorem block_index_unique (d : dbt_data) :
  reachable d ->
  (forall p, (length (blocks_with_pc d p) <= 1)%nat)
  /\ (forall p block,
        find_block d p = Some block ->
        pc block = p /\ dbt_find_next p d = Some (start block, d))
  /\ (forall p r d',
        find_block d p = None ->
        dbt_find_next p d = Some (r, d') ->
        exists block d1,
          dbt_translate p d = Some (block, d1)
          /\ pc block = p /\ r = start block
          /\ block_hash d' (hash_block_pc p)
             = block :: block_hash d1 (hash_block_pc p)
          /\ (forall b, b <> hash_block_pc p ->
                block_hash d' b = block_hash d1 b)
          /\ blocks_with_pc d' p = [block])
  /\ (forall b, block_hash (dbt_flush d) b = [])
  /\ (forall p, blocks_with_pc (dbt_flush d) p = []).
Proof.
  intros Hreach. pose proof (reachable_index_ok d Hreach) as Hok.
  split; [intros p; now apply index_ok_unique|].
  split.
  { intros p block Hfind. unfold find_block, find_in_bucket in Hfind.
    split.
    - apply find_some in Hfind. destruct Hfind as [_ H]. now apply Z.eqb_eq.
    - unfold dbt_find_next, find_in_bucket. now rewrite Hfind. }
  split.
  { intros p r d' Hfind Hrun.
    pose proof (dbt_find_next_index_ok p d r d' Hok Hrun) as Hok'.
    unfold find_block in Hfind. unfold dbt_find_next in Hrun.
    rewrite Hfind in Hrun.
    destruct (dbt_translate p d) as [[block d1]|] eqn:Et; [|discriminate].
    inversion Hrun; subst; clear Hrun.
    destruct (dbt_translate_index p d block d1 Et) as [Hpc _].
    exists block, d1. split; [reflexivity|]. split; [exact Hpc|].
    split; [reflexivity|].
    split; [unfold with_bucket; simpl; now rewrite Z.eqb_refl|].
    split.
    { intros b Hb. unfold with_bucket. simpl.
      destruct (Z.eqb_spec b (hash_block_pc p)); [contradiction|reflexivity]. }
    set (d' := with_bucket _ _ d1) in *.
    assert (Hin : In block (blocks_with_pc d' p)).
    { unfold blocks_with_pc. apply in_flat_map.
      exists (hash_block_pc p). split; [apply hash_block_pc_bucket|].
      apply filter_In. split; [|now apply Z.eqb_eq].
      unfold d', with_bucket, forward_list_add. simpl.
      rewrite Z.eqb_refl. now left. }
    pose proof (index_ok_unique d' p Hok') as Hlen.
    destruct (blocks_with_pc d' p) as [|x [|y rest]]; simpl in *;
      [contradiction| |lia].
    destruct Hin as [->|[]]. reflexivity. }
  split; [intros b; reflexivity|].
  intros p. unfold blocks_with_pc. simpl.
  induction bucket_ids as [|a l IH]; [reflexivity|exact IH].
Qed.

End TranslatorFacts.

Lemma block_index_unique_witness :
  let translate := fun (d : dbt_data) (p start_ : Z) =>
                     Some (start_ + 32, end_ d - 16) in
  let d0 := dbt_init 0x71000000 0x100000 0 0 0 in
  let d1 :=
    match dbt_find_next 0x71000000 0x100000 1024 translate 0x10000 d0 with
    | Some (_, d) => d
    | None => d0
    end in
  (length (blocks_with_pc d1 0x10000) <= 1)%nat.
Proof.
  intros translate d0 d1.
  destruct (block_index_unique 0x71000000 0x100000 1024 translate d1)
    as (H & _).
  - apply (reach_find_next 0x71000000 0x100000 1024 translate 0x10000 d0
             0x71000000 d1); [apply reach_init|reflexivity].
  - apply H.
Defined.

End DBTFacts.

Module MMExtra.
Import MM MMFacts.

(** ** Further properties of the memory manager *)

(** X1.  ALIGN_TO_PAGE of a 32-bit value is a multiple of the page size.
    Up to 0xFFFFF000 it rounds up: the result is the least multiple of 4096
    that is not below the argument.  Above 0xFFFFF000 the addition wraps
    and the result is 0. *)
Theorem ALIGN_TO_PAGE_rounds_up (x : Z) :
  0 <= x < 2 ^ 32 ->
  ALIGN_TO_PAGE x mod PAGE_SIZE = 0
  /\ (x <= 0xFFFFF000 -> x <= ALIGN_TO_PAGE x < x + PAGE_SIZE)
  /\ (0xFFFFF000 < x -> ALIGN_TO_PAGE x = 0).
Proof.
  intros Hx. split; [apply ALIGN_TO_PAGE_aligned|]. split; intros H.
  - rewrite ALIGN_TO_PAGE_spec by lia. unfold PAGE_SIZE.
    pose proof (Z.div_mod (x + 4096 - 1) 4096 ltac:(lia)) as Hd.
    pose proof (Z.mod_pos_bound (x + 4096 - 1) 4096 ltac:(lia)). lia.
  - unfold ALIGN_TO_PAGE, PAGE_SIZE.
    rewrite wrap32_over by lia.
    rewrite land_page_mask by lia.
    rewrite Z.div_small by lia. reflexivity.
Qed.

Lemma ALIGN_TO_PAGE_rounds_up_witness :
  ALIGN_TO_PAGE 0x1001 mod PAGE_SIZE = 0
  /\ 0x1001 <= ALIGN_TO_PAGE 0x1001 < 0x1001 + PAGE_SIZE
  /\ ALIGN_TO_PAGE 0xFFFFF001 = 0.
Proof.
  destruct (ALIGN_TO_PAGE_rounds_up 0x1001) as (H1 & H2 & _); [lia|].
  destruct (ALIGN_TO_PAGE_rounds_up 0xFFFFF001) as (_ & _ & H3); [lia|].
  split; [exact H1|]. split; [apply H2; lia|apply H3; lia].
Defined.

Lemma has_flag_drop_write prot m :
  Z.land (Z.lnot PROT_WRITE) m = m ->
  has_flag (Z.land prot (Z.lnot PROT_WRITE)) m = has_flag prot m.
Proof.
  intros H. unfold has_flag. now rewrite <- Z.land_assoc, H.
Qed.

Lemma has_flag_write_dropped prot :
  has_flag (Z.land prot (Z.lnot PROT_WRITE)) PROT_WRITE = false.
Proof.
  unfold has_flag. rewrite <- Z.land_assoc.
  change (Z.land (Z.lnot PROT_WRITE) PROT_WRITE) with 0.
  now rewrite Z.land_0_r.
Qed.

Lemma prot_linux2win_flags p :
  win_writable (prot_linux2win p) = has_flag p PROT_WRITE
  /\ win_executable (prot_linux2win p) = has_flag p PROT_EXEC
  /\ (prot_linux2win p = PAGE_NOACCESS <->
      has_flag p PROT_READ = false /\ has_flag p PROT_WRITE = false
      /\ has_flag p PROT_EXEC = false).
Proof.
  unfold prot_linux2win.
  destruct (has_flag p PROT_EXEC), (has_flag p PROT_WRITE),
    (has_flag p PROT_READ); cbn; repeat split; intros; try discriminate;
    intuition discriminate.
Qed.

(** X2.  prot_linux2win yields a host protection that allows writing
    exactly when PROT_WRITE is set and allows execution exactly when
    PROT_EXEC is set; it yields PAGE_NOACCESS exactly when none of the
    three bits is set.  With PROT_WRITE masked off, as mm_fork and
    sys_mprotect do, the result never allows writing and still allows
    execution exactly when PROT_EXEC is set. *)
Theorem prot_linux2win_permissions (prot : Z) :
  win_writable (prot_linux2win prot) = has_flag prot PROT_WRITE
  /\ win_executable (prot_linux2win prot) = has_flag prot PROT_EXEC
  /\ (prot_linux2win prot = PAGE_NOACCESS <->
      has_flag prot PROT_READ = false /\ has_flag prot PROT_WRITE = false
      /\ has_flag prot PROT_EXEC = false)
  /\ win_writable (prot_linux2win (Z.land prot (Z.lnot PROT_WRITE))) = false
  /\ win_executable (prot_linux2win (Z.land prot (Z.lnot PROT_WRITE)))
     = has_flag prot PROT_EXEC.
Proof.
  destruct (prot_linux2win_flags prot) as (Hw & Hx & Hn).
  destruct (prot_linux2win_flags (Z.land prot (Z.lnot PROT_WRITE)))
    as (Hw' & Hx' & _).
  repeat split; try tauto.
  - rewrite Hw'. apply has_flag_write_dropped.
  - rewrite Hx'. now apply has_flag_drop_write.
Qed.

Lemma placed_free_before m lowp highp :
  forall n e last,
    placed n m e lowp highp last ->
    forall q c, lowp <= q -> q + c <= last ->
    free_run m (walk n m e) q c.
Proof.
  induction n as [|n IH]; intros e last Hp q c Hq Hc i Hi;
    [destruct e; contradiction|].
  destruct e as [j|]; [|contradiction].
  cbn [placed] in Hp. cbn [walk] in Hi.
  destruct Hp as (Hse & [(Hlow & Hp) | (Hs & Hh & Hp)]).
  - destruct Hi as [<- | Hi].
    + unfold overlaps. lia.
    + exact (IH _ _ Hp q c Hq Hc i Hi).
  - destruct Hi as [<- | Hi].
    + unfold overlaps. lia.
    + apply (IH _ _ Hp q c Hq); [lia|exact Hi].
Qed.

Lemma find_free_scan_placed m count low high :
  1 <= count -> GET_PAGE high < 2 ^ 32 ->
  forall n fuel e last,
    null_within n m e = true -> (n < fuel)%nat ->
    GET_PAGE low <= last <= GET_PAGE high ->
    0 <= last ->
    placed n m e (GET_PAGE low) (GET_PAGE high) last ->
    exists r,
      find_free_scan fuel m count low high e last = Done r
      /\ ((last <= r /\ r + count <= GET_PAGE high
           /\ free_run m (walk n m e) r count
           /\ forall q, last <= q < r -> ~ free_run m (walk n m e) q count)
          \/ (r = 0
              /\ forall q, last <= q -> q + count <= GET_PAGE high ->
                           ~ free_run m (walk n m e) q count)).
Proof.
  intros Hcount Hhigh.
  induction n as [|n IH]; intros fuel e last Hnull Hfuel Hlast Hlast0 Hp;
    (destruct fuel as [|k]; [lia|]).
  - destruct e as [i|]; [discriminate|]. cbn [find_free_scan].
    rewrite wrap32_small by lia.
    eexists. split; [reflexivity|].
    destruct (GET_PAGE high - last >=? count) eqn:E; zbool.
    + left. split; [lia|]. split; [lia|]. split.
      * intros i Hi. destruct Hi.
      * intros q Hq. lia.
    + right. split; [reflexivity|]. intros q Hq1 Hq2. lia.
  - destruct e as [i|].
    + cbn [find_free_scan]. cbn [placed] in Hp. cbn [null_within] in Hnull.
      destruct Hp as (Hse & [(Hlow & Hp) | (Hs & Hh & Hp)]).
      * (* the entry ends below the window: skipped *)
        assert (Hskip : (start_page (map_entries m i) >=? GET_PAGE low) = false)
          by (rewrite Z.geb_leb; apply Z.leb_gt; lia).
        rewrite Hskip.
        destruct (IH k _ last Hnull ltac:(lia) Hlast Hlast0 Hp)
          as (r & Hr & Hres).
        exists r. split; [exact Hr|]. cbn [walk].
        assert (Hnot : forall q, GET_PAGE low <= q ->
                  ~ overlaps q (q + count - 1) (map_entries m i))
          by (intros q Hq; unfold overlaps; lia).
        destruct Hres as [(H1 & H2 & H3 & H4) | (-> & H4)].
        -- left. split; [exact H1|]. split; [exact H2|]. split.
           ++ intros j [<- | Hj]; [apply Hnot; lia|now apply H3].
           ++ intros q Hq Hfree. apply (H4 q Hq).
              intros j Hj. apply Hfree. now right.
        -- right. split; [reflexivity|]. intros q Hq1 Hq2 Hfree.
           apply (H4 q Hq1 Hq2). intros j Hj. apply Hfree. now right.
      * (* the entry lies in the window *)
        assert (Hin : (start_page (map_entries m i) >=? GET_PAGE low) = true)
          by (rewrite Z.geb_leb; apply Z.leb_le; lia).
        rewrite Hin. rewrite wrap32_small by lia.
        destruct (start_page (map_entries m i) - last >=? count) eqn:E; zbool.
        -- exists last. split; [reflexivity|]. left.
           split; [lia|]. split; [lia|]. split.
           ++ cbn [walk]. intros j [<- | Hj]; [unfold overlaps; lia|].
              apply (placed_free_before _ _ _ _ _ _ Hp last count); [lia|lia|exact Hj].
           ++ intros q Hq. lia.
        -- rewrite wrap32_small by lia.
           destruct (IH k _ (end_page (map_entries m i) + 1) Hnull ltac:(lia)
                       ltac:(lia) ltac:(lia) Hp) as (r & Hr & Hres).
           exists r. split; [exact Hr|]. cbn [walk].
           assert (Hblock : forall q, last <= q <= end_page (map_entries m i) ->
                     ~ free_run m (i :: walk n m (next (map_entries m i))) q count).
           { intros q Hq Hfree. apply (Hfree i); [now left|].
             unfold overlaps. lia. }
           destruct Hres as [(H1 & H2 & H3 & H4) | (-> & H4)].
           ++ left. split; [lia|]. split; [lia|]. split.
              ** intros j [<- | Hj]; [unfold overlaps; lia|now apply H3].
              ** intros q Hq.
                 destruct (Z_le_gt_dec q (end_page (map_entries m i)));
                   [apply Hblock; lia|].
                 intros Hfree. apply (H4 q ltac:(lia)).
                 intros j Hj. apply Hfree. now right.
           ++ right. split; [reflexivity|]. intros q Hq1 Hq2.
              destruct (Z_le_gt_dec q (end_page (map_entries m i)));
                [apply Hblock; lia|].
              intros Hfree. apply (H4 q ltac:(lia) Hq2).
              intros j Hj. apply Hfree. now right.
    + cbn [find_free_scan]. rewrite wrap32_small by lia.
      eexists. split; [reflexivity|]. cbn [walk].
      destruct (GET_PAGE high - last >=? count) eqn:E; zbool.
      * left. split; [lia|]. split; [lia|]. split.
        -- intros i Hi. destruct Hi.
        -- intros q Hq. lia.
      * right. split; [reflexivity|]. intros q Hq1 Hq2. lia.
Qed.

(** X3.  find_free_pages on a map list that ends in NULL and whose entries
    either end below the window or lie inside it in increasing order
    without overlap: for a count of at least one page the search returns
    the lowest page of the window from which [count] pages fit below
    [high] and meet no entry, and returns 0 when the window has no such
    page. *)
Theorem find_free_pages_first_fit (fuel n : nat) (m : mm_data)
    (count low high : Z) :
  1 <= count -> 0 <= low <= high -> high < 2 ^ 32 ->
  null_within n m (map_list m) = true -> (n < fuel)%nat ->
  placed n m (map_list m) (GET_PAGE low) (GET_PAGE high) (GET_PAGE low) ->
  exists r,
    find_free_pages fuel m count low high = Done r
    /\ ((GET_PAGE low <= r /\ r + count <= GET_PAGE high
         /\ free_run m (walk n m (map_list m)) r count
         /\ forall q, GET_PAGE low <= q < r ->
                      ~ free_run m (walk n m (map_list m)) q count)
        \/ (r = 0
            /\ forall q, GET_PAGE low <= q -> q + count <= GET_PAGE high ->
                         ~ free_run m (walk n m (map_list m)) q count)).
Proof.
  intros Hc Hlow Hhigh Hnull Hfuel Hp. unfold find_free_pages.
  assert (0 <= GET_PAGE low) by (apply Z.div_pos; unfold PAGE_SIZE; lia).
  assert (GET_PAGE low <= GET_PAGE high)
    by (apply Z.div_le_mono; unfold PAGE_SIZE; lia).
  assert (GET_PAGE high < 2 ^ 32)
    by (apply Z.div_lt_upper_bound; unfold PAGE_SIZE; lia).
  apply (find_free_scan_placed m count low high Hc ltac:(assumption) n);
    try assumption; lia.
Qed.

Lemma find_free_pages_first_fit_witness :
  exists r,
    find_free_pages 4 three_entries 2 ADDRESS_ALLOCATION_LOW
      ADDRESS_ALLOCATION_HIGH = Done r
    /\ ((GET_PAGE ADDRESS_ALLOCATION_LOW <= r
         /\ r + 2 <= GET_PAGE ADDRESS_ALLOCATION_HIGH
         /\ free_run three_entries
              (walk 3 three_entries (map_list three_entries)) r 2
         /\ forall q, GET_PAGE ADDRESS_ALLOCATION_LOW <= q < r ->
                      ~ free_run three_entries
                          (walk 3 three_entries (map_list three_entries)) q 2)
        \/ (r = 0
            /\ forall q, GET_PAGE ADDRESS_ALLOCATION_LOW <= q ->
                 q + 2 <= GET_PAGE ADDRESS_ALLOCATION_HIGH ->
                 ~ free_run three_entries
                     (walk 3 three_entries (map_list three_entries)) q 2)).
Proof.
  apply (find_free_pages_first_fit 4 3 three_entries 2
           ADDRESS_ALLOCATION_LOW ADDRESS_ALLOCATION_HIGH).
  - lia.
  - unfold ADDRESS_ALLOCATION_LOW, ADDRESS_ALLOCATION_HIGH. lia.
  - unfold ADDRESS_ALLOCATION_HIGH. lia.
  - reflexivity.
  - lia.
  - vm_compute. intuition (try discriminate; auto).
Defined.

Lemma keeps_prot_refl st : keeps_prot st st.
Proof. split; reflexivity. Qed.

Lemma keeps_prot_trans st1 st2 st3 :
  keeps_prot st1 st2 -> keeps_prot st2 st3 -> keeps_prot st1 st3.
Proof. intros [A B] [C D]. split; congruence. Qed.

Lemma keeps_prot_mm st st' : mm st' = mm st -> keeps_prot st st'.
Proof. intros H. unfold keeps_prot. now rewrite H. Qed.

Lemma release_block_keeps i st : keeps_prot st (release_block i st).
Proof.
  unfold release_block.
  destruct (nt_unmap_view _ st) as [s st1] eqn:E.
  apply host_status_spec in E. destruct E as [M C].
  unfold keeps_prot. simpl. now rewrite M.
Qed.

Lemma free_unused_blocks_keeps :
  forall fuel eb i st st',
    free_unused_blocks fuel eb i st = Done st' -> keeps_prot st st'.
Proof.
  induction fuel as [|k IH]; intros eb i st st' H; simpl in H; [discriminate|].
  destruct (i <=? eb).
  - apply IH in H. eapply keeps_prot_trans; [|exact H].
    destruct (count_of st i =? 0);
      [apply release_block_keeps|apply keeps_prot_refl].
  - inversion H; subst. apply keeps_prot_refl.
Qed.

Lemma rollback_sections_keeps :
  forall n j st, keeps_prot st (rollback_sections n j st).
Proof.
  induction n as [|n IH]; intros j st; simpl; [apply keeps_prot_refl|].
  eapply keeps_prot_trans; [|apply IH].
  destruct (count_of st j =? 0);
    [apply release_block_keeps|apply keeps_prot_refl].
Qed.

Lemma dec_page_counts_keeps :
  forall n i st, keeps_prot st (dec_page_counts n i st).
Proof.
  induction n as [|n IH]; intros i st; simpl; [apply keeps_prot_refl|].
  eapply keeps_prot_trans; [|apply IH]. split; reflexivity.
Qed.

Lemma modify_entry_keeps i pred sp ep st pred' e' st' :
  modify_entry i pred sp ep st = Done (pred', e', st') -> keeps_prot st st'.
Proof.
  unfold modify_entry.
  destruct ((sp >? start_page (entry st i)) && (ep <? end_page (entry st i))).
  { unfold new_map_entry. destruct (map_free_list (mm st)); [|discriminate].
    match goal with |- context [if ?c then _ else _] => destruct c end;
      intros H; inversion H; subst; split; reflexivity. }
  destruct (sp >? start_page (entry st i)).
  { intros H; inversion H; subst. split; reflexivity. }
  destruct (ep <? end_page (entry st i)).
  { match goal with |- context [if ?c then _ else _] => destruct c end;
      intros H; inversion H; subst; split; reflexivity. }
  destruct (negb (f (entry st i) =? 0)); destruct pred;
    intros H; inversion H; subst; split; reflexivity.
Qed.

Lemma munmap_walk_keeps :
  forall fuel us ue pred e st st',
    munmap_walk fuel us ue pred e st = Done st' -> keeps_prot st st'.
Proof.
  induction fuel as [|k IH]; intros us ue pred e st st' H; simpl in H;
    [discriminate|].
  destruct e as [i|]; [|inversion H; subst; apply keeps_prot_refl].
  destruct (start_page (entry st i) >? ue);
    [inversion H; subst; apply keeps_prot_refl|].
  destruct (end_page (entry st i) >=? us); [|now apply IH in H].
  destruct (modify_entry _ _ _ _ _) as [[[p' e'] st1]| |] eqn:E1;
    simpl in H; try discriminate.
  apply modify_entry_keeps in E1.
  destruct (free_unused_blocks _ _ _ _) as [st3| |] eqn:E3;
    simpl in H; try discriminate.
  apply free_unused_blocks_keeps in E3.
  apply IH in H.
  eapply keeps_prot_trans; [exact E1|].
  eapply keeps_prot_trans; [|exact H].
  eapply keeps_prot_trans; [|exact E3].
  apply dec_page_counts_keeps.
Qed.

Lemma mm_munmap_keeps fuel addr length st r st' :
  mm_munmap fuel addr length st = Done (r, st') -> keeps_prot st st'.
Proof.
  unfold mm_munmap.
  destruct (negb _); [intros H; inversion H; subst; apply keeps_prot_refl|].
  destruct (bad_range _ _);
    [intros H; inversion H; subst; apply keeps_prot_refl|].
  destruct (munmap_walk _ _ _ _ _ _) as [st1| |] eqn:E; simpl;
    try discriminate.
  intros H; inversion H; subst. now apply munmap_walk_keeps in E.
Qed.

(** X4.  A completed mm_munmap returns 0 or -EINVAL.  It leaves the stored
    protection of every page and the break as they were (the pages it
    unmaps keep their protection byte), it changes a section handle only
    by clearing it, and the host calls it makes are only
    NtUnmapViewOfSection, NtClose and vfs_release. *)
Theorem mm_munmap_keeps_protection (fuel : nat) (addr length : Z) (st : state)
    (r : Z) (st' : state) :
  mm_munmap fuel addr length st = Done (r, st') ->
  (r = 0 \/ r = ERRI EINVAL)
  /\ (forall p, prot_of st' p = prot_of st p)
  /\ brk (mm st') = brk (mm st)
  /\ (forall b, handle_of st' b = 0 \/ handle_of st' b = handle_of st b)
  /\ Forall release_like (new_calls st st').
Proof.
  intros H.
  pose proof (mm_munmap_keeps _ _ _ _ _ _ H) as [Hb Hp].
  pose proof (mm_munmap_releases _ _ _ _ _ _ H) as [Hh (evs & Hc & Hr)].
  split.
  { unfold mm_munmap in H.
    destruct (negb _); [inversion H; auto|].
    destruct (bad_range _ _); [inversion H; auto|].
    destruct (munmap_walk _ _ _ _ _ _); simpl in H; try discriminate.
    inversion H; auto. }
  split; [intros p; unfold prot_of; now rewrite Hp|].
  split; [exact Hb|]. split; [exact Hh|].
  now rewrite (new_calls_app _ _ _ Hc).
Qed.

Lemma mm_munmap_keeps_protection_witness :
  let st := state_after (high_then_low_2 0 0) (mm_init []) in
  let st' := state_after (high_then_low_3 0 0) (mm_init []) in
  prot_of st' 0x10000 = prot_of st 0x10000
  /\ brk (mm st') = brk (mm st)
  /\ Forall release_like (new_calls st st').
Proof.
  intros st st'.
  assert (Hrun : mm_munmap FUEL 0x10000000 0x1000 st = Done (0, st'))
    by (vm_compute; reflexivity).
  destruct (mm_munmap_keeps_protection FUEL 0x10000000 0x1000 st 0 st' Hrun)
    as (_ & Hp & Hb & _ & Hc).
  split; [apply Hp|]. split; [exact Hb|exact Hc].
Defined.

Lemma alloc_sections_keeps :
  forall fuel sb eb i st ok st',
    alloc_sections fuel sb eb i st = Done (ok, st') -> keeps_prot st st'.
Proof.
  induction fuel as [|k IH]; intros sb eb i st ok st' H; simpl in H;
    [discriminate|].
  destruct (i <=? eb); [|inversion H; subst; apply keeps_prot_refl].
  destruct (count_of st i =? 0); [|now apply IH in H].
  destruct (nt_create_section st) as [[s hd] st1] eqn:E1.
  apply nt_create_section_spec in E1.
  assert (M1 : mm st1 = mm st) by apply E1.
  destruct (negb (s =? STATUS_SUCCESS)).
  { inversion H; subst. eapply keeps_prot_trans;
      [|apply rollback_sections_keeps]. unfold keeps_prot. now rewrite M1. }
  destruct (nt_map_view hd _ st1) as [s2 st2] eqn:E2.
  apply host_status_spec in E2. destruct E2 as [M2 C2].
  destruct (negb (s2 =? STATUS_SUCCESS)).
  { inversion H; subst. eapply keeps_prot_trans;
      [|apply rollback_sections_keeps].
    unfold keeps_prot. simpl. now rewrite M2, M1. }
  apply IH in H. eapply keeps_prot_trans; [|exact H].
  unfold keeps_prot. simpl. now rewrite M2, M1.
Qed.

Lemma insert_after_keeps :
  forall fuel n ep e st st',
    insert_after fuel n ep e st = Done st' -> keeps_prot st st'.
Proof.
  induction fuel as [|k IH]; intros n ep e st st' H; simpl in H;
    [discriminate|].
  destruct e as [i|]; [|inversion H; subst; apply keeps_prot_refl].
  match type of H with (if ?c then _ else _) = _ => destruct c end.
  - inversion H; subst. split; reflexivity.
  - now apply IH in H.
Qed.

Lemma insert_entry_keeps fuel n ep st st' :
  insert_entry fuel n ep st = Done st' -> keeps_prot st st'.
Proof.
  unfold insert_entry. destruct (map_list (mm st)) as [h|].
  - destruct (start_page (entry st h) >? ep).
    + intros H; inversion H; subst. split; reflexivity.
    + apply insert_after_keeps.
  - intros H; inversion H; subst. split; reflexivity.
Qed.

Lemma map_pages_prots :
  forall n i prot st ok st',
    map_pages n i prot st = (ok, st') ->
    brk (mm st') = brk (mm st)
    /\ (forall p, p < i \/ i + Z.of_nat n <= p -> prot_of st' p = prot_of st p)
    /\ (ok = true ->
        forall p, i <= p < i + Z.of_nat n -> prot_of st' p = wrap8 prot).
Proof.
  induction n as [|n IH]; intros i prot st ok st' H; cbn [map_pages] in H.
  - inversion H; subst. split; [reflexivity|]. split; [reflexivity|].
    intros _ p Hp. lia.
  - destruct (virtual_protect _ _ _ _) as [ok1 st1] eqn:E.
    apply virtual_protect_spec in E. destruct E as [M C].
    assert (Hi : prot_of st1 i = wrap8 prot).
    { unfold prot_of. rewrite M. simpl. unfold upd. now rewrite Z.eqb_refl. }
    assert (Ho : forall p, p <> i -> prot_of st1 p = prot_of st p).
    { intros p Hp. unfold prot_of. rewrite M. simpl. unfold upd.
      destruct (Z.eqb_spec p i); [contradiction|reflexivity]. }
    assert (Hb : brk (mm st1) = brk (mm st)) by (rewrite M; reflexivity).
    destruct ok1.
    + apply IH in H. destruct H as (B & O & I).
      split; [congruence|]. split.
      * intros p Hp. rewrite O by lia. apply Ho. lia.
      * intros Hok p Hp. destruct (Z.eq_dec p i) as [-> | Hne].
        -- rewrite O by lia. exact Hi.
        -- apply I; [exact Hok|lia].
    + inversion H; subst. split; [exact Hb|]. split.
      * intros p Hp. apply Ho. lia.
      * discriminate.
Qed.

Lemma ERRP_unaligned :
  ERRP EINVAL mod PAGE_SIZE <> 0 /\ ERRP EBADF mod PAGE_SIZE <> 0
  /\ ERRP ENOMEM mod PAGE_SIZE <> 0.
Proof. vm_compute. repeat split; discriminate. Qed.

Lemma GET_PAGE_ADDRESS_aligned p : GET_PAGE_ADDRESS p mod PAGE_SIZE = 0.
Proof.
  unfold GET_PAGE_ADDRESS, wrap32, PAGE_SIZE.
  rewrite Z.mod_mod_divide by (exists (2 ^ 20); reflexivity).
  apply Z.mod_mul. lia.
Qed.

Lemma mm_mmap_at_success fuel a L prot flags f off st r st' :
  mm_mmap_at fuel a L prot flags f off st = Done (r, st') ->
  r <> ERRP ENOMEM ->
  let prot' :=
    if negb (has_flag flags MAP_ANONYMOUS) then Z.lor prot PROT_WRITE
    else prot in
  let sp := GET_PAGE a in
  let ep := GET_PAGE (wrap32 (a + L - 1)) in
  r = a
  /\ brk (mm st') = brk (mm st)
  /\ (forall p, sp <= p <= ep -> prot_of st' p = wrap8 prot')
  /\ (forall p, ~ sp <= p <= ep -> prot_of st' p = prot_of st p).
Proof.
  intros H Hr prot' sp ep. unfold mm_mmap_at in H.
  match type of H with
  | (st_ <- ?m ;; _) = _ => destruct m as [st1| |] eqn:E1
  end; cbn [obind] in H; try discriminate.
  assert (K1 : keeps_prot st st1).
  { destruct (has_flag flags MAP_FIXED).
    - destruct (mm_munmap fuel a L st) as [[r0 s0]| |] eqn:E0;
        cbn [obind] in E1; try discriminate.
      inversion E1; subst. now apply mm_munmap_keeps in E0.
    - inversion E1; subst. apply keeps_prot_refl. }
  destruct (alloc_sections _ _ _ _ _) as [[ok st2]| |] eqn:E2;
    cbn [obind] in H; try discriminate.
  apply alloc_sections_keeps in E2.
  destruct ok; cbn [negb] in H; [|inversion H; subst; contradiction].
  unfold new_map_entry in H.
  destruct (map_free_list (mm st2)) as [n|]; [|discriminate].
  match type of H with
  | (st_ <- ?m ;; _) = _ => destruct m as [st5| |] eqn:E5
  end; cbn [obind] in H; try discriminate.
  apply insert_entry_keeps in E5.
  destruct (map_pages _ _ _ _) as [ok7 st7] eqn:E7.
  apply map_pages_prots in E7. destruct E7 as (B7 & O7 & I7).
  destruct ok7; inversion H; subst; [|contradiction].
  assert (K5 : keeps_prot st st5).
  { eapply keeps_prot_trans; [exact K1|].
    eapply keeps_prot_trans; [exact E2|].
    eapply keeps_prot_trans; [|exact E5].
    destruct (negb (f =? 0)); split; reflexivity. }
  destruct K5 as [Kb Kp].
  split; [reflexivity|]. split; [congruence|]. split.
  - intros p Hp. apply I7; [reflexivity|].
    fold sp ep. rewrite Z2Nat.id by lia. lia.
  - intros p Hp. rewrite O7.
    + unfold prot_of. now rewrite Kp.
    + fold sp ep. destruct (Z_le_gt_dec sp (ep + 1)).
      * rewrite Z2Nat.id by lia. lia.
      * replace (Z.to_nat (ep + 1 - sp)) with O by lia. simpl. lia.
Qed.

(** X5.  A completed mm_mmap returns -EINVAL, -EBADF, -ENOMEM or a
    page-aligned address, and a negative errno is never page aligned.  When
    the result is page aligned, every page of the range that starts there
    and has the page-rounded length has the protection stored, with
    PROT_WRITE added for a file mapping and truncated to a byte; the stored
    protection of every other page and the break are as before the
    call. *)
Theorem mm_mmap_success_stores_protection (HEAP_BASE MAP_HEAP : Z)
    (fuel : nat) (addr length prot flags f off : Z) (st : state)
    (r : Z) (st' : state) :
  mm_mmap HEAP_BASE MAP_HEAP fuel addr length prot flags f off st
  = Done (r, st') ->
  (r = ERRP EINVAL \/ r = ERRP EBADF \/ r = ERRP ENOMEM
   \/ r mod PAGE_SIZE = 0)
  /\ (r mod PAGE_SIZE = 0 ->
      let prot' :=
        if has_flag flags MAP_ANONYMOUS then prot else Z.lor prot PROT_WRITE in
      let sp := GET_PAGE r in
      let ep := GET_PAGE (wrap32 (r + ALIGN_TO_PAGE length - 1)) in
      brk (mm st') = brk (mm st)
      /\ (forall p, sp <= p <= ep -> prot_of st' p = wrap8 prot')
      /\ (forall p, ~ sp <= p <= ep -> prot_of st' p = prot_of st p)).
Proof.
  destruct ERRP_unaligned as (U1 & U2 & U3).
  unfold mm_mmap. intros H.
  repeat match type of H with
         | (if ?c then Done (ERRP _, _) else _) = _ =>
             destruct c; [inversion H; subst; split;
                          [auto|intros; contradiction]|]
         end.
  destruct (choose_address _ _ _ _ _ _ _) as [[a|]| |] eqn:E;
    cbn [obind] in H; try discriminate.
  2:{ inversion H; subst. split; [auto|intros; contradiction]. }
  destruct (has_flag flags MAP_FIXED && negb (IS_ALIGNED a PAGE_SIZE)) eqn:EA;
    [inversion H; subst; split; [auto|intros; contradiction]|].
  assert (Ha : a mod PAGE_SIZE = 0).
  { unfold choose_address in E.
    destruct (has_flag flags MAP_FIXED); cbn [negb] in E.
    - inversion E; subst. cbn [andb] in EA.
      apply Bool.negb_false_iff in EA. unfold IS_ALIGNED in EA. now zbool.
    - match type of E with
      | (alloc_page <- ?m ;; _) = _ => destruct m as [pg| |]
      end; cbn [obind] in E; try discriminate.
      destruct (pg =? 0); inversion E; subst.
      apply GET_PAGE_ADDRESS_aligned. }
  split.
  - apply mm_mmap_at_result in H. destruct H as [-> | ->]; auto.
  - intros Hr. 
    assert (Hne : r <> ERRP ENOMEM) by (intros ->; contradiction).
    destruct (mm_mmap_at_success _ _ _ _ _ _ _ _ _ _ H Hne)
      as (-> & Hb & Hin & Hout).
    cbv zeta. split; [exact Hb|]. split.
    + intros p Hp. rewrite (Hin p Hp).
      now destruct (has_flag flags MAP_ANONYMOUS).
    + exact Hout.
Qed.

Lemma mm_mmap_success_stores_protection_witness :
  let st' := state_after (three_pages 0 0) (mm_init []) in
  prot_of st' 0x20000 = wrap8 RW /\ prot_of st' 0x20002 = wrap8 RW
  /\ prot_of st' 0x20003 = prot_of (mm_init []) 0x20003.
Proof.
  intros st'.
  assert (Hrun : mm_mmap 0 0 FUEL 0x20000000 0x3000 RW FIXED_ANON 0 0
                   (mm_init []) = Done (0x20000000, st'))
    by (vm_compute; reflexivity).
  destruct (mm_mmap_success_stores_protection 0 0 FUEL 0x20000000 0x3000 RW
              FIXED_ANON 0 0 (mm_init []) 0x20000000 st' Hrun) as (_ & H).
  destruct (H eq_refl) as (_ & Hin & Hout).
  split; [apply Hin; vm_compute; split; discriminate|].
  split; [apply Hin; vm_compute; split; discriminate|].
  apply Hout. vm_compute. intros [_ Hc]. apply Hc. reflexivity.
Defined.

Lemma only_calls_refl P st : only_calls P st st.
Proof. split; [reflexivity|]. exists []. now rewrite app_nil_r. Qed.

Lemma only_calls_trans P st1 st2 st3 :
  only_calls P st1 st2 -> only_calls P st2 st3 -> only_calls P st1 st3.
Proof.
  intros [M1 (e1 & C1 & F1)] [M2 (e2 & C2 & F2)]. split; [congruence|].
  exists (e1 ++ e2). rewrite C2, C1, app_assoc. split; [reflexivity|].
  now apply Forall_app.
Qed.

Lemma virtual_protect_only (P : host_call -> Prop) addr size p st :
  (forall ok, P (VirtualProtect addr size p ok)) ->
  only_calls P st (snd (virtual_protect addr size p st)).
Proof.
  intros HP. destruct (virtual_protect addr size p st) as [ok st1] eqn:E.
  apply virtual_protect_spec in E. destruct E as [M C]. simpl.
  split; [exact M|]. eexists. split; [exact C|]. repeat constructor. apply HP.
Qed.

Lemma protect_blocks_only prot protection :
  (protection = prot_linux2win prot
   \/ protection = prot_linux2win (Z.land prot (Z.lnot PROT_WRITE))) ->
  forall n k j st,
    only_calls (protects_with prot) st
      (snd (protect_blocks n k j protection st)).
Proof.
  intros Hp. induction n as [|n IH]; intros k j st; cbn [protect_blocks].
  - apply only_calls_refl.
  - pose proof (virtual_protect_only (protects_with prot)
                  (GET_PAGE_ADDRESS j)
                  (wrap32 ((PAGES_PER_BLOCK - GET_PAGE_IN_BLOCK j) * PAGE_SIZE))
                  protection st (fun _ => Hp)) as H1.
    destruct (virtual_protect _ _ _ st) as [ok st1]. simpl in H1.
    eapply only_calls_trans; [exact H1|apply IH].
Qed.

Lemma protect_runs_only prot :
  forall n i j ep st,
    only_calls (protects_with prot) st (protect_runs n i j ep prot st).
Proof.
  induction n as [|n IH]; intros i j ep st; cbn [protect_runs].
  - apply only_calls_refl.
  - destruct (negb (prot_of st i =? prot_of st j) || (i =? wrap32 (ep + 1)));
      [|apply IH].
    set (protection := if has_flag (prot_of st j) PROT_WRITE
                       then prot_linux2win prot
                       else prot_linux2win (Z.land prot (Z.lnot PROT_WRITE))).
    assert (Hp : protection = prot_linux2win prot
                 \/ protection = prot_linux2win (Z.land prot (Z.lnot PROT_WRITE)))
      by (unfold protection; destruct (has_flag _ _); auto).
    pose proof (protect_blocks_only prot protection Hp
                  (Z.to_nat (GET_BLOCK_OF_PAGE (wrap32 (i - 1))
                             - GET_BLOCK_OF_PAGE j))
                  (GET_BLOCK_OF_PAGE j) j st) as H1.
    destruct (protect_blocks _ _ _ _ st) as [j1 st1]. simpl in H1.
    eapply only_calls_trans; [exact H1|].
    eapply only_calls_trans; [|apply IH].
    destruct (i >? j1); [|apply only_calls_refl].
    apply virtual_protect_only. intros ok. exact Hp.
Qed.

Lemma store_prots_spec :
  forall n i prot st,
    let st' := store_prots n i prot st in
    os st' = os st
    /\ brk (mm st') = brk (mm st) /\ map_list (mm st') = map_list (mm st)
    /\ map_free_list (mm st') = map_free_list (mm st)
    /\ map_entries (mm st') = map_entries (mm st)
    /\ block_section_handle (mm st') = block_section_handle (mm st)
    /\ block_page_count (mm st') = block_page_count (mm st)
    /\ (forall p, i <= p < i + Z.of_nat n -> prot_of st' p = wrap8 prot)
    /\ (forall p, p < i \/ i + Z.of_nat n <= p -> prot_of st' p = prot_of st p).
Proof.
  induction n as [|n IH]; intros i prot st; cbn [store_prots].
  - cbv zeta. repeat match goal with |- _ /\ _ => split end;
      try reflexivity. intros p Hp. lia.
  - specialize (IH (i + 1) prot (set_prot i (wrap8 prot) st)).
    cbv zeta in *.
    destruct IH as (A & B & C & D & E & F & G & I & O).
    repeat match goal with |- _ /\ _ => split end; try assumption.
    + intros p Hp. destruct (Z.eq_dec p i) as [-> | Hne].
      * rewrite O by lia. unfold prot_of. simpl. unfold upd.
        now rewrite Z.eqb_refl.
      * apply I. lia.
    + intros p Hp. rewrite O by lia. unfold prot_of. simpl. unfold upd.
      destruct (Z.eqb_spec p i); [lia|reflexivity].
Qed.

(** X6.  A completed sys_mprotect returns 0, -EINVAL or -ENOMEM, and on an
    error the whole state is as before the call.  When it returns 0 every
    page of the range has [prot], truncated to a byte, as its stored
    protection, no other page's stored protection changed, the break, the
    map list, the entries, the section handles and the page counts are as
    before, and every host call made is a VirtualProtect that applies
    [prot] translated by prot_linux2win, with or without PROT_WRITE. *)
Theorem sys_mprotect_stores_protection (fuel : nat) (addr length prot : Z)
    (st : state) (r : Z) (st' : state) :
  sys_mprotect fuel addr length prot st = Done (r, st') ->
  (r = 0 \/ r = ERRI EINVAL \/ r = ERRI ENOMEM)
  /\ (r <> 0 -> st' = st)
  /\ (r = 0 ->
      let sp := GET_PAGE addr in
      let ep := GET_PAGE (wrap32 (wrap32 addr + ALIGN_TO_PAGE length - 1)) in
      (forall p, sp <= p <= ep -> prot_of st' p = wrap8 prot)
      /\ (forall p, ~ sp <= p <= ep -> prot_of st' p = prot_of st p)
      /\ brk (mm st') = brk (mm st)
      /\ map_list (mm st') = map_list (mm st)
      /\ map_entries (mm st') = map_entries (mm st)
      /\ block_section_handle (mm st') = block_section_handle (mm st)
      /\ block_page_count (mm st') = block_page_count (mm st)
      /\ Forall (protects_with prot) (new_calls st st')).
Proof.
  unfold sys_mprotect. intros H.
  destruct (negb (IS_ALIGNED addr PAGE_SIZE)).
  { inversion H; subst. split; [auto|]. split; [auto|].
    unfold ERRI, EINVAL. intros; lia. }
  destruct (bad_range addr (ALIGN_TO_PAGE length)).
  { inversion H; subst. split; [auto|]. split; [auto|].
    unfold ERRI, EINVAL. intros; lia. }
  destruct (mprotect_validate _ _ _ _ _ _) as [lp| |]; cbn [obind] in H;
    try discriminate.
  destruct (lp <? _).
  { inversion H; subst. split; [auto|]. split; [auto|].
    unfold ERRI, ENOMEM. intros; lia. }
  inversion H; subst; clear H.
  split; [auto|]. split; [intros Hc; now contradiction Hc|]. intros _.
  set (sp := GET_PAGE addr).
  set (ep := GET_PAGE (wrap32 (wrap32 addr + ALIGN_TO_PAGE length - 1))).
  cbv zeta.
  pose proof (protect_runs_only prot (Z.to_nat (ep + 2 - sp)) sp sp ep st)
    as [M (evs & C & F)].
  set (st1 := protect_runs (Z.to_nat (ep + 2 - sp)) sp sp ep prot st) in *.
  pose proof (store_prots_spec (Z.to_nat (ep + 1 - sp)) sp prot st1) as S.
  cbv zeta in S.
  destruct S as (So & Sb & Sl & Sf & Se & Sh & Sc & Si & Sout).
  assert (Hn : forall p, sp <= p <= ep <->
                 sp <= p < sp + Z.of_nat (Z.to_nat (ep + 1 - sp))).
  { intros p. destruct (Z_le_gt_dec sp (ep + 1)).
    - rewrite Z2Nat.id by lia. lia.
    - replace (Z.to_nat (ep + 1 - sp)) with O by lia. simpl. lia. }
  repeat match goal with |- _ /\ _ => split end.
  - intros p Hp. apply Si. now apply Hn.
  - intros p Hp. rewrite Sout.
    + unfold prot_of. now rewrite M.
    + rewrite Hn in Hp. lia.
  - now rewrite Sb, M.
  - now rewrite Sl, M.
  - now rewrite Se, M.
  - now rewrite Sh, M.
  - now rewrite Sc, M.
  - rewrite (new_calls_app st _ evs); [exact F|]. now rewrite So.
Qed.

Lemma sys_mprotect_stores_protection_witness :
  let st := state_after (three_pages 0 0) (mm_init []) in
  let st' := state_after (protect_all 0 0) (mm_init []) in
  prot_of st' 0x20001 = wrap8 PROT_READ
  /\ map_list (mm st') = map_list (mm st)
  /\ Forall (protects_with PROT_READ) (new_calls st st').
Proof.
  intros st st'.
  assert (Hrun : sys_mprotect FUEL 0x20000000 0x3000 PROT_READ st
                 = Done (0, st'))
    by (vm_compute; reflexivity).
  destruct (sys_mprotect_stores_protection FUEL 0x20000000 0x3000 PROT_READ
              st 0 st' Hrun) as (_ & _ & H).
  destruct (H eq_refl) as (Hin & _ & _ & Hl & _ & _ & _ & Hc).
  split; [apply Hin; vm_compute; split; discriminate|].
  split; [exact Hl|exact Hc].
Defined.

Lemma reset_block_spec i st :
  let st' := reset_block i st in
  handle_of st' i = 0
  /\ (handle_of st i <> 0 -> count_of st' i = 0)
  /\ (handle_of st i = 0 -> count_of st' i = count_of st i)
  /\ (forall b, b <> i -> handle_of st' b = handle_of st b
                          /\ count_of st' b = count_of st b)
  /\ brk (mm st') = brk (mm st) /\ page_prot (mm st') = page_prot (mm st)
  /\ map_list (mm st') = map_list (mm st)
  /\ map_entries (mm st') = map_entries (mm st)
  /\ map_free_list (mm st') = map_free_list (mm st)
  /\ exists evs, calls (os st') = calls (os st) ++ evs /\ Forall unmap_or_close evs.
Proof.
  unfold reset_block. destruct (Z.eqb_spec (handle_of st i) 0) as [Hz|Hnz];
    cbn [negb].
  - cbv zeta. repeat match goal with |- _ /\ _ => split end; auto.
    + intros Hc. contradiction.
    + exists []. now rewrite app_nil_r.
  - destruct (nt_unmap_view _ st) as [s st1] eqn:E.
    apply host_status_spec in E. destruct E as [M C].
    cbv zeta. unfold handle_of, count_of, set_count, set_handle, nt_close,
      host_do. simpl. rewrite M. unfold upd. rewrite Z.eqb_refl.
    repeat match goal with |- _ /\ _ => split end; auto.
    + intros Hc. contradiction.
    + intros b Hb. destruct (Z.eqb_spec b i); [contradiction|]. auto.
    + eexists. rewrite C, <- app_assoc. split; [reflexivity|].
      repeat constructor.
Qed.

Lemma reset_blocks_spec :
  forall n i st,
    let st' := reset_blocks n i st in
    (forall b, i <= b < i + Z.of_nat n ->
       handle_of st' b = 0
       /\ (handle_of st b <> 0 -> count_of st' b = 0)
       /\ (handle_of st b = 0 -> count_of st' b = count_of st b))
    /\ (forall b, ~ i <= b < i + Z.of_nat n ->
          handle_of st' b = handle_of st b /\ count_of st' b = count_of st b)
    /\ brk (mm st') = brk (mm st) /\ page_prot (mm st') = page_prot (mm st)
    /\ map_list (mm st') = map_list (mm st)
    /\ map_entries (mm st') = map_entries (mm st)
    /\ map_free_list (mm st') = map_free_list (mm st)
    /\ exists evs, calls (os st') = calls (os st) ++ evs
                   /\ Forall unmap_or_close evs.
Proof.
  induction n as [|n IH]; intros i st; cbn [reset_blocks].
  - cbv zeta. repeat match goal with |- _ /\ _ => split end; auto.
    + intros b Hb. lia.
    + exists []. now rewrite app_nil_r.
  - specialize (IH (i + 1) (reset_block i st)).
    pose proof (reset_block_spec i st) as R. cbv zeta in *.
    destruct R as (R1 & R2 & R3 & R4 & R5 & R6 & R7 & R8 & R9 & e1 & C1 & F1).
    destruct IH as (I1 & I2 & I5 & I6 & I7 & I8 & I9 & e2 & C2 & F2).
    repeat match goal with |- _ /\ _ => split end; try congruence.
    + intros b Hb. destruct (Z.eq_dec b i) as [-> | Hne].
      * destruct (I2 i ltac:(lia)) as [A B]. rewrite A, B. auto.
      * destruct (I1 b ltac:(lia)) as (A & B & C).
        destruct (R4 b Hne) as [D E]. rewrite D, E in *. auto.
    + intros b Hb. destruct (I2 b ltac:(lia)) as [A B].
      destruct (R4 b ltac:(lia)) as [D E]. split; congruence.
    + exists (e1 ++ e2). rewrite C2, C1, app_assoc. split; [reflexivity|].
      now apply Forall_app.
Qed.

Lemma clear_prots_spec :
  forall n i st,
    let st' := clear_prots n i st in
    os st' = os st
    /\ brk (mm st') = brk (mm st) /\ map_list (mm st') = map_list (mm st)
    /\ map_free_list (mm st') = map_free_list (mm st)
    /\ map_entries (mm st') = map_entries (mm st)
    /\ block_section_handle (mm st') = block_section_handle (mm st)
    /\ block_page_count (mm st') = block_page_count (mm st)
    /\ (forall p, i <= p < i + Z.of_nat n -> prot_of st' p = 0)
    /\ (forall p, p < i \/ i + Z.of_nat n <= p -> prot_of st' p = prot_of st p).
Proof.
  induction n as [|n IH]; intros i st; cbn [clear_prots].
  - cbv zeta. repeat match goal with |- _ /\ _ => split end;
      try reflexivity. intros p Hp. lia.
  - specialize (IH (i + 1) (set_prot i 0 st)).
    cbv zeta in *.
    destruct IH as (A & B & C & D & E & F & G & I & O).
    repeat match goal with |- _ /\ _ => split end; try assumption.
    + intros p Hp. destruct (Z.eq_dec p i) as [-> | Hne].
      * rewrite O by lia. unfold prot_of. simpl. unfold upd.
        now rewrite Z.eqb_refl.
      * apply I. lia.
    + intros p Hp. rewrite O by lia. unfold prot_of. simpl. unfold upd.
      destruct (Z.eqb_spec p i); [lia|reflexivity].
Qed.

Lemma window_frame_refl st : window_frame st st.
Proof. unfold window_frame. auto. Qed.

Lemma window_frame_trans st1 st2 st3 :
  window_frame st1 st2 -> window_frame st2 st3 -> window_frame st1 st3.
Proof.
  intros (A1 & B1 & C1 & D1 & E1) (A2 & B2 & C2 & D2 & E2).
  unfold window_frame. repeat split; try congruence.
  intros p Hp. rewrite E2, E1; auto.
Qed.

Lemma reset_walk_frame :
  forall fuel p e st st',
    reset_walk fuel p e st = Done st' -> window_frame st st'.
Proof.
  induction fuel as [|k IH]; intros p e st st' H; cbn [reset_walk] in H;
    [discriminate|].
  destruct e as [i|]; [|inversion H; subst; apply window_frame_refl].
  destruct ((start_page (entry st i) >=? GET_PAGE ADDRESS_ALLOCATION_LOW)
            && (end_page (entry st i) <? GET_PAGE ADDRESS_ALLOCATION_HIGH))
    eqn:Ew; [|now apply IH in H].
  apply IH in H. eapply window_frame_trans; [|exact H].
  apply Bool.andb_true_iff in Ew. destruct Ew as [E1 E2]. zbool.
  pose proof (clear_prots_spec
                (Z.to_nat (end_page (entry st i) + 1 - start_page (entry st i)))
                (start_page (entry st i)) st) as S.
  cbv zeta in S. destruct S as (So & Sb & Sl & Sf & Se & Sh & Sc & Si & Sout).
  assert (Hout : forall q,
            ~ GET_PAGE ADDRESS_ALLOCATION_LOW <= q
              < GET_PAGE ADDRESS_ALLOCATION_HIGH ->
            prot_of (clear_prots
                (Z.to_nat (end_page (entry st i) + 1 - start_page (entry st i)))
                (start_page (entry st i)) st) q = prot_of st q).
  { intros q Hq. apply Sout.
    destruct (Z_le_gt_dec (start_page (entry st i)) (end_page (entry st i) + 1)).
    - rewrite Z2Nat.id by lia. lia.
    - replace (Z.to_nat _) with O by lia. simpl. lia. }
  destruct p as [q|]; unfold window_frame; simpl;
    repeat match goal with |- _ /\ _ => split end; auto.
Qed.

Lemma mm_reset_blocks_then_walk n lowb fuel st st' :
  reset_walk fuel None (map_list (mm (reset_blocks n lowb st)))
    (reset_blocks n lowb st) = Done st' ->
  (forall b, lowb <= b < lowb + Z.of_nat n ->
     handle_of st' b = 0
     /\ (handle_of st b <> 0 -> count_of st' b = 0)
     /\ (handle_of st b = 0 -> count_of st' b = count_of st b))
  /\ (forall b, ~ lowb <= b < lowb + Z.of_nat n ->
        handle_of st' b = handle_of st b /\ count_of st' b = count_of st b)
  /\ (forall p, ~ GET_PAGE ADDRESS_ALLOCATION_LOW <= p
                  < GET_PAGE ADDRESS_ALLOCATION_HIGH ->
        prot_of st' p = prot_of st p)
  /\ brk (mm st') = brk (mm st)
  /\ Forall unmap_or_close (new_calls st st').
Proof.
  intros H.
  pose proof (reset_blocks_spec n lowb st) as R. cbv zeta in R.
  destruct R as (R1 & R2 & Rb & Rp & _ & _ & _ & evs & C & F).
  apply reset_walk_frame in H.
  destruct H as (Wo & Wb & Wh & Wc & Wp).
  unfold handle_of, count_of in *. rewrite Wh, Wc.
  repeat match goal with |- _ /\ _ => split end.
  - exact R1.
  - exact R2.
  - intros p Hp. rewrite (Wp p Hp). unfold prot_of. now rewrite Rp.
  - congruence.
  - rewrite (new_calls_app st st' evs); [exact F|]. now rewrite Wo.
Qed.

(** X7.  After a completed mm_reset no block of the main window
    [0x04000000, 0x70000000) holds a section handle; the page count of a
    block of the window is 0 when the block held a handle and is left as
    it was otherwise.  Blocks outside the window keep handle and count,
    pages outside the window keep their stored protection, the break is
    unchanged, and the host calls made are only NtUnmapViewOfSection and
    NtClose. *)
Theorem mm_reset_clears_window (fuel : nat) (st st' : state) :
  mm_reset fuel st = Done st' ->
  (forall b, GET_BLOCK ADDRESS_ALLOCATION_LOW <= b
             < GET_BLOCK ADDRESS_ALLOCATION_HIGH ->
     handle_of st' b = 0
     /\ (handle_of st b <> 0 -> count_of st' b = 0)
     /\ (handle_of st b = 0 -> count_of st' b = count_of st b))
  /\ (forall b, ~ GET_BLOCK ADDRESS_ALLOCATION_LOW <= b
                  < GET_BLOCK ADDRESS_ALLOCATION_HIGH ->
        handle_of st' b = handle_of st b /\ count_of st' b = count_of st b)
  /\ (forall p, ~ GET_PAGE ADDRESS_ALLOCATION_LOW <= p
                  < GET_PAGE ADDRESS_ALLOCATION_HIGH ->
        prot_of st' p = prot_of st p)
  /\ brk (mm st') = brk (mm st)
  /\ Forall unmap_or_close (new_calls st st').
Proof.
  intros H. apply mm_reset_blocks_then_walk in H.
  rewrite Z2Nat.id in H by (vm_compute; discriminate).
  replace (GET_BLOCK ADDRESS_ALLOCATION_LOW
           + (GET_BLOCK ADDRESS_ALLOCATION_HIGH
              - GET_BLOCK ADDRESS_ALLOCATION_LOW))
    with (GET_BLOCK ADDRESS_ALLOCATION_HIGH) in H by lia.
  exact H.
Qed.

Lemma mm_reset_clears_window_witness :
  handle_of after_reset 0x2000 = 0 /\ count_of after_reset 0x2000 = 0
  /\ handle_of after_reset 0x100 = 9
  /\ Forall unmap_or_close (new_calls two_sections after_reset).
Proof.
  assert (Hrun : mm_reset 1 two_sections = Done after_reset)
    by (vm_compute; reflexivity).
  destruct (mm_reset_clears_window 1 two_sections after_reset Hrun)
    as (H1 & H2 & _ & _ & H5).
  clear Hrun.
  destruct (H1 0x2000) as (A & B & _);
    [vm_compute; split; [discriminate|reflexivity]|].
  destruct (H2 0x100) as (C & _); [vm_compute; intros [Hc _]; now apply Hc|].
  split; [exact A|]. split; [apply B; vm_compute; discriminate|].
  split; [rewrite C; vm_compute; reflexivity|exact H5].
Defined.

Lemma fault_frame_mm block st st' : mm st' = mm st -> fault_frame block st st'.
Proof.
  intros H. unfold fault_frame, handle_of. rewrite H.
  repeat match goal with |- _ /\ _ => split end; auto.
Qed.

Lemma duplicate_section_mm source source_addr st :
  mm (snd (duplicate_section source source_addr st)) = mm st
  /\ (fst (duplicate_section source source_addr st) <> 0 \/
      fst (duplicate_section source source_addr st) = 0).
Proof.
  split; [|lia]. unfold duplicate_section.
  destruct (nt_create_section st) as [[s1 hd] st1] eqn:E1.
  apply nt_create_section_spec in E1. destruct E1 as (M1 & _).
  destruct (negb (s1 =? STATUS_SUCCESS)); [exact M1|].
  destruct (take_answer (os st1)) as [a2 h2].
  destruct (virtual_protect _ _ _ _) as [ok st3] eqn:E3.
  apply virtual_protect_spec in E3. simpl in E3. destruct E3 as [M3 _].
  destruct (nt_unmap_view _ _) as [s4 st4] eqn:E4.
  apply host_status_spec in E4. simpl in E4. destruct E4 as [M4 _].
  cbn [snd]. congruence.
Qed.

Lemma restore_protection_mm :
  forall n block i st, mm (snd (restore_protection n block i st)) = mm st.
Proof.
  induction n as [|n IH]; intros block i st; cbn [restore_protection];
    [reflexivity|].
  destruct (virtual_protect _ _ _ st) as [ok st1] eqn:E.
  apply virtual_protect_spec in E. destruct E as [M _].
  destruct ok; [rewrite IH|cbn [snd]]; exact M.
Qed.

Lemma clone_block_frame block st :
  fault_frame block st (snd (clone_block block st)).
Proof.
  unfold clone_block.
  pose proof (duplicate_section_mm (handle_of st block)
                (GET_BLOCK_ADDRESS block) st) as [M1 _].
  destruct (duplicate_section _ _ st) as [section st1]. cbn [fst snd] in M1.
  destruct (Z.eqb_spec section 0) as [Hz|Hnz];
    [cbn [snd]; now apply fault_frame_mm|].
  destruct (nt_unmap_view _ st1) as [s2 st2] eqn:E2.
  apply host_status_spec in E2. destruct E2 as [M2 _].
  destruct (negb (s2 =? STATUS_SUCCESS));
    [cbn [snd]; apply fault_frame_mm; congruence|].
  destruct (nt_map_view _ _ _) as [s3 st3] eqn:E3.
  apply host_status_spec in E3. simpl in E3. destruct E3 as [M3 _].
  assert (F : fault_frame block st st3).
  { unfold fault_frame, handle_of. rewrite M3, M2, M1. cbn.
    repeat match goal with |- _ /\ _ => split end; auto.
    - intros b Hb. unfold upd. destruct (Z.eqb_spec b block); [contradiction|].
      reflexivity.
    - intros _. unfold upd. now rewrite Z.eqb_refl. }
  destruct (negb (s3 =? STATUS_SUCCESS)); exact F.
Qed.

Lemma fault_frame_then_mm block st st1 st2 :
  fault_frame block st st1 -> mm st2 = mm st1 -> fault_frame block st st2.
Proof.
  unfold fault_frame, handle_of. intros F M. rewrite M. exact F.
Qed.

(** X18.  mm_handle_page_fault returns 0 or 1, whatever the host answers.
    It leaves the break, both lists, every entry, every page count and
    every stored protection as they were; the only section handle it may
    change is that of the block of [addr], and a handle that was not NULL
    is not NULL afterwards. *)
Theorem mm_handle_page_fault_frame (addr : Z) (st : state) :
  let r := fst (mm_handle_page_fault addr st) in
  let st' := snd (mm_handle_page_fault addr st) in
  (r = 0 \/ r = 1)
  /\ fault_frame (wrap16 (GET_BLOCK addr)) st st'.
Proof.
  cbv zeta. unfold mm_handle_page_fault.
  set (block := wrap16 (GET_BLOCK addr)).
  destruct (_ || _); [cbn; split; [auto|now apply fault_frame_mm]|].
  destruct (_ =? 0); [cbn; split; [auto|now apply fault_frame_mm]|].
  destruct (handle_of st block =? 0);
    [cbn; split; [auto|now apply fault_frame_mm]|].
  destruct (nt_query_object _ st) as [[s c] st1] eqn:E1.
  assert (M1 : mm st1 = mm st).
  { unfold nt_query_object in E1. destruct (take_answer (os st)).
    inversion E1; subst. reflexivity. }
  destruct (negb (s =? STATUS_SUCCESS));
    [cbn; split; [auto|now apply fault_frame_mm]|].
  assert (F1 : fault_frame block st st1) by now apply fault_frame_mm.
  destruct (c =? 1).
  - cbn [negb].
    pose proof (restore_protection_mm (Z.to_nat PAGES_PER_BLOCK) block 0 st1)
      as M2.
    destruct (restore_protection _ block 0 st1) as [ok st2].
    cbn [snd] in M2.
    destruct ok; cbn [fst snd]; (split; [auto|]);
      apply fault_frame_mm; congruence.
  - pose proof (clone_block_frame block st1) as F2.
    destruct (clone_block block st1) as [ok st2]. cbn [snd] in F2.
    assert (F : fault_frame block st st2).
    { unfold fault_frame, handle_of in *. rewrite M1 in F2. exact F2. }
    destruct ok; cbn [negb]; [|cbn; auto].
    pose proof (restore_protection_mm (Z.to_nat PAGES_PER_BLOCK) block 0 st2)
      as M3.
    destruct (restore_protection _ block 0 st2) as [ok3 st3].
    cbn [snd] in M3.
    destruct ok3; cbn [fst snd]; (split; [auto|]);
      now apply (fault_frame_then_mm block st st2).
Qed.

Lemma fork_step_refl st log : fork_step st log st log.
Proof.
  split; [reflexivity|]. split; exists []; now rewrite app_nil_r.
Qed.

Lemma fork_step_trans st1 l1 st2 l2 st3 l3 :
  fork_step st1 l1 st2 l2 -> fork_step st2 l2 st3 l3 -> fork_step st1 l1 st3 l3.
Proof.
  intros (M1 & (e1 & C1 & F1) & (c1 & L1 & G1))
         (M2 & (e2 & C2 & F2) & (c2 & L2 & G2)).
  split; [congruence|]. split.
  - exists (e1 ++ e2). rewrite C2, C1, app_assoc. split; [reflexivity|].
    now apply Forall_app.
  - exists (c1 ++ c2). rewrite L2, L1, app_assoc. split; [reflexivity|].
    now apply Forall_app.
Qed.

Lemma child_bool_step c st log ok st' log' :
  child_bool c st log = (ok, st', log') ->
  (forall b, child_read_only (c b)) ->
  fork_step st log st' log' /\ log' = log ++ [c ok].
Proof.
  unfold child_bool. destruct (take_answer (os st)) as [a h] eqn:E.
  apply take_answer_calls in E. destruct E as [C _].
  intros H Hc; inversion H; subst. split; [|reflexivity].
  split; [reflexivity|]. split.
  - exists []. cbn. now rewrite C, app_nil_r.
  - eexists. split; [reflexivity|]. repeat constructor. apply Hc.
Qed.

Lemma virtual_protect_step addr size p st log ok st' :
  virtual_protect addr size p st = (ok, st') ->
  win_writable p = false ->
  fork_step st log st' log
  /\ calls (os st') = calls (os st) ++ [VirtualProtect addr size p ok].
Proof.
  intros H Hp. apply virtual_protect_spec in H. destruct H as [M C].
  split; [|exact C]. split; [exact M|]. split.
  - eexists. split; [exact C|]. repeat constructor. exact Hp.
  - exists []. now rewrite app_nil_r.
Qed.

Lemma fork_sections_step :
  forall n i st log ok st' log',
    fork_sections n i st log = (ok, st', log') ->
    fork_step st log st' log'
    /\ (ok = true ->
        forall b, i <= b < i + Z.of_nat n -> handle_of st b <> 0 ->
          In (NtMapViewOfSectionIn (handle_of st b) (GET_BLOCK_ADDRESS b)
                STATUS_SUCCESS) log').
Proof.
  induction n as [|n IH]; intros i st log ok st' log' H;
    cbn [fork_sections] in H.
  - inversion H; subst. split; [apply fork_step_refl|]. intros _ b Hb. lia.
  - destruct (Z.eqb_spec (handle_of st i) 0) as [Hz|Hnz]; cbn [negb] in H.
    + apply IH in H. destruct H as [S I]. split; [exact S|].
      intros Hok b Hb Hh. destruct (Z.eq_dec b i) as [-> | Hne];
        [contradiction|]. apply I; [exact Hok|lia|exact Hh].
    + destruct (take_answer (os st)) as [a h] eqn:E.
      apply take_answer_calls in E. destruct E as [C _].
      set (c := NtMapViewOfSectionIn (handle_of st i) (GET_BLOCK_ADDRESS i)
                  (status a)) in *.
      assert (S1 : fork_step st log (set_os h st) (log ++ [c])).
      { split; [reflexivity|]. split.
        - exists []. cbn. now rewrite C, app_nil_r.
        - eexists. split; [reflexivity|]. repeat constructor. }
      destruct (Z.eqb_spec (status a) STATUS_SUCCESS) as [Hs|Hs];
        cbn [negb] in H.
      * apply IH in H. destruct H as [S I].
        split; [eapply fork_step_trans; eassumption|].
        intros Hok b Hb Hh. destruct (Z.eq_dec b i) as [-> | Hne].
        -- destruct S as (_ & _ & cvs & -> & _).
           apply in_or_app. left. apply in_or_app. right.
           left. unfold c. now rewrite Hs.
        -- apply (I Hok b); [lia|exact Hh].
      * inversion H; subst. split; [exact S1|discriminate].
Qed.

Lemma drop_write_read_only p :
  win_writable (prot_linux2win (Z.land p (Z.lnot PROT_WRITE))) = false.
Proof.
  destruct (prot_linux2win_flags (Z.land p (Z.lnot PROT_WRITE))) as (Hw & _).
  rewrite Hw. apply has_flag_write_dropped.
Qed.

Lemma fork_pages_step :
  forall fuel j last st log ok st' log',
    fork_pages fuel j last st log = Done (ok, st', log') ->
    fork_step st log st' log'
    /\ (ok = true -> 0 <= j -> last < 2 ^ 32 - 1 ->
        forall q, j <= q <= last ->
          In (VirtualProtectEx (GET_PAGE_ADDRESS q) PAGE_SIZE
                (prot_linux2win (Z.land (prot_of st q) (Z.lnot PROT_WRITE)))
                true) log'
          /\ exists evs, calls (os st') = calls (os st) ++ evs
               /\ In (VirtualProtect (GET_PAGE_ADDRESS q) PAGE_SIZE
                        (prot_linux2win
                           (Z.land (prot_of st q) (Z.lnot PROT_WRITE)))
                        true) evs).
Proof.
  induction fuel as [|k IH]; intros j last st log ok st' log' H;
    cbn [fork_pages] in H; [discriminate|].
  destruct (Z.leb_spec j last) as [Hle|Hgt].
  2:{ inversion H; subst. split; [apply fork_step_refl|].
      intros _ _ _ q Hq. lia. }
  set (p := prot_linux2win (Z.land (prot_of st j) (Z.lnot PROT_WRITE))) in *.
  destruct (child_bool _ st log) as [[ok1 st1] log1] eqn:E1.
  apply child_bool_step in E1;
    [|intros b; apply drop_write_read_only].
  destruct E1 as [S1 L1].
  destruct ok1; cbn [negb] in H;
    [|inversion H; subst; split; [exact S1|discriminate]].
  destruct (virtual_protect _ _ p st1) as [ok2 st2] eqn:E2.
  apply (virtual_protect_step _ _ _ _ log1) in E2;
    [|apply drop_write_read_only].
  destruct E2 as [S2 C2].
  pose proof (fork_step_trans _ _ _ _ _ _ S1 S2) as S12.
  destruct ok2; cbn [negb] in H;
    [|inversion H; subst; split; [exact S12|discriminate]].
  apply IH in H. destruct H as [S3 I].
  split; [eapply fork_step_trans; eassumption|].
  intros Hok Hj Hlast q Hq.
  assert (M2 : mm st2 = mm st) by apply S12.
  destruct (Z.eq_dec q j) as [-> | Hne].
  - destruct S3 as (_ & (e3 & C3 & _) & (c3 & L3 & _)).
    destruct S1 as (_ & (e1 & C1 & _) & _). split.
    + rewrite L3, L1. apply in_or_app. left. apply in_or_app. right.
      now left.
    + exists ((e1 ++ [VirtualProtect (GET_PAGE_ADDRESS j) PAGE_SIZE p true])
              ++ e3).
      split; [rewrite C3, C2, C1, <- !app_assoc; reflexivity|].
      apply in_or_app. left. apply in_or_app. right. now left.
  - assert (Hw : wrap32 (j + 1) = j + 1)
      by (apply wrap32_small; lia).
    rewrite Hw in I.
    destruct (I Hok ltac:(lia) Hlast q ltac:(lia)) as [A (evs & Ce & Ie)].
    unfold prot_of in *. rewrite M2 in *. split; [exact A|].
    destruct S12 as (_ & (e12 & C12 & _) & _).
    exists (e12 ++ evs). split; [rewrite Ce, C12, app_assoc; reflexivity|].
    apply in_or_app. now right.
Qed.

Lemma fork_entries_step :
  forall fuel e st log ok st' log',
    fork_entries fuel e st log = Done (ok, st', log') ->
    fork_step st log st' log'
    /\ (ok = true ->
        forall n i q,
          In i (walk n (mm st) e) ->
          0 <= start_page (entry st i) ->
          end_page (entry st i) < 2 ^ 32 - 1 ->
          in_entry q (entry st i) ->
          In (VirtualProtectEx (GET_PAGE_ADDRESS q) PAGE_SIZE
                (prot_linux2win (Z.land (prot_of st q) (Z.lnot PROT_WRITE)))
                true) log'
          /\ exists evs, calls (os st') = calls (os st) ++ evs
               /\ In (VirtualProtect (GET_PAGE_ADDRESS q) PAGE_SIZE
                        (prot_linux2win
                           (Z.land (prot_of st q) (Z.lnot PROT_WRITE)))
                        true) evs).
Proof.
  induction fuel as [|k IH]; intros e st log ok st' log' H;
    cbn [fork_entries] in H; [discriminate|].
  destruct e as [i|].
  2:{ inversion H; subst. split; [apply fork_step_refl|].
      intros _ n i q Hi. destruct n; contradiction. }
  destruct (fork_pages k _ _ st log) as [[[ok1 st1] log1]| |] eqn:E1;
    cbn [obind] in H; try discriminate.
  apply fork_pages_step in E1. destruct E1 as [S1 I1].
  destruct ok1; cbn [negb] in H;
    [|inversion H; subst; split; [exact S1|discriminate]].
  assert (M1 : mm st1 = mm st) by apply S1.
  unfold entry in H. rewrite M1 in H. fold (entry st i) in H.
  apply IH in H. destruct H as [S2 I2].
  split; [eapply fork_step_trans; eassumption|].
  intros Hok n j q Hj Hs He Hq.
  destruct n as [|n]; [contradiction|]. cbn [walk] in Hj.
  destruct Hj as [<- | Hj].
  - destruct (I1 eq_refl Hs He q Hq) as [A (evs & Ce & Ie)].
    destruct S2 as (_ & (e2 & C2 & _) & (c2 & L2 & _)). split.
    + rewrite L2. apply in_or_app. now left.
    + exists (evs ++ e2). split; [rewrite C2, Ce, app_assoc; reflexivity|].
      apply in_or_app. now left.
  - unfold entry, prot_of in *. rewrite M1 in I2.
    destruct (I2 Hok n j q Hj Hs He Hq) as [A (evs & Ce & Ie)].
    split; [exact A|].
    destruct S1 as (_ & (e1 & C1 & _) & _).
    exists (e1 ++ evs). split; [rewrite Ce, C1, app_assoc; reflexivity|].
    apply in_or_app. now right.
Qed.

(** X19.  mm_fork changes nothing in the data of the memory manager and
    returns 0 or 1.  No call it makes on the parent or on the child grants
    write access to a page: every protection it sets is that of the stored
    bits without PROT_WRITE.  When it returns 1, every block that has a
    section got a view of that section at its own address in the child,
    and every page of every entry of the map list was protected in the
    child and in the parent. *)
Theorem mm_fork_write_protects (fuel : nat) (st : state) (r : Z)
    (st' : state) (log : list child_call) :
  mm_fork fuel st = Done (r, st', log) ->
  mm st' = mm st
  /\ (r = 0 \/ r = 1)
  /\ Forall parent_read_only (new_calls st st')
  /\ Forall child_read_only log
  /\ (r = 1 ->
      (forall b, 0 <= b < BLOCK_COUNT -> handle_of st b <> 0 ->
         In (NtMapViewOfSectionIn (handle_of st b) (GET_BLOCK_ADDRESS b)
               STATUS_SUCCESS) log)
      /\ forall n i q,
           In i (walk n (mm st) (map_list (mm st))) ->
           0 <= start_page (entry st i) ->
           end_page (entry st i) < 2 ^ 32 - 1 ->
           in_entry q (entry st i) ->
           page_protected st st' log q).
Proof.
  unfold mm_fork.
  assert (Hn : Z.of_nat (Z.to_nat BLOCK_COUNT) = BLOCK_COUNT)
    by (apply Z2Nat.id; unfold BLOCK_COUNT; lia).
  generalize dependent (Z.to_nat BLOCK_COUNT). intros n Hn H.
  destruct (child_bool VirtualAllocEx st []) as [[ok1 st1] log1] eqn:E1.
  apply child_bool_step in E1; [|intros b; exact I]. destruct E1 as [S1 _].
  assert (Hfin : forall r st' log,
            fork_step st [] st' log -> (r = 0 \/ r = 1) ->
            mm st' = mm st /\ (r = 0 \/ r = 1)
            /\ Forall parent_read_only (new_calls st st')
            /\ Forall child_read_only log).
  { intros r0 s0 l0 (M & (evs & C & F) & (cvs & L & G)) Hr.
    split; [exact M|]. split; [exact Hr|].
    split; [now rewrite (new_calls_app _ _ _ C)|]. now subst l0. }
  destruct ok1; cbn [negb] in H.
  2:{ inversion H; subst. destruct (Hfin 0 st' log S1 ltac:(auto))
        as (A & B & C & D).
      repeat match goal with |- _ /\ _ => split end; auto.
      all: intros Hc; discriminate Hc. }
  destruct (child_bool WriteProcessMemory st1 log1) as [[ok2 st2] log2] eqn:E2.
  apply child_bool_step in E2; [|intros b; exact I]. destruct E2 as [S2 _].
  pose proof (fork_step_trans _ _ _ _ _ _ S1 S2) as S12.
  destruct ok2; cbn [negb] in H.
  2:{ inversion H; subst. destruct (Hfin 0 st' log S12 ltac:(auto))
        as (A & B & C & D).
      repeat match goal with |- _ /\ _ => split end; auto.
      all: intros Hc; discriminate Hc. }
  destruct (fork_sections _ 0 st2 log2) as [[ok3 st3] log3] eqn:E3.
  apply fork_sections_step in E3. destruct E3 as [S3 I3].
  pose proof (fork_step_trans _ _ _ _ _ _ S12 S3) as S123.
  destruct ok3; cbn [negb] in H.
  2:{ inversion H; subst. destruct (Hfin 0 st' log S123 ltac:(auto))
        as (A & B & C & D).
      repeat match goal with |- _ /\ _ => split end; auto.
      all: intros Hc; discriminate Hc. }
  destruct (fork_entries fuel _ st3 log3) as [[[ok4 st4] log4]| |] eqn:E4;
    cbn [obind] in H; try discriminate.
  apply fork_entries_step in E4. destruct E4 as [S4 I4].
  pose proof (fork_step_trans _ _ _ _ _ _ S123 S4) as S.
  inversion H; subst; clear H.
  destruct (Hfin (if ok4 then 1 else 0) st' log S
              ltac:(destruct ok4; auto)) as (A & B & C & D).
  repeat match goal with |- _ /\ _ => split end; auto.
  intros Hr. destruct ok4; [|discriminate]. split.
  - intros b Hb Hh.
    assert (M2 : mm st2 = mm st) by apply S12.
    specialize (I3 eq_refl b). unfold handle_of in *. rewrite M2 in I3.
    destruct S4 as (_ & _ & (c4 & -> & _)).
    apply in_or_app. left. apply I3; [|exact Hh].
    rewrite Hn. lia.
  - intros k i q Hi Hs He Hq.
    assert (M3 : mm st3 = mm st) by apply S123.
    unfold page_protected, entry, prot_of in *. rewrite M3 in I4.
    destruct (I4 eq_refl k i q Hi Hs He Hq) as [P (evs & Ce & Ie)].
    split; [exact P|].
    destruct S123 as (_ & (e123 & C123 & _) & _).
    rewrite (new_calls_app st st' (e123 ++ evs))
      by (rewrite Ce, C123, app_assoc; reflexivity).
    apply in_or_app. now right.
Qed.

Lemma mm_fork_write_protects_witness :
  mm (fst after_fork) = mm four_pages
  /\ Forall parent_read_only (new_calls four_pages (fst after_fork))
  /\ Forall child_read_only (snd after_fork)
  /\ In (NtMapViewOfSectionIn 5 (GET_BLOCK_ADDRESS 0x400) STATUS_SUCCESS)
        (snd after_fork)
  /\ page_protected four_pages (fst after_fork) (snd after_fork) 0x4002.
Proof.
  assert (Hrun : mm_fork 10 four_pages
                 = Done (1, fst after_fork, snd after_fork))
    by (vm_compute; reflexivity).
  destruct (mm_fork_write_protects 10 four_pages 1 (fst after_fork)
              (snd after_fork) Hrun) as (Hm & _ & Hp & Hc & Hok).
  clear Hrun.
  destruct (Hok eq_refl) as (Hsec & Hpages).
  split; [exact Hm|]. split; [exact Hp|]. split; [exact Hc|]. split.
  - apply (Hsec 0x400); [vm_compute; split; [discriminate|reflexivity]|].
    intros H; discriminate H.
  - apply (Hpages 1%nat 0); [left; reflexivity| | |].
    + intros H; discriminate H.
    + reflexivity.
    + split; intros H; discriminate H.
Defined.

(** ** Lists of entries *)
Lemma is_seg_app m l1 : forall p l2 q r_,
  is_seg m p l1 q -> is_seg m q l2 r_ -> is_seg m p (l1 ++ l2) r_.
Proof.
  induction l1 as [|i l1 IH]; intros p l2 q r_ H1 H2; cbn in *.
  - now subst.
  - destruct H1 as [-> H1]. split; [reflexivity|]. eapply IH; eassumption.
Qed.

Lemma is_seg_split m l1 : forall p l2 r_,
  is_seg m p (l1 ++ l2) r_ ->
  exists q, is_seg m p l1 q /\ is_seg m q l2 r_.
Proof.
  induction l1 as [|i l1 IH]; intros p l2 r_ H; cbn in *.
  - exists p. auto.
  - destruct H as [-> H]. destruct (IH _ _ _ H) as (q & A & B).
    exists q. auto.
Qed.

(** A segment depends only on the [next] fields of its entries. *)
Lemma is_seg_frame m m' l : forall p q,
  (forall i, In i l -> next (map_entries m' i) = next (map_entries m i)) ->
  is_seg m p l q -> is_seg m' p l q.
Proof.
  induction l as [|i l IH]; intros p q Hn H; cbn in *; [exact H|].
  destruct H as [-> H]. split; [reflexivity|].
  rewrite Hn by now left. apply IH; [|exact H].
  intros j Hj. apply Hn. now right.
Qed.

Lemma ordered_frame m m' l : forall lo,
  (forall i, In i l ->
     start_page (map_entries m' i) = start_page (map_entries m i)
     /\ end_page (map_entries m' i) = end_page (map_entries m i)) ->
  ordered m l lo -> ordered m' l lo.
Proof.
  induction l as [|i l IH]; intros lo Hn H; cbn in *; [exact I|].
  destruct (Hn i ltac:(now left)) as [-> ->].
  destruct H as (A & B & C). split; [exact A|]. split; [exact B|].
  apply IH; [|exact C]. intros j Hj. apply Hn. now right.
Qed.

Lemma ordered_weaken m l : forall lo lo',
  lo' <= lo -> ordered m l lo -> ordered m l lo'.
Proof.
  destruct l as [|i l]; intros lo lo' Hle H; cbn in *; [exact I|].
  destruct H as (A & B & C). split; [lia|]. auto.
Qed.

Lemma ordered_lower m l : forall lo i,
  ordered m l lo -> In i l ->
  lo <= start_page (map_entries m i)
  /\ start_page (map_entries m i) <= end_page (map_entries m i).
Proof.
  induction l as [|j l IH]; intros lo i H Hi; [contradiction|].
  cbn in H. destruct H as (A & B & C). destruct Hi as [<- | Hi]; [auto|].
  destruct (IH _ _ C Hi) as [D E]. split; [lia|exact E].
Qed.

Lemma ordered_NoDup m l : forall lo, ordered m l lo -> NoDup l.
Proof.
  induction l as [|i l IH]; intros lo H; [constructor|].
  cbn in H. destruct H as (A & B & C). constructor; [|eapply IH; eassumption].
  intros Hi. destruct (ordered_lower _ _ _ _ C Hi). lia.
Qed.

Lemma ordered_app m l1 : forall l2 lo,
  ordered m (l1 ++ l2) lo ->
  ordered m l1 lo
  /\ forall i j, In i l1 -> In j l2 ->
       end_page (map_entries m i) < start_page (map_entries m j).
Proof.
  induction l1 as [|a l1 IH]; intros l2 lo H; cbn in *.
  - split; [exact I|]. intros i j [].
  - destruct H as (A & B & C). destruct (IH _ _ C) as [D E].
    split; [auto|]. intros i j [<- | Hi] Hj.
    + assert (Hin : In j (l1 ++ l2)) by (apply in_or_app; now right).
      destruct (ordered_lower _ _ _ _ C Hin). lia.
    + now apply E.
Qed.

Lemma ordered_tail m l1 : forall l2 lo,
  ordered m (l1 ++ l2) lo ->
  exists lo', lo <= lo' /\ ordered m l2 lo'
    /\ forall i, In i l1 -> end_page (map_entries m i) < lo'.
Proof.
  induction l1 as [|a l1 IH]; intros l2 lo H; cbn in *.
  - exists lo. split; [lia|]. split; [exact H|]. intros i [].
  - destruct H as (A & B & C). destruct (IH _ _ C) as (lo' & D & E & F).
    exists lo'. split; [lia|]. split; [exact E|].
    intros i [<- | Hi]; [lia|now apply F].
Qed.

Lemma ordered_join m l1 : forall l2 lo lo',
  ordered m l1 lo -> ordered m l2 lo' ->
  (forall i, In i l1 -> end_page (map_entries m i) < lo') ->
  lo <= lo' ->
  ordered m (l1 ++ l2) lo.
Proof.
  induction l1 as [|a l1 IH]; intros l2 lo lo' H1 H2 Hlt Hle; cbn in *.
  - eapply ordered_weaken; eassumption.
  - destruct H1 as (A & B & C). split; [exact A|]. split; [exact B|].
    apply (IH l2 _ lo'); auto.
    specialize (Hlt a ltac:(now left)). lia.
Qed.

Lemma ordered_raise m l lo lo' :
  ordered m l lo ->
  match l with
  | j :: _ => lo' <= start_page (map_entries m j)
  | [] => True
  end ->
  ordered m l lo'.
Proof.
  destruct l as [|j l]; intros H Hj; cbn in *; [exact I|].
  destruct H as (A & B & C). auto.
Qed.

Lemma mapped_frame m m' l p :
  (forall i, In i l ->
     start_page (map_entries m' i) = start_page (map_entries m i)
     /\ end_page (map_entries m' i) = end_page (map_entries m i)) ->
  mapped m' l p <-> mapped m l p.
Proof.
  intros H. unfold mapped, in_entry.
  split; intros (i & Hi & Hp); exists i; (split; [exact Hi|]);
    destruct (H i Hi) as [A B]; rewrite ?A, ?B in *; exact Hp.
Qed.

Lemma mapped_app m l1 l2 p :
  mapped m (l1 ++ l2) p <-> mapped m l1 p \/ mapped m l2 p.
Proof.
  unfold mapped. split.
  - intros (i & Hi & Hp). apply in_app_or in Hi.
    destruct Hi; [left|right]; exists i; auto.
  - intros [(i & Hi & Hp) | (i & Hi & Hp)]; exists i;
      (split; [apply in_or_app; auto|exact Hp]).
Qed.

Lemma mapped_cons m i l p :
  mapped m (i :: l) p <-> in_entry p (map_entries m i) \/ mapped m l p.
Proof.
  unfold mapped. split.
  - intros (j & [<- | Hj] & Hp); [now left|right; exists j; auto].
  - intros [Hp | (j & Hj & Hp)]; [exists i|exists j]; cbn; auto.
Qed.

Lemma links_only_refl st : links_only st st.
Proof. unfold links_only. repeat split; reflexivity. Qed.

Lemma assign_next_fields i v st j :
  start_page (entry (assign_next i v st) j) = start_page (entry st j)
  /\ end_page (entry (assign_next i v st) j) = end_page (entry st j)
  /\ f (entry (assign_next i v st) j) = f (entry st j)
  /\ offset_pages (entry (assign_next i v st) j) = offset_pages (entry st j)
  /\ next (entry (assign_next i v st) j)
     = if j =? i then v else next (entry st j).
Proof.
  unfold assign_next, entry, set_entry, upd. cbn.
  destruct (j =? i) eqn:E; [|auto].
  apply Z.eqb_eq in E. subst j. cbn. auto.
Qed.

Lemma next_after_insert i n v st x :
  next (map_entries (mm (assign_next i (Some n) (assign_next n v st))) x)
  = if x =? i then Some n
    else if x =? n then v else next (map_entries (mm st) x).
Proof.
  fold (entry (assign_next i (Some n) (assign_next n v st)) x).
  destruct (assign_next_fields i (Some n) (assign_next n v st) x)
    as (_ & _ & _ & _ & ->).
  destruct (assign_next_fields n v st x) as (_ & _ & _ & _ & ->).
  reflexivity.
Qed.

Lemma links_only_insert i n v st :
  links_only st (assign_next i (Some n) (assign_next n v st)).
Proof.
  unfold links_only.
  do 6 (split; [reflexivity|]).
  intros x.
  destruct (assign_next_fields i (Some n) (assign_next n v st) x)
    as (A & B & C & D & _).
  destruct (assign_next_fields n v st x) as (A' & B' & C' & D' & _).
  rewrite A, B, C, D. auto.
Qed.

(** The list after [n] was linked behind [i]. *)
Lemma is_seg_insert i n v st pre rest :
  is_seg (mm st) (map_list (mm st)) pre (Some i) ->
  is_seg (mm st) v rest None ->
  NoDup (pre ++ i :: rest) -> ~ In n (pre ++ i :: rest) ->
  is_seg (mm (assign_next i (Some n) (assign_next n v st)))
    (map_list (mm (assign_next i (Some n) (assign_next n v st))))
    (pre ++ i :: n :: rest) None.
Proof.
  intros Hpre Hrest Hnd Hn.
  assert (Hni : n <> i) by (intros ->; apply Hn, in_or_app; right; now left).
  apply NoDup_remove_2 in Hnd.
  apply is_seg_app with (q := Some i).
  - apply is_seg_frame with (m := mm st); [|exact Hpre].
    intros x Hx. rewrite next_after_insert.
    destruct (Z.eqb_spec x i) as [-> | _];
      [exfalso; apply Hnd, in_or_app; now left|].
    destruct (Z.eqb_spec x n) as [-> | _]; [|reflexivity].
    exfalso. apply Hn, in_or_app. now left.
  - cbn [is_seg]. split; [reflexivity|].
    rewrite next_after_insert, Z.eqb_refl.
    split; [reflexivity|]. rewrite next_after_insert.
    destruct (Z.eqb_spec n i); [contradiction|]. rewrite Z.eqb_refl.
    apply is_seg_frame with (m := mm st); [|exact Hrest].
    intros x Hx. rewrite next_after_insert.
    destruct (Z.eqb_spec x i) as [-> | _];
      [exfalso; apply Hnd, in_or_app; now right|].
    destruct (Z.eqb_spec x n) as [-> | _]; [|reflexivity].
    exfalso. apply Hn, in_or_app. right. now right.
Qed.

Lemma insert_after_spec n ep :
  forall rest fuel pre i st,
    is_seg (mm st) (map_list (mm st)) (pre ++ i :: rest) None ->
    NoDup (pre ++ i :: rest) ->
    ~ In n (pre ++ i :: rest) ->
    (length rest < fuel)%nat ->
    exists r1 r2 st',
      rest = r1 ++ r2
      /\ insert_after fuel n ep (Some i) st = Done st'
      /\ is_seg (mm st') (map_list (mm st')) (pre ++ i :: r1 ++ n :: r2) None
      /\ (forall j, In j r1 -> start_page (entry st j) <= ep)
      /\ match r2 with
         | j :: _ => ep < start_page (entry st j)
         | [] => True
         end
      /\ links_only st st'.
Proof.
  induction rest as [|j rest IH]; intros fuel pre i st Hl Hnd Hn Hfuel;
    (destruct fuel as [|k]; [cbn in Hfuel; lia|]).
  - (* [i] is the last entry *)
    pose proof Hl as Hl0.
    apply is_seg_split in Hl. destruct Hl as (q & Hpre & Hi).
    cbn in Hi. destruct Hi as [-> Hi].
    assert (Hrun : insert_after (S k) n ep (Some i) st
                   = Done (assign_next i (Some n) (assign_next n None st)))
      by (cbn [insert_after]; unfold entry; rewrite !Hi; reflexivity).
    exists [], [], (assign_next i (Some n) (assign_next n None st)).
    split; [reflexivity|]. split; [exact Hrun|].
    split; [|split; [intros j []|split; [exact I|apply links_only_insert]]].
    apply is_seg_insert; auto. reflexivity.
  - (* [j] follows [i] *)
    pose proof Hl as Hl0.
    apply is_seg_split in Hl. destruct Hl as (q & Hpre & Hi).
    cbn in Hi. destruct Hi as (-> & Hij & Hrest).
    destruct (Z.gtb_spec (start_page (entry st j)) ep) as [Hgt|Hle].
    + (* insert between [i] and [j] *)
      set (st' := assign_next i (Some n) (assign_next n (Some j) st)).
      assert (Hrun : insert_after (S k) n ep (Some i) st = Done st').
      { cbn [insert_after]. unfold entry. rewrite !Hij.
        fold (entry st j). destruct (Z.gtb_spec (start_page (entry st j)) ep);
          [reflexivity|lia]. }
      exists [], (j :: rest), st'.
      split; [reflexivity|]. split; [exact Hrun|].
      split; [|split; [intros x []|split; [lia|apply links_only_insert]]].
      apply is_seg_insert; auto. cbn. auto.
    + (* go on from [j] *)
      assert (Hl1 : is_seg (mm st) (map_list (mm st))
                      ((pre ++ [i]) ++ j :: rest) None)
        by (rewrite <- app_assoc; exact Hl0).
      assert (Hnd1 : NoDup ((pre ++ [i]) ++ j :: rest))
        by (rewrite <- app_assoc; exact Hnd).
      assert (Hn1 : ~ In n ((pre ++ [i]) ++ j :: rest))
        by (rewrite <- app_assoc; exact Hn).
      destruct (IH k (pre ++ [i]) j st Hl1 Hnd1 Hn1 ltac:(cbn in Hfuel; lia))
        as (r1 & r2 & st' & Hr & Hrun & Hl' & Hs & He & Hf).
      exists (j :: r1), r2, st'.
      split; [cbn; now rewrite Hr|]. split.
      { cbn [insert_after]. unfold entry. rewrite !Hij.
        fold (entry st j). destruct (Z.gtb_spec (start_page (entry st j)) ep);
          [lia|exact Hrun]. }
      split; [rewrite <- app_assoc in Hl'; exact Hl'|].
      split; [|auto].
      intros x [<- | Hx]; [lia|now apply Hs].
Qed.

(** X20.  The insertion of mm_mmap, on a list that is well formed, sorted
    and free of overlap, for a new entry that overlaps none of the list and
    does not lie before the head: the loop finds its place, the list stays
    well formed and sorted with the new entry in it and the old ones in
    their order, the mapped pages are the old ones and those of the new
    entry, and only [next] links changed. *)
Theorem insert_entry_keeps_order (fuel : nat) (n : Z) (st : state) (h : Z)
    (t : list Z) :
  let sp := start_page (entry st n) in
  let ep := end_page (entry st n) in
  is_list (mm st) (h :: t) -> ordered (mm st) (h :: t) 0 ->
  ~ In n (h :: t) ->
  0 <= sp <= ep ->
  (forall i, In i (h :: t) -> ~ overlaps sp ep (entry st i)) ->
  start_page (entry st h) <= ep ->
  (length t < fuel)%nat ->
  exists st' l1 l2,
    insert_entry fuel n ep st = Done st'
    /\ h :: t = l1 ++ l2 /\ l1 <> []
    /\ is_list (mm st') (l1 ++ n :: l2)
    /\ ordered (mm st') (l1 ++ n :: l2) 0
    /\ (forall p, mapped (mm st') (l1 ++ n :: l2) p
                  <-> mapped (mm st) (h :: t) p \/ sp <= p <= ep)
    /\ links_only st st'.
Proof.
  intros sp ep Hl Hord Hn Hrange Hfree Hhead Hfuel.
  pose proof (ordered_NoDup _ _ _ Hord) as Hnd.
  destruct (insert_after_spec n ep t fuel [] h st Hl Hnd Hn Hfuel)
    as (r1 & r2 & st' & Hr & Hrun & Hl' & Hs & He & Hf).
  exists st', (h :: r1), r2.
  assert (Hhd : map_list (mm st) = Some h) by (destruct Hl; assumption).
  split.
  { unfold insert_entry. rewrite Hhd.
    destruct (Z.gtb_spec (start_page (entry st h)) ep); [lia|exact Hrun]. }
  split; [cbn; now rewrite Hr|]. split; [discriminate|].
  split; [exact Hl'|].
  assert (Hfields : forall i,
            start_page (map_entries (mm st') i) = start_page (map_entries (mm st) i)
            /\ end_page (map_entries (mm st') i) = end_page (map_entries (mm st) i)).
  { intros i. destruct Hf as (_ & _ & _ & _ & _ & _ & Hf).
    destruct (Hf i) as (A & B & _). auto. }
  assert (Hsplit : h :: t = (h :: r1) ++ r2) by (cbn; now rewrite Hr).
  rewrite Hsplit in Hord, Hfree.
  destruct (ordered_app _ _ _ _ Hord) as [Hord1 Hcross].
  destruct (ordered_tail _ _ _ _ Hord) as (lo' & Hlo & Hord2 & _).
  assert (Hbefore : forall i, In i (h :: r1) ->
            end_page (map_entries (mm st) i) < sp).
  { intros i Hi.
    assert (Hstart : start_page (entry st i) <= ep)
      by (destruct Hi as [<- | Hi]; [exact Hhead|now apply Hs]).
    specialize (Hfree i ltac:(apply in_or_app; now left)).
    unfold overlaps, entry in *. lia. }
  split.
  { apply ordered_join with (lo' := sp).
    - apply ordered_frame with (m := mm st); [auto|exact Hord1].
    - cbn [ordered]. destruct (Hfields n) as [-> ->].
      fold (entry st n). fold sp ep. split; [lia|]. split; [lia|].
      apply ordered_frame with (m := mm st); [auto|].
      apply ordered_raise with (lo := lo'); [exact Hord2|].
      destruct r2 as [|j r2]; [exact I|]. unfold entry in He. lia.
    - intros i Hi. destruct (Hfields i) as [_ ->]. now apply Hbefore.
    - lia. }
  split; [|exact Hf].
  intros p. rewrite mapped_app, (mapped_cons _ n r2), Hsplit, mapped_app.
  rewrite (mapped_frame (mm st) (mm st') (h :: r1)) by auto.
  rewrite (mapped_frame (mm st) (mm st') r2) by auto.
  unfold in_entry. destruct (Hfields n) as [-> ->].
  fold (entry st n). fold sp ep. tauto.
Qed.

Lemma insert_entry_keeps_order_witness :
  exists st' l1 l2,
    insert_entry 3 3 0x4002 before_insert = Done st'
    /\ [0; 1; 2] = l1 ++ l2 /\ l1 <> []
    /\ is_list (mm st') (l1 ++ 3 :: l2)
    /\ ordered (mm st') (l1 ++ 3 :: l2) 0
    /\ (forall p, mapped (mm st') (l1 ++ 3 :: l2) p
                  <-> mapped (mm before_insert) [0; 1; 2] p
                      \/ 0x4002 <= p <= 0x4002)
    /\ links_only before_insert st'.
Proof.
  apply (insert_entry_keeps_order 3 3 before_insert 0 [1; 2]).
  - cbn. auto.
  - cbn. lia.
  - cbn. lia.
  - cbn. lia.
  - intros i [<- | [<- | [<- | []]]]; unfold overlaps; cbn; lia.
  - cbn. lia.
  - cbn. lia.
Defined.

(** ** Entries after assignments *)
Lemma entry_set_entry i e st x :
  entry (set_entry i e st) x = if x =? i then e else entry st x.
Proof. reflexivity. Qed.

Lemma entry_set_map_list p st x : entry (set_map_list p st) x = entry st x.
Proof. reflexivity. Qed.

Lemma entry_set_map_free_list p st x :
  entry (set_map_free_list p st) x = entry st x.
Proof. reflexivity. Qed.

Lemma entry_host_do c st x : entry (host_do c st) x = entry st x.
Proof. reflexivity. Qed.

Lemma keeps_entries_refl st : keeps_entries st st.
Proof. unfold keeps_entries. auto. Qed.

Lemma keeps_entries_trans st1 st2 st3 :
  keeps_entries st1 st2 -> keeps_entries st2 st3 -> keeps_entries st1 st3.
Proof.
  intros (A & B & C) (D & E & F). unfold keeps_entries.
  repeat split; congruence.
Qed.

Lemma release_block_keeps_entries i st : keeps_entries st (release_block i st).
Proof.
  unfold release_block.
  destruct (nt_unmap_view _ st) as [s st1] eqn:E.
  apply host_status_spec in E. destruct E as [M C].
  unfold keeps_entries. cbn. now rewrite M.
Qed.

Lemma dec_page_counts_keeps_entries :
  forall n i st, keeps_entries st (dec_page_counts n i st).
Proof.
  induction n as [|n IH]; intros i st; cbn [dec_page_counts];
    [apply keeps_entries_refl|].
  eapply keeps_entries_trans; [|apply IH]. unfold keeps_entries. auto.
Qed.

(** The loop over the blocks stops: its counter stays below 65535. *)
Lemma free_unused_blocks_done :
  forall n fuel eb i st,
    0 <= i -> eb < 65535 ->
    n = Z.to_nat (eb + 1 - i) -> (n < fuel)%nat ->
    exists st',
      free_unused_blocks fuel eb i st = Done st' /\ keeps_entries st st'.
Proof.
  induction n as [|n IH]; intros fuel eb i st Hi Heb Hn Hfuel;
    (destruct fuel as [|k]; [lia|]); cbn [free_unused_blocks].
  - destruct (Z.leb_spec i eb); [lia|].
    exists st. split; [reflexivity|apply keeps_entries_refl].
  - destruct (Z.leb_spec i eb); [|lia].
    assert (Hw : wrap16 (i + 1) = i + 1)
      by (unfold wrap16; apply Z.mod_small; lia).
    rewrite Hw.
    destruct (IH k eb (i + 1)
                (if count_of st i =? 0 then release_block i st else st)
                ltac:(lia) Heb ltac:(lia) ltac:(lia)) as (st' & Hrun & Hk).
    exists st'. split; [exact Hrun|].
    eapply keeps_entries_trans; [|exact Hk].
    destruct (count_of st i =? 0);
      [apply release_block_keeps_entries|apply keeps_entries_refl].
Qed.

Lemma block_of_page p :
  0 <= p < 0x80000 ->
  wrap16 (GET_BLOCK_OF_PAGE p) = GET_BLOCK_OF_PAGE p
  /\ 0 <= GET_BLOCK_OF_PAGE p < 0x8000.
Proof.
  intros Hp. unfold GET_BLOCK_OF_PAGE, PAGES_PER_BLOCK.
  assert (0 <= p / 16 < 0x8000).
  { split; [apply Z.div_pos; lia|apply Z.div_lt_upper_bound; lia]. }
  split; [|assumption]. unfold wrap16. apply Z.mod_small. lia.
Qed.

(** The bookkeeping of one conflict leaves list and entries alone. *)
Lemma after_conflict k sp ep st1 :
  0 <= sp -> sp <= ep -> ep < 0x80000 -> (0x8002 <= Z.of_nat k) ->
  exists st3,
    free_unused_blocks k (wrap16 (GET_BLOCK_OF_PAGE ep))
      (wrap16 (GET_BLOCK_OF_PAGE sp))
      (dec_page_counts (Z.to_nat (ep + 1 - sp)) sp st1) = Done st3
    /\ keeps_entries st1 st3.
Proof.
  intros H0 H1 H2 Hk.
  destruct (block_of_page sp ltac:(lia)) as [-> Hs].
  destruct (block_of_page ep ltac:(lia)) as [-> He].
  destruct (free_unused_blocks_done
              (Z.to_nat (GET_BLOCK_OF_PAGE ep + 1 - GET_BLOCK_OF_PAGE sp))
              k (GET_BLOCK_OF_PAGE ep) (GET_BLOCK_OF_PAGE sp)
              (dec_page_counts (Z.to_nat (ep + 1 - sp)) sp st1))
    as (st3 & Hrun & Hkeep); try lia.
  exists st3. split; [exact Hrun|].
  eapply keeps_entries_trans; [apply dec_page_counts_keeps_entries|exact Hkeep].
Qed.

Lemma last_opt_app l x : last_opt (l ++ [x]) = Some x.
Proof.
  induction l as [|a l IH]; [reflexivity|].
  cbn [app last_opt]. rewrite IH. destruct (l ++ [x]) eqn:E; [|reflexivity].
  destruct l; discriminate.
Qed.

Lemma last_opt_inv l x : last_opt l = Some x -> exists l', l = l' ++ [x].
Proof.
  induction l as [|a l IH]; [discriminate|].
  destruct l as [|b l].
  - cbn. intros H; inversion H; subst. exists []. reflexivity.
  - intros H. destruct (IH H) as (l' & ->). exists (a :: l'). reflexivity.
Qed.

Lemma last_opt_none l : last_opt l = None -> l = [].
Proof.
  induction l as [|a l IH]; [reflexivity|].
  destruct l as [|b l]; [discriminate|]. intros H. specialize (IH H).
  discriminate.
Qed.

Ltac entry_fields :=
  unfold assign_start, assign_end, assign_f, assign_offset, assign_next,
    free_map_entry;
  repeat first [rewrite entry_set_entry | rewrite entry_set_map_list
               | rewrite entry_set_map_free_list | rewrite entry_host_do].

Lemma modify_trim_back i pred us ue st :
  0 <= start_page (entry st i) < us -> us <= end_page (entry st i) <= ue ->
  us < 2 ^ 32 ->
  exists st',
    modify_entry i pred (Z.max us (start_page (entry st i)))
      (Z.min ue (end_page (entry st i))) st
    = Done (Some i, next (entry st i), st')
    /\ resized st st' i (start_page (entry st i)) (us - 1).
Proof.
  intros Hs He Hus. unfold modify_entry.
  rewrite Z.max_l, Z.min_r by lia.
  destruct (Z.gtb_spec us (start_page (entry st i))); [|lia].
  destruct (Z.ltb_spec (end_page (entry st i)) (end_page (entry st i))); [lia|].
  cbn [andb]. rewrite wrap32_small by lia.
  eexists. split.
  - f_equal. f_equal. f_equal. entry_fields. now rewrite Z.eqb_refl.
  - unfold resized. split; [reflexivity|]. split; [reflexivity|].
    intros x. entry_fields.
    destruct (Z.eqb_spec x i) as [-> | _]; cbn; auto.
Qed.

Lemma modify_trim_front i pred us ue st :
  us <= start_page (entry st i) -> start_page (entry st i) <= ue ->
  0 <= ue < end_page (entry st i) -> end_page (entry st i) < 2 ^ 32 ->
  exists st',
    modify_entry i pred (Z.max us (start_page (entry st i)))
      (Z.min ue (end_page (entry st i))) st
    = Done (Some i, next (entry st i), st')
    /\ resized st st' i (ue + 1) (end_page (entry st i)).
Proof.
  intros Hs Hs' He He'. unfold modify_entry.
  rewrite Z.max_r, Z.min_l by lia.
  destruct (Z.gtb_spec (start_page (entry st i)) (start_page (entry st i)));
    [lia|].
  destruct (Z.ltb_spec ue (end_page (entry st i))); [|lia].
  cbn [andb]. rewrite !(wrap32_small (ue + 1)) by lia.
  eexists. split.
  - f_equal. f_equal. f_equal. entry_fields. rewrite Z.eqb_refl. cbn.
    destruct (negb (f (entry st i) =? 0)); entry_fields;
      rewrite ?Z.eqb_refl; reflexivity.
  - unfold resized.
    destruct (negb (f (entry st i) =? 0)).
    + split; [reflexivity|]. split; [reflexivity|].
      intros x. entry_fields.
      destruct (Z.eqb_spec x i) as [-> | _]; rewrite ?Z.eqb_refl; cbn; auto.
    + split; [reflexivity|]. split; [reflexivity|].
      intros x. entry_fields.
      destruct (Z.eqb_spec x i) as [-> | _]; rewrite ?Z.eqb_refl; cbn; auto.
Qed.

Lemma modify_remove i pred us ue st :
  us <= start_page (entry st i) -> end_page (entry st i) <= ue ->
  pred <> Some i ->
  exists st',
    modify_entry i pred (Z.max us (start_page (entry st i)))
      (Z.min ue (end_page (entry st i))) st
    = Done (pred, next (entry st i), st')
    /\ unlinked st st' pred i.
Proof.
  intros Hs He Hp. unfold modify_entry.
  rewrite Z.max_r, Z.min_r by lia.
  destruct (Z.gtb_spec (start_page (entry st i)) (start_page (entry st i)));
    [lia|].
  destruct (Z.ltb_spec (end_page (entry st i)) (end_page (entry st i)));
    [lia|].
  cbn [andb].
  assert (Hq : forall q, pred = Some q -> (i =? q) = false).
  { intros q ->. apply Z.eqb_neq. congruence. }
  eexists. split.
  - f_equal. f_equal. f_equal.
    destruct (negb (f (entry st i) =? 0)); destruct pred as [q|];
      entry_fields; rewrite ?(Hq q eq_refl); reflexivity.
  - unfold unlinked.
    destruct (negb (f (entry st i) =? 0)); destruct pred as [q|];
      (split; [reflexivity|]); (split; [reflexivity|]);
      intros x; entry_fields; rewrite ?(Hq q eq_refl);
      try (destruct (Z.eqb_spec x q) as [Hxq | Hxq]);
      destruct (Z.eqb_spec x i) as [Hxi | Hxi];
      try (destruct (Z.eqb_spec i q) as [Hiq | Hiq]);
      subst; cbn;
      repeat match goal with
             | |- _ /\ _ => split
             | |- _ <> _ -> _ => intros Hc; try (now contradiction Hc)
             end; try reflexivity; try congruence.
Qed.

Lemma modify_split i pred us ue st ne :
  0 <= start_page (entry st i) < us -> us <= ue ->
  ue < end_page (entry st i) -> end_page (entry st i) < 2 ^ 32 ->
  map_free_list (mm st) = Some ne -> ne <> i ->
  exists st',
    modify_entry i pred (Z.max us (start_page (entry st i)))
      (Z.min ue (end_page (entry st i))) st
    = Done (Some i, Some ne, st')
    /\ split_in_two st st' i ne us ue.
Proof.
  intros Hs Hu He He' Hfree Hne. unfold modify_entry.
  rewrite Z.max_l, Z.min_l by lia.
  destruct (Z.gtb_spec us (start_page (entry st i))); [|lia].
  destruct (Z.ltb_spec ue (end_page (entry st i))); [|lia].
  cbn [andb]. unfold new_map_entry. rewrite Hfree.
  rewrite !(wrap32_small (ue + 1)), !(wrap32_small (us - 1)) by lia.
  assert (Hin : (i =? ne) = false) by (apply Z.eqb_neq; congruence).
  assert (Hni : (ne =? i) = false) by (apply Z.eqb_neq; congruence).
  eexists. split.
  - f_equal. f_equal. f_equal.
    match goal with
    | |- context [if ?c then _ else _] => destruct c
    end; entry_fields; rewrite ?Z.eqb_refl, ?Hin, ?Hni; reflexivity.
  - unfold split_in_two.
    match goal with
    | |- context [if negb ?c then _ else _] => destruct (negb c)
    end; (split; [reflexivity|]); intros x; entry_fields;
      rewrite ?Z.eqb_refl, ?Hin, ?Hni;
      destruct (Z.eqb_spec x i) as [Hxi | Hxi];
      destruct (Z.eqb_spec x ne) as [Hxn | Hxn];
      subst; try congruence; rewrite ?Z.eqb_refl, ?Hin, ?Hni; cbn;
      rewrite ?Z.eqb_refl, ?Hin, ?Hni; cbn; auto.
Qed.

(** ** Order and links under the modifications *)
Lemma ordered_remove m l1 : forall i l2 lo,
  ordered m (l1 ++ i :: l2) lo -> ordered m (l1 ++ l2) lo.
Proof.
  induction l1 as [|a l1 IH]; intros i l2 lo H; cbn in *.
  - destruct H as (A & B & C). eapply ordered_weaken; [|exact C]. lia.
  - destruct H as (A & B & C). split; [exact A|]. split; [exact B|].
    eapply IH; eassumption.
Qed.

(** Shrinking the pages of one entry keeps the order. *)
Lemma ordered_shrink m m' l1 : forall i l2 lo,
  ordered m (l1 ++ i :: l2) lo ->
  (forall x, x <> i ->
     start_page (map_entries m' x) = start_page (map_entries m x)
     /\ end_page (map_entries m' x) = end_page (map_entries m x)) ->
  start_page (map_entries m i) <= start_page (map_entries m' i) ->
  start_page (map_entries m' i) <= end_page (map_entries m' i) ->
  end_page (map_entries m' i) <= end_page (map_entries m i) ->
  ordered m' (l1 ++ i :: l2) lo.
Proof.
  intros i l2 lo H Hsame Hs Hse He.
  pose proof (ordered_NoDup _ _ _ H) as Hnd.
  apply NoDup_remove_2 in Hnd.
  destruct (ordered_app _ _ _ _ H) as [H1 Hcross].
  destruct (ordered_tail _ _ _ _ H) as (lo' & Hlo & H2 & Hends).
  cbn [ordered] in H2. destruct H2 as (A & B & C).
  apply ordered_join with (lo' := lo').
  - apply ordered_frame with (m := m); [|exact H1].
    intros x Hx. apply Hsame. intros ->. apply Hnd, in_or_app. now left.
  - cbn [ordered]. split; [lia|]. split; [exact Hse|].
    apply ordered_frame with (m := m).
    + intros x Hx. apply Hsame. intros ->. apply Hnd, in_or_app. now right.
    + eapply ordered_weaken; [|exact C]. lia.
  - intros x Hx.
    destruct (Hsame x) as [_ ->];
      [intros ->; apply Hnd, in_or_app; now left|]. now apply Hends.
  - exact Hlo.
Qed.

Lemma is_seg_relink m m' l q : forall p e v,
  is_seg m p (l ++ [q]) e ->
  NoDup (l ++ [q]) ->
  (forall x, In x l -> next (map_entries m' x) = next (map_entries m x)) ->
  next (map_entries m' q) = v ->
  is_seg m' p (l ++ [q]) v.
Proof.
  induction l as [|a l IH]; intros p e v H Hnd Hsame Hq; cbn in *.
  - destruct H as [-> _]. auto.
  - destruct H as [-> H]. split; [reflexivity|].
    rewrite Hsame by now left.
    inversion Hnd; subst.
    eapply IH; eauto.
Qed.

Lemma is_seg_last m l : forall p q x,
  is_seg m p (l ++ [x]) q -> next (map_entries m x) = q.
Proof.
  induction l as [|a l IH]; intros p q x H; cbn in *.
  - now destruct H.
  - destruct H as [_ H]. eapply IH; eassumption.
Qed.

Lemma keeps_entries_entry st st' x :
  keeps_entries st st' -> entry st' x = entry st x.
Proof. intros (_ & _ & H). unfold entry. now rewrite H. Qed.

Lemma Forall_end_app (P : Z -> Prop) l1 l2 :
  (forall i, In i (l1 ++ l2) -> P i) <->
  (forall i, In i l1 -> P i) /\ (forall i, In i l2 -> P i).
Proof.
  split.
  - intros H. split; intros i Hi; apply H, in_or_app; auto.
  - intros [H1 H2] i Hi. apply in_app_or in Hi. destruct Hi; auto.
Qed.

Lemma mapped_mid m l1 i l2 p :
  mapped m (l1 ++ i :: l2) p
  <-> mapped m l1 p \/ in_entry p (map_entries m i) \/ mapped m l2 p.
Proof. rewrite mapped_app, mapped_cons. reflexivity. Qed.

Lemma keeps_entries_seg st st' p l q :
  keeps_entries st st' -> is_seg (mm st) p l q -> is_seg (mm st') p l q.
Proof.
  intros (_ & _ & H). apply is_seg_frame. intros i _. now rewrite H.
Qed.

(** ** The walk of mm_munmap over a well-formed list *)
Section Unmap.

Variables us ue : Z.

Hypothesis Hrange : 0 <= us <= ue /\ ue < 0x80000.

Let in_range (p : Z) : Prop := us <= p <= ue.

Lemma walk_stops_no_entry k pred st :
  munmap_walk (S k) us ue pred None st = Done st.
Proof. reflexivity. Qed.

Lemma walk_stops_after k pred j st :
  ue < start_page (entry st j) ->
  munmap_walk (S k) us ue pred (Some j) st = Done st.
Proof.
  intros H. cbn [munmap_walk].
  destruct (Z.gtb_spec (start_page (entry st j)) ue); [reflexivity|lia].
Qed.

(** The walk stops at [e] when the entries from [e] on start behind
    [ue]. *)
Lemma walk_stops k pred e rest st lo :
  is_seg (mm st) e rest None -> ordered (mm st) rest lo -> ue < lo ->
  munmap_walk (S k) us ue pred e st = Done st.
Proof.
  intros Hseg Hord Hlo. destruct rest as [|j rest]; cbn [is_seg] in Hseg.
  - subst e. reflexivity.
  - destruct Hseg as [-> _]. apply walk_stops_after.
    cbn [ordered] in Hord. destruct Hord as (A & _). unfold entry. lia.
Qed.

Lemma munmap_walk_unmaps :
  forall rest fuel pre pred e st,
    is_seg (mm st) (map_list (mm st)) pre e ->
    is_seg (mm st) e rest None ->
    ordered (mm st) (pre ++ rest) 0 ->
    pred = last_opt pre ->
    (forall i, In i pre -> end_page (entry st i) < us) ->
    (forall i, In i (pre ++ rest) -> end_page (entry st i) < 2 ^ 32) ->
    (exists nf, map_free_list (mm st) = Some nf /\ ~ In nf (pre ++ rest)) ->
    Z.of_nat (length rest) + 0x8004 <= Z.of_nat fuel ->
    exists st' l',
      munmap_walk fuel us ue pred e st = Done st'
      /\ is_list (mm st') l' /\ ordered (mm st') l' 0
      /\ (forall i, In i l' -> end_page (entry st' i) < 2 ^ 32)
      /\ forall p, mapped (mm st') l' p
                   <-> mapped (mm st) (pre ++ rest) p /\ ~ in_range p.
Proof.
  induction rest as [|i rest IH];
    intros fuel pre pred e st Hpre Hrest Hord Hpred Hends Hbound Hfree Hfuel;
    (destruct fuel as [|k]; [lia|]).
  - (* the end of the list *)
    cbn in Hrest. subst e. exists st, pre. rewrite app_nil_r in *.
    split; [reflexivity|]. split; [exact Hpre|]. split; [exact Hord|].
    split; [exact Hbound|].
    intros p. split; [|tauto]. intros Hm. split; [exact Hm|].
    destruct Hm as (x & Hx & Hp). specialize (Hends x Hx).
    unfold in_range, in_entry, entry in *. lia.
  - cbn [is_seg] in Hrest. destruct Hrest as [-> Hrest].
    pose proof (ordered_NoDup _ _ _ Hord) as Hnd.
    destruct (ordered_tail _ _ _ _ Hord) as (lo' & Hlo & Hord2 & Hpre_lt).
    cbn [ordered] in Hord2. destruct Hord2 as (Hs_lo & Hse & Hord_rest).
    fold (entry st i) in Hs_lo, Hse, Hord_rest, Hrest.
    assert (Hi_bound : end_page (entry st i) < 2 ^ 32)
      by (apply Hbound, in_or_app; right; now left).
    assert (Hi_pre : ~ In i pre)
      by (apply NoDup_remove_2 in Hnd; intros H; apply Hnd, in_or_app; now left).
    assert (Hi_rest : ~ In i rest)
      by (apply NoDup_remove_2 in Hnd; intros H; apply Hnd, in_or_app; now right).
    assert (Hpred_i : pred <> Some i).
    { intros Hc. rewrite Hpred in Hc. apply last_opt_inv in Hc.
      destruct Hc as (l0 & ->). apply Hi_pre, in_or_app. right. now left. }
    assert (Hlist' : is_seg (mm st) (map_list (mm st)) (pre ++ [i])
                       (next (entry st i))).
    { apply is_seg_app with (q := Some i); [exact Hpre|]. cbn. auto. }
    destruct (Z_lt_ge_dec ue (start_page (entry st i))) as [Hafter|Hnotafter].
    { (* the entry starts behind the range *)
      exists st, (pre ++ i :: rest).
      split; [now apply walk_stops_after|].
      split; [apply is_seg_app with (q := Some i); [exact Hpre|cbn; auto]|].
      split; [exact Hord|]. split; [exact Hbound|].
      intros p. split; [|tauto]. intros Hm. split; [exact Hm|].
      rewrite mapped_app in Hm. destruct Hm as [(x & Hx & Hp) | (x & Hx & Hp)].
      - specialize (Hends x Hx). unfold in_range, in_entry, entry in *. lia.
      - assert (Hx' : start_page (map_entries (mm st) i)
                      <= start_page (map_entries (mm st) x)).
        { destruct Hx as [<- | Hx]; [lia|].
          destruct (ordered_lower _ _ _ _ Hord_rest Hx).
          unfold entry in *. lia. }
        unfold in_range, in_entry, entry in *. lia. }
    destruct (Z_lt_ge_dec (end_page (entry st i)) us) as [Hbefore|Hconflict].
    { (* the entry ends before the range: go on *)
      destruct (IH k (pre ++ [i]) (Some i) (next (entry st i)) st)
        as (st' & l' & Hrun & Hl & Ho & Hb & Hm).
      - exact Hlist'.
      - exact Hrest.
      - now rewrite <- app_assoc.
      - now rewrite last_opt_app.
      - intros x Hx. apply in_app_or in Hx.
        destruct Hx as [Hx | [<- | []]]; [now apply Hends|exact Hbefore].
      - now rewrite <- app_assoc.
      - destruct Hfree as (nf & Hnf & Hnin). exists nf.
        now rewrite <- app_assoc.
      - cbn [length] in Hfuel. lia.
      - exists st', l'. split.
        + cbn [munmap_walk].
          destruct (Z.gtb_spec (start_page (entry st i)) ue); [lia|].
          destruct (Z.geb_spec (end_page (entry st i)) us); [lia|].
          exact Hrun.
        + split; [exact Hl|]. split; [exact Ho|]. split; [exact Hb|].
          intros p. rewrite Hm, <- app_assoc. reflexivity. }
    (* a conflict *)
    assert (Hstep : forall pred' e' st1,
              modify_entry i pred (Z.max us (start_page (entry st i)))
                (Z.min ue (end_page (entry st i))) st = Done (pred', e', st1) ->
              exists st3, keeps_entries st1 st3
                /\ forall st'',
                     munmap_walk k us ue pred' e' st3 = Done st'' ->
                     munmap_walk (S k) us ue pred (Some i) st = Done st'').
    { intros pred' e' st1 Hmod.
      destruct (after_conflict k (Z.max us (start_page (entry st i)))
                  (Z.min ue (end_page (entry st i))) st1)
        as (st3 & Hrun3 & Hk3); try (cbn [length] in Hfuel; lia).
      exists st3. split; [exact Hk3|]. intros st'' Hnext.
      cbn [munmap_walk].
      destruct (Z.gtb_spec (start_page (entry st i)) ue); [lia|].
      destruct (Z.geb_spec (end_page (entry st i)) us); [|lia].
      rewrite Hmod. cbn [obind]. rewrite Hrun3. cbn [obind].
      exact Hnext. }
    assert (Hs0 : 0 <= start_page (entry st i)) by lia.
    assert (Hpre_us : forall x, In x pre ->
              end_page (map_entries (mm st) x) < us)
      by (intros x Hx; apply (Hends x Hx)).
    assert (Hrest_lo : forall x, In x rest ->
              end_page (entry st i) < start_page (map_entries (mm st) x)).
    { intros x Hx. destruct (ordered_lower _ _ _ _ Hord_rest Hx). lia. }
    assert (Hk : exists k', k = S k').
    { destruct k as [|k']; [cbn [length] in Hfuel; lia|]. now exists k'. }
    destruct (Z_lt_ge_dec (start_page (entry st i)) us) as [Hlow|Hlow];
      destruct (Z_lt_ge_dec ue (end_page (entry st i))) as [Hhigh|Hhigh].
    + (* the range lies inside the entry: split *)
      destruct Hfree as (nf & Hnf & Hnin).
      assert (Hnf_i : nf <> i)
        by (intros ->; apply Hnin, in_or_app; right; now left).
      assert (Hnf_pre : ~ In nf pre)
        by (intros H; apply Hnin, in_or_app; now left).
      assert (Hnf_rest : ~ In nf rest)
        by (intros H; apply Hnin, in_or_app; right; now right).
      destruct (modify_split i pred us ue st nf) as (st1 & Hmod & Hres);
        try lia; try assumption.
      destruct (Hstep _ _ _ Hmod) as (st3 & Hk3 & Hrun).
      destruct Hres as (Hml & Hview).
      destruct Hk3 as (Kl & Kf & Ke).
      assert (V : forall x,
                start_page (map_entries (mm st3) x)
                = (if x =? nf then ue + 1 else start_page (entry st x))
                /\ end_page (map_entries (mm st3) x)
                   = (if x =? nf then end_page (entry st i)
                      else if x =? i then us - 1 else end_page (entry st x))
                /\ next (map_entries (mm st3) x)
                   = (if x =? i then Some nf
                      else if x =? nf then next (entry st i)
                      else next (entry st x))).
      { intros x. rewrite Ke. apply Hview. }
      assert (Vo : forall x, x <> i -> x <> nf ->
                start_page (map_entries (mm st3) x)
                = start_page (map_entries (mm st) x)
                /\ end_page (map_entries (mm st3) x)
                   = end_page (map_entries (mm st) x)
                /\ next (map_entries (mm st3) x)
                   = next (map_entries (mm st) x)).
      { intros x Hxi Hxn. destruct (V x) as (A & B & C).
        destruct (Z.eqb_spec x nf); [contradiction|].
        destruct (Z.eqb_spec x i); [contradiction|]. auto. }
      assert (Vi : start_page (map_entries (mm st3) i) = start_page (entry st i)
                   /\ end_page (map_entries (mm st3) i) = us - 1
                   /\ next (map_entries (mm st3) i) = Some nf).
      { destruct (V i) as (A & B & C). rewrite Z.eqb_refl in *.
        destruct (Z.eqb_spec i nf); [congruence|]. auto. }
      assert (Vn : start_page (map_entries (mm st3) nf) = ue + 1
                   /\ end_page (map_entries (mm st3) nf) = end_page (entry st i)
                   /\ next (map_entries (mm st3) nf) = next (entry st i)).
      { destruct (V nf) as (A & B & C). rewrite Z.eqb_refl in *.
        destruct (Z.eqb_spec nf i); [congruence|]. auto. }
      destruct Vi as (Vi1 & Vi2 & Vi3). destruct Vn as (Vn1 & Vn2 & Vn3).
      assert (Fpre : forall x, In x pre ->
                start_page (map_entries (mm st3) x)
                = start_page (map_entries (mm st) x)
                /\ end_page (map_entries (mm st3) x)
                   = end_page (map_entries (mm st) x)).
      { intros x Hx. destruct (Vo x) as (A & B & _);
          [intros ->; contradiction|intros ->; contradiction|auto]. }
      assert (Frest : forall x, In x rest ->
                start_page (map_entries (mm st3) x)
                = start_page (map_entries (mm st) x)
                /\ end_page (map_entries (mm st3) x)
                   = end_page (map_entries (mm st) x)).
      { intros x Hx. destruct (Vo x) as (A & B & _);
          [intros ->; contradiction|intros ->; contradiction|auto]. }
      destruct Hk as (k' & ->).
      exists st3, (pre ++ i :: nf :: rest).
      split.
      { apply Hrun. apply walk_stops_after. unfold entry. rewrite Vn1. lia. }
      split.
      { unfold is_list. rewrite Kl, Hml.
        apply is_seg_app with (q := Some i).
        - apply is_seg_frame with (m := mm st); [|exact Hpre].
          intros x Hx. apply Vo; intros ->; contradiction.
        - cbn [is_seg]. split; [reflexivity|]. rewrite Vi3.
          split; [reflexivity|]. rewrite Vn3.
          apply is_seg_frame with (m := mm st); [|exact Hrest].
          intros x Hx. apply Vo; intros ->; contradiction. }
      split.
      { apply ordered_join with (lo' := lo').
        - apply ordered_frame with (m := mm st); [exact Fpre|].
          now destruct (ordered_app _ _ _ _ Hord).
        - cbn [ordered]. rewrite Vi1, Vi2, Vn1, Vn2.
          split; [lia|]. split; [lia|]. split; [lia|]. split; [lia|].
          apply ordered_frame with (m := mm st); [exact Frest|exact Hord_rest].
        - intros x Hx. destruct (Fpre x Hx) as [_ ->]. now apply Hpre_lt.
        - exact Hlo. }
      split.
      { intros x Hx. unfold entry. apply in_app_or in Hx.
        destruct Hx as [Hx | [<- | [<- | Hx]]].
        - destruct (Fpre x Hx) as [_ ->]. apply Hbound, in_or_app. now left.
        - rewrite Vi2. lia.
        - rewrite Vn2. lia.
        - destruct (Frest x Hx) as [_ ->].
          apply Hbound, in_or_app. right. now right. }
      intros p. rewrite !mapped_mid, mapped_cons.
      rewrite (mapped_frame (mm st) (mm st3) pre) by exact Fpre.
      rewrite (mapped_frame (mm st) (mm st3) rest) by exact Frest.
      unfold in_entry. rewrite Vi1, Vi2, Vn1, Vn2.
      assert (Hp1 : mapped (mm st) pre p -> ~ in_range p).
      { intros (x & Hx & Hp). specialize (Hpre_us x Hx).
        unfold in_range, in_entry in *. lia. }
      assert (Hp2 : mapped (mm st) rest p -> ~ in_range p).
      { intros (x & Hx & Hp). specialize (Hrest_lo x Hx).
        unfold in_range, in_entry in *. lia. }
      unfold in_range in *. unfold entry in *.
      split; [intros [H|[H|[H|H]]]|intros [[H|[H|H]] Hn]]; try tauto;
        try (split; [|lia]; right; left; lia).
      destruct (Z_lt_ge_dec p us); [right; left; lia|right; right; left; lia].
    + (* the range covers the end of the entry: trim *)
      destruct (modify_trim_back i pred us ue st) as (st1 & Hmod & Hres);
        try lia.
      destruct (Hstep _ _ _ Hmod) as (st3 & Hk3 & Hrun).
      destruct Hres as (Hml & Hmf & Hview).
      destruct Hk3 as (Kl & Kf & Ke).
      assert (V : forall x,
                next (map_entries (mm st3) x) = next (map_entries (mm st) x)
                /\ start_page (map_entries (mm st3) x)
                   = start_page (map_entries (mm st) x)
                /\ end_page (map_entries (mm st3) x)
                   = (if x =? i then us - 1
                      else end_page (map_entries (mm st) x))).
      { intros x. rewrite Ke. destruct (Hview x) as (A & B & C).
        unfold entry in *. split; [exact A|]. split; [|exact C].
        rewrite B. destruct (Z.eqb_spec x i) as [-> | _]; reflexivity. }
      assert (Vi : end_page (map_entries (mm st3) i) = us - 1)
        by (destruct (V i) as (_ & _ & C); now rewrite Z.eqb_refl in C).
      assert (Fo : forall l, ~ In i l -> forall x, In x l ->
                start_page (map_entries (mm st3) x)
                = start_page (map_entries (mm st) x)
                /\ end_page (map_entries (mm st3) x)
                   = end_page (map_entries (mm st) x)).
      { intros l Hl x Hx. destruct (V x) as (_ & B & C).
        destruct (Z.eqb_spec x i) as [-> | _]; [contradiction|auto]. }
      destruct (IH k (pre ++ [i]) (Some i) (next (entry st i)) st3)
        as (st'' & l' & Hrun' & Hl & Ho & Hb & Hm).
      * rewrite Kl, Hml.
        apply is_seg_frame with (m := mm st); [|exact Hlist'].
        intros x _. apply V.
      * apply is_seg_frame with (m := mm st); [|exact Hrest].
        intros x _. apply V.
      * rewrite <- app_assoc. cbn [app].
        apply ordered_shrink with (m := mm st); [exact Hord| | | |].
        -- intros x Hx. destruct (V x) as (_ & B & C).
           destruct (Z.eqb_spec x i); [contradiction|auto].
        -- destruct (V i) as (_ & -> & _). lia.
        -- destruct (V i) as (_ & -> & _). rewrite Vi. unfold entry in *. lia.
        -- rewrite Vi. unfold entry in *. lia.
      * now rewrite last_opt_app.
      * intros x Hx. unfold entry. apply in_app_or in Hx.
        destruct Hx as [Hx | [<- | []]].
        -- destruct (Fo pre Hi_pre x Hx) as [_ ->]. now apply Hpre_us.
        -- rewrite Vi. lia.
      * intros x Hx. unfold entry. rewrite <- app_assoc in Hx. cbn [app] in Hx.
        apply in_app_or in Hx. destruct Hx as [Hx | [<- | Hx]].
        -- destruct (Fo pre Hi_pre x Hx) as [_ ->].
           apply Hbound, in_or_app. now left.
        -- rewrite Vi. lia.
        -- destruct (Fo rest Hi_rest x Hx) as [_ ->].
           apply Hbound, in_or_app. right. now right.
      * destruct Hfree as (nf & Hnf & Hnin). exists nf.
        rewrite Kf, Hmf, <- app_assoc. auto.
      * cbn [length] in Hfuel. lia.
      * exists st'', l'. split; [now apply Hrun|].
        split; [exact Hl|]. split; [exact Ho|]. split; [exact Hb|].
        intros p. rewrite Hm, <- app_assoc. cbn [app].
        rewrite !mapped_mid.
        rewrite (mapped_frame (mm st) (mm st3) pre) by (apply Fo; exact Hi_pre).
        rewrite (mapped_frame (mm st) (mm st3) rest)
          by (apply Fo; exact Hi_rest).
        unfold in_entry. destruct (V i) as (_ & -> & _). rewrite Vi.
        unfold in_range, entry in *. split; intros [[H|[H|H]] Hn];
          (split; [|exact Hn]); try tauto; right; left; lia.
    + (* the range covers the start of the entry: trim *)
      destruct (modify_trim_front i pred us ue st) as (st1 & Hmod & Hres);
        try lia.
      destruct (Hstep _ _ _ Hmod) as (st3 & Hk3 & Hrun).
      destruct Hres as (Hml & Hmf & Hview).
      destruct Hk3 as (Kl & Kf & Ke).
      assert (V : forall x,
                next (map_entries (mm st3) x) = next (map_entries (mm st) x)
                /\ start_page (map_entries (mm st3) x)
                   = (if x =? i then ue + 1
                      else start_page (map_entries (mm st) x))
                /\ end_page (map_entries (mm st3) x)
                   = end_page (map_entries (mm st) x)).
      { intros x. rewrite Ke. destruct (Hview x) as (A & B & C).
        unfold entry in *. split; [exact A|]. split; [exact B|].
        rewrite C. destruct (Z.eqb_spec x i) as [-> | _]; reflexivity. }
      assert (Vi : start_page (map_entries (mm st3) i) = ue + 1)
        by (destruct (V i) as (_ & B & _); now rewrite Z.eqb_refl in B).
      assert (Fo : forall l, ~ In i l -> forall x, In x l ->
                start_page (map_entries (mm st3) x)
                = start_page (map_entries (mm st) x)
                /\ end_page (map_entries (mm st3) x)
                   = end_page (map_entries (mm st) x)).
      { intros l Hl x Hx. destruct (V x) as (_ & B & C).
        destruct (Z.eqb_spec x i) as [-> | _]; [contradiction|auto]. }
      destruct Hk as (k' & ->).
      exists st3, (pre ++ i :: rest).
      split.
      { apply Hrun.
        apply walk_stops with (rest := rest) (lo := end_page (entry st i) + 1);
          [| |lia].
        - apply is_seg_frame with (m := mm st); [|exact Hrest].
          intros x _. apply V.
        - apply ordered_frame with (m := mm st);
            [apply Fo; exact Hi_rest|exact Hord_rest]. }
      split.
      { unfold is_list. rewrite Kl, Hml.
        apply is_seg_frame with (m := mm st);
          [intros x _; apply V|].
        apply is_seg_app with (q := Some i); [exact Hpre|cbn; auto]. }
      split.
      { apply ordered_shrink with (m := mm st); [exact Hord| | | |].
        - intros x Hx. destruct (V x) as (_ & B & C).
          destruct (Z.eqb_spec x i); [contradiction|auto].
        - rewrite Vi. unfold entry in *. lia.
        - rewrite Vi. destruct (V i) as (_ & _ & ->). unfold entry in *. lia.
        - destruct (V i) as (_ & _ & ->). lia. }
      split.
      { intros x Hx. unfold entry. destruct (V x) as (_ & _ & ->).
        now apply Hbound. }
      intros p. rewrite !mapped_mid.
      rewrite (mapped_frame (mm st) (mm st3) pre) by (apply Fo; exact Hi_pre).
      rewrite (mapped_frame (mm st) (mm st3) rest) by (apply Fo; exact Hi_rest).
      unfold in_entry. destruct (V i) as (_ & _ & ->). rewrite Vi.
      assert (Hp1 : mapped (mm st) pre p -> ~ in_range p).
      { intros (x & Hx & Hp). specialize (Hpre_us x Hx).
        unfold in_range, in_entry in *. lia. }
      assert (Hp2 : mapped (mm st) rest p -> ~ in_range p).
      { intros (x & Hx & Hp). specialize (Hrest_lo x Hx).
        unfold in_range, in_entry in *. lia. }
      unfold in_range, entry in *.
      split; [intros [H|[H|H]]|intros [[H|[H|H]] Hn]]; try tauto;
        try (split; [|lia]; right; left; lia).
      right. left. lia.
    + (* the range covers the entry: remove it *)
      destruct (modify_remove i pred us ue st) as (st1 & Hmod & Hres);
        try lia; try assumption.
      destruct (Hstep _ _ _ Hmod) as (st3 & Hk3 & Hrun).
      destruct Hres as (Hml & Hmf & Hview).
      destruct Hk3 as (Kl & Kf & Ke).
      assert (V : forall x,
                start_page (map_entries (mm st3) x)
                = start_page (map_entries (mm st) x)
                /\ end_page (map_entries (mm st3) x)
                   = end_page (map_entries (mm st) x)).
      { intros x. rewrite Ke. destruct (Hview x) as (A & B & _). auto. }
      assert (Vn : forall x, x <> i -> pred <> Some x ->
                next (map_entries (mm st3) x) = next (map_entries (mm st) x)).
      { intros x Hxi Hxp. rewrite Ke. destruct (Hview x) as (_ & _ & C).
        unfold entry in C. rewrite (C Hxi).
        destruct pred as [q|]; [|reflexivity].
        destruct (Z.eqb_spec x q); [congruence|reflexivity]. }
      assert (Hpre_next : forall x, In x rest -> pred <> Some x).
      { intros x Hx Hc. rewrite Hpred in Hc. apply last_opt_inv in Hc.
        destruct Hc as (l0 & ->).
        rewrite <- app_assoc in Hnd. apply NoDup_remove_2 in Hnd.
        apply Hnd, in_or_app. right. right. exact Hx. }
      destruct (IH k pre pred (next (entry st i)) st3)
        as (st'' & l' & Hrun' & Hl & Ho & Hb & Hm).
      * rewrite Kl, Hml. destruct pred as [q|].
        -- symmetry in Hpred. apply last_opt_inv in Hpred.
           destruct Hpred as (l0 & ->).
           assert (Hnd0 : NoDup (l0 ++ [q])).
           { apply NoDup_app_remove_r in Hnd. exact Hnd. }
           apply is_seg_relink with (m := mm st) (e := Some i);
             [exact Hpre|exact Hnd0| |].
           ++ intros x Hx. apply Vn.
              ** intros ->. apply Hi_pre, in_or_app. now left.
              ** intros Hc. inversion Hc; subst.
                 apply NoDup_remove_2 in Hnd0. rewrite app_nil_r in Hnd0.
                 contradiction.
           ++ rewrite Ke. destruct (Hview q) as (_ & _ & C).
              unfold entry in C. rewrite C, Z.eqb_refl; [reflexivity|].
              intros ->. apply Hi_pre, in_or_app. right. now left.
        -- symmetry in Hpred. apply last_opt_none in Hpred. subst pre.
           cbn [is_seg]. reflexivity.
      * apply is_seg_frame with (m := mm st); [|exact Hrest].
        intros x Hx. apply Vn; [intros ->; contradiction|now apply Hpre_next].
      * apply ordered_frame with (m := mm st); [intros x _; apply V|].
        eapply ordered_remove; exact Hord.
      * exact Hpred.
      * intros x Hx. unfold entry. destruct (V x) as [_ ->].
        now apply Hpre_us.
      * intros x Hx. unfold entry. destruct (V x) as [_ ->].
        apply Hbound. apply in_app_or in Hx. apply in_or_app.
        destruct Hx; [now left|right; now right].
      * exists i. split; [now rewrite Kf|].
        intros Hx. apply in_app_or in Hx. destruct Hx; contradiction.
      * cbn [length] in Hfuel. lia.
      * exists st'', l'. split; [now apply Hrun|].
        split; [exact Hl|]. split; [exact Ho|]. split; [exact Hb|].
        intros p. rewrite Hm, mapped_mid, mapped_app.
        rewrite (mapped_frame (mm st) (mm st3) pre) by (intros x _; apply V).
        rewrite (mapped_frame (mm st) (mm st3) rest) by (intros x _; apply V).
        unfold in_entry, in_range, entry in *.
        split; intros [H Hn]; (split; [|exact Hn]); [tauto|].
        destruct H as [H|[H|H]]; [now left|lia|now right].
Qed.

End Unmap.

(** ** mm_munmap on a well-formed list *)
Lemma munmap_page_range addr len :
  IS_ALIGNED addr PAGE_SIZE = true ->
  0 < len <= 0x80000000 ->
  bad_range addr (ALIGN_TO_PAGE len) = false ->
  let us := GET_PAGE addr in
  let ue := GET_PAGE (wrap32 (addr + ALIGN_TO_PAGE len - 1)) in
  (0 <= us <= ue /\ ue < 0x80000)
  /\ forall p, us <= p <= ue <-> addr <= p * PAGE_SIZE < addr + len.
Proof.
  intros Hal Hlen Hbad us ue. subst us ue.
  unfold bad_range, ADDRESS_SPACE_LOW, ADDRESS_SPACE_HIGH in Hbad.
  repeat (apply orb_false_elim in Hbad; destruct Hbad as [Hbad ?]).
  pose proof (ALIGN_TO_PAGE_range len) as HL.
  pose proof (ALIGN_TO_PAGE_spec len ltac:(lia)) as HLs.
  set (L := ALIGN_TO_PAGE len) in *.
  unfold IS_ALIGNED, PAGE_SIZE in *.
  apply Z.eqb_eq in Hal.
  pose proof (Z.div_mod addr 4096 ltac:(lia)) as Ha.
  rewrite Hal, Z.add_0_r in Ha.
  pose proof (Z.div_mod (len + 4096 - 1) 4096 ltac:(lia)) as Hc.
  pose proof (Z.mod_pos_bound (len + 4096 - 1) 4096 ltac:(lia)) as Hcm.
  set (c := (len + 4096 - 1) / 4096) in *.
  set (a := addr / 4096) in *.
  assert (Hnowrap : addr + L < 2 ^ 32).
  { destruct (Z_lt_ge_dec (addr + L) (2 ^ 32)) as [|Hge]; [assumption|].
    rewrite wrap32_over in * by lia. lia. }
  rewrite wrap32_small in * by lia.
  unfold GET_PAGE, PAGE_SIZE. fold a.
  assert (Hue : (addr + L - 1) / 4096 = a + c - 1).
  { symmetry. apply Z.div_unique with (r := 4095); lia. }
  rewrite Hue. split; [lia|]. intros p. lia.
Qed.

(** X21.  mm_munmap of a page-aligned [addr] and a length of 1 to 2 GiB
    whose range lies in the user address space, on a map list that is well
    formed, sorted and free of overlap, with a free entry left: it returns
    0, the list is again well formed and sorted, and the pages mapped
    afterwards are those mapped before that do not meet
    [addr, addr + len), whether entries had to be removed, trimmed or
    split. *)
Theorem mm_munmap_unmaps_range fuel addr len st l :
  IS_ALIGNED addr PAGE_SIZE = true ->
  0 < len <= 0x80000000 ->
  bad_range addr (ALIGN_TO_PAGE len) = false ->
  is_list (mm st) l -> ordered (mm st) l 0 ->
  (forall i, In i l -> end_page (entry st i) < 2 ^ 32) ->
  (exists nf, map_free_list (mm st) = Some nf /\ ~ In nf l) ->
  Z.of_nat (length l) + 0x8004 <= Z.of_nat fuel ->
  exists st' l',
    mm_munmap fuel addr len st = Done (0, st')
    /\ is_list (mm st') l' /\ ordered (mm st') l' 0
    /\ (forall i, In i l' -> end_page (entry st' i) < 2 ^ 32)
    /\ forall p, mapped (mm st') l' p
         <-> mapped (mm st) l p /\ ~ addr <= p * PAGE_SIZE < addr + len.
Proof.
  intros Hal Hlen Hbad Hl Ho Hb Hf Hfuel.
  destruct (munmap_page_range addr len Hal Hlen Hbad) as (Hrange & Hp).
  destruct (munmap_walk_unmaps _ _ Hrange l fuel [] None (map_list (mm st)) st)
    as (st' & l' & Hrun & Hl' & Ho' & Hb' & Hm');
    try assumption; try reflexivity.
  { intros i []. }
  exists st', l'. split.
  - unfold mm_munmap. rewrite Hal, Hbad. cbn [negb]. rewrite Hrun.
    reflexivity.
  - split; [exact Hl'|]. split; [exact Ho'|]. split; [exact Hb'|].
    intros p. rewrite Hm'. cbn [app]. rewrite Hp. reflexivity.
Qed.

Lemma mm_munmap_unmaps_range_witness :
  exists st' l',
    mm_munmap FUEL 0x4001000 0x1001 four_pages = Done (0, st')
    /\ is_list (mm st') l' /\ ordered (mm st') l' 0
    /\ (forall i, In i l' -> end_page (entry st' i) < 2 ^ 32)
    /\ forall p, mapped (mm st') l' p
         <-> mapped (mm four_pages) [0] p
             /\ ~ 0x4001000 <= p * PAGE_SIZE < 0x4001000 + 0x1001.
Proof.
  apply (mm_munmap_unmaps_range FUEL 0x4001000 0x1001 four_pages [0]).
  - reflexivity.
  - lia.
  - reflexivity.
  - split; reflexivity.
  - cbn. lia.
  - intros i [<- | []]. reflexivity.
  - exists 1. split; [reflexivity|]. intros [H | []]. discriminate H.
  - vm_compute. discriminate.
Defined.

Lemma reset_remove i pred st :
  pred <> Some i ->
  let st1 :=
    clear_prots (Z.to_nat (end_page (entry st i) + 1 - start_page (entry st i)))
      (start_page (entry st i)) st in
  let st2 :=
    match pred with
    | Some q => assign_next q (next (entry st1 i)) st1
    | None => set_map_list (next (entry st1 i)) st1
    end in
  let st3 := free_map_entry i st2 in
  next (entry st2 i) = next (entry st i)
  /\ unlinked st st3 pred i
  /\ next (entry st3 i) = map_free_list (mm st)
  /\ (forall p, in_entry p (entry st i) -> prot_of st3 p = 0)
  /\ (forall p, ~ in_entry p (entry st i) -> prot_of st3 p = prot_of st p).
Proof.
  intros Hp st1 st2 st3.
  pose proof (clear_prots_spec
                (Z.to_nat (end_page (entry st i) + 1 - start_page (entry st i)))
                (start_page (entry st i)) st) as S.
  cbv zeta in S. fold st1 in S.
  destruct S as (So & Sb & Sl & Sf & Se & Sh & Sc & Si & Sout).
  assert (E1 : forall x, entry st1 x = entry st x)
    by (intros x; unfold entry; now rewrite Se).
  assert (Hq : forall q, pred = Some q -> (i =? q) = false).
  { intros q ->. apply Z.eqb_neq. congruence. }
  assert (P3 : forall p, prot_of st3 p = prot_of st1 p).
  { intros p. subst st3 st2. destruct pred; reflexivity. }
  split.
  { subst st2. destruct pred as [q|].
    - unfold assign_next. rewrite entry_set_entry, (Hq q eq_refl). now rewrite E1.
    - rewrite entry_set_map_list. now rewrite E1. }
  split.
  { unfold unlinked. subst st3 st2. split; [|split; [reflexivity|]].
    - destruct pred as [q|]; cbn; [exact Sl|now rewrite E1].
    - intros x. destruct pred as [q|];
        unfold free_map_entry, assign_next;
        repeat first [rewrite entry_set_entry | rewrite entry_set_map_list
                     | rewrite entry_set_map_free_list];
        rewrite ?(Hq q eq_refl), ?E1;
        try (destruct (Z.eqb_spec x q) as [Hxq | Hxq]);
        destruct (Z.eqb_spec x i) as [Hxi | Hxi];
        try (destruct (Z.eqb_spec i q) as [Hiq | Hiq]);
        subst; cbn; rewrite ?E1;
        repeat match goal with
               | |- _ /\ _ => split
               | |- _ <> _ -> _ => intros Hc; try (now contradiction Hc)
               end; try reflexivity; try congruence. }
  split.
  { subst st3 st2. unfold free_map_entry. rewrite entry_set_map_free_list,
      entry_set_entry, Z.eqb_refl. cbn [next with_next].
    destruct pred; cbn; exact Sf. }
  split.
  - intros p Hpin. rewrite P3. apply Si. unfold in_entry in Hpin. lia.
  - intros p Hpout. rewrite P3. apply Sout. unfold in_entry in Hpout. lia.
Qed.

Lemma kept_frame st st' l :
  (forall x, start_page (entry st' x) = start_page (entry st x)
             /\ end_page (entry st' x) = end_page (entry st x)) ->
  kept st' l = kept st l /\ dropped st' l = dropped st l.
Proof.
  intros H. unfold kept, dropped, in_window.
  split; apply filter_ext; intros x; destruct (H x) as [-> ->]; reflexivity.
Qed.

Lemma covered_frame st st' l p :
  (forall x, start_page (entry st' x) = start_page (entry st x)
             /\ end_page (entry st' x) = end_page (entry st x)) ->
  covered st' l p <-> covered st l p.
Proof.
  intros H. unfold covered, in_entry.
  split; intros (i & Hi & Hp); exists i; destruct (H i) as [A B];
    (split; [exact Hi|]); rewrite ?A, ?B in *; exact Hp.
Qed.

Lemma covered_dec st l p : covered st l p \/ ~ covered st l p.
Proof.
  induction l as [|i l IH].
  - right. intros (x & [] & _).
  - destruct IH as [(x & Hx & Hp) | Hn].
    + left. exists x. split; [now right|exact Hp].
    + destruct (Z_le_dec (start_page (entry st i)) p) as [H1 | H1];
        [destruct (Z_le_dec p (end_page (entry st i))) as [H2 | H2]|].
      * left. exists i. split; [now left|]. split; assumption.
      * right. intros (x & [<- | Hx] & Hp); [destruct Hp; contradiction|].
        apply Hn. now exists x.
      * right. intros (x & [<- | Hx] & Hp); [destruct Hp; contradiction|].
        apply Hn. now exists x.
Qed.

(** The second loop of mm_reset, from an entry [e] of a list without
    repetition: [pre] is the part of the list before [e], already walked,
    [rest] the part from [e] on. *)
Lemma reset_walk_filters :
  forall rest fuel pre pred e st,
    is_seg (mm st) (map_list (mm st)) pre e ->
    is_seg (mm st) e rest None ->
    NoDup (pre ++ rest) ->
    pred = last_opt pre ->
    (length rest < fuel)%nat ->
    exists st',
      reset_walk fuel pred e st = Done st'
      /\ is_list (mm st') (pre ++ kept st rest)
      /\ (forall x, start_page (entry st' x) = start_page (entry st x)
                    /\ end_page (entry st' x) = end_page (entry st x))
      /\ (forall x, ~ In x rest -> pred <> Some x ->
            next (entry st' x) = next (entry st x))
      /\ is_seg (mm st') (map_free_list (mm st')) (rev (dropped st rest))
           (map_free_list (mm st))
      /\ (forall p, covered st (dropped st rest) p -> prot_of st' p = 0)
      /\ (forall p, ~ covered st (dropped st rest) p ->
            prot_of st' p = prot_of st p).
Proof.
  induction rest as [|i rest IH]; intros fuel pre pred e st Hpre Hrest Hnd
    Hpred Hfuel.
  - destruct fuel as [|k]; [cbn in Hfuel; lia|].
    cbn [is_seg] in Hrest. subst e. exists st.
    split; [reflexivity|]. cbn [kept dropped filter rev].
    rewrite app_nil_r.
    split; [exact Hpre|]. split; [auto|]. split; [auto|].
    split; [reflexivity|]. split; [|auto].
    intros p (x & [] & _).
  - destruct fuel as [|k]; [cbn in Hfuel; lia|].
    cbn [is_seg] in Hrest. destruct Hrest as [-> Hrest].
    assert (Hi_pre : ~ In i pre).
    { apply NoDup_remove_2 in Hnd. intros H. apply Hnd, in_or_app. now left. }
    assert (Hi_rest : ~ In i rest).
    { apply NoDup_remove_2 in Hnd. intros H. apply Hnd, in_or_app. now right. }
    assert (Hpred_i : pred <> Some i).
    { intros Hc. rewrite Hpred in Hc. apply last_opt_inv in Hc.
      destruct Hc as (l0 & ->). apply Hi_pre, in_or_app. right. now left. }
    cbn [reset_walk].
    change ((start_page (entry st i) >=? GET_PAGE ADDRESS_ALLOCATION_LOW)
            && (end_page (entry st i) <? GET_PAGE ADDRESS_ALLOCATION_HIGH))
      with (in_window (entry st i)).
    unfold kept, dropped. cbn [filter]. fold (kept st rest) (dropped st rest).
    destruct (in_window (entry st i)) eqn:Ew; cbn [negb].
    + (* the entry lies in the window: removed *)
      pose proof (reset_remove i pred st Hpred_i) as R. cbv zeta in R.
      destruct R as (Rn & (Rl & Rf & Rv) & Rfree & Rp0 & Rp).
      rewrite Rn.
      set (st3 := free_map_entry i _) in *.
      assert (F3 : forall x,
                start_page (entry st3 x) = start_page (entry st x)
                /\ end_page (entry st3 x) = end_page (entry st x)).
      { intros x. destruct (Rv x) as (A & B & _). auto. }
      assert (N3 : forall x, x <> i -> pred <> Some x ->
                next (entry st3 x) = next (entry st x)).
      { intros x Hxi Hxp. destruct (Rv x) as (_ & _ & C). rewrite (C Hxi).
        destruct pred as [q|]; [|reflexivity].
        destruct (Z.eqb_spec x q); [congruence|reflexivity]. }
      assert (Hrest_pred : forall x, In x rest -> pred <> Some x).
      { intros x Hx Hc. rewrite Hpred in Hc. apply last_opt_inv in Hc.
        destruct Hc as (l0 & ->). rewrite <- app_assoc in Hnd.
        apply NoDup_remove_2 in Hnd. apply Hnd, in_or_app. right. right.
        exact Hx. }
      destruct (IH k pre pred (next (entry st i)) st3)
        as (st' & Hrun & Hl & Hf & Hn & Hfl & Hp0 & Hp).
      * rewrite Rl. destruct pred as [q|].
        -- symmetry in Hpred. apply last_opt_inv in Hpred.
           destruct Hpred as (l0 & ->).
           assert (Hnd0 : NoDup (l0 ++ [q]))
             by (apply NoDup_app_remove_r in Hnd; exact Hnd).
           apply is_seg_relink with (m := mm st) (e := Some i);
             [exact Hpre|exact Hnd0| |].
           ++ intros x Hx. apply N3.
              ** intros ->. apply Hi_pre, in_or_app. now left.
              ** intros Hc. inversion Hc; subst.
                 apply NoDup_remove_2 in Hnd0. rewrite app_nil_r in Hnd0.
                 contradiction.
           ++ destruct (Rv q) as (_ & _ & C). unfold entry in C.
              rewrite C, Z.eqb_refl; [reflexivity|].
              intros ->. apply Hi_pre, in_or_app. right. now left.
        -- symmetry in Hpred. apply last_opt_none in Hpred. subst pre.
           cbn [is_seg]. reflexivity.
      * apply is_seg_frame with (m := mm st); [|exact Hrest].
        intros x Hx. apply N3; [intros ->; contradiction|now apply Hrest_pred].
      * apply NoDup_remove_1 in Hnd. exact Hnd.
      * exact Hpred.
      * cbn [length] in Hfuel. lia.
      * destruct (kept_frame st st3 rest F3) as [Kk Kd].
        rewrite Kk, Kd in *.
        exists st'. split; [exact Hrun|]. split; [exact Hl|].
        split.
        { intros x. destruct (Hf x) as [-> ->]. apply F3. }
        split.
        { intros x Hx Hxp. rewrite Hn; [apply N3| |exact Hxp].
          - intros ->. apply Hx. now left.
          - exact Hxp.
          - intros H. apply Hx. now right. }
        split.
        { cbn [rev]. apply is_seg_app with (q := Some i).
          - rewrite Rf in Hfl. exact Hfl.
          - cbn [is_seg]. split; [reflexivity|].
            fold (entry st' i). rewrite Hn by assumption. exact Rfree. }
        split.
        { intros p (x & Hx & Hpx). destruct Hx as [<- | Hx].
          - destruct (covered_dec st3 (dropped st rest) p) as [Hc | Hc].
            + now apply Hp0.
            + rewrite (Hp p Hc). now apply Rp0.
          - apply Hp0. apply (covered_frame st st3 _ p F3). now exists x. }
        { intros p Hnc.
          assert (Hc3 : ~ covered st3 (dropped st rest) p).
          { intros Hc. apply (covered_frame st st3 _ p F3) in Hc.
            destruct Hc as (x & Hx & Hpx). apply Hnc. exists x.
            split; [now right|exact Hpx]. }
          rewrite (Hp p Hc3). apply Rp. intros Hin. apply Hnc. exists i.
          split; [now left|exact Hin]. }
    + (* the entry stays *)
      destruct (IH k (pre ++ [i]) (Some i) (next (entry st i)) st)
        as (st' & Hrun & Hl & Hf & Hn & Hfl & Hp0 & Hp).
      * apply is_seg_app with (q := Some i); [exact Hpre|cbn; auto].
      * exact Hrest.
      * rewrite <- app_assoc. exact Hnd.
      * now rewrite last_opt_app.
      * cbn [length] in Hfuel. lia.
      * exists st'. split; [exact Hrun|].
        split; [rewrite <- app_assoc in Hl; exact Hl|].
        split; [exact Hf|]. split.
        { intros x Hx Hxp. apply Hn.
          - intros H. apply Hx. now right.
          - intros Hc. inversion Hc; subst. apply Hx. now left. }
        auto.
Qed.

(** A list that ends in NULL has no repetition. *)
Lemma is_seg_unique m l : forall l' p,
  is_seg m p l None -> is_seg m p l' None -> l = l'.
Proof.
  induction l as [|i l IH]; intros [|i' l'] p H H'; cbn [is_seg] in *.
  - reflexivity.
  - destruct H' as [H' _]. congruence.
  - destruct H as [H _]. congruence.
  - destruct H as [-> H]. destruct H' as [E H']. inversion E; subst i'.
    f_equal. eapply IH; eassumption.
Qed.

Lemma is_seg_NoDup m l : forall p, is_seg m p l None -> NoDup l.
Proof.
  induction l as [|i l IH]; intros p H; [constructor|].
  cbn [is_seg] in H. destruct H as [-> H].
  constructor; [|eapply IH; exact H].
  intros Hin. apply in_split in Hin. destruct Hin as (l1 & l2 & ->).
  destruct (is_seg_split _ _ _ _ _ H) as (q & _ & H2).
  assert (Hq : q = Some i) by (cbn [is_seg] in H2; tauto). subst q.
  cbn [is_seg] in H2. destruct H2 as [_ H2].
  pose proof (is_seg_unique _ _ _ _ H H2) as E.
  apply (f_equal (@length Z)) in E. rewrite length_app in E.
  cbn [length] in E. lia.
Qed.

Lemma ordered_filter m (keep : Z -> bool) l : forall lo,
  ordered m l lo -> ordered m (filter keep l) lo.
Proof.
  induction l as [|i l IH]; intros lo H; [exact I|].
  cbn [ordered] in H. destruct H as (A & B & C). cbn [filter].
  destruct (keep i).
  - cbn [ordered]. auto.
  - apply ordered_weaken with (lo := end_page (map_entries m i) + 1);
      [lia|auto].
Qed.

Lemma mm_reset_walk_after_blocks n lowb fuel st l :
  is_list (mm st) l ->
  (length l < fuel)%nat ->
  exists st',
    reset_walk fuel None (map_list (mm (reset_blocks n lowb st)))
      (reset_blocks n lowb st) = Done st'
    /\ is_list (mm st') (kept st l)
    /\ (forall lo, ordered (mm st) l lo -> ordered (mm st') (kept st l) lo)
    /\ (forall x, start_page (entry st' x) = start_page (entry st x)
                  /\ end_page (entry st' x) = end_page (entry st x))
    /\ is_seg (mm st') (map_free_list (mm st')) (rev (dropped st l))
         (map_free_list (mm st))
    /\ (forall p, covered st (dropped st l) p -> prot_of st' p = 0)
    /\ (forall p, ~ covered st (dropped st l) p -> prot_of st' p = prot_of st p).
Proof.
  intros Hl Hfuel.
  pose proof (reset_blocks_spec n lowb st) as R. cbv zeta in R.
  destruct R as (_ & _ & _ & Rp & Rl & Re & Rf & _).
  set (st0 := reset_blocks n lowb st) in *.
  assert (E0 : forall x, entry st0 x = entry st x)
    by (intros x; unfold entry; now rewrite Re).
  assert (F0 : forall x, start_page (entry st0 x) = start_page (entry st x)
                         /\ end_page (entry st0 x) = end_page (entry st x))
    by (intros x; now rewrite E0).
  destruct (reset_walk_filters l fuel [] None (map_list (mm st0)) st0)
    as (st' & Hrun & Hl' & Hf & _ & Hfl & Hp0 & Hp).
  - reflexivity.
  - rewrite Rl. apply is_seg_frame with (m := mm st); [|exact Hl].
    intros x _. now rewrite Re.
  - cbn [app]. eapply is_seg_NoDup. exact Hl.
  - reflexivity.
  - exact Hfuel.
  - destruct (kept_frame st st0 l F0) as [Kk Kd]. rewrite Kk, Kd in *.
    cbn [app] in Hl'. rewrite Rf in Hfl.
    assert (F : forall x, start_page (entry st' x) = start_page (entry st x)
                          /\ end_page (entry st' x) = end_page (entry st x)).
    { intros x. destruct (Hf x) as [-> ->]. apply F0. }
    exists st'. split; [exact Hrun|]. split; [exact Hl'|].
    split.
    { intros lo Ho. apply ordered_frame with (m := mm st).
      - intros x _. apply F.
      - now apply ordered_filter. }
    split; [exact F|]. split; [exact Hfl|]. split.
    + intros p Hc. apply Hp0. now apply (covered_frame st st0 _ p F0).
    + intros p Hc. rewrite Hp.
      * unfold prot_of. now rewrite Rp.
      * intros H. apply Hc. now apply (covered_frame st st0 _ p F0) in H.
Qed.

(** X22.  mm_reset on a map list that ends in NULL, of any length below
    the fuel: it returns; the list afterwards consists of the entries that
    do not lie wholly inside the main window, in their order (an entry
    that straddles a border of the window stays), and is sorted if it was;
    no entry changes its pages; the entries inside the window are pushed
    on the free list, the last one first; the stored protection of their
    pages is 0 and that of every other page is unchanged. *)
Theorem mm_reset_filters_list (fuel : nat) (st : state) (l : list Z) :
  is_list (mm st) l ->
  (length l < fuel)%nat ->
  exists st',
    mm_reset fuel st = Done st'
    /\ is_list (mm st') (kept st l)
    /\ (forall lo, ordered (mm st) l lo -> ordered (mm st') (kept st l) lo)
    /\ (forall x, start_page (entry st' x) = start_page (entry st x)
                  /\ end_page (entry st' x) = end_page (entry st x))
    /\ is_seg (mm st') (map_free_list (mm st')) (rev (dropped st l))
         (map_free_list (mm st))
    /\ (forall p, covered st (dropped st l) p -> prot_of st' p = 0)
    /\ (forall p, ~ covered st (dropped st l) p -> prot_of st' p = prot_of st p).
Proof.
  intros Hl Hfuel. unfold mm_reset.
  apply mm_reset_walk_after_blocks; assumption.
Qed.

Lemma mm_reset_filters_list_witness :
  exists st',
    mm_reset 4 before_insert = Done st'
    /\ is_list (mm st') (kept before_insert [0; 1; 2])
    /\ (forall lo, ordered (mm before_insert) [0; 1; 2] lo ->
                   ordered (mm st') (kept before_insert [0; 1; 2]) lo)
    /\ (forall x, start_page (entry st' x) = start_page (entry before_insert x)
                  /\ end_page (entry st' x) = end_page (entry before_insert x))
    /\ is_seg (mm st') (map_free_list (mm st'))
         (rev (dropped before_insert [0; 1; 2]))
         (map_free_list (mm before_insert))
    /\ (forall p, covered before_insert (dropped before_insert [0; 1; 2]) p ->
                  prot_of st' p = 0)
    /\ (forall p, ~ covered before_insert (dropped before_insert [0; 1; 2]) p ->
                  prot_of st' p = prot_of before_insert p).
Proof.
  apply (mm_reset_filters_list 4 before_insert [0; 1; 2]).
  - cbn. auto.
  - cbn. lia.
Defined.

Lemma take_answer_ok h a h' :
  take_answer h = (a, h') ->
  all_ok h -> status a = STATUS_SUCCESS /\ all_ok h'.
Proof.
  unfold take_answer, all_ok. destruct (answers h) as [|b rest] eqn:E;
    intros H Hok; inversion H; subst.
  - split; [reflexivity|]. now rewrite E.
  - inversion Hok; subst. split; assumption.
Qed.

Lemma child_bool_ok c st log ok st' log' :
  child_bool c st log = (ok, st', log') ->
  all_ok (os st) -> ok = true /\ all_ok (os st').
Proof.
  unfold child_bool. destruct (take_answer (os st)) as [a h] eqn:E.
  intros H Hok. inversion H; subst.
  destruct (take_answer_ok _ _ _ E Hok) as [-> Hh]. split; [reflexivity|].
  exact Hh.
Qed.

Lemma virtual_protect_ok addr size p st ok st' :
  virtual_protect addr size p st = (ok, st') ->
  all_ok (os st) -> ok = true /\ all_ok (os st').
Proof.
  unfold virtual_protect. destruct (take_answer (os st)) as [a h] eqn:E.
  intros H Hok. inversion H; subst.
  destruct (take_answer_ok _ _ _ E Hok) as [-> Hh]. split; [reflexivity|].
  exact Hh.
Qed.

Lemma fork_sections_ok :
  forall n i st log ok st' log',
    fork_sections n i st log = (ok, st', log') ->
    all_ok (os st) -> ok = true /\ all_ok (os st').
Proof.
  induction n as [|n IH]; intros i st log ok st' log' H Hok;
    cbn [fork_sections] in H.
  - inversion H; subst. auto.
  - destruct (negb (handle_of st i =? 0)); [|eapply IH; eassumption].
    destruct (take_answer (os st)) as [a h] eqn:E.
    destruct (take_answer_ok _ _ _ E Hok) as [Ha Hh].
    rewrite Ha, Z.eqb_refl in H. cbn [negb] in H.
    eapply IH; [exact H|exact Hh].
Qed.

(** The loop over the pages of an entry ends, [last] being below the
    largest 32-bit value. *)
Lemma fork_pages_returns :
  forall fuel j last st log,
    0 <= j -> last < 2 ^ 32 - 1 -> last - j + 2 <= Z.of_nat fuel ->
    (0 < fuel)%nat ->
    exists ok st' log',
      fork_pages fuel j last st log = Done (ok, st', log')
      /\ (all_ok (os st) -> ok = true /\ all_ok (os st')).
Proof.
  induction fuel as [|k IH]; intros j last st log Hj Hlast Hfuel Hpos.
  - lia.
  - cbn [fork_pages]. destruct (Z.leb_spec j last) as [Hle|Hgt].
    2:{ exists true, st, log. auto. }
    destruct (child_bool _ st log) as [[ok1 st1] log1] eqn:E1.
    pose proof (child_bool_ok _ _ _ _ _ _ E1) as O1.
    destruct ok1; cbn [negb].
    2:{ exists false, st1, log1. split; [reflexivity|]. intros Hok.
        destruct (O1 Hok). discriminate. }
    destruct (virtual_protect _ _ _ st1) as [ok2 st2] eqn:E2.
    pose proof (virtual_protect_ok _ _ _ _ _ _ E2) as O2.
    destruct ok2; cbn [negb].
    2:{ exists false, st2, log1. split; [reflexivity|]. intros Hok.
        destruct (O1 Hok) as [_ H1]. destruct (O2 H1). discriminate. }
    rewrite wrap32_small by lia.
    destruct (IH (j + 1) last st2 log1) as (ok & st' & log' & Hrun & O);
      try lia.
    exists ok, st', log'. split; [exact Hrun|]. intros Hok.
    apply O. destruct (O1 Hok) as [_ H1]. destruct (O2 H1) as [_ H2].
    exact H2.
Qed.

Lemma fork_entries_returns :
  forall l fuel e st log,
    is_seg (mm st) e l None ->
    (forall i, In i l ->
       0 <= start_page (entry st i) /\ end_page (entry st i) < 2 ^ 32 - 1
       /\ end_page (entry st i) - start_page (entry st i)
          + Z.of_nat (length l) + 2 <= Z.of_nat fuel) ->
    (length l < fuel)%nat ->
    exists ok st' log',
      fork_entries fuel e st log = Done (ok, st', log')
      /\ (all_ok (os st) -> ok = true).
Proof.
  induction l as [|i l IH]; intros fuel e st log Hseg Hb Hfuel.
  - destruct fuel as [|k]; [cbn in Hfuel; lia|]. cbn [is_seg] in Hseg.
    subst e. exists true, st, log. auto.
  - destruct fuel as [|k]; [cbn in Hfuel; lia|]. cbn [is_seg] in Hseg.
    destruct Hseg as [-> Hseg]. cbn [fork_entries].
    destruct (Hb i ltac:(now left)) as (B1 & B2 & B3).
    destruct (fork_pages_returns k (start_page (entry st i))
                (end_page (entry st i)) st log)
      as (ok1 & st1 & log1 & Hrun1 & O1);
      try (cbn [length] in B3, Hfuel; lia).
    rewrite Hrun1. cbn [obind].
    apply fork_pages_step in Hrun1. destruct Hrun1 as [(M1 & _) _].
    destruct ok1; cbn [negb].
    2:{ exists false, st1, log1. split; [reflexivity|]. intros Hok.
        destruct (O1 Hok). discriminate. }
    destruct (IH k (next (entry st1 i)) st1 log1)
      as (ok & st' & log' & Hrun & O).
    + unfold entry. rewrite M1. exact Hseg.
    + intros x Hx. unfold entry. rewrite M1.
      destruct (Hb x ltac:(now right)) as (C1 & C2 & C3).
      cbn [length] in C3. unfold entry in *. lia.
    + cbn [length] in Hfuel. lia.
    + exists ok, st', log'. split; [exact Hrun|]. intros Hok.
      apply O. now destruct (O1 Hok).
Qed.

(** X23.  mm_fork returns on a map list that ends in NULL whose entries
    end below the largest 32-bit page number (the page loop counts in 32
    bits), given the fuel for the longest entry; and it returns 1 when
    every answer left in the host's script reports success. *)
Theorem mm_fork_returns (fuel : nat) (st : state) (l : list Z) :
  is_list (mm st) l ->
  (forall i, In i l ->
     0 <= start_page (entry st i) /\ end_page (entry st i) < 2 ^ 32 - 1
     /\ end_page (entry st i) - start_page (entry st i)
        + Z.of_nat (length l) + 2 <= Z.of_nat fuel) ->
  (length l < fuel)%nat ->
  exists r st' log,
    mm_fork fuel st = Done (r, st', log)
    /\ (all_ok (os st) -> r = 1).
Proof.
  intros Hl Hb Hfuel. unfold mm_fork.
  generalize (Z.to_nat BLOCK_COUNT). intros n.
  destruct (child_bool VirtualAllocEx st []) as [[ok1 st1] log1] eqn:E1.
  pose proof (child_bool_ok _ _ _ _ _ _ E1) as O1.
  apply child_bool_step in E1; [|intros b; exact I].
  destruct E1 as [(M1 & _) _].
  destruct ok1; cbn [negb].
  2:{ do 3 eexists. split; [reflexivity|]. intros Hok.
      destruct (O1 Hok). discriminate. }
  destruct (child_bool WriteProcessMemory st1 log1) as [[ok2 st2] log2] eqn:E2.
  pose proof (child_bool_ok _ _ _ _ _ _ E2) as O2.
  apply child_bool_step in E2; [|intros b; exact I].
  destruct E2 as [(M2 & _) _].
  destruct ok2; cbn [negb].
  2:{ do 3 eexists. split; [reflexivity|]. intros Hok.
      destruct (O1 Hok) as [_ H1]. destruct (O2 H1). discriminate. }
  destruct (fork_sections n 0 st2 log2) as [[ok3 st3] log3] eqn:E3.
  pose proof (fork_sections_ok _ _ _ _ _ _ _ E3) as O3.
  apply fork_sections_step in E3. destruct E3 as [(M3 & _) _].
  destruct ok3; cbn [negb].
  2:{ do 3 eexists. split; [reflexivity|]. intros Hok.
      destruct (O1 Hok) as [_ H1]. destruct (O2 H1) as [_ H2].
      destruct (O3 H2). discriminate. }
  assert (M : mm st3 = mm st) by congruence.
  destruct (fork_entries_returns l fuel (map_list (mm st3)) st3 log3)
    as (ok & st' & log' & Hrun & O).
  - rewrite M. exact Hl.
  - intros i Hi. unfold entry. rewrite M. apply Hb. exact Hi.
  - exact Hfuel.
  - rewrite Hrun. cbn [obind]. do 3 eexists. split; [reflexivity|].
    intros Hok. destruct (O1 Hok) as [_ H1]. destruct (O2 H1) as [_ H2].
    destruct (O3 H2) as [_ H3]. now rewrite (O H3).
Qed.

Lemma mm_fork_returns_witness :
  exists r st' log,
    mm_fork 10 four_pages = Done (r, st', log)
    /\ (all_ok (os four_pages) -> r = 1).
Proof.
  apply (mm_fork_returns 10 four_pages [0]).
  - cbn. auto.
  - intros i [<- | []]. cbn. lia.
  - cbn. lia.
Defined.

End MMExtra.

Module BrkFacts.
Import MM MMFacts MMExtra.

(** ** sys_brk on growth *)

(** A fixed anonymous mm_mmap that returns its page-aligned address passed
    every check, and the pages of its range hold the protection. *)
Lemma mm_mmap_fixed_anon_success HB MH fuel a len prot f off st st' :
  mm_mmap HB MH fuel a len prot FIXED_ANON f off st = Done (a, st') ->
  a mod PAGE_SIZE = 0 ->
  len <> 0
  /\ bad_range a (ALIGN_TO_PAGE len) = false
  /\ brk (mm st') = brk (mm st)
  /\ (forall p, GET_PAGE a <= p
                <= GET_PAGE (wrap32 (a + ALIGN_TO_PAGE len - 1)) ->
        prot_of st' p = wrap8 prot)
  /\ (forall p, ~ GET_PAGE a <= p
                  <= GET_PAGE (wrap32 (a + ALIGN_TO_PAGE len - 1)) ->
        prot_of st' p = prot_of st p).
Proof.
  destruct ERRP_unaligned as (U1 & U2 & U3).
  unfold mm_mmap. intros H Ha.
  destruct (Z.eqb_spec len 0) as [Hz|Hnz];
    [inversion H; subst; contradiction|].
  destruct (bad_range a (ALIGN_TO_PAGE len)) eqn:Hb;
    [inversion H; subst; contradiction|].
  repeat match type of H with
         | (if ?c then Done (ERRP _, _) else _) = _ =>
             destruct c; [inversion H; subst; contradiction|]
         end.
  unfold choose_address in H.
  change (has_flag FIXED_ANON MAP_FIXED) with true in H.
  cbn [negb obind andb] in H.
  destruct (negb (IS_ALIGNED a PAGE_SIZE));
    [inversion H; subst; contradiction|].
  assert (Hne : a <> ERRP ENOMEM) by (intros E; rewrite E in Ha; contradiction).
  destruct (mm_mmap_at_success _ _ _ _ _ _ _ _ _ _ H Hne)
    as (_ & Hbrk & Hin & Hout).
  change (has_flag FIXED_ANON MAP_ANONYMOUS) with true in Hin.
  cbn [negb] in Hin.
  repeat match goal with |- _ /\ _ => split end; auto.
Qed.

Lemma ALIGN_TO_PAGE_le_aligned old X :
  0 <= old -> old < X -> X mod PAGE_SIZE = 0 -> 0 <= X < 2 ^ 32 ->
  ALIGN_TO_PAGE old <= X.
Proof.
  intros H0 Hlt HX Hr. unfold PAGE_SIZE in HX.
  pose proof (Z.div_mod X 4096 ltac:(lia)) as Hd. rewrite HX in Hd.
  rewrite ALIGN_TO_PAGE_spec by lia. unfold PAGE_SIZE.
  assert ((old + 4096 - 1) / 4096 < X / 4096 + 1); [|lia].
  apply Z.div_lt_upper_bound; lia.
Qed.

(** C6, as amended.  mm_update_brk(b) sets the break to the maximum of the
    current break and b.  A sys_brk whose page-rounded request does not
    exceed the break returns the break and leaves the whole state, and so
    every mapping, as it was; after any completed sys_brk the break is not
    below the break before the call.  On growth, when the fixed anonymous
    mapping of the range from the old break, rounded up to a page, to the
    rounded request succeeds, sys_brk returns the rounded request and
    stores it as the break, every page of that range is readable, writable
    and executable, and the stored protection of every other page is as
    before.  For sys_brk(x) then sys_brk(y) with 0 <= y < x <= 0xFFFFF000,
    where the first call does not grow the break or its mapping succeeds,
    the break after the first call is the maximum of the break before it
    and the rounded x, and the second call returns that break and leaves
    the state as the first call left it. *)
Theorem sys_brk_monotone (HEAP_BASE MAP_HEAP : Z) (vfs_get : Z -> Z)
    (fuel : nat) (x : Z) (st : state) :
  let old := brk (mm st) in
  let X := ALIGN_TO_PAGE x in
  let A := ALIGN_TO_PAGE old in
  let growth :=
    mm_mmap HEAP_BASE MAP_HEAP fuel A (wrap32 (X - A))
      (Z.lor (Z.lor PROT_READ PROT_WRITE) PROT_EXEC) FIXED_ANON
      (vfs_get (-1)) 0 st in
  (forall b,
     mm_update_brk b st = set_brk (Z.max old b) st
     /\ brk (mm (mm_update_brk b st)) = Z.max old b)
  /\ (X <= old ->
      sys_brk HEAP_BASE MAP_HEAP vfs_get fuel x st = Done (old, st))
  /\ (forall r st1,
        sys_brk HEAP_BASE MAP_HEAP vfs_get fuel x st = Done (r, st1) ->
        old <= brk (mm st1))
  /\ (0 <= old -> old < X ->
      forall s,
        growth = Done (A, s) ->
        sys_brk HEAP_BASE MAP_HEAP vfs_get fuel x st
        = Done (X, set_brk X s)
        /\ brk (mm (set_brk X s)) = Z.max old X
        /\ (forall p, A <= p * PAGE_SIZE < X ->
              prot_of (set_brk X s) p
              = Z.lor (Z.lor PROT_READ PROT_WRITE) PROT_EXEC)
        /\ (forall p, ~ A <= p * PAGE_SIZE < X ->
              prot_of (set_brk X s) p = prot_of st p))
  /\ (forall r st1 fuel' y,
        sys_brk HEAP_BASE MAP_HEAP vfs_get fuel x st = Done (r, st1) ->
        X <= old \/ (0 <= old /\ exists s, growth = Done (A, s)) ->
        0 <= y < x -> x <= 0xFFFFF000 ->
        brk (mm st1) = Z.max old X
        /\ sys_brk HEAP_BASE MAP_HEAP vfs_get fuel' y st1
           = Done (brk (mm st1), st1)).
Proof.
  intros old X A growth.
  pose proof (ALIGN_TO_PAGE_range x) as HX. fold X in HX.
  pose proof (ALIGN_TO_PAGE_aligned x) as HXa. fold X in HXa.
  pose proof (ALIGN_TO_PAGE_range old) as HA. fold A in HA.
  pose proof (ALIGN_TO_PAGE_aligned old) as HAa. fold A in HAa.
  assert (Hshrink : forall fuel0 y s,
             ALIGN_TO_PAGE y <= brk (mm s) ->
             sys_brk HEAP_BASE MAP_HEAP vfs_get fuel0 y s
             = Done (brk (mm s), s)).
  { intros fuel0 y s Hle. unfold sys_brk.
    destruct (ALIGN_TO_PAGE y >? brk (mm s)) eqn:Hgt; [zbool; lia|].
    reflexivity. }
  assert (Hcall : old < X ->
            sys_brk HEAP_BASE MAP_HEAP vfs_get fuel x st
            = ('(r, s) <- growth ;;
               if r <? 0 then Done (ERRP ENOMEM, s)
               else Done (X, set_brk X s))).
  { intros Hlt. unfold sys_brk, sys_mmap. fold old. fold X. fold A.
    destruct (X >? old) eqn:Hgt; [|zbool; lia].
    change (IS_ALIGNED 0 PAGE_SIZE) with true. cbn [negb].
    change (Z.quot 0 PAGE_SIZE) with 0.
    change (Z.lor (Z.lor MAP_FIXED MAP_ANONYMOUS) MAP_PRIVATE) with FIXED_ANON.
    reflexivity. }
  assert (Hgrow : old < X -> forall s, growth = Done (A, s) ->
            sys_brk HEAP_BASE MAP_HEAP vfs_get fuel x st
            = Done (X, set_brk X s)).
  { intros Hlt s Hg. rewrite (Hcall Hlt), Hg. cbn [obind].
    destruct (A <? 0) eqn:Hneg; [zbool; lia|]. reflexivity. }
  split; [intros b; split; reflexivity|].
  split; [intros Hle; now apply Hshrink|].
  split.
  { intros r st1 Hrun.
    destruct (Z_lt_le_dec old X) as [Hlt|Hle].
    - rewrite (Hcall Hlt) in Hrun.
      destruct growth as [[r0 s0]| |] eqn:E; cbn [obind] in Hrun;
        try discriminate.
      unfold growth in E. apply mm_mmap_result_nonneg in E; [|lia].
      destruct (r0 <? 0) eqn:Hneg; [zbool; lia|].
      inversion Hrun; subst. simpl. lia.
    - rewrite (Hshrink fuel x st Hle) in Hrun. inversion Hrun; subst.
      fold old. lia. }
  split.
  { intros H0 Hlt s Hg. split; [now apply Hgrow|].
    split; [simpl; lia|].
    assert (HAX : A <= X) by (now apply ALIGN_TO_PAGE_le_aligned).
    unfold growth in Hg. rewrite (wrap32_small (X - A)) in Hg by lia.
    apply mm_mmap_fixed_anon_success in Hg; [|exact HAa].
    destruct Hg as (Hlen & Hbad & _ & Hin & Hout).
    assert (HltA : A < X) by lia.
    assert (Hal : ALIGN_TO_PAGE (X - A) = X - A).
    { pose proof (Z.div_mod X 4096 ltac:(lia)) as Hd1.
      pose proof (Z.div_mod A 4096 ltac:(lia)) as Hd2.
      unfold PAGE_SIZE in HXa, HAa. rewrite HXa in Hd1. rewrite HAa in Hd2.
      rewrite ALIGN_TO_PAGE_spec by lia. unfold PAGE_SIZE.
      replace (X - A + 4096 - 1)
        with ((X / 4096 - A / 4096) * 4096 + 4095) by lia.
      rewrite Z.div_add_l by lia. change (4095 / 4096) with 0. lia. }
    assert (Hlen' : 0 < X - A <= 0x80000000).
    { split; [lia|]. rewrite Hal in Hbad.
      destruct (Z_le_gt_dec (X - A) 0x80000000) as [|Hgt]; [assumption|].
      assert (Hb : bad_range A (X - A) = true).
      { apply bad_range_spec; [lia|lia|]. unfold ADDRESS_SPACE_HIGH. lia. }
      congruence. }
    destruct (munmap_page_range A (X - A) (IS_ALIGNED_true A HAa) Hlen' Hbad)
      as (_ & Hpages).
    replace (A + (X - A)) with X in Hpages by lia.
    split.
    - intros p Hp. unfold prot_of in *. simpl. rewrite Hin.
      + vm_compute. reflexivity.
      + now apply Hpages.
    - intros p Hp. unfold prot_of in *. simpl. apply Hout.
      intros Hc. apply Hp. now apply Hpages. }
  intros r st1 fuel' y Hrun Hok Hy Hx.
  assert (Hb : brk (mm st1) = Z.max old X).
  { destruct Hok as [Hle | (H0 & s & Hg)].
    - rewrite (Hshrink fuel x st Hle) in Hrun. inversion Hrun; subst.
      fold old. lia.
    - destruct (Z_lt_le_dec old X) as [Hlt|Hle].
      + rewrite (Hgrow Hlt s Hg) in Hrun. inversion Hrun; subst. simpl. lia.
      + rewrite (Hshrink fuel x st Hle) in Hrun. inversion Hrun; subst.
        fold old. lia. }
  split; [exact Hb|]. apply Hshrink. rewrite Hb.
  pose proof (ALIGN_TO_PAGE_mono x y ltac:(lia) Hx) as Hm. fold X in Hm. lia.
Qed.

Lemma sys_brk_monotone_witness :
  let st0 := mm_update_brk 0x10000000 (mm_init []) in
  let s := state_after
             (mm_mmap 0 0 FUEL 0x10000000 0x2000
                (Z.lor (Z.lor PROT_READ PROT_WRITE) PROT_EXEC) FIXED_ANON 0 0
                st0) st0 in
  let st1 := set_brk 0x10002000 s in
  sys_brk 0 0 (fun _ => 0) FUEL 0x0F000000 st0 = Done (0x10000000, st0)
  /\ sys_brk 0 0 (fun _ => 0) FUEL 0x10001800 st0 = Done (0x10002000, st1)
  /\ prot_of st1 0x10000 = 7 /\ prot_of st1 0x10001 = 7
  /\ prot_of st1 0x10002 = prot_of st0 0x10002
  /\ brk (mm st1) = 0x10002000
  /\ sys_brk 0 0 (fun _ => 0) FUEL 0x10000800 st1 = Done (0x10002000, st1).
Proof.
  intros st0 s st1.
  assert (Hg : mm_mmap 0 0 FUEL (ALIGN_TO_PAGE (brk (mm st0)))
                 (wrap32 (ALIGN_TO_PAGE 0x10001800
                          - ALIGN_TO_PAGE (brk (mm st0))))
                 (Z.lor (Z.lor PROT_READ PROT_WRITE) PROT_EXEC) FIXED_ANON
                 ((fun _ : Z => 0) (-1)) 0 st0
               = Done (ALIGN_TO_PAGE (brk (mm st0)), s))
    by (vm_compute; reflexivity).
  split.
  - destruct (sys_brk_monotone 0 0 (fun _ => 0) FUEL 0x0F000000 st0)
      as (_ & H & _).
    apply H. vm_compute. discriminate.
  - destruct (sys_brk_monotone 0 0 (fun _ => 0) FUEL 0x10001800 st0)
      as (_ & _ & _ & H4 & H5).
    destruct (H4 ltac:(vm_compute; discriminate) ltac:(vm_compute; reflexivity)
                s Hg) as (Hrun & _ & Hin & Hout).
    change (ALIGN_TO_PAGE 0x10001800) with 0x10002000 in *.
    change (ALIGN_TO_PAGE (brk (mm st0))) with 0x10000000 in *.
    fold st1 in Hrun, Hin, Hout.
    split; [exact Hrun|].
    split; [apply Hin; vm_compute; split; [discriminate|reflexivity]|].
    split; [apply Hin; vm_compute; split; [discriminate|reflexivity]|].
    split; [apply Hout; vm_compute; intros [_ Hc]; discriminate Hc|].
    destruct (H5 0x10002000 st1 FUEL 0x10000800 Hrun) as (Hb & Hs).
    + right. split; [vm_compute; discriminate|]. exists s. exact Hg.
    + lia.
    + lia.
    + split; [reflexivity|]. exact Hs.
Defined.

End BrkFacts.

Module DBTExtra.
Import MM DBT MMFacts DBTFacts.

(** ** Further properties of the translator *)

(** ** Bytes and double words *)

Lemma wrap8_range x : 0 <= wrap8 x < 256.
Proof. unfold wrap8. apply Z.mod_pos_bound. lia. Qed.

Lemma wrap8_small x : 0 <= x < 256 -> wrap8 x = x.
Proof. intros H. unfold wrap8. apply Z.mod_small. lia. Qed.

Lemma wrap8_idem x : wrap8 (wrap8 x) = wrap8 x.
Proof. apply wrap8_small, wrap8_range. Qed.

Lemma byte_fields b :
  0 <= b < 256 ->
  0 <= GET_MODRM_MOD b < 4 /\ is_reg (GET_MODRM_R b) /\ is_reg (GET_MODRM_RM b)
  /\ 0 <= GET_SIB_SCALE b < 4 /\ is_reg (GET_SIB_INDEX b)
  /\ is_reg (GET_SIB_BASE b).
Proof.
  intros Hb.
  unfold GET_MODRM_MOD, GET_MODRM_R, GET_MODRM_RM, GET_SIB_SCALE,
    GET_SIB_INDEX, GET_SIB_BASE, is_reg.
  change 7 with (Z.ones 3). rewrite !Z.land_ones by lia.
  rewrite !Z.shiftr_div_pow2 by lia.
  change (2 ^ 6) with 64. change (2 ^ 3) with 8.
  assert (0 <= b / 64 < 4)
    by (split; [apply Z.div_pos; lia|apply Z.div_lt_upper_bound; lia]).
  pose proof (Z.mod_pos_bound (b / 8) 8 ltac:(lia)).
  pose proof (Z.mod_pos_bound b 8 ltac:(lia)).
  rewrite (Z.mod_small (b / 64) 8) by lia. lia.
Qed.

Lemma dword_bytes_value x :
  let l := dword_bytes x in
  nth 0 l 0 + 2 ^ 8 * nth 1 l 0 + 2 ^ 16 * nth 2 l 0 + 2 ^ 24 * nth 3 l 0
  = wrap32 x
  /\ Forall (fun b => 0 <= b < 256) l.
Proof.
  unfold dword_bytes. cbn [nth].
  pose proof (wrap32_range x) as Hr. set (w := wrap32 x) in *.
  change (2 ^ 8) with 256. change (2 ^ 16) with 65536.
  change (2 ^ 24) with 16777216. change (2 ^ 32) with 4294967296 in Hr.
  split.
  - pose proof (Z.div_mod w 256 ltac:(lia)).
    pose proof (Z.div_mod (w / 256) 256 ltac:(lia)).
    pose proof (Z.div_mod (w / 256 / 256) 256 ltac:(lia)).
    replace (w / 65536) with (w / 256 / 256) by (rewrite Z.div_div by lia; reflexivity).
    replace (w / 16777216) with (w / 256 / 256 / 256)
      by (rewrite !Z.div_div by lia; reflexivity).
    assert (0 <= w / 256 / 256 / 256 < 256).
    { split; [repeat apply Z.div_pos; lia|].
      repeat apply Z.div_lt_upper_bound; lia. }
    rewrite (Z.mod_small (w / 256 / 256 / 256) 256) by lia.
    lia.
  - repeat constructor; apply Z.mod_pos_bound; lia.
Qed.

Lemma sext32_wrap32 x : - 2 ^ 31 <= x < 2 ^ 31 -> sext 32 (wrap32 x) = x.
Proof.
  intros H. unfold sext. change (32 - 1) with 31.
  destruct (Z_lt_ge_dec x 0) as [Hn|Hp].
  - assert (Hw : wrap32 x = x + 2 ^ 32).
    { unfold wrap32. symmetry. apply Z.mod_unique with (q := -1); lia. }
    rewrite Hw. destruct (Z.ltb_spec (x + 2 ^ 32) (2 ^ 31)); lia.
  - rewrite wrap32_small by lia.
    destruct (Z.ltb_spec x (2 ^ 31)); lia.
Qed.

Lemma sext_range bits x :
  0 < bits -> 0 <= x < 2 ^ bits ->
  - 2 ^ (bits - 1) <= sext bits x < 2 ^ (bits - 1).
Proof.
  intros Hb Hx. unfold sext.
  assert (2 ^ bits = 2 * 2 ^ (bits - 1)).
  { replace bits with (1 + (bits - 1)) at 1 by lia.
    rewrite Z.pow_add_r by lia. reflexivity. }
  destruct (Z.ltb_spec x (2 ^ (bits - 1))); lia.
Qed.

Lemma sext_congr bits x : 0 < bits -> (sext bits x) mod 2 ^ bits = x mod 2 ^ bits.
Proof.
  intros Hb. unfold sext. destruct (x <? 2 ^ (bits - 1)); [reflexivity|].
  replace (x - 2 ^ bits) with (x + (-1) * 2 ^ bits) by lia.
  apply Z.mod_add. apply Z.pow_nonzero; lia.
Qed.

(** Adding the relative displacement to the address behind the branch
    gives the destination. *)
Lemma branch_target_rel next_ins dest :
  branch_target next_ins (sext 32 (wrap32 (dest - next_ins))) = wrap32 dest.
Proof.
  unfold branch_target, wrap32.
  rewrite <- Z.add_mod_idemp_r by lia.
  rewrite (sext_congr 32) by lia.
  rewrite Z.mod_mod by lia.
  rewrite Z.add_mod_idemp_r by lia.
  f_equal. lia.
Qed.

(** ** Memory that holds emitted bytes *)

Lemma holds_app mem a l1 l2 :
  holds mem a (l1 ++ l2) ->
  holds mem a l1 /\ holds mem (a + Z.of_nat (length l1)) l2.
Proof.
  intros H. split.
  - intros i Hi. rewrite (H i) by (rewrite length_app; lia).
    now rewrite app_nth1.
  - intros i Hi. 
    replace (a + Z.of_nat (length l1) + Z.of_nat i)
      with (a + Z.of_nat (length l1 + i)) by lia.
    rewrite (H (length l1 + i)%nat) by (rewrite length_app; lia).
    rewrite app_nth2 by lia. f_equal. lia.
Qed.

Lemma holds_cons mem a b l :
  holds mem a (b :: l) -> mem a = b /\ holds mem (a + 1) l.
Proof.
  intros H. split.
  - specialize (H O ltac:(simpl; lia)). simpl in H.
    now rewrite Z.add_0_r in H.
  - intros i Hi. specialize (H (S i) ltac:(simpl; lia)).
    replace (a + 1 + Z.of_nat i) with (a + Z.of_nat (S i)) by lia.
    exact H.
Qed.

Lemma parse_byte_holds mem a b l :
  holds mem a (b :: l) -> 0 <= b < 256 ->
  parse_byte mem a = (b, a + 1) /\ holds mem (a + 1) l.
Proof.
  intros H Hb. apply holds_cons in H. destruct H as [H1 H2].
  unfold parse_byte. rewrite H1, wrap8_small by lia. auto.
Qed.

Lemma parse_dword_holds mem a x l :
  holds mem a (dword_bytes x ++ l) ->
  parse_dword mem a = (wrap32 x, a + 4) /\ holds mem (a + 4) l.
Proof.
  intros H. apply holds_app in H. destruct H as [H1 H2].
  split; [|exact H2].
  pose proof (dword_bytes_value x) as [V F]. cbv zeta in V.
  unfold parse_dword.
  pose proof (H1 0%nat ltac:(simpl; lia)) as E0.
  pose proof (H1 1%nat ltac:(simpl; lia)) as E1.
  pose proof (H1 2%nat ltac:(simpl; lia)) as E2.
  pose proof (H1 3%nat ltac:(simpl; lia)) as E3.
  change (a + Z.of_nat 0) with (a + 0) in E0. rewrite Z.add_0_r in E0.
  change (Z.of_nat 1) with 1 in E1. change (Z.of_nat 2) with 2 in E2.
  change (Z.of_nat 3) with 3 in E3.
  rewrite E0, E1, E2, E3.
  assert (Hb : forall i, (i < 4)%nat -> 0 <= nth i (dword_bytes x) 0 < 256).
  { intros i Hi. rewrite Forall_forall in F. apply F. apply nth_In.
    simpl. lia. }
  rewrite !wrap8_small by (apply Hb; lia).
  now rewrite V.
Qed.

(** ** parse_modrm *)

Lemma parse_dword_range mem a : 0 <= fst (parse_dword mem a) < 2 ^ 32.
Proof.
  unfold parse_dword. cbn [fst].
  pose proof (wrap8_range (mem a)). pose proof (wrap8_range (mem (a + 1))).
  pose proof (wrap8_range (mem (a + 2))). pose proof (wrap8_range (mem (a + 3))).
  change (2 ^ 8) with 256. change (2 ^ 16) with 65536.
  change (2 ^ 24) with 16777216. change (2 ^ 32) with 4294967296. lia.
Qed.

Lemma parse_disp_spec mem code mod_ :
  - 2 ^ 31 <= fst (parse_disp mem code mod_) < 2 ^ 31
  /\ code <= snd (parse_disp mem code mod_) <= code + 4.
Proof.
  unfold parse_disp.
  destruct (mod_ =? 1).
  - unfold parse_byte. cbn [fst snd].
    pose proof (sext_range 8 (wrap8 (mem code)) ltac:(lia) (wrap8_range _)).
    change (2 ^ (8 - 1)) with 128 in *. lia.
  - destruct (mod_ =? 2).
    + pose proof (parse_dword_range mem code) as Hr.
      destruct (parse_dword mem code) as [x c] eqn:E. cbn [fst snd] in *.
      pose proof (sext_range 32 x ltac:(lia) Hr).
      change (32 - 1) with 31 in *.
      unfold parse_dword in E. inversion E; subst. lia.
    + cbn [fst snd]. lia.
Qed.

Lemma parse_modrm_yields mem code rm0 :
  is_reg (fst (fst (parse_modrm mem code rm0)))
  /\ operand_ok (snd (fst (parse_modrm mem code rm0)))
  /\ code + 1 <= snd (parse_modrm mem code rm0) <= code + 6.
Proof.
  unfold parse_modrm, parse_byte.
  pose proof (byte_fields _ (wrap8_range (mem code)))
    as (Hmod & Hr & Hrm & _).
  set (b := wrap8 (mem code)) in *.
  destruct (Z.eqb_spec (GET_MODRM_MOD b) 3) as [H3|H3].
  { cbn [fst snd]. split; [exact Hr|]. split; [|lia]. left.
    cbn [flags base index scale disp]. auto. }
  destruct (Z.eqb_spec (GET_MODRM_RM b) 4) as [H4|H4].
  - pose proof (byte_fields _ (wrap8_range (mem (code + 1))))
      as (_ & _ & _ & Hs & Hi & Hb).
    set (s := wrap8 (mem (code + 1))) in *.
    set (bm := if (GET_SIB_BASE s =? 5) && (GET_MODRM_MOD b =? 0)
               then (-1, 2) else (GET_SIB_BASE s, GET_MODRM_MOD b)).
    assert (Hbm : fst bm = -1 \/ is_reg (fst bm))
      by (unfold bm; destruct (_ && _); cbn; auto).
    destruct bm as [base_ mod2]. cbn [fst] in Hbm.
    pose proof (parse_disp_spec mem (code + 1 + 1) mod2) as [Hd Hc].
    destruct (parse_disp mem (code + 1 + 1) mod2) as [d c].
    cbn [fst snd] in *.
    split; [exact Hr|]. split; [|lia]. right. cbn [flags base index scale disp].
    split; [reflexivity|]. split; [exact Hbm|]. split; [|lia].
    destruct (Z.eqb_spec (GET_SIB_INDEX s) 4); [now left|right].
    split; assumption.
  - destruct ((GET_MODRM_MOD b =? 0) && (GET_MODRM_RM b =? 5)).
    + pose proof (parse_dword_range mem (code + 1)) as Hr32.
      destruct (parse_dword mem (code + 1)) as [x c] eqn:E.
      cbn [fst] in Hr32.
      pose proof (sext_range 32 x ltac:(lia) Hr32).
      change (32 - 1) with 31 in *.
      unfold parse_dword in E. inversion E; subst. cbn [fst snd].
      split; [exact Hr|]. split; [|lia]. right. cbn [flags base index scale disp].
      split; [reflexivity|]. split; [auto|]. split; [auto|]. lia.
    + pose proof (parse_disp_spec mem (code + 1) (GET_MODRM_MOD b)) as [Hd Hc].
      destruct (parse_disp mem (code + 1) (GET_MODRM_MOD b)) as [d c].
      cbn [fst snd] in *.
      split; [exact Hr|]. split; [|lia]. right. cbn [flags base index scale disp].
      split; [reflexivity|]. split; [auto|]. split; [auto|]. lia.
Qed.

(** X8.  Whatever bytes the guest memory holds, parse_modrm yields a
    register number below 8 and an operand that is either a register
    (base below 8, no index) or a memory operand whose base and index are
    absent or below 8, whose index is never the stack pointer, whose scale
    is below 4 and whose displacement is a signed 32-bit value; it
    consumes between one and six bytes. *)
Theorem parse_modrm_operand_ok (mem : memory) (code : Z) (rm0 : modrm_rm_t) :
  let '(r_, rm_, code') := parse_modrm mem code rm0 in
  is_reg r_ /\ operand_ok rm_ /\ code + 1 <= code' <= code + 6.
Proof.
  pose proof (parse_modrm_yields mem code rm0) as H.
  destruct (parse_modrm mem code rm0) as [[r_ rm_] code'].
  exact H.
Qed.

(** ** gen_modrm_sib, read back *)

Lemma gen_modrm_sib_app out r_ rm_ :
  gen_modrm_sib out r_ rm_
  = (out ++ fst (gen_modrm_sib [] r_ rm_), snd (gen_modrm_sib [] r_ rm_)).
Proof.
  unfold gen_modrm_sib, gen_dword, gen_sib, gen_modrm, gen_byte.
  repeat match goal with
         | |- context [if ?c then _ else _] => destruct c
         end; cbn [fst snd app]; rewrite <- ?app_assoc;
    try reflexivity.
  now rewrite app_nil_r.
Qed.

Ltac solve_same :=
  unfold same_operand; cbn [flags base index scale disp];
  split; [congruence|]; split; [congruence|]; split; [congruence|];
  intros ?;
  first [congruence
        |split; [reflexivity|intros ?; first [congruence|reflexivity]]].

Lemma parse_modrm_gen_nil mem a r_ rm_ rm0 :
  is_reg r_ -> operand_ok rm_ ->
  holds mem a (fst (gen_modrm_sib [] r_ rm_)) ->
  snd (gen_modrm_sib [] r_ rm_) = false
  /\ exists rm',
       parse_modrm mem a rm0
       = (r_, rm', a + Z.of_nat (length (fst (gen_modrm_sib [] r_ rm_))))
       /\ same_operand rm_ rm'.
Proof.
  intros Hr Hok. unfold operand_ok, is_reg in *.
  unfold gen_modrm_sib, gen_dword, gen_sib, gen_modrm, gen_byte.
  cbn [app].
  destruct Hok as [(Hf & Hb & Hi) | (Hf & Hb & Hi & Hs & Hd)].
  - (* a register *)
    rewrite Hf, Z.eqb_refl. cbn [fst snd length]. intros Hm.
    destruct (modrm_fields 3 r_ (base rm_)) as (_ & A & B & C); try lia.
    cbv zeta in A, B, C.
    apply parse_byte_holds in Hm; [|apply wrap8_range].
    destruct Hm as [Hp _].
    split; [reflexivity|]. unfold parse_modrm. rewrite Hp.
    unfold GET_MODRM_MOD, GET_MODRM_R, GET_MODRM_RM. rewrite A, B, C.
    cbn [Z.eqb Pos.eqb]. eexists. split; [reflexivity|].
    solve_same.
  - rewrite Hf. change (0 =? MODRM_PURE_REGISTER) with false.
    assert (Hi4 : (index rm_ =? 4) = false)
      by (apply Z.eqb_neq; destruct Hi as [-> | [_ H]]; [discriminate|exact H]).
    rewrite Hi4.
    destruct (Z.eqb_spec (base rm_) (-1)) as [Hb1|Hb1];
      destruct (Z.eqb_spec (index rm_) (-1)) as [Hi1|Hi1];
      cbn [andb orb negb].
    + (* disp32 only *)
      cbn [fst snd]. intros Hm.
      destruct (modrm_fields 0 r_ 5) as (_ & A & B & C); try lia.
      cbv zeta in A, B, C.
      apply parse_byte_holds in Hm; [|apply wrap8_range].
      destruct Hm as [Hp Hm].
      rewrite <- (app_nil_r (dword_bytes (disp rm_))) in Hm.
      apply parse_dword_holds in Hm. destruct Hm as [Hq _].
      split; [reflexivity|]. unfold parse_modrm. rewrite Hp.
      unfold GET_MODRM_MOD, GET_MODRM_R, GET_MODRM_RM. rewrite A, B, C.
      cbn [Z.eqb Pos.eqb andb]. rewrite Hq.
      rewrite sext32_wrap32 by lia.
      eexists. split; [apply f_equal2; [reflexivity|unfold dword_bytes; cbn [length]; lia]|].
      solve_same.
    + (* index without base *)
      cbn [fst snd]. intros Hm.
      destruct (modrm_fields 0 r_ 4) as (_ & A & B & C); try lia.
      destruct (modrm_fields (scale rm_) (index rm_) 5) as (A' & _ & B' & C');
        try lia.
      cbv zeta in A, B, C, A', B', C'.
      apply parse_byte_holds in Hm; [|apply wrap8_range].
      destruct Hm as [Hp Hm].
      apply parse_byte_holds in Hm; [|apply wrap8_range].
      destruct Hm as [Hp2 Hm].
      rewrite <- (app_nil_r (dword_bytes (disp rm_))) in Hm.
      apply parse_dword_holds in Hm. destruct Hm as [Hq _].
      split; [reflexivity|]. unfold parse_modrm. rewrite Hp.
      unfold GET_MODRM_MOD, GET_MODRM_R, GET_MODRM_RM. rewrite A, B, C.
      cbn [Z.eqb Pos.eqb andb]. rewrite Hp2.
      unfold GET_SIB_SCALE, GET_SIB_INDEX, GET_SIB_BASE. rewrite A', B', C'.
      rewrite Hi4. cbn [Z.eqb Pos.eqb andb].
      unfold parse_disp. cbn [Z.eqb Pos.eqb]. rewrite Hq.
      rewrite sext32_wrap32 by lia.
      eexists. split; [apply f_equal2; [reflexivity|unfold dword_bytes; cbn [length]; lia]|].
      solve_same.
    + (* base alone *)
      destruct (Z.eqb_spec (base rm_) 4) as [Hb4|Hb4]; cbn [orb fst snd];
        intros Hm.
      * (* the stack pointer needs a SIB byte *)
        destruct (modrm_fields 2 r_ 4) as (_ & A & B & C); try lia.
        destruct (modrm_fields (scale rm_) 4 (base rm_)) as (A' & _ & B' & C');
          try lia.
        cbv zeta in A, B, C, A', B', C'.
        apply parse_byte_holds in Hm; [|apply wrap8_range].
        destruct Hm as [Hp Hm].
        apply parse_byte_holds in Hm; [|apply wrap8_range].
        destruct Hm as [Hp2 Hm].
        rewrite <- (app_nil_r (dword_bytes (disp rm_))) in Hm.
        apply parse_dword_holds in Hm. destruct Hm as [Hq _].
        split; [reflexivity|]. unfold parse_modrm. rewrite Hp.
        unfold GET_MODRM_MOD, GET_MODRM_R, GET_MODRM_RM. rewrite A, B, C.
        cbn [Z.eqb Pos.eqb andb]. rewrite Hp2.
        unfold GET_SIB_SCALE, GET_SIB_INDEX, GET_SIB_BASE. rewrite A', B', C'.
        rewrite Hb4. cbn [Z.eqb Pos.eqb andb].
        unfold parse_disp. cbn [Z.eqb Pos.eqb]. rewrite Hq.
        rewrite sext32_wrap32 by lia.
        eexists. split; [apply f_equal2; [reflexivity|unfold dword_bytes; cbn [length]; lia]|].
        solve_same.
      * destruct (modrm_fields 2 r_ (base rm_)) as (_ & A & B & C); try lia.
        cbv zeta in A, B, C.
        apply parse_byte_holds in Hm; [|apply wrap8_range].
        destruct Hm as [Hp Hm].
        rewrite <- (app_nil_r (dword_bytes (disp rm_))) in Hm.
        apply parse_dword_holds in Hm. destruct Hm as [Hq _].
        split; [reflexivity|]. unfold parse_modrm. rewrite Hp.
        unfold GET_MODRM_MOD, GET_MODRM_R, GET_MODRM_RM. rewrite A, B, C.
        cbn [Z.eqb Pos.eqb].
        destruct (Z.eqb_spec (base rm_) 4); [contradiction|].
        cbn [andb].
        unfold parse_disp. cbn [Z.eqb Pos.eqb]. rewrite Hq.
        rewrite sext32_wrap32 by lia.
        eexists. split; [apply f_equal2; [reflexivity|unfold dword_bytes; cbn [length]; lia]|].
        solve_same.
    + (* base and index *)
      rewrite Bool.orb_true_r. cbn [fst snd]. intros Hm.
      destruct (modrm_fields 2 r_ 4) as (_ & A & B & C); try lia.
      destruct (modrm_fields (scale rm_) (index rm_) (base rm_))
        as (A' & _ & B' & C'); try lia.
      cbv zeta in A, B, C, A', B', C'.
      apply parse_byte_holds in Hm; [|apply wrap8_range].
      destruct Hm as [Hp Hm].
      apply parse_byte_holds in Hm; [|apply wrap8_range].
      destruct Hm as [Hp2 Hm].
      rewrite <- (app_nil_r (dword_bytes (disp rm_))) in Hm.
      apply parse_dword_holds in Hm. destruct Hm as [Hq _].
      split; [reflexivity|]. unfold parse_modrm. rewrite Hp.
      unfold GET_MODRM_MOD, GET_MODRM_R, GET_MODRM_RM. rewrite A, B, C.
      cbn [Z.eqb Pos.eqb andb]. rewrite Hp2.
      unfold GET_SIB_SCALE, GET_SIB_INDEX, GET_SIB_BASE. rewrite A', B', C'.
      rewrite Hi4. rewrite Bool.andb_false_r.
      unfold parse_disp. cbn [Z.eqb Pos.eqb]. rewrite Hq.
      rewrite sext32_wrap32 by lia.
      eexists. split; [apply f_equal2; [reflexivity|unfold dword_bytes; cbn [length]; lia]|].
      solve_same.
Qed.

Lemma holds_mem_of origin bytes : holds (mem_of origin bytes) origin bytes.
Proof.
  intros i Hi. unfold mem_of.
  destruct (Z.ltb_spec (origin + Z.of_nat i) origin); [lia|].
  f_equal. lia.
Qed.

(** X9.  For a register below 8 and an operand of the kind parse_modrm
    yields, gen_modrm_sib reports no error, and parse_modrm applied to the
    bytes it wrote reads the same register and the same operand back
    (equal base, index and displacement, and equal scale where there is an
    index), ending exactly behind them. *)
Theorem parse_modrm_reads_back (mem : memory) (origin : Z) (out : list Z)
    (r_ : Z) (rm_ rm0 : modrm_rm_t) :
  is_reg r_ -> operand_ok rm_ ->
  holds mem origin (fst (gen_modrm_sib out r_ rm_)) ->
  snd (gen_modrm_sib out r_ rm_) = false
  /\ exists rm',
       parse_modrm mem (cursor origin out) rm0
       = (r_, rm', cursor origin (fst (gen_modrm_sib out r_ rm_)))
       /\ same_operand rm_ rm'.
Proof.
  intros Hr Hok. rewrite gen_modrm_sib_app. cbn [fst snd]. intros Hm.
  apply holds_app in Hm. destruct Hm as [_ Hm].
  destruct (parse_modrm_gen_nil mem (origin + Z.of_nat (length out)) r_ rm_ rm0
              Hr Hok Hm) as (He & rm' & Hp & Hs).
  split; [exact He|]. exists rm'. split; [|exact Hs].
  unfold cursor. rewrite Hp. f_equal. rewrite length_app. lia.
Qed.

Lemma parse_modrm_reads_back_witness :
  snd (gen_modrm_sib [0x8B] 0 (modrm_rm_mreg 4 8)) = false
  /\ exists rm',
       parse_modrm
         (mem_of 0x5000 (fst (gen_modrm_sib [0x8B] 0 (modrm_rm_mreg 4 8))))
         (cursor 0x5000 [0x8B]) (modrm_rm_reg 0)
       = (0, rm',
          cursor 0x5000 (fst (gen_modrm_sib [0x8B] 0 (modrm_rm_mreg 4 8))))
       /\ same_operand (modrm_rm_mreg 4 8) rm'.
Proof.
  apply (parse_modrm_reads_back
           (mem_of 0x5000 (fst (gen_modrm_sib [0x8B] 0 (modrm_rm_mreg 4 8))))
           0x5000 [0x8B] 0 (modrm_rm_mreg 4 8) (modrm_rm_reg 0)).
  - unfold is_reg. lia.
  - right. unfold is_reg. simpl.
    split; [reflexivity|]. split; [right; lia|]. split; [now left|]. lia.
  - apply holds_mem_of.
Defined.

(** X10.  The copy of a ModR/M operand through the translator: for any
    guest bytes, the register and operand that parse_modrm reads are
    re-encoded by gen_modrm_sib without error, and the re-encoded bytes
    parse back to the same register and the same operand. *)
Theorem translated_modrm_same_operand (guest : memory) (code : Z)
    (rm0 : modrm_rm_t) (r_ : Z) (rm_ : modrm_rm_t) (code' : Z)
    (host : memory) (origin : Z) (out : list Z) (rm1 : modrm_rm_t) :
  parse_modrm guest code rm0 = (r_, rm_, code') ->
  holds host origin (fst (gen_modrm_sib out r_ rm_)) ->
  snd (gen_modrm_sib out r_ rm_) = false
  /\ exists rm',
       parse_modrm host (cursor origin out) rm1
       = (r_, rm', cursor origin (fst (gen_modrm_sib out r_ rm_)))
       /\ same_operand rm_ rm'.
Proof.
  intros Hp Hm.
  pose proof (parse_modrm_yields guest code rm0) as Hok.
  rewrite Hp in Hok. cbn [fst snd] in Hok. destruct Hok as (Hr & Hok & _).
  rewrite gen_modrm_sib_app in *. cbn [fst snd] in *.
  apply holds_app in Hm. destruct Hm as [_ Hm].
  destruct (parse_modrm_gen_nil host (origin + Z.of_nat (length out)) r_ rm_
              rm1 Hr Hok Hm) as (He & rm' & Hq & Hs).
  split; [exact He|]. exists rm'. split; [|exact Hs].
  unfold cursor. rewrite Hq. f_equal. rewrite length_app. lia.
Qed.

Lemma translated_modrm_same_operand_witness :
  let rm_ := modrm_rm_mreg 4 8 in
  snd (gen_modrm_sib [] 0 rm_) = false
  /\ exists rm',
       parse_modrm (mem_of 0x5000 (fst (gen_modrm_sib [] 0 rm_)))
         (cursor 0x5000 []) (modrm_rm_reg 0)
       = (0, rm', cursor 0x5000 (fst (gen_modrm_sib [] 0 rm_)))
       /\ same_operand rm_ rm'.
Proof.
  intros rm_.
  apply (translated_modrm_same_operand guest_esp8 0x10000 (modrm_rm_reg 0)
           0 rm_ 0x10003
           (mem_of 0x5000 (fst (gen_modrm_sib [] 0 rm_))) 0x5000 []
           (modrm_rm_reg 0)).
  - vm_compute. reflexivity.
  - apply holds_mem_of.
Defined.

(** ** Relative branches *)

Lemma gen_rel_reads_back mem a rel l :
  holds mem a (dword_bytes rel ++ l) ->
  parse_rel mem a 4 = (sext 32 (wrap32 rel), a + 4).
Proof.
  intros H. apply parse_dword_holds in H. destruct H as [H _].
  unfold parse_rel. cbn [Z.eqb Pos.eqb]. now rewrite H.
Qed.

Lemma sext32_idem x : sext 32 (wrap32 (sext 32 (wrap32 x))) = sext 32 (wrap32 x).
Proof.
  apply sext32_wrap32.
  pose proof (sext_range 32 (wrap32 x) ltac:(lia) (wrap32_range x)).
  change (32 - 1) with 31 in *. lia.
Qed.

Lemma gen_jmp_reaches mem origin out dest :
  let here := cursor origin out in
  holds mem origin (gen_jmp origin out dest) ->
  parse_byte mem here = (0xE9, here + 1)
  /\ exists rel,
       parse_rel mem (here + 1) 4 = (rel, here + 5)
       /\ branch_target (here + 5) rel = wrap32 dest.
Proof.
  intros here. unfold gen_jmp, gen_dword, gen_byte. fold here.
  intros H. rewrite <- app_assoc in H. apply holds_app in H.
  destruct H as [_ H]. fold (cursor origin out) in H. fold here in H.
  cbn [app] in H. apply parse_byte_holds in H; [|rewrite wrap8_small; lia].
  destruct H as [Hb H]. rewrite wrap8_small in Hb by lia.
  split; [exact Hb|].
  rewrite <- (app_nil_r (dword_bytes _)) in H.
  apply gen_rel_reads_back in H. rewrite sext32_idem in H.
  eexists. split.
  - rewrite H. f_equal. lia.
  - apply branch_target_rel.
Qed.

(** X11.  gen_jmp, gen_call and gen_jcc (condition below 16) write the
    opcode E9, E8 and 0F 80+cond, followed by a 32-bit displacement which,
    read back by parse_rel and added to the address behind the
    instruction, gives the destination modulo 2^32. *)
Theorem relative_branches_reach_dest (mem : memory) (origin : Z)
    (out : list Z) (cond dest : Z) :
  let here := cursor origin out in
  (holds mem origin (gen_jmp origin out dest) ->
   parse_byte mem here = (0xE9, here + 1)
   /\ exists rel,
        parse_rel mem (here + 1) 4 = (rel, here + 5)
        /\ branch_target (here + 5) rel = wrap32 dest)
  /\ (holds mem origin (gen_call origin out dest) ->
      parse_byte mem here = (0xE8, here + 1)
      /\ exists rel,
           parse_rel mem (here + 1) 4 = (rel, here + 5)
           /\ branch_target (here + 5) rel = wrap32 dest)
  /\ (0 <= cond < 16 ->
      holds mem origin (gen_jcc origin out cond dest) ->
      parse_byte mem here = (0x0F, here + 1)
      /\ parse_byte mem (here + 1) = (0x80 + cond, here + 2)
      /\ exists rel,
           parse_rel mem (here + 2) 4 = (rel, here + 6)
           /\ branch_target (here + 6) rel = wrap32 dest).
Proof.
  intros here. unfold gen_jmp, gen_call, gen_jcc, gen_dword, gen_byte.
  fold here. split; [|split].
  - intros H. rewrite <- app_assoc in H. apply holds_app in H.
    destruct H as [_ H]. fold (cursor origin out) in H. fold here in H.
    cbn [app] in H. apply parse_byte_holds in H; [|rewrite wrap8_small; lia].
    destruct H as [Hb H]. rewrite wrap8_small in Hb by lia.
    split; [exact Hb|].
    rewrite <- (app_nil_r (dword_bytes _)) in H.
    apply gen_rel_reads_back in H. rewrite sext32_idem in H.
    eexists. split.
    + rewrite H. f_equal. lia.
    + apply branch_target_rel.
  - intros H. rewrite <- app_assoc in H. apply holds_app in H.
    destruct H as [_ H]. fold (cursor origin out) in H. fold here in H.
    cbn [app] in H. apply parse_byte_holds in H; [|rewrite wrap8_small; lia].
    destruct H as [Hb H]. rewrite wrap8_small in Hb by lia.
    split; [exact Hb|].
    rewrite <- (app_nil_r (dword_bytes _)) in H.
    apply gen_rel_reads_back in H. rewrite sext32_idem in H.
    eexists. split.
    + rewrite H. f_equal. lia.
    + apply branch_target_rel.
  - intros Hc H. rewrite <- !app_assoc in H. apply holds_app in H.
    destruct H as [_ H]. fold (cursor origin out) in H. fold here in H.
    cbn [app] in H. apply parse_byte_holds in H; [|rewrite wrap8_small; lia].
    destruct H as [Hb H]. rewrite wrap8_small in Hb by lia.
    apply parse_byte_holds in H; [|rewrite wrap8_small; lia].
    destruct H as [Hb2 H]. rewrite wrap8_small in Hb2 by lia.
    replace (here + 1 + 1) with (here + 2) in * by lia.
    split; [exact Hb|]. split; [exact Hb2|].
    rewrite <- (app_nil_r (dword_bytes _)) in H.
    apply gen_rel_reads_back in H. rewrite sext32_idem in H.
    eexists. split.
    + rewrite H. f_equal. lia.
    + apply branch_target_rel.
Qed.

Lemma relative_branches_reach_dest_witness :
  parse_byte (mem_of 0x5000 (gen_jcc 0x5000 [] 4 0x4000)) 0x5000
  = (0x0F, 0x5001)
  /\ exists rel,
       parse_rel (mem_of 0x5000 (gen_jcc 0x5000 [] 4 0x4000)) 0x5002 4
       = (rel, 0x5006)
       /\ branch_target 0x5006 rel = 0x4000.
Proof.
  destruct (relative_branches_reach_dest
              (mem_of 0x5000 (gen_jcc 0x5000 [] 4 0x4000)) 0x5000 [] 4 0x4000)
    as (_ & _ & H).
  destruct H as (H1 & _ & H3); [lia|apply holds_mem_of|].
  split; [exact H1|exact H3].
Defined.

(** ** Alignment *)

Lemma land_high_mask k x :
  0 <= k <= 32 -> 0 <= x < 2 ^ 32 ->
  Z.land x (Z.ldiff (Z.ones 32) (Z.ones k)) = 2 ^ k * (x / 2 ^ k).
Proof.
  intros Hk Hx.
  replace (2 ^ k * (x / 2 ^ k)) with (Z.shiftl (Z.shiftr x k) k)
    by (rewrite Z.shiftl_mul_pow2, Z.shiftr_div_pow2 by lia; lia).
  apply Z.bits_inj'. intros n Hn.
  rewrite Z.land_spec, Z.ldiff_spec, Z.shiftl_spec by lia.
  destruct (Z.ltb_spec n k) as [Hlt|Hge].
  - rewrite (Z.testbit_neg_r _ (n - k)) by lia.
    rewrite (Z.ones_spec_low k n) by lia.
    rewrite Bool.andb_false_r. simpl. apply Bool.andb_false_r.
  - rewrite Z.shiftr_spec by lia.
    replace (n - k + k) with n by lia.
    rewrite (Z.ones_spec_high k n) by lia. simpl. rewrite Bool.andb_true_r.
    destruct (Z.ltb_spec n 32) as [Hlt|Hge32].
    + rewrite (Z.ones_spec_low 32 n) by lia. apply Bool.andb_true_r.
    + rewrite (Z.ones_spec_high 32 n) by lia. rewrite Bool.andb_false_r.
      symmetry.
      destruct (Z.eq_dec x 0) as [->|Hnz]; [apply Z.bits_0|].
      apply Z.bits_above_log2; [lia|].
      assert (Z.log2 x < 32) by (apply Z.log2_lt_pow2; lia). lia.
Qed.

Lemma align_out x :
  let s := Z.land (wrap32 (x + DBT_OUT_ALIGN - 1)) (wrap32 (- DBT_OUT_ALIGN)) in
  s mod DBT_OUT_ALIGN = 0 /\ 0 <= s < 2 ^ 32
  /\ (0 <= x -> x + 15 < 2 ^ 32 -> x <= s < x + DBT_OUT_ALIGN).
Proof.
  cbv zeta.
  replace (wrap32 (- DBT_OUT_ALIGN)) with (Z.ldiff (Z.ones 32) (Z.ones 4))
    by reflexivity.
  unfold DBT_OUT_ALIGN.
  pose proof (wrap32_range (x + 16 - 1)) as Hr.
  rewrite land_high_mask by (try exact Hr; lia).
  change (2 ^ 4) with 16.
  pose proof (Z.div_mod (wrap32 (x + 16 - 1)) 16 ltac:(lia)) as Hd.
  pose proof (Z.mod_pos_bound (wrap32 (x + 16 - 1)) 16 ltac:(lia)) as Hm.
  split; [rewrite Z.mul_comm; apply Z.mod_mul; lia|].
  split; [lia|].
  intros H0 H1. rewrite wrap32_small in * by lia. lia.
Qed.

Section TranslatorExtra.

Variable DBT_CACHE_BASE : Z.
Variable DBT_CACHE_SIZE : Z.
Variable MAX_DBT_BLOCKS : Z.
Variable translate_code : dbt_data -> Z -> Z -> option (Z * Z).
Variable translate_emit : dbt_data -> Z -> Z -> memory -> memory.

Local Abbreviation alloc_block := (alloc_block MAX_DBT_BLOCKS).
Local Abbreviation dbt_flush := (dbt_flush DBT_CACHE_BASE DBT_CACHE_SIZE).
Local Abbreviation dbt_translate :=
  (dbt_translate DBT_CACHE_BASE DBT_CACHE_SIZE MAX_DBT_BLOCKS translate_code).
Local Abbreviation dbt_find_next :=
  (dbt_find_next DBT_CACHE_BASE DBT_CACHE_SIZE MAX_DBT_BLOCKS translate_code).
Local Abbreviation dbt_find_next_cache :=
  (dbt_find_next_cache DBT_CACHE_BASE DBT_CACHE_SIZE MAX_DBT_BLOCKS
     translate_emit).
Local Abbreviation dbt_find_direct :=
  (dbt_find_direct DBT_CACHE_BASE DBT_CACHE_SIZE MAX_DBT_BLOCKS translate_code
     translate_emit).

Lemma alloc_block_spec d d1 :
  alloc_block d = Some d1 ->
  block_hash d1 = block_hash d /\ blocks_count d1 = blocks_count d + 1
  /\ out d1 = out d /\ end_ d1 = end_ d
  /\ blocks_count d <> MAX_DBT_BLOCKS
  /\ DBT_BLOCK_MAXSIZE <= end_ d - out d.
Proof.
  unfold DBT.alloc_block.
  destruct (Z.eqb_spec (blocks_count d) MAX_DBT_BLOCKS); [discriminate|].
  destruct (Z.ltb_spec (end_ d - out d) DBT_BLOCK_MAXSIZE); [discriminate|].
  cbn [orb]. intros Heq; inversion Heq; subst.
  cbn [block_hash blocks_count out end_].
  repeat match goal with |- _ /\ _ => split end; auto.
Qed.

(** X14.  A block made by dbt_translate has the requested pc and a start
    that is a multiple of 16 below 2^32; when no flush was needed and
    [out] + 15 does not wrap, the start is the least multiple of 16 at or
    above [out].  The block count becomes the old count plus one, or 1
    after a flush.  When MAX_DBT_BLOCKS is not 0 and the cache holds at
    least DBT_BLOCK_MAXSIZE bytes, alloc_block succeeds after dbt_flush, so
    dbt_translate fails to return a block only when the translation loop
    does not return. *)
Theorem dbt_translate_block (p : Z) (d : dbt_data) :
  (forall block d1,
     dbt_translate p d = Some (block, d1) ->
     pc block = p
     /\ start block mod DBT_OUT_ALIGN = 0
     /\ 0 <= start block < 2 ^ 32
     /\ (alloc_block d <> None -> 0 <= out d -> out d + 15 < 2 ^ 32 ->
         out d <= start block < out d + DBT_OUT_ALIGN)
     /\ blocks_count d1
        = match alloc_block d with
          | Some _ => blocks_count d + 1
          | None => 1
          end)
  /\ (MAX_DBT_BLOCKS <> 0 ->
      DBT_BLOCK_MAXSIZE
      <= wrap32 (DBT_CACHE_BASE + DBT_CACHE_SIZE) - DBT_CACHE_BASE ->
      alloc_block (dbt_flush d) <> None
      /\ (dbt_translate p d = None ->
          exists d1 start_, translate_code d1 p start_ = None)).
Proof.
  split.
  - intros block d1. unfold DBT.dbt_translate.
    destruct (alloc_block d) as [da|] eqn:Ea.
    + apply alloc_block_spec in Ea.
      destruct Ea as (_ & Hc & Ho & _).
      pose proof (align_out (out da)) as (A1 & A2 & A3). cbv zeta in *.
      destruct (translate_code da p _) as [[o e]|]; [|discriminate].
      intros H; inversion H; subst; clear H. cbn [pc start].
      split; [reflexivity|]. split; [exact A1|]. split; [exact A2|].
      split; [|cbn; exact Hc].
      intros _ H0 H1. rewrite Ho in *. now apply A3.
    + destruct (alloc_block (dbt_flush d)) as [da|] eqn:Ef; [|discriminate].
      apply alloc_block_spec in Ef.
      destruct Ef as (_ & Hc & Ho & _).
      pose proof (align_out (out da)) as (A1 & A2 & A3). cbv zeta in *.
      destruct (translate_code da p _) as [[o e]|]; [|discriminate].
      intros H; inversion H; subst; clear H. cbn [pc start].
      split; [reflexivity|]. split; [exact A1|]. split; [exact A2|].
      split; [|cbn; exact Hc].
      intros Hc'. now contradiction Hc'.
  - intros Hmax Hsize.
    assert (Hf : alloc_block (dbt_flush d) <> None).
    { unfold DBT.alloc_block, DBT.dbt_flush. cbn [blocks_count end_ out].
      destruct (Z.eqb_spec 0 MAX_DBT_BLOCKS); [congruence|].
      destruct (Z.ltb_spec (wrap32 (DBT_CACHE_BASE + DBT_CACHE_SIZE)
                            - DBT_CACHE_BASE) DBT_BLOCK_MAXSIZE); [lia|].
      cbn [orb]. discriminate. }
    split; [exact Hf|].
    unfold DBT.dbt_translate.
    destruct (alloc_block d) as [da|].
    + destruct (translate_code da p _) eqn:Et; [destruct p0; discriminate|].
      intros _. eauto.
    + destruct (alloc_block (dbt_flush d)) as [da|]; [|now contradiction Hf].
      destruct (translate_code da p _) eqn:Et; [destruct p0; discriminate|].
      intros _. eauto.
Qed.

Lemma find_in_bucket_pc bucket p b :
  find_in_bucket bucket p = Some b -> pc b = p.
Proof.
  unfold find_in_bucket. intros H. apply find_some in H.
  destruct H as [_ H]. now apply Z.eqb_eq.
Qed.

Lemma dbt_find_next_indexed (p : Z) (d : dbt_data) (r_ : Z) (d' : dbt_data) :
  dbt_find_next p d = Some (r_, d') ->
  exists block, find_block d' p = Some block
                /\ pc block = p /\ start block = r_.
Proof.
  unfold DBT.dbt_find_next, find_block.
  destruct (find_in_bucket (block_hash d (hash_block_pc p)) p) as [b|] eqn:Ef.
  - intros H; inversion H; subst. rewrite Ef. exists b.
    split; [reflexivity|]. split; [|reflexivity].
    now apply find_in_bucket_pc in Ef.
  - destruct (dbt_translate p d) as [[block d1]|] eqn:Et; [|discriminate].
    intros H; inversion H; subst; clear H.
    destruct (dbt_translate_index _ _ _ _ p d block d1 Et) as [Hpc _].
    exists block. split; [|auto].
    unfold with_bucket, forward_list_add, find_in_bucket.
    cbn [block_hash]. rewrite Z.eqb_refl. cbn [find].
    rewrite Hpc, Z.eqb_refl. reflexivity.
Qed.

(** X15.  After a completed dbt_find_next for a pc, the index holds a
    block with that pc and the returned start, and a second dbt_find_next
    for the same pc returns the same address and leaves the state as it
    is. *)
Theorem dbt_find_next_again (p : Z) (d : dbt_data) (r_ : Z) (d' : dbt_data) :
  dbt_find_next p d = Some (r_, d') ->
  dbt_find_next p d' = Some (r_, d')
  /\ exists block, find_block d' p = Some block
                   /\ pc block = p /\ start block = r_.
Proof.
  intros H.
  destruct (dbt_find_next_indexed p d r_ d' H) as (b & Hb & Hpc & Hs).
  split; [|exists b; auto].
  unfold DBT.dbt_find_next. unfold find_block in Hb. rewrite Hb.
  now rewrite Hs.
Qed.

(** X16.  A completed dbt_find_next for a pc leaves the lookup of every
    other pc as it was, unless the pc was absent and alloc_block failed:
    then the cache was flushed, no other pc is found any more and the
    block count is 1. *)
Theorem dbt_find_next_others (p : Z) (d : dbt_data) (r_ : Z) (d' : dbt_data) :
  dbt_find_next p d = Some (r_, d') ->
  forall q, q <> p ->
    (find_block d p <> None \/ alloc_block d <> None ->
     find_block d' q = find_block d q)
    /\ (find_block d p = None -> alloc_block d = None ->
        find_block d' q = None /\ blocks_count d' = 1).
Proof.
  unfold DBT.dbt_find_next, find_block. intros H q Hq.
  destruct (find_in_bucket (block_hash d (hash_block_pc p)) p) as [b|] eqn:Ef.
  { inversion H; subst. split; [reflexivity|discriminate]. }
  destruct (dbt_translate p d) as [[block d1]|] eqn:Et; [|discriminate].
  inversion H; subst; clear H.
  destruct (dbt_translate_index _ _ _ _ p d block d1 Et) as [Hpc _].
  assert (Hskip : forall l,
            find_in_bucket (forward_list_add l block) q = find_in_bucket l q).
  { intros l. unfold find_in_bucket, forward_list_add. cbn [find].
    destruct (Z.eqb_spec (pc block) q); [congruence|reflexivity]. }
  assert (Hd' : find_in_bucket
            (block_hash
               (with_bucket (hash_block_pc p)
                  (forward_list_add (block_hash d1 (hash_block_pc p)) block) d1)
               (hash_block_pc q)) q
            = find_in_bucket (block_hash d1 (hash_block_pc q)) q).
  { unfold with_bucket. cbn [block_hash].
    destruct (Z.eqb_spec (hash_block_pc q) (hash_block_pc p)) as [E|E];
      [rewrite Hskip, E; reflexivity|reflexivity]. }
  rewrite Hd'. unfold DBT.dbt_translate in Et.
  destruct (alloc_block d) as [da|] eqn:Ea.
  - split; [|discriminate]. intros _.
    apply alloc_block_spec in Ea. destruct Ea as (Hh & _).
    destruct (translate_code da p _) as [[o e]|]; [|discriminate].
    inversion Et; subst. cbn [block_hash with_cursors]. now rewrite Hh.
  - split; [intros [Hc|Hc]; now contradiction Hc|]. intros _ _.
    destruct (alloc_block (dbt_flush d)) as [da|] eqn:Ef2; [|discriminate].
    apply alloc_block_spec in Ef2. destruct Ef2 as (Hh & Hc & _).
    destruct (translate_code da p _) as [[o e]|]; [|discriminate].
    inversion Et; subst. cbn [block_hash with_cursors blocks_count with_bucket].
    rewrite Hh, Hc. cbn. auto.
Qed.

(** X13.  A completed dbt_find_direct returns what dbt_find_next returns
    for the pc, whose block is then in the index with the returned start.
    Into the cache as dbt_find_next left it, it writes only the four bytes
    at patch_addr: when the block was already in the index every other
    byte is as before the call, and after a miss every other byte is what
    the translation of the new block left.  The displacement the four bytes
    then hold, added to patch_addr + 4, gives the start of the block modulo
    2^32. *)
Theorem dbt_find_direct_patch (cache : memory) (p patch_addr : Z)
    (d : dbt_data) (block_start : Z) (cache' : memory) (d' : dbt_data) :
  dbt_find_direct cache p patch_addr d = Some (block_start, cache', d') ->
  dbt_find_next p d = Some (block_start, d')
  /\ (exists block, find_block d' p = Some block /\ start block = block_start)
  /\ (forall a, ~ patch_addr <= a < patch_addr + 4 ->
        cache' a = dbt_find_next_cache cache p d a)
  /\ (find_block d p <> None ->
      forall a, ~ patch_addr <= a < patch_addr + 4 -> cache' a = cache a)
  /\ (find_block d p = None ->
      exists da,
        (alloc_block d = Some da
         \/ alloc_block d = None /\ alloc_block (dbt_flush d) = Some da)
        /\ block_start
           = Z.land (wrap32 (out da + DBT_OUT_ALIGN - 1))
               (wrap32 (- DBT_OUT_ALIGN))
        /\ forall a, ~ patch_addr <= a < patch_addr + 4 ->
             cache' a = translate_emit da p block_start cache a)
  /\ exists rel,
       parse_rel cache' patch_addr 4 = (rel, patch_addr + 4)
       /\ branch_target (patch_addr + 4) rel = wrap32 block_start.
Proof.
  unfold DBT.dbt_find_direct.
  destruct (dbt_find_next p d) as [[bs d1]|] eqn:E; [|discriminate].
  intros H; inversion H; subst; clear H.
  assert (Hout : forall m a, ~ patch_addr <= a < patch_addr + 4 ->
            patch_branch m patch_addr block_start a = m a).
  { intros m a Ha. unfold patch_branch, store_dword.
    destruct (Z.leb_spec patch_addr a); destruct (Z.ltb_spec a (patch_addr + 4));
      cbn [andb]; try reflexivity. lia. }
  split; [reflexivity|]. split.
  { apply dbt_find_next_indexed in E. destruct E as (b & Hb & _ & Hs).
    exists b. auto. }
  split; [intros a Ha; now apply Hout|].
  split.
  { intros Hhit a Ha. rewrite Hout by exact Ha.
    unfold DBT.dbt_find_next_cache. unfold find_block in Hhit.
    destruct (find_in_bucket (block_hash d (hash_block_pc p)) p);
      [reflexivity|now contradiction Hhit]. }
  split.
  { intros Hmiss. unfold DBT.dbt_find_next in E.
    unfold DBT.dbt_find_next_cache. unfold find_block in Hmiss.
    rewrite Hmiss in *. unfold DBT.dbt_translate in E.
    destruct (alloc_block d) as [da|] eqn:Ea.
    - destruct (translate_code da p _) as [[o e]|]; [|discriminate].
      inversion E; subst. cbn [start]. exists da.
      split; [now left|]. split; [reflexivity|]. intros a Ha. now apply Hout.
    - destruct (alloc_block (dbt_flush d)) as [da|] eqn:Ef; [|discriminate].
      destruct (translate_code da p _) as [[o e]|]; [|discriminate].
      inversion E; subst. cbn [start]. exists da.
      split; [now right|]. split; [reflexivity|]. intros a Ha. now apply Hout. }
  unfold patch_branch.
  assert (Hh : holds
            (store_dword (dbt_find_next_cache cache p d) patch_addr
               (wrap32 (sext 32 (wrap32 (block_start - (patch_addr + 4))))))
            patch_addr
            (dword_bytes
               (wrap32 (sext 32 (wrap32 (block_start - (patch_addr + 4)))))
             ++ [])).
  { intros i Hi. rewrite app_nil_r in *. unfold store_dword.
    unfold dword_bytes in Hi. cbn [length] in Hi.
    destruct (Z.leb_spec patch_addr (patch_addr + Z.of_nat i)); [|lia].
    destruct (Z.ltb_spec (patch_addr + Z.of_nat i) (patch_addr + 4)); [|lia].
    cbn [andb]. f_equal. lia. }
  apply gen_rel_reads_back in Hh.
  eexists. split; [exact Hh|].
  rewrite (wrap32_small (wrap32 _)) by apply wrap32_range.
  rewrite sext32_idem. apply branch_target_rel.
Qed.

End TranslatorExtra.

Lemma dbt_translate_block_witness :
  let translate := fun (d : dbt_data) (p start_ : Z) =>
                     Some (start_ + 32, end_ d - 16) in
  let d0 :=
    mk_dbt_data (fun _ => []) 0 0x71000005 0x71100000 0 0 0 in
  (exists block d1,
     DBT.dbt_translate 0x71000000 0x100000 1024 translate 0x10000 d0
     = Some (block, d1)
     /\ start block mod DBT_OUT_ALIGN = 0
     /\ out d0 <= start block < out d0 + DBT_OUT_ALIGN)
  /\ DBT.alloc_block 1024 (DBT.dbt_flush 0x71000000 0x100000 d0) <> None.
Proof.
  intros translate d0.
  destruct (dbt_translate_block 0x71000000 0x100000 1024 translate 0x10000 d0)
    as (H1 & H2).
  split.
  - eexists. eexists. split; [reflexivity|].
    destruct (H1 _ _ eq_refl) as (_ & A & _ & B & _).
    split; [exact A|]. apply B; [discriminate|vm_compute; discriminate|reflexivity].
  - apply H2; [discriminate|vm_compute; discriminate].
Defined.

Lemma dbt_find_next_again_witness :
  let translate := fun (d : dbt_data) (p start_ : Z) =>
                     Some (start_ + 32, end_ d - 16) in
  let d0 := dbt_init 0x71000000 0x100000 0 0 0 in
  let d1 :=
    match DBT.dbt_find_next 0x71000000 0x100000 1024 translate 0x10000 d0 with
    | Some (_, d) => d
    | None => d0
    end in
  DBT.dbt_find_next 0x71000000 0x100000 1024 translate 0x10000 d1
  = Some (0x71000000, d1).
Proof.
  intros translate d0 d1.
  destruct (dbt_find_next_again 0x71000000 0x100000 1024 translate 0x10000 d0
              0x71000000 d1) as (H & _).
  - reflexivity.
  - exact H.
Defined.

Lemma dbt_find_next_others_witness :
  let translate := fun (d : dbt_data) (p start_ : Z) =>
                     Some (start_ + 32, end_ d - 16) in
  let d0 := dbt_init 0x71000000 0x100000 0 0 0 in
  let next := fun max p d =>
    match DBT.dbt_find_next 0x71000000 0x100000 max translate p d with
    | Some (_, d') => d'
    | None => d
    end in
  find_block (next 1024 0x20000 (next 1024 0x10000 d0)) 0x10000
  = find_block (next 1024 0x10000 d0) 0x10000
  /\ find_block (next 1 0x20000 (next 1 0x10000 d0)) 0x10000 = None.
Proof.
  intros translate d0 next. split.
  - destruct (dbt_find_next_others 0x71000000 0x100000 1024 translate 0x20000
                (next 1024 0x10000 d0) 0x71000020
                (next 1024 0x20000 (next 1024 0x10000 d0)))
      with (q := 0x10000) as (H & _).
    + reflexivity.
    + discriminate.
    + apply H. right. discriminate.
  - destruct (dbt_find_next_others 0x71000000 0x100000 1 translate 0x20000
                (next 1 0x10000 d0) 0x71000000
                (next 1 0x20000 (next 1 0x10000 d0)))
      with (q := 0x10000) as (_ & H).
    + reflexivity.
    + discriminate.
    + apply H; reflexivity.
Defined.

Lemma dbt_find_direct_patch_witness :
  let translate := fun (d : dbt_data) (p start_ : Z) =>
                     Some (start_ + 32, end_ d - 16) in
  let emit := fun (d : dbt_data) (p start_ : Z) (m : memory) (x : Z) =>
                if (start_ <=? x) && (x <? start_ + 32) then 0x90 else m x in
  let d0 := dbt_init 0x71000000 0x100000 0 0 0 in
  let cache' :=
    match DBT.dbt_find_direct 0x71000000 0x100000 1024 translate emit
            (fun _ => 0) 0x10005 0x71000021 d0 with
    | Some (_, c, _) => c
    | None => fun _ => 0
    end in
  (forall a, ~ 0x71000021 <= a < 0x71000021 + 4 ->
     cache' a = emit d0 0x10005 0x71000000 (fun _ => 0) a)
  /\ exists rel,
       parse_rel cache' 0x71000021 4 = (rel, 0x71000021 + 4)
       /\ branch_target (0x71000021 + 4) rel = wrap32 0x71000000.
Proof.
  intros translate emit d0 cache'.
  destruct (dbt_find_direct_patch 0x71000000 0x100000 1024 translate emit
              (fun _ => 0) 0x10005 0x71000021 d0 0x71000000 cache'
              (match DBT.dbt_find_next 0x71000000 0x100000 1024 translate
                       0x10005 d0 with
               | Some (_, d) => d
               | None => d0
               end)) as (_ & _ & H1 & _ & _ & H).
  - reflexivity.
  - split; [exact H1|exact H].
Defined.

(** X12.  dbt_get_direct_trampoline returns the start of the cached block
    and changes nothing when the pc is in the index.  Otherwise it lowers
    [end] by 16 (modulo 2^32), leaves the index, the block count and [out]
    as they were, returns the new [end], and writes there a stub of 15
    bytes, less than the 16 reserved: push patch_addr, push pc, and a jump
    that reaches the resolver. *)
Theorem dbt_get_direct_trampoline_stub (resolver p patch_addr : Z)
    (d : dbt_data) :
  (forall block, find_block d p = Some block ->
     dbt_get_direct_trampoline resolver p patch_addr d = (start block, d, []))
  /\ (find_block d p = None ->
      exists stub d',
        let t := wrap32 (end_ d - DBT_OUT_ALIGN) in
        dbt_get_direct_trampoline resolver p patch_addr d = (t, d', stub)
        /\ end_ d' = t /\ out d' = out d
        /\ block_hash d' = block_hash d /\ blocks_count d' = blocks_count d
        /\ Z.of_nat (length stub) < DBT_OUT_ALIGN
        /\ forall mem, holds mem t stub ->
             parse_byte mem t = (0x68, t + 1)
             /\ parse_dword mem (t + 1) = (wrap32 patch_addr, t + 5)
             /\ parse_byte mem (t + 5) = (0x68, t + 6)
             /\ parse_dword mem (t + 6) = (wrap32 p, t + 10)
             /\ parse_byte mem (t + 10) = (0xE9, t + 11)
             /\ exists rel,
                  parse_rel mem (t + 11) 4 = (rel, t + 15)
                  /\ branch_target (t + 15) rel = wrap32 resolver).
Proof.
  unfold dbt_get_direct_trampoline. split.
  - intros block H. now rewrite H.
  - intros H. rewrite H. eexists. eexists. cbv zeta.
    split; [reflexivity|]. cbn [end_ out block_hash blocks_count with_cursors].
    do 4 (split; [reflexivity|]).
    split.
    { unfold gen_jmp, gen_push_imm32, gen_dword, gen_byte, dword_bytes,
        DBT_OUT_ALIGN.
      cbn [app length]. lia. }
    intros mem Hm.
    set (t := wrap32 (end_ d - DBT_OUT_ALIGN)) in *.
    pose proof (gen_jmp_reaches mem t
                  (gen_push_imm32 (gen_push_imm32 [] patch_addr) p) resolver)
      as Hj.
    cbv zeta in Hj. specialize (Hj Hm).
    replace (cursor t (gen_push_imm32 (gen_push_imm32 [] patch_addr) p))
      with (t + 10) in Hj
      by (unfold cursor, gen_push_imm32, gen_dword, gen_byte, dword_bytes;
          cbn [app length]; lia).
    replace (t + 10 + 1) with (t + 11) in Hj by lia.
    replace (t + 10 + 5) with (t + 15) in Hj by lia.
    destruct Hj as (Hj1 & Hj2).
    unfold gen_jmp, gen_push_imm32, gen_dword, gen_byte in Hm.
    cbn [app] in Hm. rewrite <- !app_assoc in Hm. cbn [app] in Hm.
    rewrite (wrap8_small 0x68) in Hm by lia.
    apply parse_byte_holds in Hm; [|lia]. destruct Hm as [P1 Hm].
    pose proof (parse_dword_holds _ _ _ _ Hm) as [P2 Hm2].
    replace (t + 1 + 4) with (t + 5) in * by lia.
    apply parse_byte_holds in Hm2; [|lia]. destruct Hm2 as [P3 Hm3].
    replace (t + 5 + 1) with (t + 6) in * by lia.
    pose proof (parse_dword_holds _ _ _ _ Hm3) as [P4 _].
    replace (t + 6 + 4) with (t + 10) in * by lia.
    auto 10.
Qed.

Lemma dbt_get_direct_trampoline_stub_witness :
  let d := dbt_init 0x71000000 0x100000 0 0 0 in
  exists stub d',
    dbt_get_direct_trampoline 0x6000 0x10005 0x71000001 d
    = (0x710FFFF0, d', stub)
    /\ end_ d' = 0x710FFFF0
    /\ Z.of_nat (length stub) < DBT_OUT_ALIGN.
Proof.
  intros d.
  destruct (dbt_get_direct_trampoline_stub 0x6000 0x10005 0x71000001 d)
    as (_ & H).
  destruct H as (stub & d' & H1 & H2 & _ & _ & _ & H6 & _); [reflexivity|].
  exists stub, d'. split; [exact H1|]. split; [exact H2|exact H6].
Defined.

(** ** find_unused_register *)

Lemma land_lor_0 a b m : Z.land (Z.lor a b) m = 0 -> Z.land a m = 0 /\ Z.land b m = 0.
Proof.
  rewrite Z.land_lor_distr_l. apply Z.lor_eq_0_iff.
Qed.

Lemma used_regs_clear REG_MASK ins m :
  Z.land (used_regs REG_MASK ins) m = 0 ->
  Z.land (read_regs (desc ins)) m = 0
  /\ Z.land (write_regs (desc ins)) m = 0
  /\ (r ins <> -1 -> Z.land (REG_MASK (r ins)) m = 0)
  /\ (base (rm ins) <> -1 -> Z.land (REG_MASK (base (rm ins))) m = 0)
  /\ (index (rm ins) <> -1 -> Z.land (REG_MASK (index (rm ins))) m = 0).
Proof.
  unfold used_regs.
  destruct (Z.eqb_spec (index (rm ins)) (-1)) as [Hi|Hi];
    destruct (Z.eqb_spec (base (rm ins)) (-1)) as [Hb|Hb];
    destruct (Z.eqb_spec (r ins) (-1)) as [Hr|Hr]; cbn [negb]; intros H;
    repeat match goal with
           | H : Z.land (Z.lor _ _) _ = 0 |- _ =>
               apply land_lor_0 in H; destruct H
           end;
    repeat match goal with |- _ /\ _ => split end;
    try assumption; intros Hc; try assumption; contradiction.
Qed.

(** X17.  The register find_unused_register returns is one of eax, ecx,
    edx, ebx, esi, edi (never esp or ebp); its mask meets neither the
    read nor the write mask of the descriptor; when its mask is not empty
    it differs from the r, base and index of the instruction; and every
    candidate before it in that order is in use.  The function reports
    its error only when all six candidates are in use. *)
Theorem find_unused_register_spec (REG_MASK : Z -> Z) (ins : instruction_t) :
  (forall reg,
     find_unused_register REG_MASK ins = Some reg ->
     In reg [0; 1; 2; 3; 6; 7]
     /\ Z.land (read_regs (desc ins)) (REG_MASK reg) = 0
     /\ Z.land (write_regs (desc ins)) (REG_MASK reg) = 0
     /\ (REG_MASK reg <> 0 ->
         reg <> r ins /\ reg <> base (rm ins) /\ reg <> index (rm ins))
     /\ forall x, In x [0; 1; 2; 3; 6; 7] -> x < reg ->
                  Z.land (used_regs REG_MASK ins) (REG_MASK x) <> 0)
  /\ (find_unused_register REG_MASK ins = None ->
      forall x, In x [0; 1; 2; 3; 6; 7] ->
                Z.land (used_regs REG_MASK ins) (REG_MASK x) <> 0).
Proof.
  assert (Hfree : forall reg,
            0 <= reg ->
            Z.land (used_regs REG_MASK ins) (REG_MASK reg) = 0 ->
            Z.land (read_regs (desc ins)) (REG_MASK reg) = 0
            /\ Z.land (write_regs (desc ins)) (REG_MASK reg) = 0
            /\ (REG_MASK reg <> 0 ->
                reg <> r ins /\ reg <> base (rm ins) /\ reg <> index (rm ins))).
  { intros reg Hreg H. apply used_regs_clear in H.
    destruct H as (H1 & H2 & H3 & H4 & H5).
    split; [exact H1|]. split; [exact H2|]. intros Hm.
    assert (Hself : Z.land (REG_MASK reg) (REG_MASK reg) <> 0)
      by (rewrite Z.land_diag; exact Hm).
    repeat split; intros ->; apply Hself;
      [apply H3|apply H4|apply H5]; lia. }
  unfold find_unused_register.
  destruct (Z.eqb_spec (Z.land (used_regs REG_MASK ins) (REG_MASK 0)) 0) as [H0|H0].
  { split; [|discriminate]. intros reg H; inversion H; subst.
    split; [simpl; auto|]. destruct (Hfree 0 ltac:(lia) H0) as (A & B & C).
    repeat match goal with |- _ /\ _ => split end; auto.
    intros x Hx Hlt. simpl in Hx. intuition lia. }
  destruct (Z.eqb_spec (Z.land (used_regs REG_MASK ins) (REG_MASK 1)) 0) as [H1|H1].
  { split; [|discriminate]. intros reg H; inversion H; subst.
    split; [simpl; auto|]. destruct (Hfree 1 ltac:(lia) H1) as (A & B & C).
    repeat match goal with |- _ /\ _ => split end; auto.
    intros x Hx Hlt. simpl in Hx.
    destruct Hx as [<-|[<-|[<-|[<-|[<-|[<-|[]]]]]]]; try lia; assumption. }
  destruct (Z.eqb_spec (Z.land (used_regs REG_MASK ins) (REG_MASK 2)) 0) as [H2|H2].
  { split; [|discriminate]. intros reg H; inversion H; subst.
    split; [simpl; auto|]. destruct (Hfree 2 ltac:(lia) H2) as (A & B & C).
    repeat match goal with |- _ /\ _ => split end; auto.
    intros x Hx Hlt. simpl in Hx.
    destruct Hx as [<-|[<-|[<-|[<-|[<-|[<-|[]]]]]]]; try lia; assumption. }
  destruct (Z.eqb_spec (Z.land (used_regs REG_MASK ins) (REG_MASK 3)) 0) as [H3|H3].
  { split; [|discriminate]. intros reg H; inversion H; subst.
    split; [simpl; auto 6|]. destruct (Hfree 3 ltac:(lia) H3) as (A & B & C).
    repeat match goal with |- _ /\ _ => split end; auto.
    intros x Hx Hlt. simpl in Hx.
    destruct Hx as [<-|[<-|[<-|[<-|[<-|[<-|[]]]]]]]; try lia; assumption. }
  destruct (Z.eqb_spec (Z.land (used_regs REG_MASK ins) (REG_MASK 6)) 0) as [H6|H6].
  { split; [|discriminate]. intros reg H; inversion H; subst.
    split; [simpl; auto 6|]. destruct (Hfree 6 ltac:(lia) H6) as (A & B & C).
    repeat match goal with |- _ /\ _ => split end; auto.
    intros x Hx Hlt. simpl in Hx.
    destruct Hx as [<-|[<-|[<-|[<-|[<-|[<-|[]]]]]]]; try lia; assumption. }
  destruct (Z.eqb_spec (Z.land (used_regs REG_MASK ins) (REG_MASK 7)) 0) as [H7|H7].
  { split; [|discriminate]. intros reg H; inversion H; subst.
    split; [simpl; auto 7|]. destruct (Hfree 7 ltac:(lia) H7) as (A & B & C).
    repeat match goal with |- _ /\ _ => split end; auto.
    intros x Hx Hlt. simpl in Hx.
    destruct Hx as [<-|[<-|[<-|[<-|[<-|[<-|[]]]]]]]; try lia; assumption. }
  split; [discriminate|]. intros _ x Hx. simpl in Hx.
  destruct Hx as [<-|[<-|[<-|[<-|[<-|[<-|[]]]]]]]; assumption.
Qed.

Lemma find_unused_register_spec_witness :
  let REG_MASK := fun x => Z.shiftl 1 x in
  let ins :=
    mk_instruction 0 0x8C 0 0 5 (modrm_rm_mscale 0 1 2 0) 0
      (mk_instruction_desc 0 0) in
  find_unused_register REG_MASK ins = Some 2
  /\ 2 <> r ins /\ 2 <> base (rm ins) /\ 2 <> index (rm ins).
Proof.
  intros REG_MASK ins.
  destruct (find_unused_register_spec REG_MASK ins) as (H & _).
  destruct (H 2 eq_refl) as (_ & _ & _ & H4 & _).
  split; [reflexivity|]. apply H4. discriminate.
Defined.

(** ** Direct branches and their patch addresses *)
Lemma gen_jmp_bytes origin out t :
  gen_jmp origin out t
  = out ++ 0xE9 :: dword_bytes (sext 32 (wrap32 (t - (cursor origin out + 5)))).
Proof.
  unfold gen_jmp, gen_dword, gen_byte. rewrite <- app_assoc. reflexivity.
Qed.

Lemma gen_jcc_bytes origin out cond t :
  0 <= cond < 16 ->
  gen_jcc origin out cond t
  = out ++ 0x0F :: (0x80 + cond)
        :: dword_bytes (sext 32 (wrap32 (t - (cursor origin out + 6)))).
Proof.
  intros H. unfold gen_jcc, gen_dword, gen_byte.
  rewrite (wrap8_small (0x80 + cond)) by lia.
  rewrite <- !app_assoc. reflexivity.
Qed.

Lemma gen_push_imm32_bytes out imm :
  gen_push_imm32 out imm = out ++ 0x68 :: dword_bytes imm.
Proof.
  unfold gen_push_imm32, gen_dword, gen_byte. rewrite <- app_assoc.
  reflexivity.
Qed.

Lemma cursor_app origin out l :
  cursor origin (out ++ l) = cursor origin out + Z.of_nat (length l).
Proof. unfold cursor. rewrite length_app. lia. Qed.

Lemma length_dword_bytes x : length (dword_bytes x) = 4%nat.
Proof. reflexivity. Qed.

Lemma jmp_bytes_at host a t l :
  holds host a (0xE9 :: dword_bytes (sext 32 (wrap32 (t - (a + 5)))) ++ l) ->
  jmp_field host (a + 1) t /\ holds host (a + 5) l.
Proof.
  intros H. apply parse_byte_holds in H; [|lia]. destruct H as [Hb H].
  pose proof (gen_rel_reads_back _ _ _ _ H) as Hr.
  apply holds_app in H. destruct H as [_ H].
  rewrite length_dword_bytes in H.
  replace (a + 1 + Z.of_nat 4) with (a + 5) in H by lia.
  split; [|exact H]. split.
  - replace (a + 1 - 1) with a by lia. exact Hb.
  - eexists. split; [exact Hr|]. rewrite sext32_idem.
    replace (a + 1 + 4) with (a + 5) by lia. apply branch_target_rel.
Qed.

Lemma jcc_bytes_at host a cond t l :
  0 <= cond < 16 ->
  holds host a
    (0x0F :: (0x80 + cond)
       :: dword_bytes (sext 32 (wrap32 (t - (a + 6)))) ++ l) ->
  jcc_field host cond (a + 2) t /\ holds host (a + 6) l.
Proof.
  intros Hc H. apply parse_byte_holds in H; [|lia]. destruct H as [Hb0 H].
  apply parse_byte_holds in H; [|lia]. destruct H as [Hb1 H].
  replace (a + 1 + 1) with (a + 2) in * by lia.
  pose proof (gen_rel_reads_back _ _ _ _ H) as Hr.
  apply holds_app in H. destruct H as [_ H].
  rewrite length_dword_bytes in H.
  replace (a + 2 + Z.of_nat 4) with (a + 6) in H by lia.
  split; [|exact H]. split; [|split].
  - replace (a + 2 - 2) with a by lia. replace (a + 2 - 1) with (a + 1) by lia.
    exact Hb0.
  - replace (a + 2 - 1) with (a + 1) by lia. exact Hb1.
  - eexists. split; [exact Hr|]. rewrite sext32_idem.
    replace (a + 2 + 4) with (a + 6) by lia. apply branch_target_rel.
Qed.

(** *** What the store of dbt_find_direct does to a branch *)
Lemma store_dword_other cache pa v a :
  ~ pa <= a < pa + 4 -> store_dword cache pa v a = cache a.
Proof.
  intros H. unfold store_dword.
  destruct (Z.leb_spec pa a); destruct (Z.ltb_spec a (pa + 4)); cbn [andb];
    try reflexivity. lia.
Qed.

Lemma store_dword_reaches cache pa bs :
  reaches (store_dword cache pa (wrap32 (sext 32 (wrap32 (bs - (pa + 4))))))
    pa bs.
Proof.
  assert (Hh : holds
            (store_dword cache pa (wrap32 (sext 32 (wrap32 (bs - (pa + 4))))))
            pa
            (dword_bytes (wrap32 (sext 32 (wrap32 (bs - (pa + 4))))) ++ [])).
  { intros i Hi. rewrite app_nil_r in *. unfold store_dword.
    unfold dword_bytes in Hi. cbn [length] in Hi.
    destruct (Z.leb_spec pa (pa + Z.of_nat i)); [|lia].
    destruct (Z.ltb_spec (pa + Z.of_nat i) (pa + 4)); [|lia].
    cbn [andb]. f_equal. lia. }
  apply gen_rel_reads_back in Hh.
  eexists. split; [exact Hh|].
  rewrite (wrap32_small (wrap32 _)) by apply wrap32_range.
  rewrite sext32_idem. apply branch_target_rel.
Qed.

Lemma parse_byte_frame host host' a :
  host' a = host a -> parse_byte host' a = parse_byte host a.
Proof. intros H. unfold parse_byte. now rewrite H. Qed.

Lemma reaches_frame host host' a t :
  (forall x, a <= x < a + 4 -> host' x = host x) ->
  reaches host a t -> reaches host' a t.
Proof.
  intros H (rel & Hr & Ht). exists rel. split; [|exact Ht].
  rewrite <- Hr. unfold parse_rel, parse_dword. cbn [Z.eqb Pos.eqb].
  rewrite !H by lia. reflexivity.
Qed.

Lemma jmp_field_frame host host' a t :
  (forall x, a - 1 <= x < a + 4 -> host' x = host x) ->
  jmp_field host a t -> jmp_field host' a t.
Proof.
  intros H [Hb Hr]. split.
  - rewrite <- Hb. apply parse_byte_frame, H. lia.
  - apply (reaches_frame host); [|exact Hr]. intros x Hx. apply H. lia.
Qed.

Lemma jcc_field_frame host host' cond a t :
  (forall x, a - 2 <= x < a + 4 -> host' x = host x) ->
  jcc_field host cond a t -> jcc_field host' cond a t.
Proof.
  intros H (Hb0 & Hb1 & Hr). split; [|split].
  - rewrite <- Hb0. apply parse_byte_frame, H. lia.
  - rewrite <- Hb1. apply parse_byte_frame, H. lia.
  - apply (reaches_frame host); [|exact Hr]. intros x Hx. apply H. lia.
Qed.

(** The store at the field of a branch makes that branch reach [bs]. *)
Lemma jmp_field_patched host a t bs :
  jmp_field host a t ->
  jmp_field (store_dword host a (wrap32 (sext 32 (wrap32 (bs - (a + 4))))))
    a bs.
Proof.
  intros [Hb _]. split; [|apply store_dword_reaches].
  rewrite <- Hb. apply parse_byte_frame, store_dword_other. lia.
Qed.

Lemma jcc_field_patched host cond a t bs :
  jcc_field host cond a t ->
  jcc_field (store_dword host a (wrap32 (sext 32 (wrap32 (bs - (a + 4))))))
    cond a bs.
Proof.
  intros (Hb0 & Hb1 & _). split; [|split; [|apply store_dword_reaches]].
  - rewrite <- Hb0. apply parse_byte_frame, store_dword_other. lia.
  - rewrite <- Hb1. apply parse_byte_frame, store_dword_other. lia.
Qed.

Lemma branch_field_patched host a t bs :
  branch_field host a t ->
  branch_field (store_dword host a (wrap32 (sext 32 (wrap32 (bs - (a + 4))))))
    a bs.
Proof.
  intros [H | (cond & Hc & H)].
  - left. eapply jmp_field_patched; exact H.
  - right. exists cond. split; [exact Hc|].
    eapply jcc_field_patched; exact H.
Qed.

Lemma jmp_field_other host a t pa v :
  pa + 4 <= a - 1 \/ a + 4 <= pa ->
  jmp_field host a t -> jmp_field (store_dword host pa v) a t.
Proof.
  intros H. apply jmp_field_frame. intros x Hx. apply store_dword_other. lia.
Qed.

Lemma jcc_field_other host cond a t pa v :
  pa + 4 <= a - 2 \/ a + 4 <= pa ->
  jcc_field host cond a t -> jcc_field (store_dword host pa v) cond a t.
Proof.
  intros H. apply jcc_field_frame. intros x Hx. apply store_dword_other. lia.
Qed.

Lemma get_trampoline_log resolver p pa d log t d' log' :
  get_trampoline resolver p pa d log = (t, d', log') ->
  exists stub,
    dbt_get_direct_trampoline resolver p pa d = (t, d', stub)
    /\ log' = log ++ [mk_trampoline_call p pa t stub].
Proof.
  unfold get_trampoline.
  destruct (dbt_get_direct_trampoline resolver p pa d) as [[t1 d1] stub].
  intros H; inversion H; subst. exists stub. auto.
Qed.

(** Lengths of emitted code, as numbers. *)
Ltac lens :=
  rewrite ?cursor_app in *; cbn [length] in *;
  rewrite ?length_dword_bytes in *;
  cbn [Z.of_nat Pos.of_succ_nat Pos.succ] in *.

Section BranchExtra.

Variable DBT_CACHE_BASE : Z.

Variable DBT_CACHE_SIZE : Z.

Variable MAX_DBT_BLOCKS : Z.

Variable translate_code : dbt_data -> Z -> Z -> option (Z * Z).

Variable translate_emit : dbt_data -> Z -> Z -> memory -> memory.

Variable dbt_find_direct_internal : Z.

Variable guest : memory.

Local Abbreviation dbt_find_next_cache :=
  (dbt_find_next_cache DBT_CACHE_BASE DBT_CACHE_SIZE MAX_DBT_BLOCKS
     translate_emit).

Local Abbreviation dbt_find_direct :=
  (dbt_find_direct DBT_CACHE_BASE DBT_CACHE_SIZE MAX_DBT_BLOCKS translate_code
     translate_emit).

Local Abbreviation translate := (translate_branch dbt_find_direct_internal guest).

Lemma dbt_find_direct_store cache p pa d bs cache' d' :
  dbt_find_direct cache p pa d = Some (bs, cache', d') ->
  cache' = patch_branch (dbt_find_next_cache cache p d) pa bs.
Proof.
  unfold DBT.dbt_find_direct.
  destruct (dbt_find_next _ _ _ _ p d) as [[b d1]|]; [|discriminate].
  intros H; inversion H; subst. reflexivity.
Qed.

Lemma dbt_find_next_cache_hit cache p d :
  find_block d p <> None -> dbt_find_next_cache cache p d = cache.
Proof.
  unfold DBT.dbt_find_next_cache, find_block. intros H.
  destruct (find_in_bucket (block_hash d (hash_block_pc p)) p);
    [reflexivity|now contradiction H].
Qed.

(** The layout of the output of the four cases: where the branches lie
    behind the old cursor [a]. *)
Lemma translate_branch_layout kind opcode imm_bytes code origin out d out' d'
    log host :
  translate kind opcode imm_bytes code origin out d = (out', d', log) ->
  match kind with INST_JCC cond => 0 <= cond < 16 | _ => True end ->
  0 <= origin -> cursor origin out' <= 2 ^ 32 ->
  holds host origin out' ->
  let a := cursor origin out in
  let rel := fst (parse_rel guest code imm_bytes) in
  let next := snd (parse_rel guest code imm_bytes) in
  match kind with
  | INST_JMP_DIRECT =>
    exists t stub,
      log = [mk_trampoline_call (branch_target next rel) (a + 1) t stub]
      /\ jmp_field host (a + 1) t /\ cursor origin out' = a + 5
  | INST_CALL_DIRECT =>
    exists t stub,
      log = [mk_trampoline_call (branch_target next rel) (a + 6) t stub]
      /\ parse_byte host a = (0x68, a + 1)
      /\ parse_dword host (a + 1) = (wrap32 next, a + 5)
      /\ jmp_field host (a + 6) t /\ cursor origin out' = a + 10
  | INST_JCC cond =>
    exists t0 stub0 t1 stub1,
      log = [mk_trampoline_call (branch_target next rel) (a + 2) t0 stub0;
             mk_trampoline_call next (a + 7) t1 stub1]
      /\ jcc_field host cond (a + 2) t0
      /\ jmp_field host (a + 7) t1 /\ cursor origin out' = a + 11
  | INST_JCC_REL8 =>
    exists t0 stub0 t1 stub1,
      log = [mk_trampoline_call (branch_target next rel) (a + 5) t0 stub0;
             mk_trampoline_call next (a + 10) t1 stub1]
      /\ parse_byte host a = (wrap8 opcode, a + 1)
      /\ parse_rel host (a + 1) 1 = (2, a + 2)
      /\ parse_byte host (a + 2) = (0xEB, a + 3)
      /\ parse_rel host (a + 3) 1 = (5, a + 4)
      /\ jmp_field host (a + 5) t0
      /\ jmp_field host (a + 10) t1 /\ cursor origin out' = a + 14
  end.
Proof.
  intros H Hcond Ho Hend Hm a rel next. subst rel next.
  assert (Ha : origin <= a) by (unfold a, cursor; lia).
  unfold translate_branch in H.
  destruct (parse_rel guest code imm_bytes) as [rel next]. cbn [fst snd].
  fold (branch_target next rel) in H.
  destruct kind as [| |cond|].
  - (* call *)
    rewrite gen_push_imm32_bytes in H.
    destruct (get_trampoline _ _ _ d []) as [[t d1] log1] eqn:E.
    apply get_trampoline_log in E. destruct E as (stub & _ & ->).
    inversion H; subst out' d' log; clear H.
    rewrite gen_jmp_bytes in *. lens. fold a in Hend, Hm |- *.
    rewrite wrap32_small by lia.
    rewrite <- app_assoc in Hm. apply holds_app in Hm. destruct Hm as [_ Hm].
    fold (cursor origin out) in Hm. fold a in Hm. cbn [app] in Hm.
    apply parse_byte_holds in Hm; [|lia]. destruct Hm as [Hb Hm].
    apply parse_dword_holds in Hm. destruct Hm as [Hd Hm].
    replace (a + 1 + 4) with (a + 5) in * by lia.
    apply jmp_bytes_at in Hm. destruct Hm as [Hj _].
    replace (a + 5 + 1) with (a + 6) in * by lia.
    exists t, stub. cbn [app]. split; [reflexivity|].
    split; [exact Hb|]. split; [exact Hd|]. split; [exact Hj|]. lia.
  - (* jmp *)
    destruct (get_trampoline _ _ _ d []) as [[t d1] log1] eqn:E.
    apply get_trampoline_log in E. destruct E as (stub & _ & ->).
    inversion H; subst out' d' log; clear H.
    rewrite gen_jmp_bytes in *. lens. fold a in Hend, Hm |- *.
    rewrite wrap32_small by lia.
    apply holds_app in Hm. destruct Hm as [_ Hm].
    fold (cursor origin out) in Hm. fold a in Hm.
    rewrite <- (app_nil_r (dword_bytes _)) in Hm.
    apply jmp_bytes_at in Hm. destruct Hm as [Hj _].
    exists t, stub. cbn [app]. split; [reflexivity|].
    split; [exact Hj|]. lia.
  - (* jcc *)
    destruct (get_trampoline _ _ _ d []) as [[t0 d0] log0] eqn:E0.
    apply get_trampoline_log in E0. destruct E0 as (stub0 & _ & ->).
    rewrite (gen_jcc_bytes origin out cond t0 Hcond) in H.
    destruct (get_trampoline _ _ _ d0 _) as [[t1 d1] log1] eqn:E1.
    apply get_trampoline_log in E1. destruct E1 as (stub1 & _ & ->).
    inversion H; subst out' d' log; clear H.
    rewrite gen_jmp_bytes in *. lens. fold a in Hend, Hm |- *.
    rewrite !wrap32_small by lia.
    rewrite <- app_assoc in Hm. apply holds_app in Hm. destruct Hm as [_ Hm].
    fold (cursor origin out) in Hm. fold a in Hm.
    rewrite <- !app_comm_cons in Hm.
    apply jcc_bytes_at in Hm; [|exact Hcond]. destruct Hm as [Hj0 Hm].
    rewrite <- (app_nil_r (dword_bytes _)) in Hm.
    apply jmp_bytes_at in Hm. destruct Hm as [Hj1 _].
    replace (a + 6 + 1) with (a + 7) in * by lia.
    exists t0, stub0, t1, stub1. cbn [app]. split; [reflexivity|].
    split; [exact Hj0|]. split; [exact Hj1|]. lia.
  - (* jcc rel8 *)
    unfold gen_byte in H. rewrite <- !app_assoc in H. cbn [app] in H.
    destruct (get_trampoline _ _ _ d []) as [[t0 d0] log0] eqn:E0.
    apply get_trampoline_log in E0. destruct E0 as (stub0 & _ & ->).
    rewrite gen_jmp_bytes in H.
    destruct (get_trampoline _ _ _ d0 _) as [[t1 d1] log1] eqn:E1.
    apply get_trampoline_log in E1. destruct E1 as (stub1 & _ & ->).
    inversion H; subst out' d' log; clear H.
    rewrite gen_jmp_bytes in *. lens. fold a in Hend, Hm |- *.
    rewrite !wrap32_small by lia.
    rewrite <- !app_assoc in Hm. apply holds_app in Hm.
    destruct Hm as [_ Hm]. fold (cursor origin out) in Hm. fold a in Hm.
    cbn [app] in Hm.
    apply parse_byte_holds in Hm; [|apply wrap8_range]. destruct Hm as [Hb0 Hm].
    apply parse_byte_holds in Hm; [|rewrite wrap8_small; lia].
    destruct Hm as [Hb1 Hm].
    apply parse_byte_holds in Hm; [|rewrite wrap8_small; lia].
    destruct Hm as [Hb2 Hm].
    apply parse_byte_holds in Hm; [|rewrite wrap8_small; lia].
    destruct Hm as [Hb3 Hm].
    rewrite wrap8_small in Hb1, Hb2, Hb3 by lia.
    replace (a + 1 + 1) with (a + 2) in * by lia.
    replace (a + 2 + 1) with (a + 3) in * by lia.
    replace (a + 3 + 1) with (a + 4) in * by lia.
    apply jmp_bytes_at in Hm. destruct Hm as [Hj0 Hm].
    replace (a + 4 + 5 + 5) with (a + 4 + 5 + 5) in Hm by lia.
    rewrite <- (app_nil_r (dword_bytes _)) in Hm.
    apply jmp_bytes_at in Hm. destruct Hm as [Hj1 _].
    replace (a + 4 + 1) with (a + 5) in * by lia.
    replace (a + 4 + 5 + 1) with (a + 10) in * by lia.
    exists t0, stub0, t1, stub1. cbn [app]. split; [reflexivity|].
    split; [exact Hb0|].
    split.
    { unfold parse_rel. cbn [Z.eqb Pos.eqb]. rewrite Hb1. reflexivity. }
    split; [exact Hb2|].
    split.
    { unfold parse_rel. cbn [Z.eqb Pos.eqb]. rewrite Hb3. reflexivity. }
    split; [exact Hj0|]. split; [exact Hj1|]. lia.
Qed.

Lemma jmp_branch host a t : jmp_field host a t -> branch_field host a t.
Proof. intros H. now left. Qed.

Lemma jcc_branch host cond a t :
  0 <= cond < 16 -> jcc_field host cond a t -> branch_field host a t.
Proof. intros Hc H. right. exists cond. auto. Qed.

Lemma jmp_branch_other host a t pa v :
  pa + 4 <= a - 1 \/ a + 4 <= pa ->
  jmp_field host a t -> branch_field (store_dword host pa v) a t.
Proof. intros H F. left. now apply jmp_field_other. Qed.

Lemma jcc_branch_other host cond a t pa v :
  0 <= cond < 16 ->
  pa + 4 <= a - 2 \/ a + 4 <= pa ->
  jcc_field host cond a t -> branch_field (store_dword host pa v) a t.
Proof. intros Hc H F. right. exists cond. split; [exact Hc|]. now apply jcc_field_other. Qed.

(** The branches of the four cases in the emitted code, and what a store
    of dbt_find_direct at one of their patch addresses does to them in any
    memory [host0] that has the bytes of the emitted code. *)
Lemma direct_branches_fields kind opcode imm_bytes code origin out d out' d'
    log host :
  translate kind opcode imm_bytes code origin out d = (out', d', log) ->
  match kind with INST_JCC cond => 0 <= cond < 16 | _ => True end ->
  0 <= origin -> cursor origin out' <= 2 ^ 32 ->
  holds host origin out' ->
  map tc_pc log
  = branch_dests kind (snd (parse_rel guest code imm_bytes))
      (fst (parse_rel guest code imm_bytes))
  /\ (exists c, In c log /\ tc_patch_addr c + 4 = cursor origin out'
                /\ jmp_field host (tc_patch_addr c) (tc_result c))
  /\ forall c, In c log ->
       cursor origin out < tc_patch_addr c
       /\ tc_patch_addr c + 4 <= cursor origin out'
       /\ branch_field host (tc_patch_addr c) (tc_result c)
       /\ forall host0 bs,
            (forall x, cursor origin out <= x < cursor origin out' ->
               host0 x = host x) ->
            branch_field (patch_branch host0 (tc_patch_addr c) bs)
              (tc_patch_addr c) bs
            /\ forall c', In c' log ->
                 tc_patch_addr c' <> tc_patch_addr c ->
                 branch_field (patch_branch host0 (tc_patch_addr c) bs)
                   (tc_patch_addr c') (tc_result c').
Proof.
  intros H Hcond Ho Hend Hm.
  pose proof (translate_branch_layout kind opcode imm_bytes code origin out d
                out' d' log host H Hcond Ho Hend Hm) as L.
  cbv zeta in L. set (a := cursor origin out) in *.
  destruct kind as [| |cond|].
  - destruct L as (t & stub & -> & _ & _ & Hj & Hc).
    split; [reflexivity|]. split.
    { eexists. split; [now left|]. cbn [tc_patch_addr tc_result].
      split; [lia|exact Hj]. }
    intros c [<- | []]. cbn [tc_patch_addr tc_result tc_pc].
    split; [lia|]. split; [lia|]. split; [now apply jmp_branch|].
    intros host0 bs Hfr. unfold patch_branch.
    apply (jmp_field_frame host host0) in Hj; [|intros; apply Hfr; lia].
    split; [eapply branch_field_patched; apply jmp_branch; eassumption|].
    intros c' [<- | []] Hne. now contradiction Hne.
  - destruct L as (t & stub & -> & Hj & Hc).
    split; [reflexivity|]. split.
    { eexists. split; [now left|]. cbn [tc_patch_addr tc_result].
      split; [lia|exact Hj]. }
    intros c [<- | []]. cbn [tc_patch_addr tc_result tc_pc].
    split; [lia|]. split; [lia|]. split; [now apply jmp_branch|].
    intros host0 bs Hfr. unfold patch_branch.
    apply (jmp_field_frame host host0) in Hj; [|intros; apply Hfr; lia].
    split; [eapply branch_field_patched; apply jmp_branch; eassumption|].
    intros c' [<- | []] Hne. now contradiction Hne.
  - destruct L as (t0 & stub0 & t1 & stub1 & -> & Hj0 & Hj1 & Hc).
    split; [reflexivity|]. split.
    { eexists. split; [right; now left|]. cbn [tc_patch_addr tc_result].
      split; [lia|exact Hj1]. }
    intros c [<- | [<- | []]]; cbn [tc_patch_addr tc_result tc_pc];
      (split; [lia|]); (split; [lia|]).
    + split; [now apply (jcc_branch host cond)|].
      intros host0 bs Hfr. unfold patch_branch.
      apply (jcc_field_frame host host0) in Hj0; [|intros; apply Hfr; lia].
      apply (jmp_field_frame host host0) in Hj1; [|intros; apply Hfr; lia].
      split; [eapply branch_field_patched; apply (jcc_branch host0 cond);
               eassumption|].
      intros c' [<- | [<- | []]] Hne; cbn [tc_patch_addr tc_result] in *;
        [now contradiction Hne|].
      apply jmp_branch_other; [lia|exact Hj1].
    + split; [now apply jmp_branch|].
      intros host0 bs Hfr. unfold patch_branch.
      apply (jcc_field_frame host host0) in Hj0; [|intros; apply Hfr; lia].
      apply (jmp_field_frame host host0) in Hj1; [|intros; apply Hfr; lia].
      split; [eapply branch_field_patched; apply jmp_branch; eassumption|].
      intros c' [<- | [<- | []]] Hne; cbn [tc_patch_addr tc_result] in *;
        [|now contradiction Hne].
      apply (jcc_branch_other host0 cond); [exact Hcond|lia|exact Hj0].
  - destruct L as (t0 & stub0 & t1 & stub1 & -> & _ & _ & _ & _ & Hj0 & Hj1
                   & Hc).
    split; [reflexivity|]. split.
    { eexists. split; [right; now left|]. cbn [tc_patch_addr tc_result].
      split; [lia|exact Hj1]. }
    intros c [<- | [<- | []]]; cbn [tc_patch_addr tc_result tc_pc];
      (split; [lia|]); (split; [lia|]).
    + split; [now apply jmp_branch|].
      intros host0 bs Hfr. unfold patch_branch.
      apply (jmp_field_frame host host0) in Hj0; [|intros; apply Hfr; lia].
      apply (jmp_field_frame host host0) in Hj1; [|intros; apply Hfr; lia].
      split; [eapply branch_field_patched; apply jmp_branch; eassumption|].
      intros c' [<- | [<- | []]] Hne; cbn [tc_patch_addr tc_result] in *;
        [now contradiction Hne|].
      apply jmp_branch_other; [lia|exact Hj1].
    + split; [now apply jmp_branch|].
      intros host0 bs Hfr. unfold patch_branch.
      apply (jmp_field_frame host host0) in Hj0; [|intros; apply Hfr; lia].
      apply (jmp_field_frame host host0) in Hj1; [|intros; apply Hfr; lia].
      split; [eapply branch_field_patched; apply jmp_branch; eassumption|].
      intros c' [<- | [<- | []]] Hne; cbn [tc_patch_addr tc_result] in *;
        [|now contradiction Hne].
      apply jmp_branch_other; [lia|exact Hj0].
Qed.

(** X24.  The four cases of dbt_translate for direct branches (call, jmp,
    jcc, and the rel8 loops) ask for one trampoline per guest destination:
    the target, and for a conditional branch the next instruction as well.
    Each patch address they pass is the displacement field of a jmp or jcc
    of the emitted code that reaches the address the trampoline call
    returned, and the block ends with such a jmp.  When dbt_find_direct
    later completes for that destination and patch address, the
    displacement at the patch address reaches the block start it returns;
    and when the destination was already translated, or the translation
    that dbt_find_direct ran left the bytes of these branches in the cache
    as they were, the patched field is still that of the same jmp or jcc
    and the other branch of the instruction still reaches what it
    reached. *)
Theorem direct_branches_chain (kind : direct_branch)
    (opcode imm_bytes code origin : Z) (out : list Z) (d : dbt_data)
    (out' : list Z) (d' : dbt_data) (log : list trampoline_call)
    (host : memory) :
  translate kind opcode imm_bytes code origin out d = (out', d', log) ->
  match kind with INST_JCC cond => 0 <= cond < 16 | _ => True end ->
  0 <= origin -> cursor origin out' <= 2 ^ 32 ->
  holds host origin out' ->
  map tc_pc log
  = branch_dests kind (snd (parse_rel guest code imm_bytes))
      (fst (parse_rel guest code imm_bytes))
  /\ (exists c, In c log /\ tc_patch_addr c + 4 = cursor origin out'
                /\ jmp_field host (tc_patch_addr c) (tc_result c))
  /\ forall c, In c log ->
       cursor origin out < tc_patch_addr c
       /\ tc_patch_addr c + 4 <= cursor origin out'
       /\ branch_field host (tc_patch_addr c) (tc_result c)
       /\ forall d2 bs cache' d3,
            dbt_find_direct host (tc_pc c) (tc_patch_addr c) d2
            = Some (bs, cache', d3) ->
            reaches cache' (tc_patch_addr c) bs
            /\ (find_block d2 (tc_pc c) <> None
                \/ (forall x, cursor origin out <= x < cursor origin out' ->
                      dbt_find_next_cache host (tc_pc c) d2 x = host x) ->
                branch_field cache' (tc_patch_addr c) bs
                /\ forall c', In c' log ->
                     tc_patch_addr c' <> tc_patch_addr c ->
                     branch_field cache' (tc_patch_addr c') (tc_result c')).
Proof.
  intros H Hcond Ho Hend Hm.
  destruct (direct_branches_fields kind opcode imm_bytes code origin out d
              out' d' log host H Hcond Ho Hend Hm) as (Hd & He & Hc).
  split; [exact Hd|]. split; [exact He|].
  intros c Hin. destruct (Hc c Hin) as (H1 & H2 & H3 & H4).
  split; [exact H1|]. split; [exact H2|]. split; [exact H3|].
  intros d2 bs cache' d3 Hfd. apply dbt_find_direct_store in Hfd.
  subst cache'. split; [apply store_dword_reaches|].
  intros Hfr. apply H4. intros x Hx.
  destruct Hfr as [Hhit | Hfr]; [|now apply Hfr].
  now rewrite dbt_find_next_cache_hit.
Qed.

(** X25.  The code the four cases emit.  A direct call first pushes the
    guest address of the instruction behind the call, then jumps.  A jcc
    becomes jcc to the trampoline of the target followed by a jmp to that
    of the next instruction.  A rel8 loop keeps its opcode with
    displacement 2, which lands on the jmp for the target, followed by a
    short jmp with displacement 5, which lands on the jmp for the next
    instruction. *)
Theorem direct_branch_code (kind : direct_branch)
    (opcode imm_bytes code origin : Z) (out : list Z) (d : dbt_data)
    (out' : list Z) (d' : dbt_data) (log : list trampoline_call)
    (host : memory) :
  translate kind opcode imm_bytes code origin out d = (out', d', log) ->
  match kind with INST_JCC cond => 0 <= cond < 16 | _ => True end ->
  0 <= origin -> cursor origin out' <= 2 ^ 32 ->
  holds host origin out' ->
  let a := cursor origin out in
  let next := snd (parse_rel guest code imm_bytes) in
  match kind with
  | INST_CALL_DIRECT =>
    parse_byte host a = (0x68, a + 1)
    /\ parse_dword host (a + 1) = (wrap32 next, a + 5)
    /\ exists c, log = [c] /\ jmp_field host (a + 5 + 1) (tc_result c)
                 /\ cursor origin out' = a + 10
  | INST_JMP_DIRECT =>
    exists c, log = [c] /\ jmp_field host (a + 1) (tc_result c)
              /\ cursor origin out' = a + 5
  | INST_JCC cond =>
    exists c0 c1, log = [c0; c1]
      /\ jcc_field host cond (a + 2) (tc_result c0)
      /\ jmp_field host (a + 6 + 1) (tc_result c1)
      /\ cursor origin out' = a + 11
  | INST_JCC_REL8 =>
    exists c0 c1 taken skip, log = [c0; c1]
      /\ parse_byte host a = (wrap8 opcode, a + 1)
      /\ parse_rel host (a + 1) 1 = (taken, a + 2)
      /\ jmp_field host (branch_target (a + 2) taken + 1) (tc_result c0)
      /\ parse_byte host (a + 2) = (0xEB, a + 3)
      /\ parse_rel host (a + 3) 1 = (skip, a + 4)
      /\ jmp_field host (branch_target (a + 4) skip + 1) (tc_result c1)
      /\ cursor origin out' = a + 14
  end.
Proof.
  intros H Hcond Ho Hend Hm a next.
  pose proof (translate_branch_layout kind opcode imm_bytes code origin out d
                out' d' log host H Hcond Ho Hend Hm) as L.
  cbv zeta in L. fold a in L. fold next in L.
  assert (Ha : 0 <= a) by (unfold a, cursor; lia).
  destruct kind as [| |cond|].
  - destruct L as (t & stub & -> & Hb & Hd & Hj & Hc).
    split; [exact Hb|]. split; [exact Hd|]. eexists. split; [reflexivity|].
    cbn [tc_result]. replace (a + 5 + 1) with (a + 6) by lia. auto.
  - destruct L as (t & stub & -> & Hj & Hc).
    eexists. split; [reflexivity|]. cbn [tc_result]. auto.
  - destruct L as (t0 & stub0 & t1 & stub1 & -> & Hj0 & Hj1 & Hc).
    do 2 eexists. split; [reflexivity|]. cbn [tc_result].
    replace (a + 6 + 1) with (a + 7) by lia. auto.
  - destruct L as (t0 & stub0 & t1 & stub1 & -> & Hb0 & Hr0 & Hb1 & Hr1 & Hj0
                   & Hj1 & Hc).
    exists (mk_trampoline_call (branch_target next
                                  (fst (parse_rel guest code imm_bytes)))
              (a + 5) t0 stub0),
           (mk_trampoline_call next (a + 10) t1 stub1), 2, 5.
    cbn [tc_result].
    assert (Hend' : a + 14 <= 2 ^ 32) by lia.
    assert (B0 : branch_target (a + 2) 2 = a + 4)
      by (unfold branch_target; rewrite wrap32_small by lia; lia).
    assert (B1 : branch_target (a + 4) 5 = a + 9)
      by (unfold branch_target; rewrite wrap32_small by lia; lia).
    rewrite B0, B1.
    replace (a + 4 + 1) with (a + 5) by lia.
    replace (a + 9 + 1) with (a + 10) by lia.
    repeat match goal with |- _ /\ _ => split end; auto.
Qed.

End BranchExtra.

Lemma direct_branches_chain_witness :
  let translate_code := fun (d : dbt_data) (p start_ : Z) =>
                          Some (start_ + 32, end_ d - 16) in
  let translate_emit :=
    fun (d : dbt_data) (p start_ : Z) (m : memory) (x : Z) =>
      if (start_ <=? x) && (x <? start_ + 32) then 0x90 else m x in
  let guest := mem_of 0x10000 [0x10; 0; 0; 0] in
  let d := dbt_init 0x71000000 0x100000 0 0 0 in
  let r := translate_branch 0x6000 guest (INST_JCC 4) 0x84 4 0x10000
             0x71000000 [] d in
  let log := snd r in
  let host := mem_of 0x71000000 (fst (fst r)) in
  map tc_pc log = [0x10014; 0x10004]
  /\ forall c, In c log ->
       branch_field host (tc_patch_addr c) (tc_result c)
       /\ forall d2 bs cache' d3,
            dbt_find_direct 0x71000000 0x100000 1024 translate_code
              translate_emit host (tc_pc c) (tc_patch_addr c) d2
            = Some (bs, cache', d3) ->
            reaches cache' (tc_patch_addr c) bs
            /\ (find_block d2 (tc_pc c) <> None ->
                branch_field cache' (tc_patch_addr c) bs).
Proof.
  intros translate_code translate_emit guest d r log host.
  destruct (direct_branches_chain 0x71000000 0x100000 1024 translate_code
              translate_emit 0x6000 guest (INST_JCC 4) 0x84 4 0x10000
              0x71000000 [] d (fst (fst r)) (snd (fst r)) log host)
    as (Hd & _ & Hc).
  - reflexivity.
  - lia.
  - lia.
  - vm_compute. discriminate.
  - apply holds_mem_of.
  - split; [exact Hd|]. intros c Hin.
    destruct (Hc c Hin) as (_ & _ & Hf & Hp). split; [exact Hf|].
    intros d2 bs cache' d3 Hfd.
    destruct (Hp d2 bs cache' d3 Hfd) as (Hr & Hb).
    split; [exact Hr|]. intros Hhit. apply Hb. now left.
Defined.

Lemma direct_branch_code_witness :
  let guest := mem_of 0x10000 [0x10; 0; 0; 0] in
  let d := dbt_init 0x71000000 0x100000 0 0 0 in
  let r := translate_branch 0x6000 guest INST_CALL_DIRECT 0xE8 4 0x10000
             0x71000000 [] d in
  let host := mem_of 0x71000000 (fst (fst r)) in
  parse_byte host 0x71000000 = (0x68, 0x71000001)
  /\ parse_dword host 0x71000001 = (0x10004, 0x71000005)
  /\ exists c, snd r = [c] /\ jmp_field host 0x71000006 (tc_result c).
Proof.
  intros guest d r host.
  destruct (direct_branch_code 0x6000 guest INST_CALL_DIRECT 0xE8 4 0x10000
              0x71000000 [] d (fst (fst r)) (snd (fst r)) (snd r) host)
    as (Hb & Hd & c & Hl & Hj & _).
  - reflexivity.
  - exact I.
  - lia.
  - vm_compute. discriminate.
  - apply holds_mem_of.
  - split; [exact Hb|]. split; [exact Hd|]. exists c. split; [exact Hl|].
    exact Hj.
Defined.

End DBTExtra.
